(** * A shallow embedding of the CS350 bounding volume hierarchy

    The development follows [src/bvh.hpp] and [src/bvh.inl]:
    the intrusive node ([Bvh<T>::Node]), the two builders
    ([BuildTopDown], [Insert]), [Clear], and the two queries
    ([Query], [QueryDebug]).

    Memory is explicit: nodes and objects live in two finite maps indexed
    by addresses, a null pointer is [None], and dereferencing a null or
    dangling pointer is undefined behaviour ([UB]).  Loops and recursion
    over the heap take a fuel argument; the theorems give the amount of
    fuel that is enough.

    [float] is idealised as the exact rationals [Q]: rounding, NaN and
    infinities are out of the model, except where a size is converted to
    [float] ([float_of_size]), which rounds as the machine does.
    [unsigned] is [Z] with the wrap-around written out.  [int] is [Z];
    the overflow of the sums of [Node::Size] and of the index of [Insert],
    and the conversion of the split index, are undefined behaviour when
    they leave the range of [int].  The result of [Node::Depth] is below
    the number of nodes it has walked over and is kept in [Z] as it is. *)

From Stdlib Require Import ZArith QArith Lqa Lia List Permutation.
From stdpp Require Import gmap list.

(** ** Machine integers *)

Definition UINT_MAX : Z := 4294967295.
Definition INT_MAX : Z := 2147483647.

(** [unsigned] arithmetic is modulo 2^32. *)
Definition wrap32 (z : Z) : Z := (z mod 4294967296)%Z.

(** [static_cast<int>(unsigned)]: values above [INT_MAX] come out negative. *)
Definition to_int (z : Z) : Z :=
  let w := wrap32 z in if (w <=? INT_MAX)%Z then w else (w - 4294967296)%Z.

(** ** Floats, idealised, and the glm helpers *)

Definition Qltb (a b : Q) : bool := negb (Qle_bool b a).

(** [glm::max(x, y)] is [(x < y) ? y : x]; [glm::min(x, y)] is [(y < x) ? y : x]. *)
Definition fmax (x y : Q) : Q := if Qltb x y then y else x.
Definition fmin (x y : Q) : Q := if Qltb y x then y else x.

Record vec3 : Type := Vec3 { vx : Q; vy : Q; vz : Q }.

Definition vmax (a b : vec3) : vec3 :=
  Vec3 (fmax (vx a) (vx b)) (fmax (vy a) (vy b)) (fmax (vz a) (vz b)).
Definition vmin (a b : vec3) : vec3 :=
  Vec3 (fmin (vx a) (vx b)) (fmin (vy a) (vy b)) (fmin (vz a) (vz b)).

(** [v[axis]] *)
Definition vidx (v : vec3) (axis : Z) : Q :=
  if (axis =? 0)%Z then vx v else if (axis =? 1)%Z then vy v else vz v.

Definition FLT_MAX : Q := (340282346638528859811704183484516925440 # 1)%Q.
(** [constexpr float cEpsilon3 = 1e-3f]: the float nearest to 1/1000. *)
Definition cEpsilon3 : Q := (8589935 # 8589934592)%Q.

(** [static_cast<float>(n)] for a size [n]: a float has a significand of
    24 bits, so a size below 2^24 is kept and a larger one is rounded to
    the nearest multiple of [2^e], where [e] is the number of bits beyond
    24, ties going to the even significand. *)
Definition float_of_size (n : Z) : Z :=
  let e := (Z.log2 n - 23)%Z in
  if (e <=? 0)%Z then n else
  let q := Z.shiftr n e in
  let r := (n - Z.shiftl q e)%Z in
  let half := Z.shiftl 1 (e - 1) in
  let q := if (half <? r)%Z || ((r =? half)%Z && Z.odd q) then (q + 1)%Z else q in
  Z.shiftl q e.

(** ** Geometry: [shapes.hpp] is not part of the sources *)

Record Aabb : Type := mkAabb { bmin : vec3; bmax : vec3 }.

(** Modelled from the spec: [Aabb(a, b)], the merge constructor that
    [shapes.hpp] declares, "producing the elementwise
    (min(a.min,b.min), max(a.max,b.max))". *)
Definition Aabb_merge (a b : Aabb) : Aabb :=
  mkAabb (vmin (bmin a) (bmin b)) (vmax (bmax a) (bmax b)).

(** Modelled from the spec: [Aabb::volume] of [shapes.hpp], the product of
    the three extents [max - min]. *)
Definition volume (a : Aabb) : Q :=
  ((vx (bmax a) - vx (bmin a)) * (vy (bmax a) - vy (bmin a)) * (vz (bmax a) - vz (bmin a)))%Q.

(** Modelled from the spec: [Aabb::longest_axis] of [shapes.hpp], the "index
    of largest extent (tie-break: prefer lower-index axis)". *)
Definition longest_axis (a : Aabb) : Z :=
  let ex := (vx (bmax a) - vx (bmin a))%Q in
  let ey := (vy (bmax a) - vy (bmin a))%Q in
  let ez := (vz (bmax a) - vz (bmin a))%Q in
  if Qle_bool ey ex && Qle_bool ez ex then 0%Z
  else if Qle_bool ez ey then 1%Z else 2%Z.

(** Modelled from the spec: [Aabb::get_center] of [shapes.hpp], the midpoint
    of [min] and [max]. *)
Definition get_center (a : Aabb) : vec3 :=
  Vec3 ((vx (bmin a) + vx (bmax a)) * (1 # 2))%Q
       ((vy (bmin a) + vy (bmax a)) * (1 # 2))%Q
       ((vz (bmin a) + vz (bmax a)) * (1 # 2))%Q.

Inductive SideResult : Type := eINSIDE | eINTERSECTING | eOUTSIDE.

Definition SideResult_eqb (a b : SideResult) : bool :=
  match a, b with
  | eINSIDE, eINSIDE | eINTERSECTING, eINTERSECTING | eOUTSIDE, eOUTSIDE => true
  | _, _ => false
  end.

(** Componentwise enclosure, as the test harness asserts it
    ([parentBv.min <= childBv.min], [parentBv.max >= childBv.max]). *)
Definition vle (a b : vec3) : Prop :=
  (vx a <= vx b)%Q /\ (vy a <= vy b)%Q /\ (vz a <= vz b)%Q.
Definition encloses (outer inner : Aabb) : Prop :=
  vle (bmin outer) (bmin inner) /\ vle (bmax inner) (bmax outer).

Definition vleb (a b : vec3) : bool :=
  Qle_bool (vx a) (vx b) && Qle_bool (vy a) (vy b) && Qle_bool (vz a) (vz b).
Definition enclosesb (outer inner : Aabb) : bool :=
  vleb (bmin outer) (bmin inner) && vleb (bmax inner) (bmax outer).

(** ** The heap: objects, nodes, the tree object *)

(** Addresses of objects ([optr]) and of nodes ([nptr]). *)
Abbreviation optr := nat (only parsing).
Abbreviation nptr := nat (only parsing).

(** [T] is the handle type of [Bvh<T>], a pointer to an object or null. *)
Abbreviation T := (option nat) (only parsing).

Record BvhInfo : Type := mkBvhInfo {
  next : T;
  prev : T;
  node : option nptr }.

Record Object : Type := mkObject {
  obj_id : Z;
  obj_bv : Aabb;
  bvhInfo : BvhInfo }.

Record Node : Type := mkNode {
  bv : Aabb;
  children : option nptr * option nptr;
  firstObject : T;
  lastObject : T }.

Record BvhBuildConfig : Type := mkConfig {
  maxDepth : Z;
  minObjects : Z;
  minVolume : Q }.

(** The defaults of [struct BvhBuildConfig]. *)
Definition default_config : BvhBuildConfig := mkConfig UINT_MAX 10%Z 0%Q.

Record State : Type := mkState {
  nodes : gmap nat Node;
  objects : gmap nat Object;
  next_node : nptr;
  mRoot : option nptr;
  mObjectCount : Z }.

(** ** Results: a value, undefined behaviour, a thrown
    [std::runtime_error], or fuel exhausted *)

Inductive Res (A : Type) : Type :=
| Ok (a : A)
| UB
| Throw
| OutOfFuel.
Arguments Ok {A} a.
Arguments UB {A}.
Arguments Throw {A}.
Arguments OutOfFuel {A}.

Definition bindR {A B : Type} (e : Res A) (k : A -> Res B) : Res B :=
  match e with
  | Ok a => k a
  | UB => UB
  | Throw => Throw
  | OutOfFuel => OutOfFuel
  end.

Notation "x <- e ;; k" := (bindR e (fun x => k))
  (at level 100, e at next level, right associativity).

(** *** Field updates *)

Definition set_next (v : T) (o : Object) : Object :=
  mkObject (obj_id o) (obj_bv o) (mkBvhInfo v (prev (bvhInfo o)) (node (bvhInfo o))).
Definition set_prev (v : T) (o : Object) : Object :=
  mkObject (obj_id o) (obj_bv o) (mkBvhInfo (next (bvhInfo o)) v (node (bvhInfo o))).
Definition set_node (v : option nptr) (o : Object) : Object :=
  mkObject (obj_id o) (obj_bv o) (mkBvhInfo (next (bvhInfo o)) (prev (bvhInfo o)) v).

Definition set_bv (b : Aabb) (n : Node) : Node :=
  mkNode b (children n) (firstObject n) (lastObject n).
Definition set_firstObject (v : T) (n : Node) : Node :=
  mkNode (bv n) (children n) v (lastObject n).
Definition set_lastObject (v : T) (n : Node) : Node :=
  mkNode (bv n) (children n) (firstObject n) v.

(** [children[k]] for [k] in {0, 1}. *)
Definition child (n : Node) (k : Z) : option nptr :=
  if (k =? 0)%Z then fst (children n) else snd (children n).
Definition set_child (k : Z) (v : option nptr) (n : Node) : Node :=
  mkNode (bv n)
         (if (k =? 0)%Z then (v, snd (children n)) else (fst (children n), v))
         (firstObject n) (lastObject n).

Definition with_nodes (f : gmap nat Node -> gmap nat Node) (s : State) : State :=
  mkState (f (nodes s)) (objects s) (next_node s) (mRoot s) (mObjectCount s).
Definition with_objects (f : gmap nat Object -> gmap nat Object) (s : State) : State :=
  mkState (nodes s) (f (objects s)) (next_node s) (mRoot s) (mObjectCount s).
Definition with_mRoot (r : option nptr) (s : State) : State :=
  mkState (nodes s) (objects s) (next_node s) r (mObjectCount s).
Definition with_mObjectCount (c : Z) (s : State) : State :=
  mkState (nodes s) (objects s) (next_node s) (mRoot s) c.

(** *** Loads and stores through pointers *)

Definition get_obj (s : State) (p : T) : Res Object :=
  match p with
  | None => UB
  | Some a => match objects s !! a with Some o => Ok o | None => UB end
  end.

Definition upd_obj (p : T) (f : Object -> Object) (s : State) : Res State :=
  match p with
  | None => UB
  | Some a =>
      match objects s !! a with
      | Some o => Ok (with_objects (insert a (f o)) s)
      | None => UB
      end
  end.

Definition get_node (s : State) (p : option nptr) : Res Node :=
  match p with
  | None => UB
  | Some a => match nodes s !! a with Some n => Ok n | None => UB end
  end.

Definition upd_node (p : option nptr) (f : Node -> Node) (s : State) : Res State :=
  match p with
  | None => UB
  | Some a =>
      match nodes s !! a with
      | Some n => Ok (with_nodes (insert a (f n)) s)
      | None => UB
      end
  end.

(** [new Node(boundingVolume)]: a fresh address, children and list null. *)
Definition new_Node (b : Aabb) (s : State) : nptr * State :=
  let p := next_node s in
  (p, mkState (<[p := mkNode b (None, None) None None]> (nodes s)) (objects s)
              (S p) (mRoot s) (mObjectCount s)).

(** [delete node] *)
Definition delete_Node (p : option nptr) (s : State) : Res State :=
  match p with
  | None => Ok s
  | Some a =>
      match nodes s !! a with
      | Some _ => Ok (with_nodes (delete a) s)
      | None => UB
      end
  end.

(** ** [Bvh<T>::Node] *)

(** [Node::AddObject], statement by statement. *)
Definition AddObject (this : nptr) (object : T) (s : State) : Res State :=
  o <- get_obj s object ;;
  if decide (node (bvhInfo o) = Some this) then Ok s else
  s <- match node (bvhInfo o) with
       | Some _ =>
           s <- match prev (bvhInfo o) with
                | Some _ =>
                    s <- upd_obj (prev (bvhInfo o)) (set_next (next (bvhInfo o))) s ;;
                    upd_obj object (set_prev None) s
                | None => Ok s
                end ;;
           o <- get_obj s object ;;
           match next (bvhInfo o) with
           | Some _ =>
               s <- upd_obj (next (bvhInfo o)) (set_prev (prev (bvhInfo o))) s ;;
               upd_obj object (set_next None) s
           | None => Ok s
           end
       | None => Ok s
       end ;;
  n <- get_node s (Some this) ;;
  s <- match firstObject n with
       | None => upd_node (Some this) (set_firstObject object) s
       | Some _ => Ok s
       end ;;
  n <- get_node s (Some this) ;;
  s <- upd_obj object (set_prev (lastObject n)) s ;;
  s <- upd_obj object (set_next None) s ;;
  s <- upd_obj object (set_node (Some this)) s ;;
  n <- get_node s (Some this) ;;
  s <- match lastObject n with
       | Some _ => upd_obj (lastObject n) (set_next object) s
       | None => Ok s
       end ;;
  upd_node (Some this) (set_lastObject object) s.

(** [Node::IsLeaf]: only [children[0]] is looked at. *)
Definition IsLeaf (n : Node) : bool :=
  match child n 0 with Some _ => false | None => true end.

(** [Node::Depth]; a missing child counts 0. *)
Fixpoint Node_Depth (fuel : nat) (s : State) (p : option nptr) : Res Z :=
  match fuel with
  | O => OutOfFuel
  | S fuel =>
      n <- get_node s p ;;
      if IsLeaf n then Ok 0%Z else
      child0Depth <- match child n 0 with
                     | Some _ => Node_Depth fuel s (child n 0)
                     | None => Ok 0%Z
                     end ;;
      child1Depth <- match child n 1 with
                     | Some _ => Node_Depth fuel s (child n 1)
                     | None => Ok 0%Z
                     end ;;
      Ok (1 + Z.max child0Depth child1Depth)%Z
  end.

(** [Node::Size]; both children are dereferenced when the node is not a
    leaf, and [count] is an [int]: a sum beyond [INT_MAX] overflows. *)
Fixpoint Node_Size (fuel : nat) (s : State) (p : option nptr) : Res Z :=
  match fuel with
  | O => OutOfFuel
  | S fuel =>
      n <- get_node s p ;;
      if IsLeaf n then Ok 1%Z else
      let count := 1%Z in
      c0 <- Node_Size fuel s (child n 0) ;;
      if (INT_MAX <? count + c0)%Z then UB else
      let count := (count + c0)%Z in
      c1 <- Node_Size fuel s (child n 1) ;;
      if (INT_MAX <? count + c1)%Z then UB else
      Ok (count + c1)%Z
  end.

(** The walk of [Node::ObjectCount]: follow [next] from [object]. *)
Fixpoint count_objects (fuel : nat) (s : State) (object : T) (count : Z) : Res Z :=
  match object with
  | None => Ok count
  | Some _ =>
      match fuel with
      | O => OutOfFuel
      | S fuel =>
          o <- get_obj s object ;;
          count_objects fuel s (next (bvhInfo o)) (wrap32 (count + 1))
      end
  end.

Definition ObjectCount (fuel : nat) (s : State) (this : option nptr) : Res Z :=
  n <- get_node s this ;;
  count_objects fuel s (firstObject n) 0%Z.

(** [Node::TraverseLevelOrder(func)].  The state threaded through is the
    heap together with whatever the lambda captures by reference. *)
Fixpoint TraverseLevelOrder_loop {X : Type}
    (func : nptr -> State * X -> Res (State * X))
    (fuel : nat) (queue : list nptr) (sx : State * X) : Res (State * X) :=
  match queue with
  | [] => Ok sx
  | front :: queue =>
      match fuel with
      | O => OutOfFuel
      | S fuel =>
          n <- get_node (fst sx) (Some front) ;;
          let queue := match child n 0 with Some c => queue ++ [c] | None => queue end in
          let queue := match child n 1 with Some c => queue ++ [c] | None => queue end in
          sx <- func front sx ;;
          TraverseLevelOrder_loop func fuel queue sx
      end
  end.

Definition Node_TraverseLevelOrder {X : Type}
    (func : nptr -> State * X -> Res (State * X))
    (fuel : nat) (this : nptr) (sx : State * X) : Res (State * X) :=
  TraverseLevelOrder_loop func fuel [this] sx.

(** The inner loop of [TraverseLevelOrderObjects]: [next] is read before
    [func] runs. *)
Fixpoint walk_objects {X : Type}
    (func : T -> State * X -> Res (State * X))
    (fuel : nat) (object : T) (sx : State * X) : Res (State * X) :=
  match object with
  | None => Ok sx
  | Some _ =>
      match fuel with
      | O => OutOfFuel
      | S fuel =>
          o <- get_obj (fst sx) object ;;
          let nxt := next (bvhInfo o) in
          sx <- func object sx ;;
          walk_objects func fuel nxt sx
      end
  end.

Fixpoint TraverseLevelOrderObjects_loop {X : Type}
    (func : T -> State * X -> Res (State * X))
    (F fuel : nat) (queue : list nptr) (sx : State * X) : Res (State * X) :=
  match queue with
  | [] => Ok sx
  | front :: queue =>
      match fuel with
      | O => OutOfFuel
      | S fuel =>
          n <- get_node (fst sx) (Some front) ;;
          let queue := match child n 0 with Some c => queue ++ [c] | None => queue end in
          let queue := match child n 1 with Some c => queue ++ [c] | None => queue end in
          if negb (IsLeaf n) then TraverseLevelOrderObjects_loop func F fuel queue sx
          else
            sx <- walk_objects func F (firstObject n) sx ;;
            TraverseLevelOrderObjects_loop func F fuel queue sx
      end
  end.

Definition Node_TraverseLevelOrderObjects {X : Type}
    (func : T -> State * X -> Res (State * X))
    (F : nat) (this : nptr) (sx : State * X) : Res (State * X) :=
  TraverseLevelOrderObjects_loop func F F [this] sx.

(** ** [Bvh<T>]: construction *)

(** [Bvh<T>::Bvh()] over a given memory. *)
Definition Bvh_new (ns : gmap nat Node) (os : gmap nat Object) (fresh : nptr) : State :=
  mkState ns os fresh None 0%Z.

(** The first loop of [BuildTopDown]: bounding box and count of
    [begin + 1 .. end]. *)
Fixpoint bounding_pass (s : State) (range : list T)
    (maxPoint minPoint : vec3) (countObject : Z) : Res (vec3 * vec3 * Z) :=
  match range with
  | [] => Ok (maxPoint, minPoint, countObject)
  | it :: range =>
      o <- get_obj s it ;;
      bounding_pass s range (vmax maxPoint (bmax (obj_bv o)))
                    (vmin minPoint (bmin (obj_bv o))) (wrap32 (countObject + 1))
  end.

(** The key the sort lambda compares: [o->bv.get_center()[axis]]. *)
Definition center_key (s : State) (axis : Z) (o : T) : Q :=
  match get_obj s o with
  | Ok ob => vidx (get_center (obj_bv ob)) axis
  | _ => 0%Q
  end.

(** [std::sort] with the lambda [lhs.key < rhs.key].  The order of
    equivalent elements is unspecified in C++; the model is the stable
    insertion sort. *)
Fixpoint sort_insert (key : T -> Q) (x : T) (l : list T) : list T :=
  match l with
  | [] => [x]
  | y :: l' => if Qltb (key y) (key x) then y :: sort_insert key x l' else x :: y :: l'
  end.

Fixpoint sort_by (key : T -> Q) (l : list T) : list T :=
  match l with
  | [] => []
  | x :: l' => sort_insert key x (sort_by key l')
  end.

(** [static_cast<int>(static_cast<float>(n) * 0.5f)]: halving a float is
    exact, the conversion to [int] drops the fraction, and a value beyond
    [INT_MAX] has no conversion. *)
Definition half_size (n : nat) : Res nat :=
  let h := (float_of_size (Z.of_nat n) / 2)%Z in
  if (h <=? INT_MAX)%Z then Ok (Z.to_nat h) else UB.

(** The loop calling [workingNode->AddObject] on every element of the range. *)
Fixpoint add_objects (this : nptr) (range : list T) (s : State) : Res State :=
  match range with
  | [] => Ok s
  | it :: range => s <- AddObject this it s ;; add_objects this range s
  end.

(** [Bvh<T>::BuildTopDown(begin, end, config, parentNode)] *)
Fixpoint BuildTopDown_rec (F fuel : nat) (range : list T) (config : BvhBuildConfig)
    (parentNode : option nptr) (s : State) : Res State :=
  match range with
  | [] => Ok s
  | None :: _ => Ok s
  | Some b :: rest =>
      match fuel with
      | O => OutOfFuel
      | S fuel =>
          first <- get_obj s (Some b) ;;
          r <- bounding_pass s rest (bmax (obj_bv first)) (bmin (obj_bv first)) 1%Z ;;
          let maxPoint := fst (fst r) in
          let minPoint := snd (fst r) in
          let countObject := snd r in
          let objects := range in
          let ws := new_Node (mkAabb minPoint maxPoint) s in
          let workingNode := fst ws in
          let s := snd ws in
          s <- match parentNode with
               | Some _ =>
                   pn <- get_node s parentNode ;;
                   match child pn 0 with
                   | None => upd_node parentNode (set_child 0 (Some workingNode)) s
                   | Some _ =>
                       match child pn 1 with
                       | None => upd_node parentNode (set_child 1 (Some workingNode)) s
                       | Some _ => _ <- delete_Node (Some workingNode) s ;; Throw
                       end
                   end
               | None => Ok (with_mRoot (Some workingNode) s)
               end ;;
          let s := if decide (Some workingNode = mRoot s)
                   then with_mObjectCount countObject s else s in
          d <- Node_Depth F s (mRoot s) ;;
          let currentDepth := wrap32 d in
          wn <- get_node s (Some workingNode) ;;
          if (countObject <=? minObjects config)%Z
             || Qle_bool (volume (bv wn)) (minVolume config)
             || (maxDepth config <=? currentDepth)%Z
          then
            first <- get_obj s (Some b) ;;
            s <- match node (bvhInfo first) with
                 | Some _ =>
                     s <- upd_node (node (bvhInfo first)) (set_firstObject None) s ;;
                     upd_node (node (bvhInfo first)) (set_lastObject None) s
                 | None => Ok s
                 end ;;
            add_objects workingNode range s
          else
            let axis := longest_axis (bv wn) in
            let objects := sort_by (center_key s axis) objects in
            splitIndex <- half_size (length objects) ;;
            let split1 := take splitIndex objects in
            let split2 := drop splitIndex objects in
            s <- BuildTopDown_rec F fuel split1 config (Some workingNode) s ;;
            BuildTopDown_rec F fuel split2 config (Some workingNode) s
      end
  end.

Definition BuildTopDown (F : nat) (range : list T) (config : BvhBuildConfig)
    (parentNode : option nptr) (s : State) : Res State :=
  BuildTopDown_rec F F range config parentNode s.

(** [Bvh<T>::NodeCosts] and its constructor. *)
Record NodeCosts : Type := mkNodeCosts {
  nc_node : option nptr;
  rootToNewParentCost : Q;
  rootToNodeCost : Q;
  level : Z;
  newAabb : Aabb;
  newGeometrics : Q;
  newGeometricsChange : Q }.

Definition NodeCosts_new (s : State) (_node : option nptr) (object : T)
    (costToNode : Q) (_level : Z) : Res NodeCosts :=
  n <- get_node s _node ;;
  o <- get_obj s object ;;
  let na := Aabb_merge (bv n) (obj_bv o) in
  let ng := volume na in
  let ngc := (ng - volume (bv n))%Q in
  Ok (mkNodeCosts _node (ng + costToNode)%Q (costToNode + ngc)%Q _level na ng ngc).

(** The lambda [compareCheapest]: [true] when [lhs] is to come out after [rhs]. *)
Definition compareCheapest (lhs rhs : NodeCosts) : bool :=
  if negb (level lhs =? level rhs)%Z then (level lhs <? level rhs)%Z
  else Qltb (newGeometricsChange rhs) (newGeometricsChange lhs).

(** [std::priority_queue]: the elements in the order they were pushed;
    [pq_take x q] is the top of the non-empty queue [x :: q] and the queue
    without it.  Among equivalent elements the one pushed first is the top
    (C++ leaves that choice to the heap implementation). *)
Fixpoint pq_take (x : NodeCosts) (q : list NodeCosts) : NodeCosts * list NodeCosts :=
  match q with
  | [] => (x, [])
  | y :: q' =>
      let tr := pq_take y q' in
      if compareCheapest x (fst tr) then (fst tr, x :: snd tr) else (x, q)
  end.

Definition pq_push (x : NodeCosts) (q : list NodeCosts) : list NodeCosts := q ++ [x].

(** The [while (!cheapestPathCost.empty())] loop of [Insert].  The result is
    [cheapestPath], [smallestCostIndex] and [leafNode]. *)
Fixpoint Insert_search (fuel : nat) (s : State) (object : T)
    (cheapestPathCost : list NodeCosts) (cheapestPath : list NodeCosts)
    (smallestCostIndex index : Z)
    : Res (list NodeCosts * Z * option NodeCosts) :=
  match cheapestPathCost with
  | [] => Ok (cheapestPath, smallestCostIndex, None)
  | x :: q =>
      match fuel with
      | O => OutOfFuel
      | S fuel =>
          let nodeCost := fst (pq_take x q) in
          let cheapestPathCost := snd (pq_take x q) in
          let cheapestPath := cheapestPath ++ [nodeCost] in
          match cheapestPath !! Z.to_nat smallestCostIndex with
          | None => UB
          | Some smallest =>
              let smallestCostIndex :=
                if Qle_bool (rootToNewParentCost nodeCost)
                            (rootToNewParentCost smallest + cEpsilon3)%Q
                then index else smallestCostIndex in
              n <- get_node s (nc_node nodeCost) ;;
              if IsLeaf n then Ok (cheapestPath, smallestCostIndex, Some nodeCost)
              else
                c0 <- NodeCosts_new s (child n 0) object (rootToNodeCost nodeCost)
                                    (wrap32 (level nodeCost + 1)) ;;
                c1 <- NodeCosts_new s (child n 1) object (rootToNodeCost nodeCost)
                                    (wrap32 (level nodeCost + 1)) ;;
                let cheapestPathCost := pq_push c1 (pq_push c0 cheapestPathCost) in
                if (INT_MAX <=? index)%Z then UB
                else Insert_search fuel s object cheapestPathCost cheapestPath
                                   smallestCostIndex (index + 1)%Z
          end
      end
  end.

(** [for (auto& nodeCost : cheapestPath) nodeCost.node->bv = nodeCost.newAabb] *)
Fixpoint commit_path (cheapestPath : list NodeCosts) (s : State) : Res State :=
  match cheapestPath with
  | [] => Ok s
  | nodeCost :: rest =>
      s <- upd_node (nc_node nodeCost) (set_bv (newAabb nodeCost)) s ;;
      commit_path rest s
  end.

(** What the [if (leafNode)] block settles: append to the leaf that was
    reached, or go on and create a parent above [cheapestPath[index]]. *)
Inductive Decision : Type :=
| AppendToLeaf (leafNode : NodeCosts)
| CreateParent (smallestCostIndex : Z).

Definition Insert_decide (F : nat) (s : State) (config : BvhBuildConfig)
    (cheapestPath : list NodeCosts) (smallestCostIndex : Z)
    (leafNode : option NodeCosts) : Res Decision :=
  match leafNode with
  | None => Ok (CreateParent smallestCostIndex)
  | Some leaf =>
      match cheapestPath !! Z.to_nat smallestCostIndex with
      | None => UB
      | Some smallest =>
          if Qltb (rootToNodeCost leaf) (rootToNewParentCost smallest) then
            cnt <- ObjectCount F s (nc_node leaf) ;;
            if (cnt <? minObjects config)%Z || (maxDepth config <=? level leaf)%Z
            then Ok (AppendToLeaf leaf)
            else if Qle_bool (minVolume config) (volume (newAabb leaf))
                    && Qltb 0 (newGeometricsChange leaf)
            then Ok (CreateParent (to_int (Z.of_nat (length cheapestPath)) - 1)%Z)
            else Ok (AppendToLeaf leaf)
          else Ok (CreateParent smallestCostIndex)
      end
  end.

(** The two identical append blocks. *)
Definition Insert_append (cheapestPath : list NodeCosts) (leafNode : NodeCosts)
    (object : T) (s : State) : Res State :=
  s <- commit_path cheapestPath s ;;
  match nc_node leafNode with
  | None => UB
  | Some leaf => AddObject leaf object s
  end.

(** The tail of [Insert], from the comment "create a leaf note" on. *)
Definition Insert_create (cheapestPath : list NodeCosts) (smallestCostIndex : Z)
    (object : T) (s : State) : Res State :=
  if (smallestCostIndex <? 0)%Z then UB else
  match cheapestPath !! Z.to_nat smallestCostIndex with
  | None => UB
  | Some smallest =>
      if decide (nc_node smallest = mRoot s) then
        let rs := new_Node (newAabb smallest) s in
        let s := with_mRoot (Some (fst rs)) (snd rs) in
        s <- upd_node (mRoot s) (set_child 0 (nc_node smallest)) s ;;
        o <- get_obj s object ;;
        let ls := new_Node (obj_bv o) s in
        s <- upd_node (mRoot (snd ls)) (set_child 1 (Some (fst ls))) (snd ls) ;;
        r <- get_node s (mRoot s) ;;
        match child r 1 with
        | None => UB
        | Some leaf => AddObject leaf object s
        end
      else
        s <- commit_path (take (Z.to_nat smallestCostIndex) cheapestPath) s ;;
        if (smallestCostIndex - 1 <? 0)%Z then UB else
        match cheapestPath !! Z.to_nat (smallestCostIndex - 1) with
        | None => UB
        | Some parentCost =>
            let parentNode := nc_node parentCost in
            pn <- get_node s parentNode ;;
            let k := if decide (child pn 0 = nc_node smallest) then 0%Z else 1%Z in
            let ns := new_Node (newAabb smallest) s in
            s <- upd_node parentNode (set_child k (Some (fst ns))) (snd ns) ;;
            pn <- get_node s parentNode ;;
            s <- upd_node (child pn k) (set_child k (nc_node smallest)) s ;;
            o <- get_obj s object ;;
            let ls := new_Node (obj_bv o) s in
            pn <- get_node (snd ls) parentNode ;;
            s <- upd_node (child pn k) (set_child (Z.lxor k 1) (Some (fst ls))) (snd ls) ;;
            pn <- get_node s parentNode ;;
            nn <- get_node s (child pn k) ;;
            match child nn (Z.lxor k 1) with
            | None => UB
            | Some leaf => AddObject leaf object s
            end
        end
  end.

(** The search and the decision of [Insert] on a non-empty tree. *)
Definition Insert_plan (F : nat) (object : T) (config : BvhBuildConfig) (s : State)
    : Res (list NodeCosts * Decision) :=
  c <- NodeCosts_new s (mRoot s) object 0%Q 0%Z ;;
  r <- Insert_search F s object [c] [] 0%Z 0%Z ;;
  d <- Insert_decide F s config (fst (fst r)) (snd (fst r)) (snd r) ;;
  Ok (fst (fst r), d).

(** [++mObjectCount] *)
Definition incr_mObjectCount (s : State) : State :=
  with_mObjectCount (wrap32 (mObjectCount s + 1)) s.

(** [Bvh<T>::Insert(object, config)] *)
Definition Insert (F : nat) (object : T) (config : BvhBuildConfig) (s : State)
    : Res State :=
  let s := incr_mObjectCount s in
  match mRoot s with
  | None =>
      o <- get_obj s object ;;
      let rs := new_Node (obj_bv o) s in
      let s := with_mRoot (Some (fst rs)) (snd rs) in
      AddObject (fst rs) object s
  | Some _ =>
      pd <- Insert_plan F object config s ;;
      match snd pd with
      | AppendToLeaf leafNode => Insert_append (fst pd) leafNode object s
      | CreateParent smallestCostIndex =>
          Insert_create (fst pd) smallestCostIndex object s
      end
  end.

(** [Bvh<T>::Insert(begin, end, config)] *)
Fixpoint Insert_range (F : nat) (range : list T) (config : BvhBuildConfig)
    (s : State) : Res State :=
  match range with
  | [] => Ok s
  | it :: range => s <- Insert F it config s ;; Insert_range F range config s
  end.

(** ** [Bvh<T>]: clearing and introspection *)

Definition lamdaClearObject (object : T) (sx : State * unit) : Res (State * unit) :=
  s <- upd_obj object (set_next None) (fst sx) ;;
  s <- upd_obj object (set_prev None) s ;;
  s <- upd_obj object (set_node None) s ;;
  Ok (s, tt).

Definition lamdaClearNode (nd : nptr) (sx : State * unit) : Res (State * unit) :=
  s <- delete_Node (Some nd) (fst sx) ;;
  Ok (s, tt).

(** [Bvh<T>::Clear] *)
Definition Clear (F : nat) (s : State) : Res State :=
  match mRoot s with
  | None => Ok s
  | Some root =>
      sx <- Node_TraverseLevelOrderObjects lamdaClearObject F root (s, tt) ;;
      sx <- Node_TraverseLevelOrder lamdaClearNode F root sx ;;
      Ok (with_mObjectCount 0%Z (with_mRoot None (fst sx)))
  end.

Definition Empty (s : State) : bool :=
  match mRoot s with None => (mObjectCount s =? 0)%Z | Some _ => false end.

(** [Bvh<T>::Depth], [Bvh<T>::Size], [Bvh<T>::root], [Bvh<T>::objectCount] *)
Definition Depth (F : nat) (s : State) : Res Z :=
  match mRoot s with
  | None => Ok (-1)%Z
  | Some _ => Node_Depth F s (mRoot s)
  end.

Definition Size (F : nat) (s : State) : Res Z :=
  match mRoot s with
  | None => Ok 0%Z
  | Some _ => Node_Size F s (mRoot s)
  end.

Definition root (s : State) : option nptr := mRoot s.

Definition objectCount (s : State) : Z := mObjectCount s.

(** ** [Bvh<T>]: the queries

    [Frustum::classify] and [Ray::intersect] belong to [shapes.hpp]; the
    queries take them as parameters. *)

Section Queries.

Context {Frustum Ray : Type}.
Variable classify : Frustum -> Aabb -> SideResult.
Variable intersect : Ray -> Aabb -> Q.

(** The lambda [retrieveIds] of [Query]. *)
Definition retrieveIds (object : T) (sx : State * list Z) : Res (State * list Z) :=
  o <- get_obj (fst sx) object ;;
  Ok (fst sx, snd sx ++ [obj_id o]).

(** The object loop of an intersecting leaf. *)
Fixpoint Query_leaf (fuel : nat) (frustum : Frustum) (s : State) (object : T)
    (objectsIds : list Z) : Res (list Z) :=
  match object with
  | None => Ok objectsIds
  | Some _ =>
      match fuel with
      | O => OutOfFuel
      | S fuel =>
          o <- get_obj s object ;;
          let objectsIds :=
            if SideResult_eqb (classify frustum (obj_bv o)) eOUTSIDE
            then objectsIds else objectsIds ++ [obj_id o] in
          Query_leaf fuel frustum s (next (bvhInfo o)) objectsIds
      end
  end.

(** The [while (!stack.empty())] loop of [Query]; the head of the list is
    the top of the stack. *)
Fixpoint Query_loop (F fuel : nat) (frustum : Frustum) (s : State)
    (stack : list (option nptr)) (objectsIds : list Z) : Res (list Z) :=
  match stack with
  | [] => Ok objectsIds
  | top :: stack =>
      match fuel with
      | O => OutOfFuel
      | S fuel =>
          match top with
          | None => Ok objectsIds
          | Some nd =>
              n <- get_node s top ;;
              match classify frustum (bv n) with
              | eOUTSIDE => Query_loop F fuel frustum s stack objectsIds
              | eINSIDE =>
                  sx <- Node_TraverseLevelOrderObjects retrieveIds F nd (s, objectsIds) ;;
                  Query_loop F fuel frustum s stack (snd sx)
              | eINTERSECTING =>
                  if IsLeaf n then
                    objectsIds <- Query_leaf F frustum s (firstObject n) objectsIds ;;
                    Query_loop F fuel frustum s stack objectsIds
                  else
                    Query_loop F fuel frustum s
                               (child n 1 :: child n 0 :: stack) objectsIds
              end
          end
      end
  end.

(** [Bvh<T>::Query(frustum)] *)
Definition Query (F : nat) (frustum : Frustum) (s : State) : Res (list Z) :=
  Query_loop F F frustum s [mRoot s] [].

(** What the recursive lambda of [QueryDebug] captures by reference. *)
Record RayLocals : Type := mkRayLocals {
  closestIntersect : Z;
  bvhShortestTime : Q;
  allIntersectedObjects : list Z;
  debug_tested_nodes : list nptr }.

(** The object loop of a leaf in [QueryNodesRay]. *)
Fixpoint QueryNodesRay_leaf (fuel : nat) (ray : Ray) (closest_only : bool)
    (s : State) (object : T) (nodeShortestTime : Q) (l : RayLocals)
    : Res (Q * RayLocals) :=
  match object with
  | None => Ok (nodeShortestTime, l)
  | Some _ =>
      match fuel with
      | O => OutOfFuel
      | S fuel =>
          o <- get_obj s object ;;
          let time := intersect ray (obj_bv o) in
          if Qle_bool 0 time then
            let hits := if closest_only then allIntersectedObjects l
                        else allIntersectedObjects l ++ [obj_id o] in
            let nodeShortestTime :=
              if Qltb time nodeShortestTime then time else nodeShortestTime in
            let l := if Qltb time (bvhShortestTime l)
                     then mkRayLocals (to_int (obj_id o)) time hits (debug_tested_nodes l)
                     else mkRayLocals (closestIntersect l) (bvhShortestTime l) hits
                                      (debug_tested_nodes l) in
            QueryNodesRay_leaf fuel ray closest_only s (next (bvhInfo o)) nodeShortestTime l
          else
            QueryNodesRay_leaf fuel ray closest_only s (next (bvhInfo o)) nodeShortestTime l
      end
  end.

Definition push_tested (nd : nptr) (l : RayLocals) : RayLocals :=
  mkRayLocals (closestIntersect l) (bvhShortestTime l) (allIntersectedObjects l)
              (debug_tested_nodes l ++ [nd]).

(** The test of one child: record it, intersect its volume. *)
Definition test_child (ray : Ray) (s : State) (c : option nptr) (l : RayLocals)
    : Res (Q * RayLocals) :=
  match c with
  | None => Ok ((-1)%Q, l)
  | Some nd =>
      n <- get_node s c ;;
      Ok (intersect ray (bv n), push_tested nd l)
  end.

(** The recursive lambda [QueryNodesRay]. *)
Fixpoint QueryNodesRay (F fuel : nat) (ray : Ray) (closest_only : bool)
    (s : State) (nd : option nptr) (l : RayLocals) : Res (Q * RayLocals) :=
  match fuel with
  | O => OutOfFuel
  | S fuel =>
      n <- get_node s nd ;;
      if IsLeaf n then
        QueryNodesRay_leaf F ray closest_only s (firstObject n) FLT_MAX l
      else
        t0 <- test_child ray s (child n 0) l ;;
        t1 <- test_child ray s (child n 1) (snd t0) ;;
        let childFirstT := fst t0 in
        let childSecondT := fst t1 in
        let l := snd t1 in
        if Qltb childFirstT 0 && Qltb childSecondT 0 then Ok ((-1)%Q, l)
        else if Qle_bool 0 childFirstT && Qle_bool 0 childSecondT then
          if Qltb childFirstT childSecondT then
            r <- QueryNodesRay F fuel ray closest_only s (child n 0) l ;;
            if negb closest_only || Qltb (fst r) 0 || Qltb childSecondT (fst r) then
              r' <- QueryNodesRay F fuel ray closest_only s (child n 1) (snd r) ;;
              Ok (fmin (fst r') (fst r), snd r')
            else Ok r
          else
            r <- QueryNodesRay F fuel ray closest_only s (child n 1) l ;;
            if negb closest_only || Qltb (fst r) 0 || Qltb childFirstT (fst r) then
              r' <- QueryNodesRay F fuel ray closest_only s (child n 0) (snd r) ;;
              Ok (fmin (fst r') (fst r), snd r')
            else Ok r
        else if Qle_bool 0 childFirstT then
          QueryNodesRay F fuel ray closest_only s (child n 0) l
        else if Qle_bool 0 childSecondT then
          QueryNodesRay F fuel ray closest_only s (child n 1) l
        else Ok ((-1)%Q, l)
  end.

(** [Bvh<T>::QueryDebug]: the returned optional, [allIntersectedObjects] and
    [debug_tested_nodes]. *)
Definition QueryDebug (F : nat) (ray : Ray) (closest_only : bool) (s : State)
    : Res (option Z * list Z * list nptr) :=
  match mRoot s with
  | None => Ok (None, [], [])
  | Some rootp =>
      let l := mkRayLocals (-1)%Z FLT_MAX [] [rootp] in
      r <- get_node s (mRoot s) ;;
      l <- (if Qle_bool 0 (intersect ray (bv r))
            then x <- QueryNodesRay F F ray closest_only s (mRoot s) l ;; Ok (snd x)
            else Ok l) ;;
      if (closestIntersect l <? 0)%Z
      then Ok (None, allIntersectedObjects l, debug_tested_nodes l)
      else
        let hits := if closest_only then [wrap32 (closestIntersect l)]
                    else allIntersectedObjects l in
        Ok (Some (closestIntersect l), hits, debug_tested_nodes l)
  end.

End Queries.

(** * Specification vocabulary *)

(** ** The tree a heap represents *)

Inductive tree : Type :=
| TLeaf (p : nptr) (b : Aabb) (os : list optr)
| TNode (p : nptr) (b : Aabb) (l r : tree).

Definition tree_ptr (t : tree) : nptr :=
  match t with TLeaf p _ _ => p | TNode p _ _ _ => p end.

Definition tree_bv (t : tree) : Aabb :=
  match t with TLeaf _ b _ => b | TNode _ b _ _ => b end.

Fixpoint tree_nodes (t : tree) : list nptr :=
  match t with
  | TLeaf p _ _ => [p]
  | TNode p _ l r => p :: tree_nodes l ++ tree_nodes r
  end.

Fixpoint tree_objs (t : tree) : list optr :=
  match t with
  | TLeaf _ _ os => os
  | TNode _ _ l r => tree_objs l ++ tree_objs r
  end.

Fixpoint tree_depth (t : tree) : Z :=
  match t with
  | TLeaf _ _ _ => 0%Z
  | TNode _ _ l r => (1 + Z.max (tree_depth l) (tree_depth r))%Z
  end.

Fixpoint tree_size (t : tree) : Z :=
  match t with
  | TLeaf _ _ _ => 1%Z
  | TNode _ _ l r => (1 + tree_size l + tree_size r)%Z
  end.

(** Fuel that is enough to walk the tree and any of its object lists. *)
Definition tree_weight (t : tree) : nat :=
  length (tree_nodes t) + length (tree_objs t).

(** The intrusive list of the leaf at [leaf]: [os] in order, every member
    pointing back to the leaf, to its successor and to its predecessor. *)
Fixpoint olist (s : State) (leaf : nptr) (pv : T) (os : list optr) : Prop :=
  match os with
  | [] => True
  | o :: rest =>
      bvhInfo <$> objects s !! o = Some (mkBvhInfo (head rest) pv (Some leaf))
      /\ olist s leaf (Some o) rest
  end.

(** The heap holds the tree [t]: a leaf has no children and the list of its
    objects, an internal node has both children and no objects. *)
Fixpoint shape (s : State) (t : tree) : Prop :=
  match t with
  | TLeaf p b os =>
      nodes s !! p = Some (mkNode b (None, None) (head os) (last os))
      /\ olist s p None os
  | TNode p b l r =>
      nodes s !! p = Some (mkNode b (Some (tree_ptr l), Some (tree_ptr r)) None None)
      /\ shape s l /\ shape s r
  end.

Definition repr (s : State) (t : tree) : Prop :=
  shape s t /\ NoDup (tree_nodes t) /\ NoDup (tree_objs t).

(** The tree object: empty, or rooted at the tree [t]. *)
Definition bvh_repr (s : State) (ot : option tree) : Prop :=
  match ot with
  | None => mRoot s = None
  | Some t => mRoot s = Some (tree_ptr t) /\ repr s t
  end.

Definition objs_of (ot : option tree) : list optr :=
  match ot with None => [] | Some t => tree_objs t end.

Definition weight_of (ot : option tree) : nat :=
  match ot with None => 0 | Some t => tree_weight t end.

(** ** The containment invariant *)

Definition obj_enclosed (s : State) (b : Aabb) (o : optr) : Prop :=
  match objects s !! o with
  | Some ob => encloses b (obj_bv ob)
  | None => False
  end.

Fixpoint contained (s : State) (t : tree) : Prop :=
  match t with
  | TLeaf _ b os => Forall (obj_enclosed s b) os
  | TNode _ b l r =>
      encloses b (tree_bv l) /\ encloses b (tree_bv r)
      /\ contained s l /\ contained s r
  end.

Definition contained_of (s : State) (ot : option tree) : Prop :=
  match ot with None => True | Some t => contained s t end.

(** Leaves hold at least one object. *)
Fixpoint leaves_nonempty (t : tree) : Prop :=
  match t with
  | TLeaf _ _ os => os <> []
  | TNode _ _ l r => leaves_nonempty l /\ leaves_nonempty r
  end.

(** A volume with [min <= max] on every axis. *)
Definition valid_box (b : Aabb) : Prop := vle (bmin b) (bmax b).

Definition obj_valid (s : State) (o : optr) : Prop :=
  match objects s !! o with
  | Some ob => valid_box (obj_bv ob)
  | None => False
  end.

(** The ids of a list of objects. *)
Fixpoint obj_ids (s : State) (os : list optr) : list Z :=
  match os with
  | [] => []
  | o :: rest =>
      match objects s !! o with
      | Some ob => obj_id ob :: obj_ids s rest
      | None => obj_ids s rest
      end
  end.

(** The tree's fields that a run does not touch. *)
Definition same_count (s s' : State) : Prop := mObjectCount s' = mObjectCount s.

(** ** Doubly linked lists, as the claim about [AddObject] words it *)

(** [p.next.prev = p] and [p.prev.next = p], where the neighbour exists. *)
Definition links_okb (s : State) (p : optr) : bool :=
  match objects s !! p with
  | None => false
  | Some ob =>
      match next (bvhInfo ob) with
      | None => true
      | Some n =>
          match objects s !! n with
          | Some nb => bool_decide (prev (bvhInfo nb) = Some p)
          | None => false
          end
      end
      &&
      match prev (bvhInfo ob) with
      | None => true
      | Some q =>
          match objects s !! q with
          | Some qb => bool_decide (next (bvhInfo qb) = Some p)
          | None => false
          end
      end
  end.

(** The objects of a list, from [object] on, following [next]. *)
Fixpoint list_from (fuel : nat) (s : State) (object : T) : Res (list optr) :=
  match object with
  | None => Ok []
  | Some p =>
      match fuel with
      | O => OutOfFuel
      | S fuel =>
          o <- get_obj s object ;;
          rest <- list_from fuel s (next (bvhInfo o)) ;;
          Ok (p :: rest)
      end
  end.

Definition node_objects (fuel : nat) (s : State) (this : nptr) : Res (list optr) :=
  n <- get_node s (Some this) ;;
  list_from fuel s (firstObject n).

(** ** Brute force, as the test harness computes it *)

Section BruteForce.

Context {Frustum Ray : Type}.
Variable classify : Frustum -> Aabb -> SideResult.
Variable intersect : Ray -> Aabb -> Q.

(** The ids of the objects whose volume is not [eOUTSIDE]. *)
Fixpoint brute_force_visible (frustum : Frustum) (s : State) (os : list optr) : list Z :=
  match os with
  | [] => []
  | o :: rest =>
      match objects s !! o with
      | Some ob =>
          if SideResult_eqb (classify frustum (obj_bv ob)) eOUTSIDE
          then brute_force_visible frustum s rest
          else obj_id ob :: brute_force_visible frustum s rest
      | None => brute_force_visible frustum s rest
      end
  end.

(** The ids of the objects the ray enters. *)
Fixpoint brute_force_hits (ray : Ray) (s : State) (os : list optr) : list Z :=
  match os with
  | [] => []
  | o :: rest =>
      match objects s !! o with
      | Some ob =>
          if Qle_bool 0 (intersect ray (obj_bv ob))
          then obj_id ob :: brute_force_hits ray s rest
          else brute_force_hits ray s rest
      | None => brute_force_hits ray s rest
      end
  end.

(** [o] is hit at time [t]. *)
Definition hit_at (ray : Ray) (s : State) (o : optr) (i : Z) (t : Q) : Prop :=
  exists ob, objects s !! o = Some ob /\ obj_id ob = i
             /\ intersect ray (obj_bv ob) = t /\ (0 <= t)%Q.

(** [i] is the id of an object with the smallest entry time among [os]. *)
Definition closest_hit (ray : Ray) (s : State) (os : list optr) (i : Z) : Prop :=
  exists o t, In o os /\ hit_at ray s o i t
    /\ forall o' i' t', In o' os -> hit_at ray s o' i' t' -> (t <= t')%Q.

End BruteForce.

(** ** A frustum and a ray to run the queries with *)

Record Plane : Type := mkPlane { normal : vec3; dot_result : Q }.

(** The corner of the box farthest along [n], and the nearest one, as
    signed distances from the origin along [n]. *)
Definition far_along (n : vec3) (b : Aabb) : Q :=
  ((if Qle_bool 0 (vx n) then vx n * vx (bmax b) else vx n * vx (bmin b))
   + (if Qle_bool 0 (vy n) then vy n * vy (bmax b) else vy n * vy (bmin b))
   + (if Qle_bool 0 (vz n) then vz n * vz (bmax b) else vz n * vz (bmin b)))%Q.
Definition near_along (n : vec3) (b : Aabb) : Q :=
  ((if Qle_bool 0 (vx n) then vx n * vx (bmin b) else vx n * vx (bmax b))
   + (if Qle_bool 0 (vy n) then vy n * vy (bmin b) else vy n * vy (bmax b))
   + (if Qle_bool 0 (vz n) then vz n * vz (bmin b) else vz n * vz (bmax b)))%Q.

(** Modelled from the spec: [Frustum::classify] of [shapes.hpp], the
    n-/p-vertex test over inward-facing planes.  A box is [eOUTSIDE] when
    for some plane even its farthest corner is behind the plane, [eINSIDE]
    when for every plane its nearest corner is in front, and
    [eINTERSECTING] otherwise. *)
Definition classify_planes (frustum : list Plane) (b : Aabb) : SideResult :=
  if existsb (fun pl => Qltb (far_along (normal pl) b) (dot_result pl)) frustum
  then eOUTSIDE
  else if forallb (fun pl => Qle_bool (dot_result pl) (near_along (normal pl) b)) frustum
  then eINSIDE
  else eINTERSECTING.

(** The slab [x0 <= x <= x1], as two inward-facing planes. *)
Definition x_slab (x0 x1 : Z) : list Plane :=
  [mkPlane (Vec3 1 0 0) (inject_Z x0); mkPlane (Vec3 (-1) 0 0) (inject_Z (- x1))].

(** ** Scenes *)

Definition fresh_info : BvhInfo := mkBvhInfo None None None.

(** [CreateObjects] of the test fixture: ids 0, 1, ... in order. *)
Fixpoint CreateObjects_from (idx : nat) (aabbs : list Aabb) (m : gmap nat Object)
    : gmap nat Object :=
  match aabbs with
  | [] => m
  | b :: rest =>
      CreateObjects_from (S idx) rest (<[idx := mkObject (Z.of_nat idx) b fresh_info]> m)
  end.

Definition CreateObjects (aabbs : list Aabb) : gmap nat Object :=
  CreateObjects_from 0 aabbs ∅.

(** Handles of the objects 0 .. n-1. *)
Definition handles (n : nat) : list T := map Some (seq 0 n).

Definition box (x0 y0 z0 x1 y1 z1 : Z) : Aabb :=
  mkAabb (Vec3 (inject_Z x0) (inject_Z y0) (inject_Z z0))
         (Vec3 (inject_Z x1) (inject_Z y1) (inject_Z z1)).

Definition unit_box : Aabb := box 0 0 0 1 1 1.

(** An empty tree over [n] objects with the volumes [aabbs]. *)
Definition scene_of (aabbs : list Aabb) : State :=
  Bvh_new ∅ (CreateObjects aabbs) 0.

(** [cTopDownConfig] of the tests. *)
Definition cTopDownConfig : BvhBuildConfig := mkConfig UINT_MAX 20%Z (250 # 1)%Q.

(** The scene of [TopDown_CornerCase]: 500 equal volumes. *)
Definition corner_case : State := scene_of (replicate 500 unit_box).

(** A node [0] holding the objects 0, 1, 2 in that order, and an empty
    leaf [1]. *)
Definition three_in_a_row : State :=
  mkState
    (<[1 := mkNode unit_box (None, None) None None]>
     (<[0 := mkNode unit_box (None, None) (Some 0) (Some 2)]> ∅))
    (<[2 := mkObject 2 unit_box (mkBvhInfo None (Some 1) (Some 0))]>
     (<[1 := mkObject 1 unit_box (mkBvhInfo (Some 2) (Some 0) (Some 0))]>
      (<[0 := mkObject 0 unit_box (mkBvhInfo (Some 1) None (Some 0))]> ∅)))
    2 (Some 0) 3%Z.

(** A root [0] with the two leaves [1] and [2], over three fresh objects. *)
Definition full_parent : State :=
  mkState
    (<[2 := mkNode unit_box (None, None) None None]>
     (<[1 := mkNode unit_box (None, None) None None]>
      (<[0 := mkNode unit_box (Some 1, Some 2) None None]> ∅)))
    (CreateObjects (replicate 3 unit_box))
    3 (Some 0) 0%Z.

(** Depth and size of the tree a top-down build leaves. *)
Definition depth_and_size_after_build (F : nat) (range : list T)
    (config : BvhBuildConfig) (s : State) : Res (Z * Z) :=
  s <- BuildTopDown F range config None s ;;
  d <- Depth F s ;;
  z <- Size F s ;;
  Ok (d, z).

(** The objects of the root's own list after a top-down build. *)
Definition root_objects_after_build (F : nat) (range : list T)
    (config : BvhBuildConfig) (s : State) : Res (list optr) :=
  s <- BuildTopDown F range config None s ;;
  match root s with
  | Some r => node_objects F s r
  | None => Ok []
  end.

(** [objectCount()] after a run of single inserts. *)
Definition objectCount_after (F : nat) (range : list T)
    (config : BvhBuildConfig) (s : State) : Res Z :=
  s <- Insert_range F range config s ;;
  Ok (objectCount s).

(** What [AddObject] leaves of a node's list: its members, the node each of
    them points back to, and whether each is linked both ways. *)
Definition list_report (fuel : nat) (s : State) (this : nptr)
    : Res (list (optr * option nptr * bool)) :=
  os <- node_objects fuel s this ;;
  Ok (map (fun o => (o, (objects s !! o) ≫= (fun ob => node (bvhInfo ob)), links_okb s o)) os).

(** A root leaf [0] holding the object 0 of a one-object scene, with the
    counter at [c]. *)
Definition single_leaf (c : Z) : State :=
  mkState
    (<[0 := mkNode unit_box (None, None) (Some 0) (Some 0)]> ∅)
    (<[0 := mkObject 0 unit_box (mkBvhInfo None None (Some 0))]> ∅)
    1 (Some 0) c.

(** Nodes and objects of a queue or a stack of subtrees. *)
Definition forest_nodes (q : list tree) : list nptr := concat (map tree_nodes q).
Definition forest_objs (q : list tree) : list optr := concat (map tree_objs q).

(** The configuration of the [Insert_Manual01] tests. *)
Definition cInsertConfig_manual : BvhBuildConfig := mkConfig 100%Z 1%Z 1%Q.

(** Unit boxes on the x axis, at 0, 2, 10 and 12, and a second one at 12. *)
Definition five_boxes : list Aabb :=
  [box 0 0 0 1 1 1; box 2 0 0 3 1 1; box 10 0 0 11 1 1; box 12 0 0 13 1 1;
   box 12 0 0 13 1 1].

Definition run_or (d : State) (r : Res State) : State :=
  match r with Ok s => s | _ => d end.

(** The tree after inserting the first [n] of the boxes, one by one. *)
Definition inserted (n : nat) : State :=
  run_or (scene_of five_boxes)
         (Insert_range 20 (handles n) cInsertConfig_manual (scene_of five_boxes)).

(** A configuration under which a leaf takes up to four objects. *)
Definition roomy_config : BvhBuildConfig := mkConfig 100%Z 5%Z 1%Q.

Definition inserted3_tree : tree :=
  TNode 3 (box 0 0 0 11 1 1)
        (TNode 1 (box 0 0 0 3 1 1)
               (TLeaf 0 (box 0 0 0 1 1 1) [0])
               (TLeaf 2 (box 2 0 0 3 1 1) [1]))
        (TLeaf 4 (box 10 0 0 11 1 1) [2]).

Definition inserted4_tree : tree :=
  TNode 3 (box 0 0 0 13 1 1)
        (TNode 1 (box 0 0 0 3 1 1)
               (TLeaf 0 (box 0 0 0 1 1 1) [0])
               (TLeaf 2 (box 2 0 0 3 1 1) [1]))
        (TNode 5 (box 10 0 0 13 1 1)
               (TLeaf 6 (box 12 0 0 13 1 1) [3])
               (TLeaf 4 (box 10 0 0 11 1 1) [2])).

(** The node part of [shape]: the children pointers of the heap follow the
    tree, whatever the object lists hold. *)
Fixpoint nshape (s : State) (t : tree) : Prop :=
  match t with
  | TLeaf p _ _ => exists n, nodes s !! p = Some n /\ children n = (None, None)
  | TNode p _ l r =>
      (exists n, nodes s !! p = Some n
                 /\ children n = (Some (tree_ptr l), Some (tree_ptr r)))
      /\ nshape s l /\ nshape s r
  end.

(** [s'] is [s] with the intrusive triple of the objects [os] reset. *)
Definition cleared (os : list optr) (s s' : State) : Prop :=
  nodes s' = nodes s /\ next_node s' = next_node s
  /\ mRoot s' = mRoot s /\ mObjectCount s' = mObjectCount s
  /\ (forall o, In o os -> bvhInfo <$> objects s' !! o = Some fresh_info)
  /\ (forall o, ~ In o os -> objects s' !! o = objects s !! o).

(** ** The search path of [Insert] *)

(** The record was built for a live node and the object being inserted. *)
Definition cost_of (s : State) (object : T) (nc : NodeCosts) : Prop :=
  exists p n ob,
    nc_node nc = Some p /\ nodes s !! p = Some n /\ get_obj s object = Ok ob
    /\ newAabb nc = Aabb_merge (bv n) (obj_bv ob).

(** [kid] is one of the two children of [parent]. *)
Definition is_kid (s : State) (parent kid : option nptr) : Prop :=
  exists p n c,
    parent = Some p /\ nodes s !! p = Some n /\ kid = Some c
    /\ (child n 0 = Some c \/ child n 1 = Some c).

(** Every record of the path is for a child of the record before it. *)
Definition linked (s : State) (path : list NodeCosts) : Prop :=
  forall i a b, path !! i = Some a -> path !! S i = Some b ->
                is_kid s (nc_node a) (nc_node b).

(** Live nodes sit below the allocation pointer. *)
Definition alloc_ok (s : State) : Prop :=
  forall q, is_Some (nodes s !! q) -> (q < next_node s)%nat.

(** [s'] differs from [s] in the object heap and in the list ends of the
    node [this] at most. *)
Definition node_frame (this : nptr) (s s' : State) : Prop :=
  next_node s' = next_node s /\ mRoot s' = mRoot s
  /\ mObjectCount s' = mObjectCount s
  /\ (forall q, q <> this -> nodes s' !! q = nodes s !! q)
  /\ (forall q, bv <$> nodes s' !! q = bv <$> nodes s !! q)
  /\ (forall q, children <$> nodes s' !! q = children <$> nodes s !! q).

(** [s'] differs from [s] in volumes of nodes at most. *)
Definition bv_frame (s s' : State) : Prop :=
  objects s' = objects s /\ next_node s' = next_node s /\ mRoot s' = mRoot s
  /\ mObjectCount s' = mObjectCount s
  /\ (forall q, children <$> nodes s' !! q = children <$> nodes s !! q)
  /\ (forall q, firstObject <$> nodes s' !! q = firstObject <$> nodes s !! q)
  /\ (forall q, lastObject <$> nodes s' !! q = lastObject <$> nodes s !! q).

(** ** A ray to run [QueryDebug] with *)

(** Modelled from the spec: [Ray] and [Ray::intersect] are declared in
    shapes.hpp, which is not among the sources.  The spec: a ray carries a
    start and a direction; [intersect] returns the time of entry by the slab
    method, 0 when the start is inside the box, and a negative value when
    the ray misses; a zero component of the direction constrains nothing
    when the start lies within that slab and is a miss otherwise. *)
Record Ray : Type := mkRay { ray_start : vec3; ray_dir : vec3 }.

Definition slab (st d lo hi : Q) (tt : option (Q * Q)) : option (Q * Q) :=
  match tt with
  | None => None
  | Some (tmin, tmax) =>
      if Qeq_bool d 0 then
        if Qle_bool lo st && Qle_bool st hi then tt else None
      else
        let t1 := ((lo - st) / d)%Q in
        let t2 := ((hi - st) / d)%Q in
        let tmin := fmax tmin (fmin t1 t2) in
        let tmax := fmin tmax (fmax t1 t2) in
        if Qle_bool tmin tmax then Some (tmin, tmax) else None
  end.

(** Modelled from the spec: [Ray::intersect(Aabb)], see [Ray]. *)
Definition ray_intersect (r : Ray) (b : Aabb) : Q :=
  let st := ray_start r in
  let d := ray_dir r in
  match slab (vz st) (vz d) (vz (bmin b)) (vz (bmax b))
          (slab (vy st) (vy d) (vy (bmin b)) (vy (bmax b))
             (slab (vx st) (vx d) (vx (bmin b)) (vx (bmax b)) (Some (0%Q, FLT_MAX)))) with
  | Some (tmin, _) => tmin
  | None => (-1)%Q
  end.

(** One unit box whose id is 2^31, inserted into an empty tree. *)
Definition high_id : Z := 2147483648.
Definition high_id_scene : State :=
  Bvh_new ∅ (<[0%nat := mkObject high_id unit_box fresh_info]> ∅) 0.
Definition high_id_tree : State :=
  run_or high_id_scene (Insert 10 (Some 0%nat) default_config high_id_scene).

(** The ray from (-1, 1/2, 1/2) along the x axis: it enters the unit box
    at time 1. *)
Definition along_x : Ray := mkRay (Vec3 (-1) (1 # 2) (1 # 2)) (Vec3 1 0 0).

(** ** Sequences of builder calls *)

Inductive call : Type :=
| CBuildTopDown (range : list T)
| CInsert (object : T).

Definition run_call (F : nat) (config : BvhBuildConfig) (c : call) (s : State)
    : Res State :=
  match c with
  | CBuildTopDown range => BuildTopDown F range config None s
  | CInsert object => Insert F object config s
  end.

Fixpoint run_calls (F : nat) (config : BvhBuildConfig) (cs : list call) (s : State)
    : Res State :=
  match cs with
  | [] => Ok s
  | c :: cs => s <- run_call F config c s ;; run_calls F config cs s
  end.

(** Containment and partition: the heap holds a tree whose nodes enclose
    their children and whose leaves enclose their members, no object is
    listed twice, and the objects listed are those of [inserted]. *)
Definition bvh_invariants (s : State) (inserted : list optr) : Prop :=
  exists ot, bvh_repr s ot /\ contained_of s ot /\ Permutation (objs_of ot) inserted.

(** The scene and the calls of a rebuild over a populated tree. *)
Definition two_boxes : State := scene_of [unit_box; unit_box].
Definition rebuild_calls : list call :=
  [CBuildTopDown [Some 0%nat; Some 1%nat]; CBuildTopDown [Some 0%nat]].

(** Four boxes along the x axis, the second and the third equal and the
    fourth around them all, in an empty tree; and the calls that insert
    them one by one and then the second of them once more. *)
Definition nested_boxes : State :=
  scene_of [box 0 0 0 1 1 1; box 8 0 0 10 1 1; box 8 0 0 10 1 1; box 0 0 0 10 1 1].
Definition reinsert_calls : list call :=
  [CInsert (Some 0%nat); CInsert (Some 1%nat); CInsert (Some 2%nat);
   CInsert (Some 3%nat); CInsert (Some 1%nat)].

(** ** A subtree in its context *)

(** One step of a context: the node at [p] with volume [b], whose child in
    the slot 0 ([hole_left]) or 1 is the hole; [sib] is the other child. *)
Inductive frame : Type :=
| Frame (p : nptr) (b : Aabb) (hole_left : bool) (sib : tree).

Definition frame_ptr (f : frame) : nptr := let 'Frame p _ _ _ := f in p.
Definition frame_sib (f : frame) : tree := let 'Frame _ _ _ sib := f in sib.

Definition plug1 (f : frame) (sub : tree) : tree :=
  match f with
  | Frame p b true sib => TNode p b sub sib
  | Frame p b false sib => TNode p b sib sub
  end.

(** A context is the list of its frames, the innermost first. *)
Fixpoint plug (c : list frame) (sub : tree) : tree :=
  match c with
  | [] => sub
  | f :: c => plug c (plug1 f sub)
  end.

(** The context after the volume [obv] has been merged into every frame. *)
Definition grow (obv : Aabb) (f : frame) : frame :=
  let 'Frame p b hl sib := f in Frame p (Aabb_merge b obv) hl sib.

Fixpoint ctx_nodes (c : list frame) : list nptr :=
  match c with
  | [] => []
  | f :: c => (frame_ptr f :: tree_nodes (frame_sib f)) ++ ctx_nodes c
  end.

Fixpoint ctx_objs (c : list frame) : list optr :=
  match c with
  | [] => []
  | f :: c => tree_objs (frame_sib f) ++ ctx_objs c
  end.

(** The heap holds the context [c] around a hole whose pointer is [h]. *)
Fixpoint ctx_shape (s : State) (c : list frame) (h : nptr) : Prop :=
  match c with
  | [] => True
  | Frame p b hl sib :: c =>
      nodes s !! p
      = Some (mkNode b (if hl then (Some h, Some (tree_ptr sib))
                        else (Some (tree_ptr sib), Some h)) None None)
      /\ shape s sib /\ ctx_shape s c p
  end.

(** Containment along the context, around a hole of volume [hb]. *)
Fixpoint ctx_contained (s : State) (c : list frame) (hb : Aabb) : Prop :=
  match c with
  | [] => True
  | Frame p b hl sib :: c =>
      encloses b hb /\ encloses b (tree_bv sib) /\ contained s sib
      /\ ctx_contained s c b
  end.

(** The pointer of the root of [plug c sub]. *)
Definition ctx_root (c : list frame) (h : nptr) : nptr :=
  match last c with Some f => frame_ptr f | None => h end.

(** The pointers of the frames, and the nodes of the siblings. *)
Definition ctx_ptrs (c : list frame) : list nptr := map frame_ptr c.
Definition ctx_sib_nodes (c : list frame) : list nptr :=
  concat (map (fun f => tree_nodes (frame_sib f)) c).

(** What a builder call has done to a heap whose tree had [n] nodes and
    listed the objects [old]: the heap holds the tree [t'], which lists the
    objects [new] besides; containment holds; at most two nodes per new
    object were added; the objects outside are untouched. *)
Definition grown (s s' : State) (n : nat) (old new : list optr) (t' : tree) : Prop :=
  bvh_repr s' (Some t') /\ contained s' t'
  /\ Permutation (tree_objs t') (new ++ old)
  /\ (length (tree_nodes t') <= n + 2 * length new)%nat
  /\ alloc_ok s'
  /\ (forall q, ~ In q new -> ~ In q old -> objects s' !! q = objects s !! q)
  /\ (forall q, obj_bv <$> objects s' !! q = obj_bv <$> objects s !! q).

Definition nodes_of (ot : option tree) : list nptr :=
  match ot with None => [] | Some t => tree_nodes t end.

(** An object that is in no list. *)
Definition unlinked (s : State) (o : optr) : Prop :=
  exists ob, objects s !! o = Some ob /\ node (bvhInfo ob) = None.

(** [grown] for a tree that may be empty, and a whole list of objects. *)
Definition grown_of (s s' : State) (ot : option tree) (new : list optr)
    (ot' : option tree) : Prop :=
  bvh_repr s' ot' /\ contained_of s' ot'
  /\ Permutation (objs_of ot') (new ++ objs_of ot)
  /\ (length (nodes_of ot') <= length (nodes_of ot) + 2 * length new)%nat
  /\ alloc_ok s'
  /\ (forall q, ~ In q new -> ~ In q (objs_of ot) -> objects s' !! q = objects s !! q)
  /\ (forall q, obj_bv <$> objects s' !! q = obj_bv <$> objects s !! q).

(** From [base] on, children sit at higher addresses than their parent
    and are allocated: what makes [Node::Depth] return during a build. *)
Definition ordered (base : nptr) (s : State) : Prop :=
  forall q n c, (base <= q)%nat -> nodes s !! q = Some n ->
    (child n 0 = Some c \/ child n 1 = Some c) ->
    (q < c)%nat /\ is_Some (nodes s !! c).

(** The slot of a parent that a top-down build fills. *)
Definition vacant_slot (pn : Node) : Z :=
  match child pn 0 with None => 0%Z | Some _ => 1%Z end.

(** What [BuildTopDown] of the objects [os] under [parent] has done: the node
    allocated first is the root of a tree [t] over [os] that the heap holds;
    it sits in the vacant slot of the parent, or is the root of the whole
    tree; the rest of the heap is as before. *)
Definition built (s s' : State) (parent : option nptr) (os : list optr) (t : tree)
    : Prop :=
  tree_ptr t = next_node s
  /\ shape s' t /\ contained s' t
  /\ Permutation (tree_objs t) os
  /\ NoDup (tree_nodes t)
  /\ (forall p, In p (tree_nodes t) -> (next_node s <= p < next_node s')%nat)
  /\ (next_node s' + 1 <= next_node s + 2 * length os)%nat
  /\ (length (tree_nodes t) + 1 <= 2 * length os)%nat
  /\ (forall B, (forall o ob, In o os -> objects s !! o = Some ob ->
                              encloses B (obj_bv ob)) ->
                encloses B (tree_bv t))
  /\ alloc_ok s'
  /\ mRoot s' = match parent with None => Some (next_node s) | Some _ => mRoot s end
  /\ (forall q, (q < next_node s)%nat -> parent <> Some q ->
                nodes s' !! q = nodes s !! q)
  /\ (forall p pn, parent = Some p -> nodes s !! p = Some pn ->
                   nodes s' !! p
                   = Some (set_child (vacant_slot pn) (Some (next_node s)) pn))
  /\ (forall q, ~ In q os -> objects s' !! q = objects s !! q)
  /\ (forall q, obj_bv <$> objects s' !! q = obj_bv <$> objects s !! q).

(** What a recursive call of [BuildTopDown] may assume about its parent:
    none, and the node to come is the first of the build; or a node of the
    build with a vacant slot, below the root of the build. *)
Definition parent_ok (base : nptr) (parent : option nptr) (s : State) : Prop :=
  match parent with
  | None => base = next_node s
  | Some p =>
      mRoot s = Some base /\ (base <= p)%nat /\ is_Some (nodes s !! base)
      /\ exists pn, nodes s !! p = Some pn
                    /\ (child pn 0 = None \/ child pn 1 = None)
  end.

(** ** The locals of the ray query *)

Section RayInvariant.

Context {Ray : Type}.
Variable intersect : Ray -> Aabb -> Q.

(** What the locals that the lambda of [QueryDebug] captures say once the
    objects [V] are accounted for: the hits recorded are those of [V] (when
    all hits are asked for); the shortest time is below the entry time of
    every object of [V] that the ray enters; and it is the initial
    [FLT_MAX], with no id recorded, or the entry time of the object of [V]
    whose id is recorded. *)
Definition ray_inv (ray : Ray) (closest_only : bool) (s : State) (V : list optr)
    (l : RayLocals) : Prop :=
  (closest_only = false ->
   Permutation (allIntersectedObjects l) (brute_force_hits intersect ray s V))
  /\ (bvhShortestTime l <= FLT_MAX)%Q
  /\ (forall o ob, In o V -> objects s !! o = Some ob ->
                   (0 <= intersect ray (obj_bv ob))%Q ->
                   (bvhShortestTime l <= intersect ray (obj_bv ob))%Q)
  /\ ((closestIntersect l = (-1)%Z /\ bvhShortestTime l = FLT_MAX)
      \/ exists o ob,
           In o V /\ objects s !! o = Some ob
           /\ closestIntersect l = to_int (obj_id ob)
           /\ (0 <= intersect ray (obj_bv ob))%Q
           /\ bvhShortestTime l = intersect ray (obj_bv ob)).

(** Ids that fit an [int], entry times that fit a [float], boxes with
    [min <= max]. *)
Definition ray_objs_ok (ray : Ray) (s : State) (os : list optr) : Prop :=
  forall o ob, In o os -> objects s !! o = Some ob ->
    (0 <= obj_id ob <= INT_MAX)%Z /\ (intersect ray (obj_bv ob) < FLT_MAX)%Q
    /\ valid_box (obj_bv ob).

(** What [QueryDebug] returns, against brute force over the objects [os]. *)
Definition ray_result_ok (ray : Ray) (closest_only : bool) (s : State)
    (os : list optr) (res : option Z) (hits : list Z) : Prop :=
  (closest_only = false -> Permutation hits (brute_force_hits intersect ray s os))
  /\ match res with
     | Some i => closest_hit intersect ray s os i /\ (closest_only = true -> hits = [i])
     | None => brute_force_hits intersect ray s os = []
     end.

End RayInvariant.

(** ** The slab test, one axis after another *)

(** The interval kept for the outer box contains the one kept for the
    inner box, and starts at a time that is not negative. *)
Definition slab_below (a b : option (Q * Q)) : Prop :=
  match b with
  | None => True
  | Some (tminb, tmaxb) =>
      match a with
      | None => False
      | Some (tmina, tmaxa) => (0 <= tmina)%Q /\ (tmina <= tminb)%Q /\ (tmaxb <= tmaxa)%Q
      end
  end.

(** * What the builders do to a tree *)

(** ** [Insert] *)

(** The two edits of [Insert].  Either the object joins the list of a leaf,
    or a new node takes the place of a subtree [sub] and gets [sub] and a
    new leaf for the object as its children ([hl] tells that [sub] is the
    child 0).  Either way the volume of every node above grows by the
    volume [obv] of the object.  [fresh] is the address of the first node
    that is allocated. *)
Inductive insert_edit (o : optr) (obv : Aabb) (fresh : nptr) : tree -> tree -> Prop :=
| edit_append (c : list frame) (lp : nptr) (lb : Aabb) (los : list optr) :
    insert_edit o obv fresh
      (plug c (TLeaf lp lb los))
      (plug (map (grow obv) c) (TLeaf lp (Aabb_merge lb obv) (los ++ [o])))
| edit_parent (c : list frame) (sub : tree) (hl : bool) :
    insert_edit o obv fresh
      (plug c sub)
      (plug (map (grow obv) c)
            (plug1 (Frame fresh (Aabb_merge (tree_bv sub) obv) hl
                          (TLeaf (S fresh) obv [o])) sub)).

(** [Insert] on a tree that may be empty. *)
Definition insert_edit_of (o : optr) (obv : Aabb) (fresh : nptr)
    (ot : option tree) (t' : tree) : Prop :=
  match ot with
  | None => t' = TLeaf fresh obv [o]
  | Some t => insert_edit o obv fresh t t'
  end.

(** ** Least boxes *)

(** [b] is the least box around the objects [os]. *)
Definition least_box (s : State) (b : Aabb) (os : list optr) : Prop :=
  Forall (obj_enclosed s b) os
  /\ forall B, Forall (obj_enclosed s B) os -> encloses B b.

(** Every node of the tree has the least box around the objects below it. *)
Fixpoint bounds_exactly (s : State) (t : tree) : Prop :=
  match t with
  | TLeaf _ b os => least_box s b os
  | TNode _ b l r =>
      least_box s b (tree_objs l ++ tree_objs r)
      /\ bounds_exactly s l /\ bounds_exactly s r
  end.

Definition bounds_exactly_of (s : State) (ot : option tree) : Prop :=
  match ot with None => True | Some t => bounds_exactly s t end.

(** No box smaller than the one of a node encloses what is right below the
    node: the members of a leaf, the two children of an internal node. *)
Fixpoint tight (s : State) (t : tree) : Prop :=
  match t with
  | TLeaf _ b os => forall B, Forall (obj_enclosed s B) os -> encloses B b
  | TNode _ b l r =>
      (forall B, encloses B (tree_bv l) -> encloses B (tree_bv r) -> encloses B b)
      /\ tight s l /\ tight s r
  end.

Definition tight_of (s : State) (ot : option tree) : Prop :=
  match ot with None => True | Some t => tight s t end.

(** [tight] along a context, around a hole of volume [hb]. *)
Fixpoint ctx_tight (s : State) (c : list frame) (hb : Aabb) : Prop :=
  match c with
  | [] => True
  | Frame p b hl sib :: c =>
      (forall B, encloses B hb -> encloses B (tree_bv sib) -> encloses B b)
      /\ tight s sib /\ ctx_tight s c b
  end.

Definition leaves_nonempty_of (ot : option tree) : Prop :=
  match ot with None => True | Some t => leaves_nonempty t end.

(** ** [BuildTopDown] *)

(** The node [q] is [L] levels below the node [p]; every node on the way
    has its child 0, so that [Node::IsLeaf] says it is no leaf. *)
Inductive reach (s : State) : nptr -> nptr -> nat -> Prop :=
| reach_here (p : nptr) : reach s p p 0
| reach_down (p : nptr) (n : Node) (c0 c q : nptr) (L : nat) :
    nodes s !! p = Some n -> child n 0 = Some c0 ->
    (c = c0 \/ child n 1 = Some c) ->
    reach s c q L -> reach s p q (S L).

(** Where a call of [BuildTopDown] under [parent] stands in a build whose
    root is [base]: the node it is about to create is at the level [L],
    which is one below the only level of [parent]; the tree built so far
    has the depth [D]; and [parent] has had its children filled in order. *)
Definition depth_ok (F : nat) (base : nptr) (parent : option nptr) (L : nat) (D : Z)
    (s : State) : Prop :=
  match parent with
  | None => L = O /\ D = 0%Z
  | Some p =>
      exists Lp, L = S Lp /\ reach s base p Lp
                 /\ (forall L', reach s base p L' -> L' = Lp)
                 /\ Node_Depth F s (Some base) = Ok D
                 /\ (forall pn, nodes s !! p = Some pn -> child pn 0 = None ->
                                child pn 1 = None)
  end.

(** A list in the order of the keys. *)
Fixpoint sorted_by {A : Type} (key : A -> Q) (l : list A) : Prop :=
  match l with
  | [] => True
  | x :: l' => Forall (fun y => (key x <= key y)%Q) l' /\ sorted_by key l'
  end.

(** The tree that a top-down build makes of the objects [os] for a node at
    the level [L], when the tree built before that node has the depth [D].
    The depth that the node sees, itself included, is the larger of [D]
    and [L].
    - A leaf lists the range it was given, in the order given; it was made
      because its objects are at most [minObjects], or its volume is at
      most [minVolume], or the depth seen is at least [maxDepth].
    - An internal node was given more than [minObjects] objects, has a
      volume above [minVolume] and sees a depth below [maxDepth]; its
      child 0 holds the [half_size] of its objects whose centres come
      first along the longest axis of its volume, its child 1 the others.
      Child 0 is built first, so child 1 is built on a tree that may have
      become as deep as child 0 reaches.
    - The volume of every node is the least box around its objects. *)
Inductive top_down (config : BvhBuildConfig) (s : State)
    : nat -> Z -> list optr -> tree -> Prop :=
| td_leaf (L : nat) (D : Z) (p : nptr) (b : Aabb) (os : list optr) :
    os <> [] -> least_box s b os ->
    ((Z.of_nat (length os) <= minObjects config)%Z
     \/ (volume b <= minVolume config)%Q
     \/ (maxDepth config <= Z.max D (Z.of_nat L))%Z) ->
    top_down config s L D os (TLeaf p b os)
| td_node (L : nat) (D : Z) (p : nptr) (b : Aabb) (l r : tree) (os os1 os2 : list optr) :
    least_box s b os ->
    (minObjects config < Z.of_nat (length os))%Z ->
    (minVolume config < volume b)%Q ->
    (Z.max D (Z.of_nat L) < maxDepth config)%Z ->
    Permutation os (os1 ++ os2) ->
    half_size (length os) = Ok (length os1) ->
    (forall o1 o2, In o1 os1 -> In o2 os2 ->
       (center_key s (longest_axis b) (Some o1)
        <= center_key s (longest_axis b) (Some o2))%Q) ->
    top_down config s (S L) (Z.max D (Z.of_nat L)) os1 l ->
    top_down config s (S L)
      (Z.max (Z.max D (Z.of_nat L)) (Z.of_nat (S L) + tree_depth l)) os2 r ->
    top_down config s L D os (TNode p b l r).

(** Coordinates on which the float arithmetic of the build is exact: whole
    numbers of magnitude at most 128.  The extents, the centres and the
    volume of a box around such coordinates are multiples of 1/2 of
    magnitude at most 2^24, and a float holds each of them as it is. *)
Definition small_int (x : Q) : bool :=
  (Qden (Qred x) =? 1)%positive
  && (-128 <=? Qnum (Qred x))%Z && (Qnum (Qred x) <=? 128)%Z.

Definition on_grid_vec (v : vec3) : bool :=
  small_int (vx v) && small_int (vy v) && small_int (vz v).

Definition on_grid (b : Aabb) : bool := on_grid_vec (bmin b) && on_grid_vec (bmax b).

Definition object_on_grid (s : State) (o : optr) : Prop :=
  exists ob, objects s !! o = Some ob /\ on_grid (obj_bv ob) = true.


(** * The traversals of the whole tree, and the checks of the test suite *)

(** [Bvh<T>::TraverseLevelOrder(func)] and
    [Bvh<T>::TraverseLevelOrderObjects(func)]: nothing on an empty tree. *)
Definition Bvh_TraverseLevelOrder {X : Type}
    (func : nptr -> State * X -> Res (State * X))
    (F : nat) (sx : State * X) : Res (State * X) :=
  match mRoot (fst sx) with
  | None => Ok sx
  | Some r => Node_TraverseLevelOrder func F r sx
  end.

Definition Bvh_TraverseLevelOrderObjects {X : Type}
    (func : T -> State * X -> Res (State * X))
    (F : nat) (sx : State * X) : Res (State * X) :=
  match mRoot (fst sx) with
  | None => Ok sx
  | Some r => Node_TraverseLevelOrderObjects func F r sx
  end.

(** ** Level order *)

(** The subtrees at the level [k] of a tree, from the left to the right. *)
Fixpoint tree_level (k : nat) (t : tree) : list tree :=
  match k with
  | O => [t]
  | S k =>
      match t with
      | TLeaf _ _ _ => []
      | TNode _ _ l r => tree_level k l ++ tree_level k r
      end
  end.

(** The subtrees of a tree level by level: the tree itself, its two
    children, their children, and so on. *)
Definition level_order (t : tree) : list tree :=
  flat_map (fun k => tree_level k t) (seq 0 (length (tree_nodes t))).

Definition kids (t : tree) : list tree :=
  match t with
  | TLeaf _ _ _ => []
  | TNode _ _ l r => [l; r]
  end.

(** The same for a queue of trees. *)
Definition forest_level (k : nat) (q : list tree) : list tree := flat_map (tree_level k) q.

Definition forest_order (n : nat) (q : list tree) : list tree :=
  flat_map (fun k => forest_level k q) (seq 0 n).

(** The objects a node lists itself. *)
Definition leaf_objs (t : tree) : list optr :=
  match t with
  | TLeaf _ _ os => os
  | TNode _ _ _ _ => []
  end.

(** The objects of a tree in the order of the level-order walk. *)
Definition level_order_objs (t : tree) : list optr := flat_map leaf_objs (level_order t).

(** What a lambda that leaves the heap alone makes of its captures when it
    is called on the root of [t], or on the object [o]. *)
Definition visit {X : Type} (g : nptr -> X -> X) (x : X) (t : tree) : X :=
  g (tree_ptr t) x.
Definition meet {X : Type} (g : optr -> X -> X) (x : X) (o : optr) : X := g o x.

(** A lambda that records the nodes it is called on. *)
Definition record_node (nd : nptr) (sx : State * list nptr) : Res (State * list nptr) :=
  Ok (fst sx, snd sx ++ [nd]).

(** ** The helpers of the test suite *)

(** [BvhFlatMap(n)]: the ids that [n->TraverseLevelOrderObjects] meets; the
    lambda is the one of [Query], [objectsIds.push_back(object->id)]. *)
Definition BvhFlatMap (F : nat) (s : State) (n : option nptr) : Res (list Z) :=
  match n with
  | None => UB
  | Some p =>
      sx <- Node_TraverseLevelOrderObjects retrieveIds F p (s, []) ;;
      Ok (snd sx)
  end.

(** The first lambda of [AssertProperNodes]: a leaf lists objects, a node
    that is no leaf lists none.  The flag is false once an assertion has
    failed. *)
Definition check_object_count (F : nat) (nd : nptr) (sx : State * bool)
    : Res (State * bool) :=
  n <- get_node (fst sx) (Some nd) ;;
  c <- ObjectCount F (fst sx) (Some nd) ;;
  Ok (fst sx, snd sx && (if IsLeaf n then (0 <? c)%Z else (c =? 0)%Z)).

(** The second lambda: the volume of a node that is no leaf encloses the
    volume of [children[0]] and of [children[1]]; a failed assertion leaves
    the lambda. *)
Definition check_containment (nd : nptr) (sx : State * bool) : Res (State * bool) :=
  n <- get_node (fst sx) (Some nd) ;;
  if IsLeaf n then Ok sx else
  c0 <- get_node (fst sx) (child n 0) ;;
  if negb (enclosesb (bv n) (bv c0)) then Ok (fst sx, false) else
  c1 <- get_node (fst sx) (child n 1) ;;
  Ok (fst sx, snd sx && enclosesb (bv n) (bv c1)).

(** [AssertProperNodes(bvh)]: true when no assertion has failed. *)
Definition AssertProperNodes (F : nat) (s : State) : Res bool :=
  sx <- Bvh_TraverseLevelOrder (check_object_count F) F (s, true) ;;
  sx <- Bvh_TraverseLevelOrder check_containment F sx ;;
  Ok (snd sx).

(** The first loop of [AssertAllAccountedFor]: no id comes twice.  [None]
    is a failed assertion. *)
Fixpoint no_id_twice (visibleBvhSet : gset Z) (bvhIds : list Z) : option (gset Z) :=
  match bvhIds with
  | [] => Some visibleBvhSet
  | id :: bvhIds =>
      if bool_decide (id ∈ visibleBvhSet) then None
      else no_id_twice (visibleBvhSet ∪ {[ id ]}) bvhIds
  end.

(** The second loop: every object of [allObjects] has its id in the set. *)
Fixpoint all_in_set (s : State) (visibleBvhSet : gset Z) (allObjects : list T)
    : Res bool :=
  match allObjects with
  | [] => Ok true
  | obj :: allObjects =>
      o <- get_obj s obj ;;
      if bool_decide (obj_id o ∈ visibleBvhSet)
      then all_in_set s visibleBvhSet allObjects
      else Ok false
  end.

(** [AssertAllAccountedFor(bvh, allObjects)] *)
Definition AssertAllAccountedFor (F : nat) (s : State) (allObjects : list T) : Res bool :=
  bvhIds <- BvhFlatMap F s (root s) ;;
  match no_id_twice ∅ bvhIds with
  | None => Ok false
  | Some visibleBvhSet => all_in_set s visibleBvhSet allObjects
  end.

(** ** What a call leaves of the objects *)

(** The objects of the two heaps are the same but for their [bvhInfo]. *)
Definition same_payload (s s' : State) : Prop :=
  forall q, obj_id <$> objects s' !! q = obj_id <$> objects s !! q
            /\ obj_bv <$> objects s' !! q = obj_bv <$> objects s !! q.

(** ** Calls of the public interface *)

Inductive api_call : Type :=
| ABuildTopDown (range : list T) (parentNode : option nptr)
| AInsert (object : T)
| AInsertRange (range : list T)
| AClear.

Definition run_api (F : nat) (config : BvhBuildConfig) (c : api_call) (s : State)
    : Res State :=
  match c with
  | ABuildTopDown range parentNode => BuildTopDown F range config parentNode s
  | AInsert object => Insert F object config s
  | AInsertRange range => Insert_range F range config s
  | AClear => Clear F s
  end.

(** * Proofs *)

(** ** Results *)

Lemma bindR_Ok {A B : Type} (e : Res A) (k : A -> Res B) (b : B) :
  bindR e k = Ok b -> exists a, e = Ok a /\ k a = Ok b.
Proof. destruct e; simpl; intros H; try discriminate; eauto. Qed.

Lemma bindR_Ok_intro {A B : Type} (e : Res A) (k : A -> Res B) (a : A) :
  e = Ok a -> bindR e k = k a.
Proof. intros ->. reflexivity. Qed.

(** One step of the inversion of a successful run. *)
Ltac res_step :=
  match goal with
  | H : Ok _ = Ok _ |- _ => injection H as H
  | H : @UB _ = Ok _ |- _ => discriminate H
  | H : @Throw _ = Ok _ |- _ => discriminate H
  | H : @OutOfFuel _ = Ok _ |- _ => discriminate H
  | H : bindR ?e _ = Ok _ |- _ =>
      let a := fresh "a" in
      let E := fresh "E" in
      destruct e as [a| | |] eqn:E; simpl in H; [|discriminate H ..]
  | H : match ?x with _ => _ end = Ok _ |- _ => destruct x eqn:?
  end.

Ltac res_inv := repeat (res_step; simpl in *; subst).

(** ** Loads and stores, inverted *)

Lemma get_obj_Ok s p o :
  get_obj s p = Ok o <-> exists a, p = Some a /\ objects s !! a = Some o.
Proof.
  unfold get_obj. split.
  - intros H. res_inv. eauto.
  - intros (a & -> & ->). reflexivity.
Qed.

Lemma get_node_Ok s p n :
  get_node s p = Ok n <-> exists a, p = Some a /\ nodes s !! a = Some n.
Proof.
  unfold get_node. split.
  - intros H. res_inv. eauto.
  - intros (a & -> & ->). reflexivity.
Qed.

Lemma upd_obj_Ok p f s s' :
  upd_obj p f s = Ok s' <->
  exists a o, p = Some a /\ objects s !! a = Some o
              /\ s' = with_objects (insert a (f o)) s.
Proof.
  unfold upd_obj. split.
  - intros H. res_inv. eauto.
  - intros (a & o & -> & -> & ->). reflexivity.
Qed.

Lemma upd_node_Ok p f s s' :
  upd_node p f s = Ok s' <->
  exists a n, p = Some a /\ nodes s !! a = Some n
              /\ s' = with_nodes (insert a (f n)) s.
Proof.
  unfold upd_node. split.
  - intros H. res_inv. eauto.
  - intros (a & n & -> & -> & ->). reflexivity.
Qed.

Lemma delete_Node_Ok a s s' :
  delete_Node (Some a) s = Ok s' <->
  exists n, nodes s !! a = Some n /\ s' = with_nodes (delete a) s.
Proof.
  unfold delete_Node. split.
  - intros H. res_inv. eauto.
  - intros (n & -> & ->). reflexivity.
Qed.

Global Arguments get_obj : simpl never.
Global Arguments get_node : simpl never.
Global Arguments upd_obj : simpl never.
Global Arguments upd_node : simpl never.
Global Arguments delete_Node : simpl never.
Global Arguments AddObject : simpl never.
Global Arguments wrap32 : simpl never.

(** Replace successful loads and stores by what they say. *)
Ltac prim_inv :=
  repeat match goal with
         | H : get_obj _ _ = Ok _ |- _ =>
             apply get_obj_Ok in H; destruct H as (? & ? & H)
         | H : get_node _ _ = Ok _ |- _ =>
             apply get_node_Ok in H; destruct H as (? & ? & H)
         | H : upd_obj _ _ _ = Ok _ |- _ =>
             apply upd_obj_Ok in H; destruct H as (? & ? & ? & ? & H)
         | H : upd_node _ _ _ = Ok _ |- _ =>
             apply upd_node_Ok in H; destruct H as (? & ? & ? & ? & H)
         | H : delete_Node (Some _) _ = Ok _ |- _ =>
             apply delete_Node_Ok in H; destruct H as (? & ? & H)
         end.

(** ** The object counter *)

Lemma AddObject_count this object s s' :
  AddObject this object s = Ok s' -> same_count s s'.
Proof.
  unfold AddObject, same_count. intros H.
  res_inv; prim_inv; subst; reflexivity.
Qed.

Lemma commit_path_count path s s' :
  commit_path path s = Ok s' -> same_count s s'.
Proof.
  unfold same_count. revert s. induction path as [|nc path IH]; simpl; intros s H.
  - congruence.
  - res_inv. apply IH in H. prim_inv. subst. exact H.
Qed.

Lemma Insert_append_count path leaf object s s' :
  Insert_append path leaf object s = Ok s' -> same_count s s'.
Proof.
  unfold Insert_append, same_count. intros H. res_inv.
  apply commit_path_count in E. apply AddObject_count in H.
  unfold same_count in *. congruence.
Qed.

Lemma Insert_create_count path idx object s s' :
  Insert_create path idx object s = Ok s' -> same_count s s'.
Proof.
  unfold Insert_create, same_count. intros H.
  res_inv;
    repeat match goal with
           | E : commit_path _ _ = Ok _ |- _ => apply commit_path_count in E
           | E : AddObject _ _ _ = Ok _ |- _ => apply AddObject_count in E
           end;
    prim_inv; unfold same_count in *; subst; simpl in *; congruence.
Qed.

(** The counter after one [Insert] that returns. *)
Lemma Insert_objectCount F object config s s' :
  Insert F object config s = Ok s' ->
  objectCount s' = wrap32 (objectCount s + 1).
Proof.
  unfold Insert, objectCount. simpl. intros H.
  destruct (mRoot s) eqn:Hr.
  - res_inv.
    + apply Insert_append_count in H. unfold same_count in H. simpl in H. exact H.
    + apply Insert_create_count in H. unfold same_count in H. simpl in H. exact H.
  - res_inv. apply AddObject_count in H. unfold same_count in H. simpl in H. exact H.
Qed.

Lemma wrap32_add_l a b : wrap32 (wrap32 a + b) = wrap32 (a + b).
Proof. unfold wrap32. apply Zplus_mod_idemp_l. Qed.

Lemma wrap32_small z : (0 <= z < 4294967296)%Z -> wrap32 z = z.
Proof. unfold wrap32. apply Z.mod_small. Qed.

Lemma Insert_range_objectCount F range config s s' :
  wrap32 (objectCount s) = objectCount s ->
  Insert_range F range config s = Ok s' ->
  objectCount s' = wrap32 (objectCount s + Z.of_nat (length range)).
Proof.
  revert s. induction range as [|it range IH]; intros s Hw H.
  - simpl in H. res_inv. simpl. rewrite Z.add_0_r. symmetry. exact Hw.
  - simpl in H. res_inv. pose proof (Insert_objectCount _ _ _ _ _ E) as Hc.
    rewrite (IH a); auto.
    + rewrite Hc, wrap32_add_l. f_equal. simpl length. lia.
    + rewrite Hc. unfold wrap32. apply Z.mod_mod. lia.
Qed.

(** C10 (as amended).  Every single-object [Insert] that returns leaves
    [objectCount()] at the old value plus one modulo 2^32, whatever branch it
    takes; so after [n] single inserts into an initially empty tree the
    counter is [n] modulo 2^32, which is [n] as long as [n < 2^32], also when
    a handle is inserted more than once. *)
Theorem Insert_counts_modulo (F : nat) (config : BvhBuildConfig) :
  (forall object s s',
      Insert F object config s = Ok s' ->
      objectCount s' = wrap32 (objectCount s + 1))
  /\ (forall range s s',
         objectCount s = 0%Z ->
         Insert_range F range config s = Ok s' ->
         objectCount s' = wrap32 (Z.of_nat (length range))
         /\ ((Z.of_nat (length range) < 4294967296)%Z ->
             objectCount s' = Z.of_nat (length range))).
Proof.
  split.
  - intros object s s'. apply Insert_objectCount.
  - intros range s s' H0 H.
    pose proof (Insert_range_objectCount F range config s s') as Hc.
    rewrite H0 in Hc. specialize (Hc eq_refl H). simpl in Hc.
    split; [exact Hc|]. intros Hn. rewrite Hc. apply wrap32_small. lia.
Qed.

(** Three inserts, the first handle twice: the counter is 3. *)
Lemma Insert_counts_modulo_witness :
  exists s',
    Insert_range 10 [Some 0; Some 1; Some 0] default_config
                 (scene_of [unit_box; box 5 0 0 6 1 1]) = Ok s'
    /\ objectCount s' = 3%Z.
Proof.
  destruct (Insert_range 10 [Some 0; Some 1; Some 0] default_config
              (scene_of [unit_box; box 5 0 0 6 1 1])) as [s'| | |] eqn:E;
    try (vm_compute in E; discriminate E).
  exists s'. split; [reflexivity|].
  destruct (proj2 (Insert_counts_modulo 10 default_config)
              [Some 0; Some 1; Some 0] (scene_of [unit_box; box 5 0 0 6 1 1]) s'
              eq_refl E) as [_ H].
  apply H. simpl. lia.
Defined.

(** Inserting the handle of a one-object tree again changes the counter only. *)
Lemma Insert_again_single_leaf c :
  Insert 10 (Some 0) default_config (single_leaf c)
  = Ok (single_leaf (wrap32 (c + 1))).
Proof.
  unfold Insert, incr_mObjectCount, single_leaf.
  cbn [mRoot mObjectCount with_mObjectCount nodes objects next_node].
  generalize (wrap32 (c + 1)). intros d. vm_compute. reflexivity. Qed.

Lemma Insert_range_single_leaf n c :
  wrap32 c = c ->
  Insert_range 10 (replicate n (Some 0)) default_config (single_leaf c)
  = Ok (single_leaf (wrap32 (c + Z.of_nat n))).
Proof.
  revert c. induction n as [|n IH]; intros c Hc.
  - simpl. rewrite Z.add_0_r, Hc. reflexivity.
  - change (replicate (S n) (Some 0)) with (Some 0 :: replicate n (Some 0)).
    cbn [Insert_range]. rewrite Insert_again_single_leaf. cbn [bindR].
    rewrite IH.
    + rewrite wrap32_add_l. do 3 f_equal. lia.
    + unfold wrap32. apply Z.mod_mod. lia.
Qed.

(** C10, the counterexample: 2^32 inserts of one handle into an empty tree
    leave the counter at 0, not at 2^32. *)
Lemma Insert_counter_wraps :
  objectCount_after 10 (replicate (Z.to_nat 4294967296) (Some 0)) default_config
                    (scene_of [unit_box]) = Ok 0%Z.
Proof.
  assert (Hn : exists m, Z.to_nat 4294967296 = S m /\ Z.of_nat m = 4294967295%Z).
  { exists (Z.to_nat 4294967295). split.
    - rewrite <- Z2Nat.inj_succ by (apply Z.leb_le; reflexivity). reflexivity.
    - apply Z2Nat.id. apply Z.leb_le. reflexivity. }
  destruct Hn as (m & -> & Hm).
  unfold objectCount_after.
  change (replicate (S m) (Some 0)) with (Some 0 :: replicate m (Some 0)).
  cbn [Insert_range].
  assert (H1 : Insert 10 (Some 0) default_config (scene_of [unit_box])
               = Ok (single_leaf 1)) by (vm_compute; reflexivity).
  rewrite H1. cbn [bindR].
  rewrite Insert_range_single_leaf by reflexivity.
  cbn [bindR]. unfold objectCount, single_leaf. cbn [mObjectCount].
  rewrite Hm. reflexivity.
Qed.

(** ** The collapse scenario *)

(** C6 (as amended).  Under the configuration the test suite builds with
    ([cTopDownConfig]: max_depth = UINT_MAX, min_objects = 20,
    min_volume = 250), 500 objects with the volume ([0,0,0],[1,1,1]) give
    depth 0 and size 1: one root leaf that lists all 500 objects. *)
Theorem corner_case_collapses_under_test_config :
  depth_and_size_after_build 1000 (handles 500) cTopDownConfig corner_case
  = Ok (0%Z, 1%Z)
  /\ root_objects_after_build 1000 (handles 500) cTopDownConfig corner_case
     = Ok (seq 0 500).
Proof. split; vm_compute; reflexivity. Qed.

(** C6, the counterexample: with the default configuration (min_objects =
    10, min_volume = 0) the same build splits down to leaves of at most 10
    objects; the tree has depth 6 and 127 nodes. *)
Lemma corner_case_splits_under_default_config :
  depth_and_size_after_build 1000 (handles 500) default_config corner_case
  = Ok (6%Z, 127%Z).
Proof. vm_compute. reflexivity. Qed.

(** ** [AddObject] on an object that has neighbours *)

(** C7, the code at the failing input.  Node 0 lists the objects 0, 1, 2,
    all linked both ways.  Moving the middle object 1 to the empty leaf 1
    leaves node 0 with the list 0, 2 in which [2.prev] is null, so
    [0.next.prev] is not 0.  Moving the head object 0 instead leaves it
    listed by node 0 ([firstObject] still points to it) while it belongs to
    node 1, and objects 1 and 2 are no longer reached from node 0. *)
Theorem AddObject_breaks_links :
  list_report 10 three_in_a_row 0
  = Ok [(0, Some 0, true); (1, Some 0, true); (2, Some 0, true)]
  /\ (s' <- AddObject 1 (Some 1) three_in_a_row ;; list_report 10 s' 0)
     = Ok [(0, Some 0, false); (2, Some 0, true)]
  /\ (s' <- AddObject 1 (Some 0) three_in_a_row ;; list_report 10 s' 0)
     = Ok [(0, Some 1, true)].
Proof. repeat split; vm_compute; reflexivity. Qed.

(** ** A third child *)

Lemma bounding_pass_Ok s range :
  Forall (fun it => exists o, get_obj s it = Ok o) range ->
  forall maxPoint minPoint count,
  exists r, bounding_pass s range maxPoint minPoint count = Ok r.
Proof.
  induction 1 as [|it range [o Ho] _ IH]; intros maxPoint minPoint count; simpl.
  - eauto.
  - rewrite Ho. simpl. apply IH.
Qed.

(** C9.  A top-down build of a non-empty range under a parent whose two
    child slots are taken throws; nothing is attached. *)
Theorem BuildTopDown_third_child_throws
    (F : nat) (b : optr) (rest : list T) (config : BvhBuildConfig)
    (p : nptr) (pn : Node) (c0 c1 : nptr) (s : State) :
  (0 < F)%nat ->
  Forall (fun it => exists o, get_obj s it = Ok o) (Some b :: rest) ->
  nodes s !! p = Some pn ->
  (p < next_node s)%nat ->
  child pn 0 = Some c0 ->
  child pn 1 = Some c1 ->
  BuildTopDown F (Some b :: rest) config (Some p) s = Throw.
Proof.
  intros HF Hrange Hp Hlt H0 H1.
  unfold BuildTopDown. destruct F as [|F]; [lia|]. cbn [BuildTopDown_rec].
  inversion Hrange as [|? ? [o Ho] Hrest]; subst.
  rewrite Ho. cbn [bindR].
  destruct (bounding_pass_Ok s rest Hrest (bmax (obj_bv o)) (bmin (obj_bv o)) 1%Z)
    as [r Hr].
  rewrite Hr. cbn [bindR].
  assert (Hget : get_node (snd (new_Node
                   (mkAabb (snd (fst r)) (fst (fst r))) s)) (Some p) = Ok pn).
  { apply get_node_Ok. exists p. split; [reflexivity|]. simpl.
    rewrite lookup_insert_ne by lia. exact Hp. }
  rewrite Hget. cbn [bindR]. rewrite H0, H1.
  unfold delete_Node. simpl. rewrite lookup_insert_eq. reflexivity.
Qed.

(** The root of [full_parent] has both children; building object 0 under
    it throws. *)
Lemma BuildTopDown_third_child_throws_witness :
  BuildTopDown 5 (handles 1) default_config (Some 0) full_parent = Throw.
Proof.
  apply (BuildTopDown_third_child_throws 5 0 [] default_config 0
           (mkNode unit_box (Some 1, Some 2) None None) 1 2 full_parent).
  - lia.
  - repeat constructor. eexists. vm_compute. reflexivity.
  - vm_compute. reflexivity.
  - vm_compute. lia.
  - reflexivity.
  - reflexivity.
Defined.

(** ** Enclosure *)

Lemma vle_refl a : vle a a.
Proof. unfold vle. repeat split; apply Qle_refl. Qed.

Lemma vle_trans a b c : vle a b -> vle b c -> vle a c.
Proof. unfold vle. intros (?&?&?) (?&?&?). repeat split; eapply Qle_trans; eauto. Qed.

Lemma encloses_refl a : encloses a a.
Proof. split; apply vle_refl. Qed.

Lemma encloses_trans a b c : encloses a b -> encloses b c -> encloses a c.
Proof. intros [? ?] [? ?]. split; eapply vle_trans; eauto. Qed.

Lemma Qltb_lt a b : Qltb a b = true <-> (a < b)%Q.
Proof.
  unfold Qltb. rewrite negb_true_iff. split; intros H.
  - apply Qnot_le_lt. intros Hle. apply Qle_bool_iff in Hle. congruence.
  - destruct (Qle_bool b a) eqn:E; [|reflexivity].
    apply Qle_bool_iff in E. exfalso. apply (Qlt_not_le _ _ H). exact E.
Qed.

Lemma Qltb_ge a b : Qltb a b = false <-> (b <= a)%Q.
Proof.
  unfold Qltb. rewrite negb_false_iff. apply Qle_bool_iff.
Qed.

Lemma Qle_bool_false a b : Qle_bool a b = false <-> (b < a)%Q.
Proof.
  split; intros H.
  - apply Qnot_le_lt. intros Hle. apply Qle_bool_iff in Hle. congruence.
  - destruct (Qle_bool a b) eqn:E; [|reflexivity].
    apply Qle_bool_iff in E. exfalso. apply (Qlt_not_le _ _ H). exact E.
Qed.

Lemma fmin_le_l x y : (fmin x y <= x)%Q.
Proof.
  unfold fmin. destruct (Qltb y x) eqn:E.
  - apply Qltb_lt in E. apply Qlt_le_weak. exact E.
  - apply Qle_refl.
Qed.

Lemma fmin_le_r x y : (fmin x y <= y)%Q.
Proof.
  unfold fmin. destruct (Qltb y x) eqn:E.
  - apply Qle_refl.
  - apply Qltb_ge in E. exact E.
Qed.

Lemma fmax_ge_l x y : (x <= fmax x y)%Q.
Proof.
  unfold fmax. destruct (Qltb x y) eqn:E.
  - apply Qltb_lt in E. apply Qlt_le_weak. exact E.
  - apply Qle_refl.
Qed.

Lemma fmax_ge_r x y : (y <= fmax x y)%Q.
Proof.
  unfold fmax. destruct (Qltb x y) eqn:E.
  - apply Qle_refl.
  - apply Qltb_ge in E. exact E.
Qed.

Lemma fmin_glb x y z : (z <= x)%Q -> (z <= y)%Q -> (z <= fmin x y)%Q.
Proof. unfold fmin. destruct (Qltb y x); auto. Qed.

Lemma fmax_lub x y z : (x <= z)%Q -> (y <= z)%Q -> (fmax x y <= z)%Q.
Proof. unfold fmax. destruct (Qltb x y); auto. Qed.

Lemma vmin_le_l a b : vle (vmin a b) a.
Proof. unfold vle, vmin; simpl. repeat split; apply fmin_le_l. Qed.
Lemma vmin_le_r a b : vle (vmin a b) b.
Proof. unfold vle, vmin; simpl. repeat split; apply fmin_le_r. Qed.
Lemma vmax_ge_l a b : vle a (vmax a b).
Proof. unfold vle, vmax; simpl. repeat split; apply fmax_ge_l. Qed.
Lemma vmax_ge_r a b : vle b (vmax a b).
Proof. unfold vle, vmax; simpl. repeat split; apply fmax_ge_r. Qed.

Lemma vmin_glb a b c : vle c a -> vle c b -> vle c (vmin a b).
Proof.
  unfold vle, vmin; simpl. intros (?&?&?) (?&?&?).
  repeat split; apply fmin_glb; assumption.
Qed.

Lemma vmax_lub a b c : vle a c -> vle b c -> vle (vmax a b) c.
Proof.
  unfold vle, vmax; simpl. intros (?&?&?) (?&?&?).
  repeat split; apply fmax_lub; assumption.
Qed.

(** The merged volume encloses both arguments, and is the least such. *)
Lemma Aabb_merge_l a b : encloses (Aabb_merge a b) a.
Proof. split; simpl; [apply vmin_le_l | apply vmax_ge_l]. Qed.

Lemma Aabb_merge_r a b : encloses (Aabb_merge a b) b.
Proof. split; simpl; [apply vmin_le_r | apply vmax_ge_r]. Qed.

Lemma Aabb_merge_lub a b c :
  encloses c a -> encloses c b -> encloses c (Aabb_merge a b).
Proof.
  intros [? ?] [? ?]. split; simpl; [apply vmin_glb | apply vmax_lub]; assumption.
Qed.

Lemma Aabb_merge_mono a a' b :
  encloses a' a -> encloses (Aabb_merge a' b) (Aabb_merge a b).
Proof.
  intros H. apply Aabb_merge_lub.
  - eapply encloses_trans; [apply Aabb_merge_l | exact H].
  - apply Aabb_merge_r.
Qed.

(** ** What the heap says about a tree, and what it does not depend on *)

Lemma olist_lookup s leaf pv os o :
  olist s leaf pv os -> In o os -> exists ob, objects s !! o = Some ob.
Proof.
  revert pv. induction os as [|x os IH]; simpl; intros pv H Hin; [contradiction|].
  destruct H as [Hx Hrest]. destruct Hin as [->|Hin].
  - destruct (objects s !! o) as [ob|]; [eauto | discriminate Hx].
  - eapply IH; eauto.
Qed.

Lemma olist_node s leaf pv os o ob :
  olist s leaf pv os -> In o os -> objects s !! o = Some ob ->
  node (bvhInfo ob) = Some leaf.
Proof.
  revert pv. induction os as [|x os IH]; simpl; intros pv H Hin Hob; [contradiction|].
  destruct H as [Hx Hrest]. destruct Hin as [->|Hin].
  - rewrite Hob in Hx. simpl in Hx. injection Hx as Hx. rewrite Hx. reflexivity.
  - eapply IH; eauto.
Qed.

Lemma olist_frame s s' leaf pv os :
  (forall o, In o os -> bvhInfo <$> objects s' !! o = bvhInfo <$> objects s !! o) ->
  olist s leaf pv os -> olist s' leaf pv os.
Proof.
  revert pv. induction os as [|x os IH]; simpl; intros pv Hf H; [exact I|].
  destruct H as [Hx Hrest]. split.
  - rewrite Hf by auto. exact Hx.
  - apply IH; auto.
Qed.

Lemma shape_frame s s' t :
  (forall p, In p (tree_nodes t) -> nodes s' !! p = nodes s !! p) ->
  (forall o, In o (tree_objs t) ->
             bvhInfo <$> objects s' !! o = bvhInfo <$> objects s !! o) ->
  shape s t -> shape s' t.
Proof.
  induction t as [p b os | p b l IHl r IHr]; simpl; intros Hn Ho H.
  - destruct H as [Hp Hl]. split.
    + rewrite Hn by auto. exact Hp.
    + eapply olist_frame; eauto.
  - destruct H as (Hp & Hl & Hr). split; [|split].
    + rewrite Hn by auto. exact Hp.
    + apply IHl; auto.
      * intros q Hq. apply Hn. right. apply in_or_app. auto.
      * intros o Hin. apply Ho. apply in_or_app. auto.
    + apply IHr; auto.
      * intros q Hq. apply Hn. right. apply in_or_app. auto.
      * intros o Hin. apply Ho. apply in_or_app. auto.
Qed.

Lemma shape_root s t :
  shape s t -> exists n, nodes s !! tree_ptr t = Some n /\ bv n = tree_bv t.
Proof. destruct t; simpl; intros H; destruct H as [H _]; eauto. Qed.

Lemma shape_lookup s t o :
  shape s t -> In o (tree_objs t) -> exists ob, objects s !! o = Some ob.
Proof.
  induction t as [p b os | p b l IHl r IHr]; simpl; intros H Hin.
  - destruct H as [_ H]. eapply olist_lookup; eauto.
  - destruct H as (_ & Hl & Hr). apply in_app_or in Hin. destruct Hin; auto.
Qed.

Lemma contained_frame s s' t :
  (forall o, In o (tree_objs t) ->
             obj_bv <$> objects s' !! o = obj_bv <$> objects s !! o) ->
  contained s t -> contained s' t.
Proof.
  induction t as [p b os | p b l IHl r IHr]; simpl; intros Hf H.
  - rewrite List.Forall_forall in *. intros o Hin. specialize (H o Hin).
    specialize (Hf o Hin). unfold obj_enclosed in *.
    destruct (objects s !! o) as [ob|]; [|contradiction]. simpl in Hf.
    destruct (objects s' !! o) as [ob'|]; [|discriminate Hf].
    simpl in Hf. injection Hf as ->. exact H.
  - destruct H as (H1 & H2 & Hl & Hr).
    split; [exact H1|]. split; [exact H2|]. split.
    + apply IHl; auto; intros; apply Hf; apply in_or_app; auto.
    + apply IHr; auto; intros; apply Hf; apply in_or_app; auto.
Qed.

(** Every object of a contained tree lies inside the root volume. *)
Lemma contained_objs s t o :
  contained s t -> In o (tree_objs t) -> obj_enclosed s (tree_bv t) o.
Proof.
  induction t as [p b os | p b l IHl r IHr]; simpl; intros H Hin.
  - rewrite List.Forall_forall in H. auto.
  - destruct H as (H1 & H2 & Hl & Hr). apply in_app_or in Hin.
    destruct Hin as [Hin|Hin].
    + specialize (IHl Hl Hin). unfold obj_enclosed in *.
      destruct (objects s !! o); [|contradiction].
      eapply encloses_trans; [exact H1 | exact IHl].
    + specialize (IHr Hr Hin). unfold obj_enclosed in *.
      destruct (objects s !! o); [|contradiction].
      eapply encloses_trans; [exact H2 | exact IHr].
Qed.

(** ** Depth and size *)

Lemma IsLeaf_leaf b f l : IsLeaf (mkNode b (None, None) f l) = true.
Proof. reflexivity. Qed.

Lemma Node_Depth_shape s t :
  shape s t ->
  forall fuel, (length (tree_nodes t) <= fuel)%nat ->
  Node_Depth fuel s (Some (tree_ptr t)) = Ok (tree_depth t).
Proof.
  induction t as [p b os | p b l IHl r IHr]; simpl; intros H fuel Hf.
  - destruct H as [Hp _]. destruct fuel as [|fuel]; [lia|]. simpl.
    unfold get_node. rewrite Hp. reflexivity.
  - destruct H as (Hp & Hl & Hr). destruct fuel as [|fuel]; [lia|]. simpl.
    unfold get_node. rewrite Hp. simpl.
    rewrite length_app in Hf.
    unfold child; simpl.
    rewrite IHl by (auto; lia). simpl. rewrite IHr by (auto; lia). reflexivity.
Qed.

Lemma tree_size_least t : (1 <= tree_size t)%Z.
Proof. induction t; simpl; lia. Qed.

(** [Node::Size] on a tree of at most [INT_MAX] nodes: no sum overflows. *)
Lemma Node_Size_shape s t :
  shape s t -> (tree_size t <= INT_MAX)%Z ->
  forall fuel, (length (tree_nodes t) <= fuel)%nat ->
  Node_Size fuel s (Some (tree_ptr t)) = Ok (tree_size t).
Proof.
  induction t as [p b os | p b l IHl r IHr]; simpl; intros H Hmax fuel Hf.
  - destruct H as [Hp _]. destruct fuel as [|fuel]; [lia|]. simpl.
    unfold get_node. rewrite Hp. reflexivity.
  - destruct H as (Hp & Hl & Hr). destruct fuel as [|fuel]; [lia|].
    cbn [Node_Size]. unfold get_node. rewrite Hp. cbn [bindR].
    rewrite length_app in Hf.
    pose proof (tree_size_least l). pose proof (tree_size_least r).
    unfold IsLeaf, child. cbn [children fst snd Z.eqb].
    rewrite IHl by (auto; lia). cbn [bindR].
    destruct (INT_MAX <? 1 + tree_size l)%Z eqn:E0; [apply Z.ltb_lt in E0; lia|].
    rewrite IHr by (auto; lia). cbn [bindR].
    destruct (INT_MAX <? 1 + tree_size l + tree_size r)%Z eqn:E1;
      [apply Z.ltb_lt in E1; lia | reflexivity].
Qed.

(** ** Reading the heap of a tree *)

Lemma get_obj_Some s o ob : objects s !! o = Some ob -> get_obj s (Some o) = Ok ob.
Proof. intros H. apply get_obj_Ok. eauto. Qed.

Lemma get_node_Some s p n : nodes s !! p = Some n -> get_node s (Some p) = Ok n.
Proof. intros H. apply get_node_Ok. eauto. Qed.

Lemma olist_cons_inv s leaf pv o rest :
  olist s leaf pv (o :: rest) ->
  exists ob, objects s !! o = Some ob
             /\ bvhInfo ob = mkBvhInfo (head rest) pv (Some leaf)
             /\ olist s leaf (Some o) rest.
Proof.
  simpl. intros [Hx Hrest].
  destruct (objects s !! o) as [ob|]; [|discriminate Hx].
  simpl in Hx. injection Hx as Hx. eauto.
Qed.

Lemma obj_ids_app s a b : obj_ids s (a ++ b) = obj_ids s a ++ obj_ids s b.
Proof.
  induction a as [|o a IH]; simpl; [reflexivity|].
  destruct (objects s !! o); simpl; rewrite IH; reflexivity.
Qed.

Lemma obj_ids_perm s a b : Permutation a b -> Permutation (obj_ids s a) (obj_ids s b).
Proof.
  induction 1 as [|x a b _ IH|x y a|a b c _ IH1 _ IH2]; simpl.
  - constructor.
  - destruct (objects s !! x); [constructor|]; exact IH.
  - destruct (objects s !! x), (objects s !! y); try reflexivity. apply perm_swap.
  - etransitivity; eauto.
Qed.

Lemma forest_nodes_cons t q : forest_nodes (t :: q) = tree_nodes t ++ forest_nodes q.
Proof. reflexivity. Qed.

Lemma forest_objs_cons t q : forest_objs (t :: q) = tree_objs t ++ forest_objs q.
Proof. reflexivity. Qed.

Lemma forest_nodes_app a b : forest_nodes (a ++ b) = forest_nodes a ++ forest_nodes b.
Proof. unfold forest_nodes. rewrite map_app, concat_app. reflexivity. Qed.

Lemma forest_objs_app a b : forest_objs (a ++ b) = forest_objs a ++ forest_objs b.
Proof. unfold forest_objs. rewrite map_app, concat_app. reflexivity. Qed.

(** ** The level-order walk that collects ids *)

Lemma walk_objects_retrieve s leaf os :
  forall pv F ids,
  olist s leaf pv os -> (length os <= F)%nat ->
  walk_objects retrieveIds F (head os) (s, ids) = Ok (s, ids ++ obj_ids s os).
Proof.
  induction os as [|o rest IH]; intros pv F ids Hl HF.
  - simpl. rewrite app_nil_r. destruct F; reflexivity.
  - apply olist_cons_inv in Hl. destruct Hl as (ob & Hob & Hinfo & Hrest).
    simpl in HF. destruct F as [|F]; [lia|].
    cbn [head walk_objects fst]. rewrite (get_obj_Some _ _ _ Hob). cbn [bindR].
    unfold retrieveIds at 1. cbn [fst snd]. rewrite (get_obj_Some _ _ _ Hob).
    cbn [bindR]. rewrite Hinfo. cbn [next].
    rewrite (IH (Some o) F) by (auto; lia).
    simpl. rewrite Hob. rewrite <- app_assoc. reflexivity.
Qed.

Lemma TraverseLevelOrderObjects_retrieve s F :
  forall fuel queue ids,
  Forall (shape s) queue ->
  (length (forest_objs queue) <= F)%nat ->
  (length (forest_nodes queue) <= fuel)%nat ->
  exists out,
    TraverseLevelOrderObjects_loop retrieveIds F fuel (map tree_ptr queue) (s, ids)
    = Ok (s, ids ++ out)
    /\ Permutation out (obj_ids s (forest_objs queue)).
Proof.
  induction fuel as [|fuel IH]; intros queue ids Hs HF Hfuel.
  - destruct queue as [|t queue].
    + exists []. simpl. rewrite app_nil_r. split; [reflexivity|constructor].
    + rewrite forest_nodes_cons, length_app in Hfuel.
      destruct t; simpl in Hfuel; lia.
  - destruct queue as [|t queue].
    + exists []. simpl. rewrite app_nil_r. split; [reflexivity|constructor].
    + inversion Hs as [|? ? Ht Hq]; subst.
      rewrite forest_nodes_cons, length_app in Hfuel.
      rewrite forest_objs_cons, length_app in HF.
      destruct t as [p b os | p b l r].
      * simpl in Ht. destruct Ht as [Hp Hl].
        cbn [map tree_ptr TraverseLevelOrderObjects_loop fst].
        rewrite (get_node_Some _ _ _ Hp). cbn [bindR].
        unfold child. cbn [children fst snd Z.eqb].
        rewrite IsLeaf_leaf. cbn [negb firstObject].
        rewrite (walk_objects_retrieve s p os None F ids Hl) by (simpl in HF; lia).
        cbn [bindR].
        destruct (IH queue (ids ++ obj_ids s os) Hq) as (out & Hrun & Hperm);
          [lia | simpl in Hfuel; lia |].
        exists (obj_ids s os ++ out). split.
        -- rewrite Hrun. rewrite app_assoc. reflexivity.
        -- rewrite forest_objs_cons, obj_ids_app. simpl.
           apply Permutation_app_head. exact Hperm.
      * simpl in Ht. destruct Ht as (Hp & Hl & Hr).
        cbn [map tree_ptr TraverseLevelOrderObjects_loop fst].
        rewrite (get_node_Some _ _ _ Hp). cbn [bindR].
        unfold child, IsLeaf, child. cbn [children fst snd Z.eqb negb].
        assert (Hq' : (map tree_ptr queue ++ [tree_ptr l]) ++ [tree_ptr r]
                      = map tree_ptr (queue ++ [l; r])).
        { rewrite map_app. simpl. rewrite <- app_assoc. reflexivity. }
        rewrite Hq'.
        destruct (IH (queue ++ [l; r]) ids) as (out & Hrun & Hperm).
        -- apply Forall_app. split; [exact Hq|]. repeat constructor; assumption.
        -- rewrite forest_objs_app, length_app. unfold forest_objs at 2. simpl.
           rewrite app_nil_r. simpl in HF. lia.
        -- rewrite forest_nodes_app, length_app. unfold forest_nodes at 2. simpl.
           rewrite app_nil_r. simpl in Hfuel. lia.
        -- exists out. split; [exact Hrun|].
           etransitivity; [exact Hperm|]. apply obj_ids_perm.
           rewrite forest_objs_app, forest_objs_cons. unfold forest_objs at 2.
           simpl. rewrite app_nil_r. apply Permutation_app_comm.
Qed.

(** ** The frustum query *)

Section QueryProofs.

Context {Frustum : Type}.
Variable classify : Frustum -> Aabb -> SideResult.

(** What the query needs of [classify]: a volume inside an [eOUTSIDE] volume
    is [eOUTSIDE], and a volume inside an [eINSIDE] volume is not
    [eOUTSIDE]. *)
Hypothesis classify_outside :
  forall f a b, valid_box b -> encloses a b ->
                classify f a = eOUTSIDE -> classify f b = eOUTSIDE.
Hypothesis classify_inside :
  forall f a b, valid_box b -> encloses a b ->
                classify f a = eINSIDE -> classify f b <> eOUTSIDE.

Lemma brute_force_visible_app f s a b :
  brute_force_visible classify f s (a ++ b)
  = brute_force_visible classify f s a ++ brute_force_visible classify f s b.
Proof.
  induction a as [|o a IH]; simpl; [reflexivity|].
  destruct (objects s !! o); [|exact IH].
  destruct (SideResult_eqb _ _); simpl; rewrite IH; reflexivity.
Qed.

Lemma brute_force_visible_perm f s a b :
  Permutation a b ->
  Permutation (brute_force_visible classify f s a) (brute_force_visible classify f s b).
Proof.
  induction 1 as [|x a b _ IH|x y a|a b c _ IH1 _ IH2]; simpl.
  - constructor.
  - destruct (objects s !! x); [|exact IH].
    destruct (SideResult_eqb _ _); [|constructor]; exact IH.
  - destruct (objects s !! x), (objects s !! y); try reflexivity.
    + destruct (SideResult_eqb _ _), (SideResult_eqb _ _); try reflexivity.
      apply perm_swap.
  - etransitivity; eauto.
Qed.

Lemma SideResult_eqb_eq a b : SideResult_eqb a b = true <-> a = b.
Proof. destruct a, b; simpl; split; intros H; congruence. Qed.

Lemma brute_force_outside f s a os :
  classify f a = eOUTSIDE ->
  Forall (obj_enclosed s a) os -> Forall (obj_valid s) os ->
  brute_force_visible classify f s os = [].
Proof.
  intros Ha. induction os as [|o os IH]; intros He Hv; simpl; [reflexivity|].
  inversion He as [|? ? Ho He']; inversion Hv as [|? ? Hvo Hv']; subst.
  unfold obj_enclosed, obj_valid in Ho, Hvo.
  destruct (objects s !! o) as [ob|]; [|contradiction].
  rewrite (classify_outside f a (obj_bv ob)) by assumption. simpl. auto.
Qed.

Lemma brute_force_inside f s a os :
  classify f a = eINSIDE ->
  Forall (obj_enclosed s a) os -> Forall (obj_valid s) os ->
  brute_force_visible classify f s os = obj_ids s os.
Proof.
  intros Ha. induction os as [|o os IH]; intros He Hv; simpl; [reflexivity|].
  inversion He as [|? ? Ho He']; inversion Hv as [|? ? Hvo Hv']; subst.
  unfold obj_enclosed, obj_valid in Ho, Hvo.
  destruct (objects s !! o) as [ob|]; [|contradiction].
  destruct (SideResult_eqb _ _) eqn:E.
  - apply SideResult_eqb_eq in E. exfalso.
    exact (classify_inside f a (obj_bv ob) Hvo Ho Ha E).
  - rewrite IH by assumption. reflexivity.
Qed.

Lemma Query_leaf_spec f s leaf os :
  forall pv F ids,
  olist s leaf pv os -> (length os <= F)%nat ->
  Query_leaf classify F f s (head os) ids
  = Ok (ids ++ brute_force_visible classify f s os).
Proof.
  induction os as [|o rest IH]; intros pv F ids Hl HF.
  - simpl. rewrite app_nil_r. destruct F; reflexivity.
  - apply olist_cons_inv in Hl. destruct Hl as (ob & Hob & Hinfo & Hrest).
    simpl in HF. destruct F as [|F]; [lia|].
    cbn [head Query_leaf]. rewrite (get_obj_Some _ _ _ Hob). cbn [bindR].
    rewrite Hinfo. cbn [next].
    rewrite (IH (Some o) F) by (auto; lia).
    simpl. rewrite Hob.
    destruct (SideResult_eqb _ _); [reflexivity|].
    rewrite <- app_assoc. reflexivity.
Qed.

Lemma tree_objs_enclosed s t :
  contained s t -> Forall (obj_enclosed s (tree_bv t)) (tree_objs t).
Proof.
  intros H. apply List.Forall_forall. intros o Hin. eapply contained_objs; eauto.
Qed.

Lemma Query_loop_spec f s F :
  forall fuel stack ids,
  Forall (shape s) stack ->
  Forall (contained s) stack ->
  Forall (obj_valid s) (forest_objs stack) ->
  Forall (fun t => (tree_weight t <= F)%nat) stack ->
  (length (forest_nodes stack) <= fuel)%nat ->
  exists out,
    Query_loop classify F fuel f s (map (fun t => Some (tree_ptr t)) stack) ids
    = Ok (ids ++ out)
    /\ Permutation out (brute_force_visible classify f s (forest_objs stack)).
Proof.
  induction fuel as [|fuel IH]; intros stack ids Hs Hc Hv HF Hfuel.
  - destruct stack as [|t stack].
    + exists []. simpl. rewrite app_nil_r. split; [reflexivity|constructor].
    + rewrite forest_nodes_cons, length_app in Hfuel.
      destruct t; simpl in Hfuel; lia.
  - destruct stack as [|t stack].
    + exists []. simpl. rewrite app_nil_r. split; [reflexivity|constructor].
    + inversion Hs as [|? ? Ht Hs']; inversion Hc as [|? ? Hct Hc'];
        inversion HF as [|? ? HFt HF']; subst.
      rewrite forest_objs_cons in Hv. apply Forall_app in Hv. destruct Hv as [Hvt Hv'].
      rewrite forest_nodes_cons, length_app in Hfuel.
      assert (Hlen : (1 <= length (tree_nodes t))%nat) by (destruct t; simpl; lia).
      destruct (shape_root s t Ht) as (n & Hn & Hbv).
      cbn [map Query_loop]. rewrite (get_node_Some _ _ _ Hn). cbn [bindR].
      rewrite Hbv.
      destruct (classify f (tree_bv t)) eqn:Hcl.
      * (* inside: everything beneath is emitted *)
        unfold Node_TraverseLevelOrderObjects.
        destruct (TraverseLevelOrderObjects_retrieve s F F [t] ids) as (o1 & Hrun & Hp1).
        -- repeat constructor. exact Ht.
        -- unfold forest_objs. simpl. rewrite app_nil_r. unfold tree_weight in HFt. lia.
        -- unfold forest_nodes. simpl. rewrite app_nil_r. unfold tree_weight in HFt. lia.
        -- simpl map in Hrun. rewrite Hrun. cbn [bindR snd].
           destruct (IH stack (ids ++ o1) Hs' Hc' Hv' HF') as (out & Hrun' & Hp); [lia|].
           exists (o1 ++ out). split.
           ++ rewrite Hrun', app_assoc. reflexivity.
           ++ rewrite forest_objs_cons, brute_force_visible_app.
              apply Permutation_app; [|exact Hp].
              rewrite (brute_force_inside f s (tree_bv t)); auto using tree_objs_enclosed.
              unfold forest_objs in Hp1. simpl in Hp1. rewrite app_nil_r in Hp1. exact Hp1.
      * (* intersecting *)
        destruct t as [p b os | p b l r].
        -- simpl in Ht. destruct Ht as [Hp Hl]. simpl in Hn. rewrite Hp in Hn. injection Hn as <-.
           rewrite IsLeaf_leaf. cbn [firstObject].
           rewrite (Query_leaf_spec f s p os None F ids Hl)
             by (unfold tree_weight in HFt; simpl in HFt; lia).
           cbn [bindR].
           destruct (IH stack (ids ++ brute_force_visible classify f s os)
                        Hs' Hc' Hv' HF') as (out & Hrun' & Hp'); [simpl in Hfuel; lia|].
           exists (brute_force_visible classify f s os ++ out). split.
           ++ rewrite Hrun', app_assoc. reflexivity.
           ++ rewrite forest_objs_cons, brute_force_visible_app. simpl.
              apply Permutation_app_head. exact Hp'.
        -- simpl in Ht. destruct Ht as (Hp & Hl & Hr). simpl in Hn. rewrite Hp in Hn. injection Hn as <-.
           unfold IsLeaf, child. cbn [children fst snd Z.eqb].
           simpl in Hct. destruct Hct as (_ & _ & Hcl' & Hcr).
           simpl in Hvt. apply Forall_app in Hvt. destruct Hvt as [Hvl Hvr].
           change (Some (tree_ptr r) :: Some (tree_ptr l)
                     :: map (fun t => Some (tree_ptr t)) stack)
             with (map (fun t => Some (tree_ptr t)) (r :: l :: stack)).
           destruct (IH (r :: l :: stack) ids) as (out & Hrun' & Hp').
           ++ repeat constructor; assumption.
           ++ repeat constructor; assumption.
           ++ rewrite !forest_objs_cons. repeat (apply Forall_app; split); assumption.
           ++ unfold tree_weight in *. simpl in HFt. rewrite !length_app in HFt.
              repeat constructor; try lia. exact HF'.
           ++ rewrite !forest_nodes_cons, !length_app. simpl in Hfuel.
              rewrite length_app in Hfuel. lia.
           ++ exists out. split; [exact Hrun'|].
              etransitivity; [exact Hp'|]. apply brute_force_visible_perm.
              rewrite !forest_objs_cons. simpl. rewrite !app_assoc.
              apply Permutation_app_tail. apply Permutation_app_comm.
      * (* outside: pruned, and nothing beneath is visible *)
        destruct (IH stack ids Hs' Hc' Hv' HF') as (out & Hrun' & Hp); [lia|].
        exists out. split; [exact Hrun'|].
        rewrite forest_objs_cons, brute_force_visible_app.
        rewrite (brute_force_outside f s (tree_bv t)); auto using tree_objs_enclosed.
Qed.

Lemma brute_force_visible_In f s os i :
  In i (brute_force_visible classify f s os) <->
  exists o ob, In o os /\ objects s !! o = Some ob /\ obj_id ob = i
               /\ classify f (obj_bv ob) <> eOUTSIDE.
Proof.
  induction os as [|o os IH]; simpl.
  - split; [contradiction | intros (? & ? & [] & _)].
  - destruct (objects s !! o) as [ob|] eqn:Hob.
    + destruct (SideResult_eqb _ _) eqn:E.
      * rewrite IH. apply SideResult_eqb_eq in E. split.
        -- intros (o' & ob' & Hin & ?). exists o', ob'. auto.
        -- intros (o' & ob' & [<-|Hin] & Hob' & Hid & Hne).
           ++ rewrite Hob in Hob'. injection Hob' as <-. contradiction.
           ++ exists o', ob'. auto.
      * simpl. rewrite IH. split.
        -- intros [<-|(o' & ob' & Hin & ?)].
           ++ exists o, ob. repeat split; auto. intros Hc.
              apply SideResult_eqb_eq in Hc. congruence.
           ++ exists o', ob'. auto.
        -- intros (o' & ob' & [<-|Hin] & Hob' & Hid & Hne).
           ++ rewrite Hob in Hob'. injection Hob' as <-. auto.
           ++ right. exists o', ob'. auto.
    + rewrite IH. split.
      * intros (o' & ob' & Hin & ?). exists o', ob'. auto.
      * intros (o' & ob' & [<-|Hin] & Hob' & ?).
        -- congruence.
        -- exists o', ob'. auto.
Qed.

(** C1.  On a tree that satisfies the containment invariant, [Query] returns
    the ids of exactly the objects of the tree whose volume is not
    [eOUTSIDE]: the list is a permutation of the brute-force list, so the two
    are equal as sets.  An empty tree gives the empty list. *)
Theorem Query_exact (F : nat) (frustum : Frustum) (s : State) (ot : option tree) :
  bvh_repr s ot ->
  contained_of s ot ->
  Forall (obj_valid s) (objs_of ot) ->
  (weight_of ot < F)%nat ->
  exists ids,
    Query classify F frustum s = Ok ids
    /\ Permutation ids (brute_force_visible classify frustum s (objs_of ot))
    /\ forall i, In i ids <->
                 exists o ob, In o (objs_of ot) /\ objects s !! o = Some ob
                              /\ obj_id ob = i
                              /\ classify frustum (obj_bv ob) <> eOUTSIDE.
Proof.
  intros Hr Hc Hv HF. unfold Query.
  assert (Hmain : exists ids,
             Query_loop classify F F frustum s [mRoot s] [] = Ok ids
             /\ Permutation ids (brute_force_visible classify frustum s (objs_of ot))).
  { destruct ot as [t|]; simpl in *.
    - destruct Hr as [Hroot (Hs & _ & _)]. rewrite Hroot.
      destruct (Query_loop_spec frustum s F F [t] []) as (out & Hrun & Hp).
      + repeat constructor. exact Hs.
      + repeat constructor. exact Hc.
      + unfold forest_objs. simpl. rewrite app_nil_r. exact Hv.
      + repeat constructor. lia.
      + unfold forest_nodes. simpl. rewrite app_nil_r. unfold tree_weight in HF. lia.
      + exists out. split; [exact Hrun|].
        unfold forest_objs in Hp. simpl in Hp. rewrite app_nil_r in Hp. exact Hp.
    - rewrite Hr. exists []. split; [|constructor].
      destruct F; [lia | reflexivity]. }
  destruct Hmain as (ids & Hrun & Hp). exists ids. split; [exact Hrun|].
  split; [exact Hp|]. intros i. rewrite <- brute_force_visible_In.
  split; intros Hin.
  - eapply Permutation_in; eauto.
  - eapply Permutation_in; [symmetry|]; eauto.
Qed.

End QueryProofs.

(** ** The plane test satisfies what the query needs *)

Lemma far_term_mono (n lo hi lo' hi' : Q) :
  (lo' <= lo)%Q -> (hi <= hi')%Q ->
  ((if Qle_bool 0 n then n * hi else n * lo)
   <= (if Qle_bool 0 n then n * hi' else n * lo'))%Q.
Proof.
  intros H1 H2. destruct (Qle_bool 0 n) eqn:E.
  - apply Qle_bool_iff in E. nra.
  - apply Qle_bool_false in E. nra.
Qed.

Lemma near_term_mono (n lo hi lo' hi' : Q) :
  (lo' <= lo)%Q -> (hi <= hi')%Q ->
  ((if Qle_bool 0 n then n * lo' else n * hi')
   <= (if Qle_bool 0 n then n * lo else n * hi))%Q.
Proof.
  intros H1 H2. destruct (Qle_bool 0 n) eqn:E.
  - apply Qle_bool_iff in E. nra.
  - apply Qle_bool_false in E. nra.
Qed.

Lemma near_far_term (n lo hi : Q) :
  (lo <= hi)%Q ->
  ((if Qle_bool 0 n then n * lo else n * hi)
   <= (if Qle_bool 0 n then n * hi else n * lo))%Q.
Proof.
  intros H. destruct (Qle_bool 0 n) eqn:E.
  - apply Qle_bool_iff in E. nra.
  - apply Qle_bool_false in E. nra.
Qed.

Lemma far_along_mono n a b : encloses a b -> (far_along n b <= far_along n a)%Q.
Proof.
  intros [(?&?&?) (?&?&?)]. unfold far_along.
  repeat apply Qplus_le_compat; apply far_term_mono; assumption.
Qed.

Lemma near_along_mono n a b : encloses a b -> (near_along n a <= near_along n b)%Q.
Proof.
  intros [(?&?&?) (?&?&?)]. unfold near_along.
  repeat apply Qplus_le_compat; apply near_term_mono; assumption.
Qed.

Lemma near_le_far n b : valid_box b -> (near_along n b <= far_along n b)%Q.
Proof.
  intros (?&?&?). unfold near_along, far_along.
  repeat apply Qplus_le_compat; apply near_far_term; assumption.
Qed.

Lemma classify_planes_outside_iff f b :
  classify_planes f b = eOUTSIDE <->
  exists pl, In pl f /\ (far_along (normal pl) b < dot_result pl)%Q.
Proof.
  unfold classify_planes.
  destruct (existsb _ f) eqn:E.
  - apply existsb_exists in E. destruct E as (pl & Hin & Hlt).
    apply Qltb_lt in Hlt. split; eauto.
  - split.
    + destruct (forallb _ f); discriminate.
    + intros (pl & Hin & Hlt). exfalso.
      assert (existsb (fun pl => Qltb (far_along (normal pl) b) (dot_result pl)) f = true).
      { apply existsb_exists. exists pl. split; [exact Hin|]. apply Qltb_lt. exact Hlt. }
      congruence.
Qed.

Lemma classify_planes_outside f a b :
  valid_box b -> encloses a b ->
  classify_planes f a = eOUTSIDE -> classify_planes f b = eOUTSIDE.
Proof.
  intros _ He Ha. apply classify_planes_outside_iff in Ha.
  destruct Ha as (pl & Hin & Hlt). apply classify_planes_outside_iff.
  exists pl. split; [exact Hin|].
  eapply Qle_lt_trans; [apply far_along_mono; exact He | exact Hlt].
Qed.

Lemma classify_planes_inside f a b :
  valid_box b -> encloses a b ->
  classify_planes f a = eINSIDE -> classify_planes f b <> eOUTSIDE.
Proof.
  intros Hv He Ha Hb. apply classify_planes_outside_iff in Hb.
  destruct Hb as (pl & Hin & Hlt).
  unfold classify_planes in Ha.
  destruct (existsb _ f); [discriminate|].
  destruct (forallb _ f) eqn:E; [|discriminate].
  rewrite forallb_forall in E. specialize (E pl Hin). apply Qle_bool_iff in E.
  pose proof (near_along_mono (normal pl) a b He).
  pose proof (near_le_far (normal pl) b Hv). lra.
Qed.

(** ** Checking a concrete heap against a tree *)

Ltac concrete_Qle :=
  repeat match goal with
         | |- encloses _ _ => split
         | |- valid_box _ => unfold valid_box
         | |- vle _ _ => split; [|split]
         | |- (_ <= _)%Q => vm_compute; intro; discriminate
         end.

Ltac concrete_repr :=
  repeat match goal with
         | |- bvh_repr _ (Some _) => split; [vm_compute; reflexivity|]
         | |- repr _ _ => split; [|split]
         | |- shape _ _ => vm_compute; repeat split
         | |- NoDup _ => apply NoDup_ListNoDup; vm_compute; repeat constructor;
                         simpl; intuition discriminate
         end.

Ltac concrete_contained :=
  repeat match goal with
         | |- contained_of _ (Some _) => cbn [contained_of]
         | |- contained _ _ => cbn [contained tree_bv]
         | |- _ /\ _ => split
         | |- Forall _ [] => constructor
         | |- Forall _ (_ :: _) => constructor
         | |- Forall _ (objs_of _) => cbn [objs_of tree_objs app]
         | |- obj_enclosed _ _ _ => unfold obj_enclosed; vm_compute; repeat split;
                                    intro; discriminate
         | |- obj_valid _ _ => unfold obj_valid; vm_compute; repeat split;
                               intro; discriminate
         | |- encloses _ _ => concrete_Qle
         end.

Lemma inserted4_repr : bvh_repr (inserted 4) (Some inserted4_tree).
Proof. concrete_repr. Qed.

Lemma inserted4_contained : contained_of (inserted 4) (Some inserted4_tree).
Proof. unfold inserted4_tree. concrete_contained. Qed.

Lemma inserted4_valid : Forall (obj_valid (inserted 4)) (objs_of (Some inserted4_tree)).
Proof. unfold inserted4_tree. concrete_contained. Qed.

(** The four-box tree against the slab 0 <= x <= 11: the root intersects,
    the left subtree is inside, the right one is looked into. *)
Lemma Query_exact_witness :
  exists ids,
    Query classify_planes 20 (x_slab 0 11) (inserted 4) = Ok ids
    /\ Permutation ids
         (brute_force_visible classify_planes (x_slab 0 11) (inserted 4) [0; 1; 3; 2])
    /\ forall i, In i ids <->
                 exists o ob, In o [0; 1; 3; 2] /\ objects (inserted 4) !! o = Some ob
                              /\ obj_id ob = i
                              /\ classify_planes (x_slab 0 11) (obj_bv ob) <> eOUTSIDE.
Proof.
  apply (Query_exact classify_planes classify_planes_outside classify_planes_inside
           20 (x_slab 0 11) (inserted 4) (Some inserted4_tree)
           inserted4_repr inserted4_contained inserted4_valid).
  vm_compute. lia.
Defined.

(** ** [Clear] *)

Lemma shape_nshape s t : shape s t -> nshape s t.
Proof.
  induction t as [p b os | p b l IHl r IHr]; simpl.
  - intros [Hp _]. eauto.
  - intros (Hp & Hl & Hr). split; [eauto|]. split; auto.
Qed.

Lemma nshape_frame s s' t :
  (forall p, In p (tree_nodes t) -> nodes s' !! p = nodes s !! p) ->
  nshape s t -> nshape s' t.
Proof.
  induction t as [p b os | p b l IHl r IHr]; simpl; intros Hn H.
  - rewrite Hn by auto. exact H.
  - destruct H as (Hp & Hl & Hr). rewrite Hn by auto. split; [exact Hp|]. split.
    + apply IHl; auto. intros q Hq. apply Hn. right. apply in_or_app. auto.
    + apply IHr; auto. intros q Hq. apply Hn. right. apply in_or_app. auto.
Qed.

Lemma cleared_nil s : cleared [] s s.
Proof. unfold cleared. repeat split; auto. intros o []. Qed.

Lemma cleared_app a b s s1 s2 :
  (forall o, In o a -> ~ In o b) ->
  cleared a s s1 -> cleared b s1 s2 -> cleared (a ++ b) s s2.
Proof.
  intros Hd (Hn1 & Ha1 & Hr1 & Hc1 & Hin1 & Hout1) (Hn2 & Ha2 & Hr2 & Hc2 & Hin2 & Hout2).
  unfold cleared. repeat split; try congruence.
  - intros o Hin. apply in_app_or in Hin. destruct Hin as [Hin|Hin].
    + rewrite Hout2 by auto. auto.
    + auto.
  - intros o Hin. rewrite Hout2, Hout1; auto; intros Hc; apply Hin; apply in_or_app; auto.
Qed.

Lemma cleared_equiv a b s s' :
  (forall o, In o a <-> In o b) -> cleared a s s' -> cleared b s s'.
Proof.
  intros He (Hn & Ha & Hr & Hc & Hin & Hout). unfold cleared. repeat split; auto.
  - intros o Ho. apply Hin. apply He. exact Ho.
  - intros o Ho. apply Hout. intros Hc'. apply Ho. apply He. exact Hc'.
Qed.

(** The lambda resets one object and nothing else. *)
Lemma lamdaClearObject_spec s o ob :
  objects s !! o = Some ob ->
  exists s', lamdaClearObject (Some o) (s, tt) = Ok (s', tt) /\ cleared [o] s s'.
Proof.
  intros Hob. unfold lamdaClearObject. cbn [fst].
  assert (H1 : upd_obj (Some o) (set_next None) s
               = Ok (with_objects (insert o (set_next None ob)) s)).
  { apply upd_obj_Ok. eauto. }
  rewrite H1. cbn [bindR].
  assert (H2 : upd_obj (Some o) (set_prev None)
                 (with_objects (insert o (set_next None ob)) s)
               = Ok (with_objects (insert o (set_prev None (set_next None ob)))
                       (with_objects (insert o (set_next None ob)) s))).
  { apply upd_obj_Ok. do 2 eexists. split; [reflexivity|]. split; [|reflexivity].
    simpl. apply lookup_insert_eq. }
  rewrite H2. cbn [bindR].
  eexists. split.
  - erewrite (proj2 (upd_obj_Ok _ _ _ _)); [reflexivity|].
    do 2 eexists. split; [reflexivity|]. split; [|reflexivity].
    simpl. apply lookup_insert_eq.
  - unfold cleared. simpl. repeat split.
    + intros o' [<-|[]]. rewrite lookup_insert_eq. reflexivity.
    + intros o' Hne. rewrite !lookup_insert_ne; auto; intros ->; apply Hne; left; auto.
Qed.

Lemma walk_objects_clear leaf os :
  forall s pv F,
  olist s leaf pv os -> NoDup os -> (length os <= F)%nat ->
  exists s', walk_objects lamdaClearObject F (head os) (s, tt) = Ok (s', tt)
             /\ cleared os s s'.
Proof.
  induction os as [|o rest IH]; intros s pv F Hl Hnd HF.
  - exists s. split; [destruct F; reflexivity | apply cleared_nil].
  - apply olist_cons_inv in Hl. destruct Hl as (ob & Hob & Hinfo & Hrest).
    apply NoDup_cons in Hnd. destruct Hnd as [Hnotin Hnd].
    simpl in HF. destruct F as [|F]; [lia|].
    cbn [head walk_objects fst]. rewrite (get_obj_Some _ _ _ Hob). cbn [bindR].
    destruct (lamdaClearObject_spec s o ob Hob) as (s1 & Hrun1 & Hc1).
    rewrite Hrun1. cbn [bindR]. rewrite Hinfo. cbn [next].
    destruct (IH s1 (Some o) F) as (s' & Hrun & Hc); [|exact Hnd|lia|].
    + eapply olist_frame; [|exact Hrest]. intros o' Hin.
      destruct Hc1 as (_ & _ & _ & _ & _ & Hout). rewrite Hout; [reflexivity|].
      intros [<-|[]]. apply Hnotin. apply list_elem_of_In. exact Hin.
    + exists s'. split; [exact Hrun|].
      change (o :: rest) with ([o] ++ rest). eapply cleared_app; eauto.
      intros o' [<-|[]] Hin. apply Hnotin. apply list_elem_of_In. exact Hin.
Qed.

Lemma NoDup_app_disjoint {A} (a b : list A) x :
  NoDup (a ++ b) -> In x a -> ~ In x b.
Proof.
  intros H Ha Hb. apply NoDup_app in H. destruct H as (_ & Hd & _).
  apply (Hd x); apply list_elem_of_In; assumption.
Qed.

Lemma In_forest_nodes t q p : In t q -> In p (tree_nodes t) -> In p (forest_nodes q).
Proof.
  intros Ht Hp. unfold forest_nodes. apply in_concat. exists (tree_nodes t).
  split; [apply in_map; exact Ht | exact Hp].
Qed.

Lemma In_forest_objs t q o : In t q -> In o (tree_objs t) -> In o (forest_objs q).
Proof.
  intros Ht Ho. unfold forest_objs. apply in_concat. exists (tree_objs t).
  split; [apply in_map; exact Ht | exact Ho].
Qed.

Lemma forest_shape_frame s s' q :
  (forall p, In p (forest_nodes q) -> nodes s' !! p = nodes s !! p) ->
  (forall o, In o (forest_objs q) ->
             bvhInfo <$> objects s' !! o = bvhInfo <$> objects s !! o) ->
  Forall (shape s) q -> Forall (shape s') q.
Proof.
  intros Hn Ho H. rewrite List.Forall_forall in *. intros t Ht.
  eapply shape_frame; [| |apply H; exact Ht].
  - intros p Hp. apply Hn. eapply In_forest_nodes; eauto.
  - intros o Hin. apply Ho. eapply In_forest_objs; eauto.
Qed.

Lemma forest_nshape_frame s s' q :
  (forall p, In p (forest_nodes q) -> nodes s' !! p = nodes s !! p) ->
  Forall (nshape s) q -> Forall (nshape s') q.
Proof.
  intros Hn H. rewrite List.Forall_forall in *. intros t Ht.
  eapply nshape_frame; [|apply H; exact Ht].
  intros p Hp. apply Hn. eapply In_forest_nodes; eauto.
Qed.

Lemma forest_objs_children q l r :
  forest_objs (q ++ [l; r]) = forest_objs q ++ tree_objs l ++ tree_objs r.
Proof.
  rewrite forest_objs_app. unfold forest_objs at 2. simpl. rewrite app_nil_r. reflexivity.
Qed.

Lemma forest_nodes_children q l r :
  forest_nodes (q ++ [l; r]) = forest_nodes q ++ tree_nodes l ++ tree_nodes r.
Proof.
  rewrite forest_nodes_app. unfold forest_nodes at 2. simpl. rewrite app_nil_r. reflexivity.
Qed.

Lemma TraverseLevelOrderObjects_clear F :
  forall fuel queue s,
  Forall (shape s) queue ->
  NoDup (forest_objs queue) ->
  (length (forest_objs queue) <= F)%nat ->
  (length (forest_nodes queue) <= fuel)%nat ->
  exists s',
    TraverseLevelOrderObjects_loop lamdaClearObject F fuel (map tree_ptr queue) (s, tt)
    = Ok (s', tt)
    /\ cleared (forest_objs queue) s s'.
Proof.
  induction fuel as [|fuel IH]; intros queue s Hs Hnd HF Hfuel.
  - destruct queue as [|t queue].
    + exists s. split; [reflexivity | apply cleared_nil].
    + rewrite forest_nodes_cons, length_app in Hfuel.
      destruct t; simpl in Hfuel; lia.
  - destruct queue as [|t queue].
    + exists s. split; [reflexivity | apply cleared_nil].
    + inversion Hs as [|? ? Ht Hq]; subst.
      rewrite forest_nodes_cons, length_app in Hfuel.
      rewrite forest_objs_cons in Hnd, HF. rewrite length_app in HF.
      destruct t as [p b os | p b l r].
      * simpl in Ht. destruct Ht as [Hp Hl].
        cbn [map tree_ptr TraverseLevelOrderObjects_loop fst].
        rewrite (get_node_Some _ _ _ Hp). cbn [bindR].
        unfold child. cbn [children fst snd Z.eqb].
        rewrite IsLeaf_leaf. cbn [negb firstObject].
        simpl tree_objs in Hnd, HF.
        pose proof Hnd as Hnd0.
        apply NoDup_app in Hnd. destruct Hnd as (Hnd1 & Hdisj & Hnd2).
        destruct (walk_objects_clear p os s None F Hl Hnd1) as (s1 & Hrun1 & Hc1);
          [lia|].
        rewrite Hrun1. cbn [bindR].
        destruct (IH queue s1) as (s' & Hrun & Hc); [|exact Hnd2|lia|simpl in Hfuel; lia|].
        -- eapply forest_shape_frame; [| |exact Hq].
           ++ intros q _. destruct Hc1 as (-> & _). reflexivity.
           ++ intros o Hin. destruct Hc1 as (_ & _ & _ & _ & _ & Hout).
              rewrite Hout; [reflexivity|]. intros Ho.
              eapply NoDup_app_disjoint; eauto.
        -- exists s'. split; [exact Hrun|].
           rewrite forest_objs_cons. simpl. eapply cleared_app; eauto.
           intros o Ho. eapply NoDup_app_disjoint; eauto.
      * simpl in Ht. destruct Ht as (Hp & Hl & Hr).
        cbn [map tree_ptr TraverseLevelOrderObjects_loop fst].
        rewrite (get_node_Some _ _ _ Hp). cbn [bindR].
        unfold child, IsLeaf, child. cbn [children fst snd Z.eqb negb].
        assert (Hq' : (map tree_ptr queue ++ [tree_ptr l]) ++ [tree_ptr r]
                      = map tree_ptr (queue ++ [l; r])).
        { rewrite map_app. simpl. rewrite <- app_assoc. reflexivity. }
        rewrite Hq'. simpl tree_objs in Hnd, HF. simpl tree_nodes in Hfuel.
        assert (Hperm : Permutation (forest_objs (queue ++ [l; r]))
                          ((tree_objs l ++ tree_objs r) ++ forest_objs queue)).
        { rewrite forest_objs_children. apply Permutation_app_comm. }
        destruct (IH (queue ++ [l; r]) s) as (s' & Hrun & Hc).
        -- apply Forall_app. split; [exact Hq|]. repeat constructor; assumption.
        -- rewrite Hperm; exact Hnd.
        -- rewrite (Permutation_length Hperm), length_app. lia.
        -- rewrite forest_nodes_children, !length_app.
           simpl in Hfuel. rewrite length_app in Hfuel. lia.
        -- exists s'. split; [exact Hrun|].
           eapply cleared_equiv; [|exact Hc].
           intros o. rewrite forest_objs_cons. simpl. split; intros Hin.
           ++ eapply Permutation_in; [exact Hperm | exact Hin].
           ++ eapply Permutation_in; [symmetry; exact Hperm | exact Hin].
Qed.

(** Deleting the nodes, level by level. *)
Lemma TraverseLevelOrder_clear :
  forall fuel queue s,
  Forall (nshape s) queue ->
  NoDup (forest_nodes queue) ->
  (length (forest_nodes queue) <= fuel)%nat ->
  exists s',
    TraverseLevelOrder_loop lamdaClearNode fuel (map tree_ptr queue) (s, tt)
    = Ok (s', tt)
    /\ objects s' = objects s
    /\ (forall p, In p (forest_nodes queue) -> nodes s' !! p = None)
    /\ (forall p, ~ In p (forest_nodes queue) -> nodes s' !! p = nodes s !! p).
Proof.
  induction fuel as [|fuel IH]; intros queue s Hs Hnd Hfuel.
  - destruct queue as [|t queue].
    + exists s. split; [reflexivity|]. split; [reflexivity|].
      split; [intros p [] | reflexivity].
    + rewrite forest_nodes_cons, length_app in Hfuel.
      destruct t; simpl in Hfuel; lia.
  - destruct queue as [|t queue].
    + exists s. split; [reflexivity|]. split; [reflexivity|].
      split; [intros p [] | reflexivity].
    + inversion Hs as [|? ? Ht Hq]; subst.
      rewrite forest_nodes_cons in Hnd, Hfuel. rewrite length_app in Hfuel.
      assert (Hstep : exists n kids,
                 nodes s !! tree_ptr t = Some n
                 /\ (match child n 1 with
                     | Some c => (match child n 0 with
                                  | Some c => map tree_ptr queue ++ [c]
                                  | None => map tree_ptr queue
                                  end) ++ [c]
                     | None => (match child n 0 with
                                | Some c => map tree_ptr queue ++ [c]
                                | None => map tree_ptr queue
                                end)
                     end) = map tree_ptr (queue ++ kids)
                 /\ Forall (nshape s) kids
                 /\ tree_nodes t = tree_ptr t :: forest_nodes kids).
      { destruct t as [p b os | p b l r]; simpl in Ht.
        - destruct Ht as (n & Hn & Hch). exists n, []. split; [exact Hn|].
          unfold child. rewrite Hch. simpl. rewrite app_nil_r.
          repeat split; constructor.
        - destruct Ht as ((n & Hn & Hch) & Hl & Hr). exists n, [l; r].
          split; [exact Hn|]. unfold child. rewrite Hch. simpl.
          split; [rewrite map_app, <- app_assoc; reflexivity|].
          split; [repeat constructor; assumption|].
          unfold forest_nodes. simpl. rewrite app_nil_r. reflexivity. }
      destruct Hstep as (n & kids & Hn & Hqueue & Hkids & Hnodes).
      cbn [map TraverseLevelOrder_loop fst].
      rewrite (get_node_Some _ _ _ Hn). cbn [bindR].
      rewrite Hqueue.
      unfold lamdaClearNode at 1. cbn [fst].
      rewrite (proj2 (delete_Node_Ok (tree_ptr t) s
                        (with_nodes (delete (tree_ptr t)) s))); [|eauto].
      cbn [bindR].
      rewrite Hnodes in Hnd, Hfuel. simpl in Hnd, Hfuel.
      apply NoDup_cons in Hnd. destruct Hnd as [Hnotin Hnd].
      assert (Hperm : Permutation (forest_nodes (queue ++ kids))
                        (forest_nodes kids ++ forest_nodes queue)).
      { rewrite forest_nodes_app. apply Permutation_app_comm. }
      destruct (IH (queue ++ kids) (with_nodes (delete (tree_ptr t)) s))
        as (s' & Hrun & Hobj & Hdel & Hkeep).
      * eapply forest_nshape_frame with (s := s).
        -- intros p Hp. simpl. apply lookup_delete_ne. intros <-.
           apply Hnotin. apply list_elem_of_In.
           eapply Permutation_in; [exact Hperm | exact Hp].
        -- apply Forall_app. split; assumption.
      * rewrite Hperm. exact Hnd.
      * rewrite (Permutation_length Hperm), length_app. lia.
      * exists s'. split; [exact Hrun|]. split; [rewrite Hobj; reflexivity|].
        split.
        -- intros p Hp. rewrite forest_nodes_cons, Hnodes in Hp. simpl in Hp.
           destruct Hp as [<-|Hp].
           ++ rewrite Hkeep.
              ** simpl. apply lookup_delete_eq.
              ** intros Hin. apply Hnotin. apply list_elem_of_In.
                 eapply Permutation_in; [exact Hperm | exact Hin].
           ++ apply Hdel. eapply Permutation_in; [symmetry; exact Hperm | exact Hp].
        -- intros p Hp. rewrite forest_nodes_cons, Hnodes in Hp. simpl in Hp.
           rewrite Hkeep.
           ++ simpl. apply lookup_delete_ne. intros <-. apply Hp. left. reflexivity.
           ++ intros Hin. apply Hp. right.
              eapply Permutation_in; [exact Hperm | exact Hin].
Qed.

(** X23.  [Clear] on a tree that the heap holds, every leaf listing its
    objects through sound links (or on the empty tree), with fuel for the
    two walks, leaves the tree empty ([root()] null, [Depth()] -1,
    [Size()] 0) and every object that was listed in a leaf with its
    [next], [prev] and [node] null. *)
Theorem Clear_resets (F : nat) (s : State) (ot : option tree) :
  bvh_repr s ot ->
  (weight_of ot <= F)%nat ->
  exists s',
    Clear F s = Ok s'
    /\ root s' = None
    /\ (forall F', Depth F' s' = Ok (-1)%Z)
    /\ (forall F', Size F' s' = Ok 0%Z)
    /\ (forall o, In o (objs_of ot) ->
                  bvhInfo <$> objects s' !! o = Some (mkBvhInfo None None None)).
Proof.
  intros Hr HF. unfold Clear. destruct ot as [t|]; simpl in Hr.
  - destruct Hr as (Hroot & Hs & Hndn & Hndo). rewrite Hroot.
    unfold Node_TraverseLevelOrderObjects, Node_TraverseLevelOrder.
    simpl in HF. unfold tree_weight in HF.
    destruct (TraverseLevelOrderObjects_clear F F [t] s) as (s1 & Hrun1 & Hc1).
    + repeat constructor. exact Hs.
    + unfold forest_objs. simpl. rewrite app_nil_r. exact Hndo.
    + unfold forest_objs. simpl. rewrite app_nil_r. lia.
    + unfold forest_nodes. simpl. rewrite app_nil_r. lia.
    + simpl map in Hrun1. rewrite Hrun1. cbn [bindR].
      destruct (TraverseLevelOrder_clear F [t] s1) as (s2 & Hrun2 & Hobj & Hdel & _).
      * repeat constructor.
        eapply nshape_frame with (s := s); [|apply shape_nshape; exact Hs].
        intros p _. destruct Hc1 as (-> & _). reflexivity.
      * unfold forest_nodes. simpl. rewrite app_nil_r. exact Hndn.
      * unfold forest_nodes. simpl. rewrite app_nil_r. lia.
      * simpl map in Hrun2. rewrite Hrun2. cbn [bindR fst].
        eexists. split; [reflexivity|]. repeat split.
        intros o Hin. simpl. rewrite Hobj.
        destruct Hc1 as (_ & _ & _ & _ & Hin1 & _). apply Hin1.
        unfold forest_objs. simpl. rewrite app_nil_r. exact Hin.
  - rewrite Hr. exists s. split; [reflexivity|].
    unfold root, Depth, Size. rewrite Hr. repeat split. intros o [].
Qed.

(** Clearing the four-box tree. *)
Lemma Clear_resets_witness :
  exists s',
    Clear 20 (inserted 4) = Ok s'
    /\ root s' = None
    /\ (forall F', Depth F' s' = Ok (-1)%Z)
    /\ (forall F', Size F' s' = Ok 0%Z)
    /\ (forall o, In o [0; 1; 3; 2] ->
                  bvhInfo <$> objects s' !! o = Some (mkBvhInfo None None None)).
Proof.
  apply (Clear_resets 20 (inserted 4) (Some inserted4_tree) inserted4_repr).
  vm_compute. lia.
Defined.

(** ** The priority queue of [Insert] *)

Lemma compareCheapest_true a b : compareCheapest a b = true -> (level a <= level b)%Z.
Proof.
  unfold compareCheapest. destruct (level a =? level b)%Z eqn:E; simpl.
  - intros _. apply Z.eqb_eq in E. lia.
  - intros H. apply Z.ltb_lt in H. lia.
Qed.

Lemma compareCheapest_false a b : compareCheapest a b = false -> (level b <= level a)%Z.
Proof.
  unfold compareCheapest. destruct (level a =? level b)%Z eqn:E; simpl.
  - intros _. apply Z.eqb_eq in E. lia.
  - intros H. apply Z.ltb_ge in H. exact H.
Qed.

(** The top is an element of the queue of the greatest level, and the rest
    is the queue without it. *)
Lemma pq_take_spec q :
  forall x,
  In (fst (pq_take x q)) (x :: q)
  /\ Permutation (x :: q) (fst (pq_take x q) :: snd (pq_take x q))
  /\ (forall y, In y (x :: q) -> (level y <= level (fst (pq_take x q)))%Z).
Proof.
  induction q as [|y q IH]; intros x.
  - simpl. split; [auto|]. split; [reflexivity|]. intros z [<-|[]]. lia.
  - cbn [pq_take]. destruct (IH y) as (Hin & Hperm & Hmax).
    destruct (compareCheapest x (fst (pq_take y q))) eqn:E; cbn [fst snd].
    + split; [right; exact Hin|]. split.
      * rewrite Hperm. apply perm_swap.
      * intros z [<-|Hz]; [apply compareCheapest_true; exact E | apply Hmax; exact Hz].
    + split; [left; reflexivity|]. split; [reflexivity|].
      intros z [<-|Hz]; [lia|].
      apply compareCheapest_false in E. specialize (Hmax z Hz). lia.
Qed.

Lemma NodeCosts_new_Ok s nd object cost lvl nc :
  NodeCosts_new s nd object cost lvl = Ok nc ->
  nc_node nc = nd /\ level nc = lvl /\ cost_of s object nc.
Proof.
  unfold NodeCosts_new. intros H.
  destruct (get_node s nd) as [n| | |] eqn:Hn; try discriminate H.
  destruct (get_obj s object) as [ob| | |] eqn:Ho; try discriminate H.
  cbn [bindR] in H. injection H as <-. cbn.
  split; [reflexivity|]. split; [reflexivity|].
  apply get_node_Ok in Hn. destruct Hn as (p & -> & Hn).
  exists p, n, ob. auto.
Qed.

Lemma wrap32_succ idx : (0 <= idx <= INT_MAX)%Z -> wrap32 (idx + 1) = (idx + 1)%Z.
Proof. unfold INT_MAX. intros H. apply wrap32_small. lia. Qed.

Lemma linked_nil s : linked s [].
Proof. intros i a b H. rewrite lookup_nil in H. discriminate. Qed.

Lemma linked_snoc s path x :
  linked s path ->
  (forall lst, last path = Some lst -> is_kid s (nc_node lst) (nc_node x)) ->
  linked s (path ++ [x]).
Proof.
  intros Hl Hx i a b Ha Hb.
  destruct (decide (S i < length path)%nat) as [Hlt|Hge].
  - rewrite lookup_app_l in Ha by lia. rewrite lookup_app_l in Hb by lia. eauto.
  - assert (Hi : S i = length path).
    { apply lookup_lt_Some in Hb. rewrite length_app in Hb. simpl in Hb. lia. }
    rewrite lookup_app_l in Ha by lia.
    rewrite lookup_app_r in Hb by lia.
    replace (S i - length path)%nat with 0%nat in Hb by lia.
    simpl in Hb. injection Hb as <-. apply Hx.
    rewrite last_lookup. replace (Nat.pred (length path)) with i by lia. exact Ha.
Qed.

(** The search loop: what it returns extends the path by a chain of
    children that ends in a leaf, and the index it returns is in range. *)
Lemma Insert_search_chain s object :
  forall fuel pq path sm idx res,
  Insert_search fuel s object pq path sm idx = Ok res ->
  idx = Z.of_nat (length path) -> (idx <= INT_MAX)%Z ->
  Forall (cost_of s object) path -> linked s path ->
  (0 <= sm <= idx)%Z ->
  pq <> [] ->
  Forall (cost_of s object) pq ->
  Forall (fun x => (level x <= idx)%Z) pq ->
  (exists x, In x pq /\ level x = idx) ->
  (forall x lst, In x pq -> level x = idx -> last path = Some lst ->
                 is_kid s (nc_node lst) (nc_node x)) ->
  exists ext lf n,
    fst (fst res) = path ++ ext
    /\ (exists x, In x pq /\ level x = idx /\ head ext = Some x)
    /\ Forall (cost_of s object) (fst (fst res))
    /\ linked s (fst (fst res))
    /\ (0 <= snd (fst res) < Z.of_nat (length (fst (fst res))))%Z
    /\ snd res = Some lf
    /\ last (fst (fst res)) = Some lf
    /\ get_node s (nc_node lf) = Ok n /\ IsLeaf n = true
    /\ (Z.of_nat (length (fst (fst res))) <= INT_MAX + 1)%Z.
Proof.
  induction fuel as [|fuel IH];
    intros pq path sm idx res Hrun Hidx Hmax Hcost Hlink Hsm Hne Hpq Hlev Hex Hkid.
  - destruct pq; [congruence | discriminate Hrun].
  - destruct pq as [|x q]; [congruence|].
    cbn [Insert_search] in Hrun.
    destruct (pq_take_spec q x) as (Htin & Hperm & Htmax).
    set (nodeCost := fst (pq_take x q)) in *.
    set (rest := snd (pq_take x q)) in *.
    assert (Hnlev : level nodeCost = idx).
    { destruct Hex as (y & Hy & Hly). specialize (Htmax y Hy).
      rewrite List.Forall_forall in Hlev. specialize (Hlev nodeCost Htin). lia. }
    assert (Hncost : cost_of s object nodeCost).
    { rewrite List.Forall_forall in Hpq. apply Hpq. exact Htin. }
    assert (Hrest : forall y, In y rest -> In y (x :: q)).
    { intros y Hy. eapply Permutation_in; [symmetry; exact Hperm | right; exact Hy]. }
    destruct ((path ++ [nodeCost]) !! Z.to_nat sm) as [smallest|] eqn:Hsmall;
      [|discriminate Hrun].
    set (sm' := if Qle_bool (rootToNewParentCost nodeCost)
                            (rootToNewParentCost smallest + cEpsilon3)
                then idx else sm) in *.
    assert (Hsm' : (0 <= sm' <= idx)%Z) by (unfold sm'; destruct (Qle_bool _ _); lia).
    assert (Hcost' : Forall (cost_of s object) (path ++ [nodeCost])).
    { apply Forall_app. split; [exact Hcost|]. repeat constructor. exact Hncost. }
    assert (Hlink' : linked s (path ++ [nodeCost])).
    { apply linked_snoc; [exact Hlink|]. intros lst Hlst. eapply Hkid; eauto. }
    assert (Hlen' : Z.of_nat (length (path ++ [nodeCost])) = (idx + 1)%Z).
    { rewrite length_app. simpl. lia. }
    destruct (get_node s (nc_node nodeCost)) as [n| | |] eqn:Hn; try discriminate Hrun.
    cbn [bindR] in Hrun.
    destruct (IsLeaf n) eqn:Hleaf.
    + injection Hrun as <-. cbn [fst snd].
      exists [nodeCost], nodeCost, n. split; [reflexivity|].
      split; [exists nodeCost; auto|].
      split; [exact Hcost'|]. split; [exact Hlink'|].
      split; [lia|]. split; [reflexivity|].
      split; [apply last_snoc|]. split; [exact Hn|]. split; [exact Hleaf|]. lia.
    + destruct (NodeCosts_new s (child n 0) object (rootToNodeCost nodeCost)
                  (wrap32 (level nodeCost + 1))) as [c0| | |] eqn:Hc0;
        try discriminate Hrun.
      cbn [bindR] in Hrun.
      destruct (NodeCosts_new s (child n 1) object (rootToNodeCost nodeCost)
                  (wrap32 (level nodeCost + 1))) as [c1| | |] eqn:Hc1;
        try discriminate Hrun.
      cbn [bindR] in Hrun.
      destruct (INT_MAX <=? idx)%Z eqn:Hov; [discriminate Hrun|].
      apply Z.leb_gt in Hov.
      apply NodeCosts_new_Ok in Hc0. destruct Hc0 as (Hc0n & Hc0l & Hc0c).
      apply NodeCosts_new_Ok in Hc1. destruct Hc1 as (Hc1n & Hc1l & Hc1c).
      rewrite Hnlev, wrap32_succ in Hc0l, Hc1l by lia.
      assert (Hkids : forall c, c = c0 \/ c = c1 ->
                                is_kid s (nc_node nodeCost) (nc_node c)).
      { intros c Hc. destruct Hncost as (p & n' & ob & Hp & Hn' & _ & _).
        rewrite Hp in Hn. apply get_node_Ok in Hn. destruct Hn as (a & Ha & Hn).
        injection Ha as <-. exists p, n.
        destruct Hc as [->| ->].
        - destruct Hc0c as (pc & _ & _ & Hpc & _). exists pc.
          repeat split; auto. left. congruence.
        - destruct Hc1c as (pc & _ & _ & Hpc & _). exists pc.
          repeat split; auto. right. congruence. }
      unfold pq_push in Hrun.
      specialize (IH ((rest ++ [c0]) ++ [c1]) (path ++ [nodeCost]) sm' (idx + 1)%Z res Hrun).
      destruct IH as (ext & lf & nl & Hext & (y & Hy & Hyl & Hyh) & Hc & Hl & Hr
                      & Hlf & Hlast & Hnl & Hil & Hbound).
      * lia.
      * lia.
      * exact Hcost'.
      * exact Hlink'.
      * lia.
      * destruct rest; discriminate.
      * rewrite <- app_assoc. apply Forall_app. split.
        -- rewrite List.Forall_forall in *. intros z Hz. apply Hpq. apply Hrest. exact Hz.
        -- repeat constructor; assumption.
      * rewrite <- app_assoc. apply Forall_app. split.
        -- rewrite List.Forall_forall in *. intros z Hz.
           specialize (Hlev z (Hrest z Hz)). simpl in Hlev. lia.
        -- repeat constructor; lia.
      * exists c0. split; [|exact Hc0l]. apply in_or_app. left. apply in_or_app.
        right. left. reflexivity.
      * intros z lst Hz Hzl Hlst. rewrite last_snoc in Hlst. injection Hlst as <-.
        rewrite <- app_assoc in Hz. apply in_app_or in Hz. destruct Hz as [Hz|Hz].
        -- exfalso. rewrite List.Forall_forall in Hlev.
           specialize (Hlev z (Hrest z Hz)). simpl in Hlev. lia.
        -- apply Hkids. simpl in Hz. intuition.
      * exists (nodeCost :: ext), lf, nl.
        split; [rewrite Hext, <- app_assoc; reflexivity|].
        split; [exists nodeCost; auto|].
        split; [exact Hc|]. split; [exact Hl|]. split; [exact Hr|].
        split; [exact Hlf|]. split; [exact Hlast|]. split; [exact Hnl|].
        split; [exact Hil|]. exact Hbound.
Qed.

(** ** What [AddObject] and the path commit touch *)

Lemma node_frame_refl this s : node_frame this s s.
Proof. unfold node_frame. auto 10. Qed.

Lemma node_frame_trans this s1 s2 s3 :
  node_frame this s1 s2 -> node_frame this s2 s3 -> node_frame this s1 s3.
Proof.
  intros (A1 & B1 & C1 & D1 & E1 & F1) (A2 & B2 & C2 & D2 & E2 & F2).
  unfold node_frame. repeat split; try congruence;
    intros q; intros; rewrite ?D2, ?E2, ?F2 by auto; auto.
Qed.

Lemma upd_obj_node_frame this p f s s' :
  upd_obj p f s = Ok s' -> node_frame this s s'.
Proof. intros H. prim_inv. subst. unfold node_frame. simpl. auto 10. Qed.

Lemma upd_node_frame_gen this f s s' :
  (forall n, bv (f n) = bv n /\ children (f n) = children n) ->
  upd_node (Some this) f s = Ok s' -> node_frame this s s'.
Proof.
  intros Hf H. unfold upd_node in H.
  destruct (nodes s !! this) as [n|] eqn:Hn; [|discriminate H].
  injection H as <-. destruct (Hf n) as [Hb Hc].
  unfold node_frame. simpl. repeat split; auto.
  - intros q Hq. apply lookup_insert_ne. auto.
  - intros q. destruct (decide (q = this)) as [->|Hne].
    + rewrite lookup_insert_eq, Hn. simpl. rewrite Hb. reflexivity.
    + rewrite lookup_insert_ne by auto. reflexivity.
  - intros q. destruct (decide (q = this)) as [->|Hne].
    + rewrite lookup_insert_eq, Hn. simpl. rewrite Hc. reflexivity.
    + rewrite lookup_insert_ne by auto. reflexivity.
Qed.

Lemma upd_node_first_frame this v s s' :
  upd_node (Some this) (set_firstObject v) s = Ok s' -> node_frame this s s'.
Proof. apply upd_node_frame_gen. intros n. split; reflexivity. Qed.

Lemma upd_node_last_frame this v s s' :
  upd_node (Some this) (set_lastObject v) s = Ok s' -> node_frame this s s'.
Proof. apply upd_node_frame_gen. intros n. split; reflexivity. Qed.

Ltac node_frames this :=
  repeat match goal with
         | H : upd_obj _ _ _ = Ok _ |- _ => apply (upd_obj_node_frame this) in H
         | H : upd_node (Some this) (set_firstObject _) _ = Ok _ |- _ =>
             apply upd_node_first_frame in H
         | H : upd_node (Some this) (set_lastObject _) _ = Ok _ |- _ =>
             apply upd_node_last_frame in H
         end.

Lemma AddObject_node_frame this object s s' :
  AddObject this object s = Ok s' -> node_frame this s s'.
Proof.
  unfold AddObject. intros H. res_inv; node_frames this;
    eauto 12 using node_frame_refl, node_frame_trans.
Qed.

Lemma bv_frame_refl s : bv_frame s s.
Proof. unfold bv_frame. auto 10. Qed.

Lemma bv_frame_trans s1 s2 s3 : bv_frame s1 s2 -> bv_frame s2 s3 -> bv_frame s1 s3.
Proof.
  intros (A1 & B1 & C1 & D1 & E1 & F1 & G1) (A2 & B2 & C2 & D2 & E2 & F2 & G2).
  unfold bv_frame. repeat split; try congruence;
    intros q; rewrite ?E2, ?F2, ?G2; auto.
Qed.

Lemma upd_node_bv_frame p b s s' :
  upd_node p (set_bv b) s = Ok s' -> bv_frame s s'.
Proof.
  intros H. unfold upd_node in H. destruct p as [p|]; [|discriminate H].
  destruct (nodes s !! p) as [n|] eqn:Hn; [|discriminate H].
  injection H as <-.
  unfold bv_frame. simpl. repeat split; auto; intros q;
    (destruct (decide (q = p)) as [->|Hne];
     [rewrite lookup_insert_eq, Hn; reflexivity
     |rewrite lookup_insert_ne by auto; reflexivity]).
Qed.

Lemma commit_path_bv_frame path s s' :
  commit_path path s = Ok s' -> bv_frame s s'.
Proof.
  revert s. induction path as [|nc path IH]; simpl; intros s H.
  - injection H as <-. apply bv_frame_refl.
  - res_inv. eapply bv_frame_trans; [eapply upd_node_bv_frame; eauto | eauto].
Qed.

(** After the commit a node of the path has the volume its record holds;
    the other nodes are as before. *)
Lemma commit_path_spec path :
  forall s s',
  commit_path path s = Ok s' ->
  (forall a b, In a path -> In b path -> nc_node a = nc_node b ->
               newAabb a = newAabb b) ->
  (forall q, ~ In (Some q) (map nc_node path) -> nodes s' !! q = nodes s !! q)
  /\ (forall nc, In nc path ->
                 exists p n, nc_node nc = Some p /\ nodes s !! p = Some n
                             /\ nodes s' !! p = Some (set_bv (newAabb nc) n)).
Proof.
  induction path as [|nc0 path IH]; intros s s' H Hcons.
  - simpl in H. injection H as <-. split; [auto | intros nc []].
  - simpl in H. res_inv. prim_inv. subst.
    destruct (IH _ _ H) as (Hout & Hin).
    { intros a b Ha Hb. apply Hcons; right; assumption. }
    split.
    + intros q Hq. rewrite Hout.
      * simpl. apply lookup_insert_ne. intros ->. apply Hq. left. auto.
      * intros Hc. apply Hq. right. exact Hc.
    + assert (Hnc0 : exists n', nodes s' !! x = Some (set_bv (newAabb nc0) n')
                                /\ n' = x0).
      { destruct (in_dec (fun a b => decide (a = b)) (Some x) (map nc_node path))
          as [Hi|Hni].
        - apply in_map_iff in Hi. destruct Hi as (nc1 & Hnc1 & Hi1).
          destruct (Hin nc1 Hi1) as (p & n & Hp & Hn & Hn').
          rewrite Hnc1 in Hp. injection Hp as <-.
          simpl in Hn. rewrite lookup_insert_eq in Hn. injection Hn as <-.
          exists x0. split; [|reflexivity]. rewrite Hn'.
          rewrite <- (Hcons nc0 nc1); [reflexivity|left; auto|right; auto|congruence].
        - exists x0. split; [|reflexivity]. rewrite Hout by exact Hni.
          simpl. apply lookup_insert_eq. }
      destruct Hnc0 as (n' & Hn' & ->).
      intros nc [<-|Hnc].
      * exists x, x0. auto.
      * destruct (Hin nc Hnc) as (p & n & Hp & Hn & Hs').
        destruct (decide (p = x)) as [->|Hne].
        -- exists x, x0. split; [exact Hp|]. split; [exact H1|].
           simpl in Hn. rewrite lookup_insert_eq in Hn. injection Hn as <-.
           rewrite Hs'. reflexivity.
        -- exists p, n. split; [exact Hp|].
           simpl in Hn. rewrite lookup_insert_ne in Hn by auto. auto.
Qed.

Lemma cost_of_consistent s object path :
  Forall (cost_of s object) path ->
  forall a b, In a path -> In b path -> nc_node a = nc_node b -> newAabb a = newAabb b.
Proof.
  intros H a b Ha Hb Hab. rewrite List.Forall_forall in H.
  destruct (H a Ha) as (pa & na & oa & Hpa & Hna & Hoa & Haa).
  destruct (H b Hb) as (pb & nb & ob & Hpb & Hnb & Hob & Hbb).
  rewrite Haa, Hbb. congruence.
Qed.

(** ** The plan of [Insert] *)

Lemma Insert_decide_append F s config path sm leaf l :
  Insert_decide F s config path sm leaf = Ok (AppendToLeaf l) -> leaf = Some l.
Proof.
  unfold Insert_decide. intros H.
  destruct leaf as [lf|]; [|discriminate H].
  destruct (path !! Z.to_nat sm); [|discriminate H].
  destruct (Qltb _ _); [|discriminate H].
  destruct (ObjectCount F s (nc_node lf)); try discriminate H. cbn [bindR] in H.
  destruct (_ || _); [congruence|].
  destruct (_ && _); [discriminate H | congruence].
Qed.

(** The path the plan records starts at the root, follows children, and
    ends in the leaf the search reached. *)
Lemma Insert_plan_path F object config s path d :
  Insert_plan F object config s = Ok (path, d) ->
  exists c lf n,
    head path = Some c /\ nc_node c = mRoot s /\ mRoot s <> None
    /\ Forall (cost_of s object) path /\ linked s path
    /\ last path = Some lf /\ get_node s (nc_node lf) = Ok n /\ IsLeaf n = true
    /\ (forall l, d = AppendToLeaf l -> l = lf).
Proof.
  unfold Insert_plan. intros H.
  destruct (NodeCosts_new s (mRoot s) object 0 0) as [c| | |] eqn:Hc;
    try discriminate H.
  cbn [bindR] in H.
  destruct (Insert_search F s object [c] [] 0 0) as [r| | |] eqn:Hs;
    try discriminate H.
  cbn [bindR] in H.
  destruct (Insert_decide F s config r.1.1 r.1.2 r.2) as [d'| | |] eqn:Hd;
    try discriminate H.
  cbn [bindR] in H. injection H as <- <-.
  apply NodeCosts_new_Ok in Hc. destruct Hc as (Hcn & Hcl & Hcc).
  destruct (Insert_search_chain s object F [c] [] 0%Z 0%Z r Hs)
    as (ext & lf & n & Hext & (x & Hx & _ & Hxh) & Hcost & Hlink & _ & Hlf
        & Hlast & Hn & Hleaf & _).
  - reflexivity.
  - unfold INT_MAX. lia.
  - constructor.
  - apply linked_nil.
  - lia.
  - discriminate.
  - repeat constructor. exact Hcc.
  - repeat constructor. lia.
  - exists c. split; [left; reflexivity | exact Hcl].
  - intros ? ? _ _ Hl. discriminate Hl.
  - destruct Hx as [<-|[]]. simpl in Hext.
    exists c, lf, n. rewrite Hext.
    split; [exact Hxh|]. split; [exact Hcn|].
    split; [destruct Hcc as (p & _ & _ & Hp & _); congruence|].
    rewrite <- Hext.
    split; [exact Hcost|]. split; [exact Hlink|]. split; [exact Hlast|].
    split; [exact Hn|]. split; [exact Hleaf|].
    intros l ->. apply Insert_decide_append in Hd. congruence.
Qed.

(** C5.  When [Insert] appends to an existing leaf, the recorded path runs
    from the root through children down to that leaf, every node on it ends
    up with the volume of its record (its old volume merged with the
    object's), and the volume of every other node is what it was. *)
Theorem Insert_append_frame
    (F : nat) (object : T) (config : BvhBuildConfig) (s s' : State)
    (path : list NodeCosts) (leafNode : NodeCosts) :
  Insert_plan F object config (incr_mObjectCount s) = Ok (path, AppendToLeaf leafNode) ->
  Insert F object config s = Ok s' ->
  (exists c, head path = Some c /\ nc_node c = mRoot s /\ mRoot s <> None)
  /\ linked s path
  /\ last path = Some leafNode
  /\ (forall nc, In nc path ->
                 exists p n n' ob,
                   nc_node nc = Some p /\ nodes s !! p = Some n
                   /\ get_obj s object = Ok ob
                   /\ newAabb nc = Aabb_merge (bv n) (obj_bv ob)
                   /\ nodes s' !! p = Some n' /\ bv n' = newAabb nc)
  /\ (forall q, ~ In (Some q) (map nc_node path) ->
                bv <$> nodes s' !! q = bv <$> nodes s !! q).
Proof.
  intros Hplan Hrun.
  destruct (Insert_plan_path _ _ _ _ _ _ Hplan)
    as (c & lf & n & Hhead & Hcn & Hroot & Hcost & Hlink & Hlast & Hn & Hleaf & Hd).
  specialize (Hd leafNode eq_refl). subst lf.
  unfold Insert in Hrun. cbv zeta in Hrun.
  change (mRoot (incr_mObjectCount s)) with (mRoot s) in *.
  destruct (mRoot s) as [r|] eqn:Hr; [|congruence].
  rewrite Hplan in Hrun. cbn [bindR fst snd] in Hrun.
  unfold Insert_append in Hrun.
  destruct (commit_path path (incr_mObjectCount s)) as [s1| | |] eqn:Hcommit;
    try discriminate Hrun.
  cbn [bindR] in Hrun.
  destruct (nc_node leafNode) as [leaf|] eqn:Hleafp; [|discriminate Hrun].
  apply AddObject_node_frame in Hrun.
  destruct Hrun as (_ & _ & _ & _ & Hbv & _).
  destruct (commit_path_spec path _ _ Hcommit (cost_of_consistent _ _ _ Hcost))
    as (Hout & Hin).
  split; [exists c; auto|]. split; [exact Hlink|]. split; [exact Hlast|]. split.
  - intros nc Hnc. destruct (Hin nc Hnc) as (p & m & Hp & Hm & Hm').
    specialize (Hbv p). rewrite Hm' in Hbv. simpl in Hbv, Hm.
    destruct (nodes s' !! p) as [n'|] eqn:Hs'; [|discriminate Hbv].
    simpl in Hbv. injection Hbv as Hbv.
    rewrite List.Forall_forall in Hcost.
    destruct (Hcost nc Hnc) as (p' & m' & ob & Hp' & Hm'' & Hob & Hnew).
    rewrite Hp in Hp'. injection Hp' as <-. simpl in Hm''.
    rewrite Hm in Hm''. injection Hm'' as <-.
    exists p, m, n', ob. split; [exact Hp|]. split; [exact Hm|].
    split; [exact Hob|]. split; [exact Hnew|]. split; [exact Hs'|].
    exact Hbv.
  - intros q Hq. rewrite Hbv. rewrite (Hout q Hq). reflexivity.
Qed.

(** Object 4 goes into the leaf that holds object 3: the path is root 3,
    node 5, leaf 6. *)
Lemma Insert_append_frame_witness :
  exists s' path leafNode,
    Insert_plan 20 (Some 4) roomy_config (incr_mObjectCount (inserted 4))
    = Ok (path, AppendToLeaf leafNode)
    /\ Insert 20 (Some 4) roomy_config (inserted 4) = Ok s'
    /\ map nc_node path = [Some 3; Some 5; Some 6]
    /\ (forall q, ~ In (Some q) (map nc_node path) ->
                  bv <$> nodes s' !! q = bv <$> nodes (inserted 4) !! q).
Proof.
  destruct (Insert_plan 20 (Some 4) roomy_config (incr_mObjectCount (inserted 4)))
    as [[path [leafNode|idx]]| | |] eqn:Hplan;
    try (vm_compute in Hplan; discriminate Hplan).
  destruct (Insert 20 (Some 4) roomy_config (inserted 4)) as [s'| | |] eqn:Hrun;
    try (vm_compute in Hrun; discriminate Hrun).
  exists s', path, leafNode. split; [reflexivity|]. split; [reflexivity|].
  split.
  - vm_compute in Hplan. injection Hplan as <- _. reflexivity.
  - exact (proj2 (proj2 (proj2 (proj2
             (Insert_append_frame 20 (Some 4) roomy_config (inserted 4) s'
                                  path leafNode Hplan Hrun))))).
Defined.

(** ** [AddObject] on a leaf that was just allocated *)

Lemma upd_obj_nodes p f s s' : upd_obj p f s = Ok s' -> nodes s' = nodes s.
Proof. intros H. prim_inv. subst. reflexivity. Qed.

Ltac bind_step H s' E :=
  match type of H with
  | bindR ?e _ = Ok _ =>
      destruct e as [s'| | |] eqn:E; [cbn [bindR] in H | discriminate H ..]
  end.

Lemma AddObject_first_last this object s s' n :
  AddObject this object s = Ok s' ->
  nodes s !! this = Some n ->
  firstObject n = None -> lastObject n = None ->
  (forall ob, get_obj s object = Ok ob -> node (bvhInfo ob) <> Some this) ->
  nodes s' !! this = Some (set_lastObject object (set_firstObject object n)).
Proof.
  unfold AddObject. intros H Hn Hf Hl Hne.
  destruct (get_obj s object) as [o| | |] eqn:Ho; try discriminate H.
  cbn [bindR] in H.
  destruct (decide (node (bvhInfo o) = Some this)) as [Heq|_];
    [exfalso; exact (Hne o eq_refl Heq)|].
  bind_step H sa Hblock.
  assert (Hsa : nodes sa = nodes s).
  { clear H. res_inv; prim_inv; subst; reflexivity. }
  clear Hblock.
  rewrite (get_node_Some sa this n) in H by (rewrite Hsa; exact Hn).
  cbn [bindR] in H. rewrite Hf in H.
  bind_step H sb Hb. apply upd_node_Ok in Hb.
  destruct Hb as (a & n0 & Ha & Hn0 & ->). injection Ha as <-.
  rewrite Hsa, Hn in Hn0. injection Hn0 as <-.
  rewrite (get_node_Some _ this (set_firstObject object n)) in H
    by (simpl; apply lookup_insert_eq).
  cbn [bindR] in H.
  bind_step H st1 Hc. apply upd_obj_nodes in Hc.
  bind_step H st2 Hd. apply upd_obj_nodes in Hd.
  bind_step H st3 He. apply upd_obj_nodes in He.
  rewrite (get_node_Some st3 this (set_firstObject object n)) in H
    by (rewrite He, Hd, Hc; simpl; apply lookup_insert_eq).
  cbn [bindR] in H. cbn [lastObject set_firstObject] in H. rewrite Hl in H.
  cbn [bindR] in H. apply upd_node_Ok in H.
  destruct H as (a & n0 & Ha & Hn0 & ->). injection Ha as <-.
  rewrite He, Hd, Hc in Hn0. simpl in Hn0. rewrite lookup_insert_eq in Hn0.
  injection Hn0 as <-. simpl. apply lookup_insert_eq.
Qed.

(** ** Creating a parent above a node that is not the root *)

Lemma child_set_child_same k v n : (k = 0 \/ k = 1)%Z -> child (set_child k v n) k = v.
Proof. intros [->| ->]; reflexivity. Qed.

Lemma child_set_child_other k v n :
  (k = 0 \/ k = 1)%Z -> child (set_child k v n) (Z.lxor k 1) = child n (Z.lxor k 1).
Proof. intros [->| ->]; reflexivity. Qed.

Lemma child_set_child_other' k v n :
  (k = 0 \/ k = 1)%Z -> child (set_child (Z.lxor k 1) v n) k = child n k.
Proof. intros [->| ->]; reflexivity. Qed.

Lemma child_set_child_same' k v n :
  (k = 0 \/ k = 1)%Z -> child (set_child (Z.lxor k 1) v n) (Z.lxor k 1) = v.
Proof. intros [->| ->]; reflexivity. Qed.

Lemma pick_slot (pn1 pn : Node) (b : option nat) (bestp : nat) :
  children pn1 = children pn -> b = Some bestp ->
  child pn 0 = Some bestp \/ child pn 1 = Some bestp ->
  child pn (if decide (child pn1 0 = b) then 0%Z else 1%Z) = Some bestp.
Proof.
  unfold child. intros -> -> Hslot. simpl in *.
  destruct (decide _) as [Hd|Hd]; simpl; [exact Hd|].
  destruct Hslot as [Hs0|Hs1]; [congruence | exact Hs1].
Qed.

Lemma alloc_ok_forall s :
  map_Forall (fun p _ => (p < next_node s)%nat) (nodes s) -> alloc_ok s.
Proof.
  intros H p [n Hn]. exact (H p n Hn).
Qed.

Lemma inserted3_alloc_ok : alloc_ok (inserted 3).
Proof.
  apply alloc_ok_forall.
  apply (bool_decide_unpack _). vm_compute. reflexivity.
Qed.

(** C4.  When [Insert] creates a parent above a node [best] that is not the
    root, the new internal node takes the child slot [k] of the node whose
    child [k] was [best]; its own child [k] is [best] and its child [k^1]
    is a new leaf that lists the inserted object; the children of every
    other node, and the root pointer, are unchanged. *)
Theorem Insert_create_above
    (F : nat) (object : T) (config : BvhBuildConfig) (s s' : State)
    (path : list NodeCosts) (idx : Z) (best : NodeCosts) :
  alloc_ok s ->
  (forall ob q, get_obj s object = Ok ob -> node (bvhInfo ob) = Some q ->
                (q < next_node s)%nat) ->
  Insert_plan F object config (incr_mObjectCount s) = Ok (path, CreateParent idx) ->
  path !! Z.to_nat idx = Some best ->
  nc_node best <> mRoot s ->
  Insert F object config s = Ok s' ->
  exists parent pn bestp k,
    nc_node best = Some bestp
    /\ (k = 0 \/ k = 1)%Z
    /\ nodes s !! parent = Some pn /\ child pn k = Some bestp
    /\ nodes s !! next_node s = None /\ nodes s !! S (next_node s) = None
    /\ (exists pn', nodes s' !! parent = Some pn'
                    /\ child pn' k = Some (next_node s)
                    /\ child pn' (Z.lxor k 1) = child pn (Z.lxor k 1))
    /\ (exists nn, nodes s' !! next_node s = Some nn
                   /\ bv nn = newAabb best
                   /\ child nn k = Some bestp
                   /\ child nn (Z.lxor k 1) = Some (S (next_node s))
                   /\ firstObject nn = None /\ lastObject nn = None)
    /\ (exists ln ob, get_obj s object = Ok ob
                      /\ nodes s' !! S (next_node s) = Some ln
                      /\ bv ln = obj_bv ob
                      /\ children ln = (None, None)
                      /\ firstObject ln = object /\ lastObject ln = object)
    /\ (forall q, q <> parent -> (q < next_node s)%nat ->
                  children <$> nodes s' !! q = children <$> nodes s !! q)
    /\ mRoot s' = mRoot s.
Proof.
  intros Halloc Hback Hplan Hbest Hnr Hrun.
  destruct (Insert_plan_path _ _ _ _ _ _ Hplan)
    as (c & lf & nl & Hhead & Hcn & Hroot & Hcost & Hlink & _).
  set (s0 := incr_mObjectCount s) in *.
  unfold Insert in Hrun. cbv zeta in Hrun. fold s0 in Hrun.
  change (mRoot s0) with (mRoot s) in *.
  destruct (mRoot s) as [r|] eqn:Hr; [|congruence].
  rewrite Hplan in Hrun. cbn [bindR fst snd] in Hrun.
  unfold Insert_create in Hrun.
  destruct (idx <? 0)%Z eqn:Hneg; [discriminate Hrun|]. apply Z.ltb_ge in Hneg.
  rewrite Hbest in Hrun.
  change (mRoot s0) with (mRoot s) in Hrun. rewrite Hr in Hrun.
  destruct (decide (nc_node best = Some r)) as [Heq|_]; [contradiction|].
  bind_step Hrun s1 Hcommit.
  destruct (idx - 1 <? 0)%Z eqn:Hneg1; [discriminate Hrun|]. apply Z.ltb_ge in Hneg1.
  destruct (path !! Z.to_nat (idx - 1)) as [parentCost|] eqn:Hpc; [|discriminate Hrun].
  (* the record before [best] is for its parent *)
  assert (Hkid : is_kid s0 (nc_node parentCost) (nc_node best)).
  { apply (Hlink (Z.to_nat (idx - 1)) parentCost best Hpc).
    replace (S (Z.to_nat (idx - 1))) with (Z.to_nat idx) by lia. exact Hbest. }
  destruct Hkid as (pa & pn & bestp & Hpa & Hpn & Hbp & Hslot).
  change (nodes s0) with (nodes s) in Hpn.
  pose proof (commit_path_bv_frame _ _ _ Hcommit)
    as (Hobj1 & Hnext1 & Hroot1 & _ & Hch1 & Hfo1 & Hlo1).
  change (objects s0) with (objects s) in Hobj1.
  change (next_node s0) with (next_node s) in Hnext1.
  change (mRoot s0) with (mRoot s) in Hroot1.
  assert (Hpalt : (pa < next_node s)%nat) by (apply Halloc; rewrite Hpn; eauto).
  assert (Hfree0 : nodes s !! next_node s = None).
  { destruct (nodes s !! next_node s) eqn:E; [|reflexivity].
    exfalso. assert (next_node s < next_node s)%nat by (apply Halloc; rewrite E; eauto).
    lia. }
  assert (Hfree1 : nodes s !! S (next_node s) = None).
  { destruct (nodes s !! S (next_node s)) eqn:E; [|reflexivity].
    exfalso. assert (S (next_node s) < next_node s)%nat by (apply Halloc; rewrite E; eauto).
    lia. }
  destruct (nodes s1 !! pa) as [pn1|] eqn:Hpn1.
  2:{ specialize (Hch1 pa). change (nodes s0) with (nodes s) in Hch1.
      rewrite Hpn1, Hpn in Hch1. discriminate Hch1. }
  assert (Hchpn : children pn1 = children pn).
  { specialize (Hch1 pa). change (nodes s0) with (nodes s) in Hch1.
    rewrite Hpn1, Hpn in Hch1. simpl in Hch1. congruence. }
  rewrite Hpa in Hrun.
  rewrite (get_node_Some s1 pa pn1 Hpn1) in Hrun. cbn [bindR] in Hrun.
  set (k := if decide (child pn1 0 = nc_node best) then 0%Z else 1%Z) in *.
  assert (Hk : (k = 0 \/ k = 1)%Z) by (unfold k; destruct (decide _); auto).
  assert (Hkslot : child pn k = Some bestp).
  { apply pick_slot; assumption. }
  set (newp := next_node s) in *.
  cbn [new_Node fst snd] in Hrun. rewrite Hnext1 in Hrun. fold newp in Hrun.
  assert (Hne1 : pa <> newp) by (unfold newp; lia).
  assert (Hne2 : pa <> S newp) by (unfold newp; lia).
  (* parent.children[k] = new Node *)
  bind_step Hrun s2 H2. apply upd_node_Ok in H2.
  destruct H2 as (a & n2 & Ha & Hn2 & ->). injection Ha as <-.
  cbn [nodes] in Hn2. rewrite lookup_insert_ne in Hn2 by auto.
  rewrite Hpn1 in Hn2. injection Hn2 as <-.
  rewrite (get_node_Some _ pa (set_child k (Some newp) pn1)) in Hrun
    by (simpl; apply lookup_insert_eq).
  cbn [bindR] in Hrun. rewrite child_set_child_same in Hrun by exact Hk.
  (* new.children[k] = best *)
  bind_step Hrun s3 H3. apply upd_node_Ok in H3.
  destruct H3 as (a & n3 & Ha & Hn3 & ->). injection Ha as <-.
  simpl in Hn3. rewrite lookup_insert_ne in Hn3 by auto.
  rewrite lookup_insert_eq in Hn3. injection Hn3 as <-.
  destruct (get_obj _ object) as [o| | |] eqn:Ho in Hrun; try discriminate Hrun.
  cbn [bindR] in Hrun.
  assert (Hos : get_obj s object = Ok o).
  { apply get_obj_Ok in Ho. destruct Ho as (a & -> & Ho). simpl in Ho.
    rewrite Hobj1 in Ho. apply get_obj_Some. exact Ho. }
  cbn [new_Node fst snd next_node with_nodes] in Hrun.
  rewrite (get_node_Some _ pa (set_child k (Some newp) pn1)) in Hrun.
  2:{ simpl. rewrite lookup_insert_ne by lia. rewrite lookup_insert_ne by auto.
      apply lookup_insert_eq. }
  cbn [bindR] in Hrun. rewrite child_set_child_same in Hrun by exact Hk.
  (* new.children[k^1] = new leaf *)
  bind_step Hrun s4 H4. apply upd_node_Ok in H4.
  destruct H4 as (a & n4 & Ha & Hn4 & ->). injection Ha as <-.
  simpl in Hn4. rewrite lookup_insert_ne in Hn4 by lia.
  rewrite lookup_insert_eq in Hn4. injection Hn4 as <-.
  rewrite (get_node_Some _ pa (set_child k (Some newp) pn1)) in Hrun.
  2:{ simpl. rewrite lookup_insert_ne by auto. rewrite lookup_insert_ne by lia.
      rewrite lookup_insert_ne by auto. apply lookup_insert_eq. }
  cbn [bindR] in Hrun. rewrite child_set_child_same in Hrun by exact Hk.
  match type of Hrun with
  | context [get_node ?st (Some newp)] =>
      rewrite (get_node_Some st newp
                 (set_child (Z.lxor k 1) (Some (S newp))
                    (set_child k (nc_node best)
                       (mkNode (newAabb best) (None, None) None None)))) in Hrun
        by (simpl; apply lookup_insert_eq)
  end.
  cbn [bindR] in Hrun. rewrite child_set_child_same' in Hrun by exact Hk.
  (* the leaf takes the object *)
  match type of Hrun with
  | AddObject _ _ ?st = _ => set (s4 := st) in *
  end.
  assert (Hleaf4 : nodes s4 !! S newp = Some (mkNode (obj_bv o) (None, None) None None)).
  { unfold s4. simpl. rewrite lookup_insert_ne by lia. apply lookup_insert_eq. }
  pose proof (AddObject_first_last _ _ _ _ _ Hrun Hleaf4 eq_refl eq_refl) as Hleaf'.
  pose proof (AddObject_node_frame _ _ _ _ Hrun) as (_ & Hroot' & _ & Hother & _ & Hch').
  exists pa, pn, bestp, k.
  split; [exact Hbp|]. split; [exact Hk|]. split; [exact Hpn|].
  split; [exact Hkslot|]. split; [exact Hfree0|]. split; [exact Hfree1|].
  split; [|split; [|split; [|split]]].
  - exists (set_child k (Some newp) pn1). split.
    + rewrite Hother by lia. unfold s4. simpl.
      rewrite lookup_insert_ne by auto. rewrite lookup_insert_ne by lia.
      rewrite lookup_insert_ne by auto. apply lookup_insert_eq.
    + split; [apply child_set_child_same; exact Hk|].
      rewrite child_set_child_other by exact Hk. unfold child. rewrite Hchpn. reflexivity.
  - eexists. split.
    + rewrite Hother by lia. unfold s4. simpl. apply lookup_insert_eq.
    + split; [destruct Hk as [->| ->]; reflexivity|].
      split; [rewrite child_set_child_other' by exact Hk;
              rewrite child_set_child_same by exact Hk; exact Hbp|].
      split; [apply child_set_child_same'; exact Hk|].
      destruct Hk as [->| ->]; split; reflexivity.
  - exists (set_lastObject object
              (set_firstObject object (mkNode (obj_bv o) (None, None) None None))), o.
    split; [exact Hos|]. split.
    + apply Hleaf'. intros ob Hob Hnode.
      assert (Hob' : get_obj s object = Ok ob).
      { apply get_obj_Ok in Hob. destruct Hob as (a & -> & Hob).
        unfold s4 in Hob. simpl in Hob. rewrite Hobj1 in Hob.
        apply get_obj_Some. exact Hob. }
      specialize (Hback ob (S newp) Hob' Hnode). unfold newp in Hback. lia.
    + repeat split.
  - intros q Hq Hlt. rewrite Hch'. unfold s4. simpl.
    rewrite lookup_insert_ne by (unfold newp; lia).
    rewrite lookup_insert_ne by (unfold newp; lia).
    rewrite lookup_insert_ne by (unfold newp; lia).
    rewrite lookup_insert_ne by auto.
    rewrite lookup_insert_ne by (unfold newp; lia).
    apply Hch1.
  - rewrite Hroot'. unfold s4. simpl. congruence.
Qed.

Lemma Insert_create_above_witness :
  exists s' parent pn' k,
    Insert 20 (Some 3) cInsertConfig_manual (inserted 3) = Ok s'
    /\ (k = 0 \/ k = 1)%Z
    /\ nodes s' !! parent = Some pn'
    /\ child pn' k = Some (next_node (inserted 3))
    /\ mRoot s' = mRoot (inserted 3).
Proof.
  destruct (Insert_plan 20 (Some 3) cInsertConfig_manual (incr_mObjectCount (inserted 3)))
    as [[path [leafNode|idx]]| | |] eqn:Hplan;
    try (vm_compute in Hplan; discriminate Hplan).
  destruct (path !! Z.to_nat idx) as [best|] eqn:Hbest.
  2:{ vm_compute in Hplan. injection Hplan as <- <-. vm_compute in Hbest.
      discriminate Hbest. }
  destruct (Insert 20 (Some 3) cInsertConfig_manual (inserted 3)) as [s'| | |] eqn:Hrun;
    try (vm_compute in Hrun; discriminate Hrun).
  assert (Hnr : nc_node best <> mRoot (inserted 3)).
  { vm_compute in Hplan. injection Hplan as <- <-. vm_compute in Hbest.
    injection Hbest as <-. vm_compute. discriminate. }
  assert (Hback : forall ob q, get_obj (inserted 3) (Some 3) = Ok ob ->
                   node (bvhInfo ob) = Some q -> (q < next_node (inserted 3))%nat).
  { intros ob q Hob. vm_compute in Hob. injection Hob as <-. discriminate. }
  destruct (Insert_create_above 20 (Some 3) cInsertConfig_manual (inserted 3) s'
              path idx best inserted3_alloc_ok Hback Hplan Hbest Hnr Hrun)
    as (parent & pn & bestp & k & _ & Hk & _ & _ & _ & _
        & (pn' & Hpn' & Hc & _) & _ & _ & _ & Hroot).
  exists s', parent, pn', k. split; [reflexivity|]. split; [exact Hk|].
  split; [exact Hpn'|]. split; [exact Hc|exact Hroot].
Defined.

(** * The ray query and object ids from 2^31 on *)

(** C2.  [QueryDebug] keeps the closest id in an [int] whose negative
    values mean "no hit": for the object with id 2^31, which the ray
    enters at time 1, both modes return no id, although the unpruned query
    lists the object among the hits and brute force finds it. *)
Theorem QueryDebug_loses_high_id :
  QueryDebug ray_intersect 10 along_x false high_id_tree
  = Ok (None, [high_id], [0%nat])
  /\ QueryDebug ray_intersect 10 along_x true high_id_tree
     = Ok (None, [], [0%nat])
  /\ brute_force_hits ray_intersect along_x high_id_tree [0%nat] = [high_id]
  /\ bvh_repr high_id_tree (Some (TLeaf 0%nat unit_box [0%nat]))
  /\ contained high_id_tree (TLeaf 0%nat unit_box [0%nat]).
Proof.
  split; [vm_compute; reflexivity|].
  split; [vm_compute; reflexivity|].
  split; [vm_compute; reflexivity|].
  split.
  - split; [reflexivity|]. split; [|split].
    + split; [vm_compute; reflexivity|]. split; [vm_compute; reflexivity|exact I].
    + apply NoDup_singleton.
    + apply NoDup_singleton.
  - constructor; [|constructor]. unfold obj_enclosed.
    change (objects high_id_tree !! 0%nat)
      with (Some (mkObject high_id unit_box (mkBvhInfo None None (Some 0%nat)))).
    cbn [obj_bv]. apply encloses_refl.
Qed.

(** * Rebuilding over a populated tree *)

(** C3.  [BuildTopDown] does not clear a populated tree before it builds
    on it, so the partition is lost: after [BuildTopDown] over objects 0
    and 1 and a second [BuildTopDown] over object 0 alone, the tree is one
    leaf that lists object 0; object 1 is in the list of no node, while
    its back pointer still names the leaf of the first build, whose list
    ends the second build has set to null. *)
Lemma rebuild_loses_objects :
  exists s',
    run_calls 10 default_config rebuild_calls two_boxes = Ok s'
    /\ ~ bvh_invariants s' [0%nat; 1%nat]
    /\ mRoot s' = Some 1%nat
    /\ node_objects 10 s' 1 = Ok [0%nat]
    /\ node_objects 10 s' 0 = Ok []
    /\ (node ∘ bvhInfo) <$> objects s' !! 1%nat = Some (Some 0%nat).
Proof.
  destruct (run_calls 10 default_config rebuild_calls two_boxes) as [s'| | |] eqn:Hrun;
    try (vm_compute in Hrun; discriminate Hrun).
  exists s'. split; [reflexivity|].
  assert (Hroot : mRoot s' = Some 1%nat).
  { vm_compute in Hrun. injection Hrun as <-. reflexivity. }
  assert (Hnode : nodes s' !! 1%nat
                  = Some (mkNode unit_box (None, None) (Some 0%nat) (Some 0%nat))).
  { vm_compute in Hrun. injection Hrun as <-. reflexivity. }
  assert (Hobj : bvhInfo <$> objects s' !! 0%nat
                 = Some (mkBvhInfo None None (Some 1%nat))).
  { vm_compute in Hrun. injection Hrun as <-. reflexivity. }
  split; [|split; [exact Hroot|]].
  - intros ([t|] & Hrepr & _ & Hperm).
    + destruct Hrepr as (Hr & Hshape & _). rewrite Hroot in Hr. injection Hr as Hr.
      destruct t as [p b os|p b l r]; simpl in Hr, Hshape, Hperm; subst p.
      * destruct Hshape as (Hn & Hl). rewrite Hnode in Hn. injection Hn as _ Hh Hlast.
        destruct os as [|o rest]; [discriminate Hh|]. simpl in Hh. injection Hh as <-.
        destruct Hl as (Hi & _). rewrite Hobj in Hi. injection Hi as Hrest.
        destruct rest; [|discriminate Hrest].
        apply Permutation_length in Hperm. discriminate Hperm.
      * destruct Hshape as (Hn & _). rewrite Hnode in Hn. discriminate Hn.
    + simpl in Hrepr. congruence.
  - vm_compute in Hrun. injection Hrun as <-.
    split; [vm_compute; reflexivity|]. split; vm_compute; reflexivity.
Qed.

(** * [Clear] on a tree whose lists have been broken *)

(** C8.  [Clear] does not reset every object that was inserted.  After
    [Insert] of four objects and [Insert] of the second one again, which
    moves it to another leaf while its former leaf still names it as the
    first of its list, [Clear] empties the tree ([root()] null, [Depth()]
    -1, [Size()] 0, every node deleted) and leaves the third object, which
    came after the second in that list, with its [node] on the leaf that
    has been deleted.  After the two builds of [rebuild_calls], [Clear]
    leaves object 1 with its [node] on the leaf of the first build. *)
Theorem Clear_leaves_dangling :
  (exists s s',
     run_calls 20 cInsertConfig_manual reinsert_calls nested_boxes = Ok s
     /\ node_objects 20 s 2 = Ok [1%nat]
     /\ bvhInfo <$> objects s !! 2%nat = Some (mkBvhInfo None None (Some 2%nat))
     /\ Clear 20 s = Ok s'
     /\ root s' = None /\ Depth 20 s' = Ok (-1)%Z /\ Size 20 s' = Ok 0%Z
     /\ nodes s' !! 2%nat = None
     /\ bvhInfo <$> objects s' !! 2%nat = Some (mkBvhInfo None None (Some 2%nat)))
  /\ (exists s s',
        run_calls 10 default_config rebuild_calls two_boxes = Ok s
        /\ Clear 10 s = Ok s'
        /\ root s' = None /\ Depth 10 s' = Ok (-1)%Z /\ Size 10 s' = Ok 0%Z
        /\ bvhInfo <$> objects s' !! 1%nat = Some (mkBvhInfo None None (Some 0%nat))).
Proof.
  split.
  - destruct (run_calls 20 cInsertConfig_manual reinsert_calls nested_boxes)
      as [s| | |] eqn:Hrun; try (vm_compute in Hrun; discriminate Hrun).
    destruct (Clear 20 s) as [s'| | |] eqn:Hclear;
      try (vm_compute in Hrun; injection Hrun as <-; vm_compute in Hclear;
           discriminate Hclear).
    exists s, s'. vm_compute in Hrun. injection Hrun as <-.
    vm_compute in Hclear. injection Hclear as <-.
    repeat split; vm_compute; reflexivity.
  - destruct (run_calls 10 default_config rebuild_calls two_boxes)
      as [s| | |] eqn:Hrun; try (vm_compute in Hrun; discriminate Hrun).
    destruct (Clear 10 s) as [s'| | |] eqn:Hclear;
      try (vm_compute in Hrun; injection Hrun as <-; vm_compute in Hclear;
           discriminate Hclear).
    exists s, s'. vm_compute in Hrun. injection Hrun as <-.
    vm_compute in Hclear. injection Hclear as <-.
    repeat split; vm_compute; reflexivity.
Qed.

(** * Adding an object that is in no list *)

Lemma AddObject_fresh this o ob n s :
  objects s !! o = Some ob -> node (bvhInfo ob) = None ->
  nodes s !! this = Some n ->
  (forall l, lastObject n = Some l -> l <> o /\ is_Some (objects s !! l)) ->
  exists s',
    AddObject this (Some o) s = Ok s'
    /\ nodes s' = <[this := mkNode (bv n) (children n)
                              (match firstObject n with None => Some o | f => f end)
                              (Some o)]> (nodes s)
    /\ objects s' !! o
       = Some (mkObject (obj_id ob) (obj_bv ob) (mkBvhInfo None (lastObject n) (Some this)))
    /\ (forall l, lastObject n = Some l ->
                  objects s' !! l = set_next (Some o) <$> objects s !! l)
    /\ (forall q, q <> o -> lastObject n <> Some q -> objects s' !! q = objects s !! q)
    /\ next_node s' = next_node s /\ mRoot s' = mRoot s
    /\ mObjectCount s' = mObjectCount s.
Proof.
  intros Hob Hfresh Hn Hlast.
  unfold AddObject.
  rewrite (get_obj_Some s o ob Hob). cbn [bindR].
  rewrite Hfresh. destruct (decide (None = Some this)) as [Hd|_]; [discriminate Hd|].
  cbn [bindR].
  rewrite (get_node_Some s this n Hn). cbn [bindR].
  destruct n as [b ch fo lo]. cbn [firstObject lastObject bv children] in *.
  unfold upd_node, upd_obj, get_node, get_obj.
  destruct fo as [f|], lo as [l|];
    try (destruct (Hlast l eq_refl) as (Hlo & [lb Hlb]));
    cbn;
    repeat (first [ rewrite lookup_insert_eq
                  | rewrite lookup_insert_ne by congruence
                  | rewrite Hn | rewrite Hob | rewrite Hlb ]; cbn);
    (eexists; split; [reflexivity|]); cbn;
    (split; [rewrite ?insert_insert_eq; reflexivity|]);
    (split; [rewrite ?lookup_insert_ne by congruence;
             rewrite ?lookup_insert_eq; reflexivity|]);
    (split; [intros l' [= <-]; rewrite lookup_insert_eq, Hlb; reflexivity
            || intros l' [=] |]);
    (split; [|auto]);
    intros q Hq Hql; rewrite !lookup_insert_ne by congruence; reflexivity.
Qed.

(** The list of a leaf grows at its end. *)
Lemma olist_snoc s s' leaf o :
  forall os pv,
  olist s leaf pv os -> NoDup os ->
  (forall q, In q os -> last os <> Some q -> objects s' !! q = objects s !! q) ->
  (forall l, last os = Some l -> objects s' !! l = set_next (Some o) <$> objects s !! l) ->
  bvhInfo <$> objects s' !! o
  = Some (mkBvhInfo None (match last os with Some l => Some l | None => pv end)
                    (Some leaf)) ->
  olist s' leaf pv (os ++ [o]).
Proof.
  induction os as [|a rest IH]; intros pv Hl Hnd Hsame Hlast Ho.
  - simpl. split; [exact Ho | exact I].
  - destruct Hl as [Ha Hrest]. apply NoDup_cons in Hnd. destruct Hnd as [Hna Hnd].
    destruct rest as [|c rest'].
    + simpl. split.
      * rewrite (Hlast a eq_refl).
        destruct (objects s !! a) as [ab|]; [|discriminate Ha].
        simpl in Ha |- *. injection Ha as Ha. unfold set_next. simpl.
        rewrite Ha. reflexivity.
      * split; [exact Ho | exact I].
    + assert (Hlst : last (a :: c :: rest') = last (c :: rest')) by reflexivity.
      rewrite Hlst in *.
      change ((a :: c :: rest') ++ [o]) with (a :: ((c :: rest') ++ [o])).
      split.
      * rewrite Hsame.
        -- exact Ha.
        -- left. reflexivity.
        -- intros Heq. apply Hna. apply last_Some_elem_of. exact Heq.
      * apply IH.
        -- exact Hrest.
        -- exact Hnd.
        -- intros q Hq. apply Hsame. right. exact Hq.
        -- exact Hlast.
        -- destruct (last (c :: rest')) as [l|] eqn:Hl'; [exact Ho|].
           apply last_None in Hl'. discriminate Hl'.
Qed.

Lemma olist_last_lookup s leaf pv os l :
  olist s leaf pv os -> last os = Some l -> is_Some (objects s !! l).
Proof.
  intros H Hl. destruct (olist_lookup s leaf pv os l H) as [ob Hob].
  - apply list_elem_of_In. apply last_Some_elem_of. exact Hl.
  - eauto.
Qed.

(** [AddObject] of an object that is in no list, to a leaf: the list of
    the leaf grows by that object; nothing else changes. *)
Lemma AddObject_leaf_snoc s leaf b os o ob :
  nodes s !! leaf = Some (mkNode b (None, None) (head os) (last os)) ->
  olist s leaf None os -> NoDup os -> ~ In o os ->
  objects s !! o = Some ob -> node (bvhInfo ob) = None ->
  exists s',
    AddObject leaf (Some o) s = Ok s'
    /\ nodes s' = <[leaf := mkNode b (None, None) (head (os ++ [o])) (last (os ++ [o]))]>
                    (nodes s)
    /\ olist s' leaf None (os ++ [o])
    /\ (forall q, q <> o -> ~ In q os -> objects s' !! q = objects s !! q)
    /\ (forall q, obj_bv <$> objects s' !! q = obj_bv <$> objects s !! q)
    /\ (forall q, obj_id <$> objects s' !! q = obj_id <$> objects s !! q)
    /\ next_node s' = next_node s /\ mRoot s' = mRoot s
    /\ mObjectCount s' = mObjectCount s.
Proof.
  intros Hn Hl Hnd Hnin Hob Hfresh.
  destruct (AddObject_fresh leaf o ob _ s Hob Hfresh Hn)
    as (s' & Hrun & Hnodes & Ho' & Hlast' & Hother & Hnx & Hrt & Hcnt).
  { cbn [lastObject]. intros l Hlast. split.
    - intros ->. apply Hnin. apply list_elem_of_In. apply last_Some_elem_of. exact Hlast.
    - eapply olist_last_lookup; eauto. }
  cbn [lastObject firstObject bv children] in *.
  exists s'. split; [exact Hrun|]. split.
  { rewrite Hnodes. f_equal. f_equal.
    - destruct os; reflexivity.
    - rewrite last_snoc. reflexivity. }
  split.
  { apply (olist_snoc s s' leaf o os None Hl Hnd).
    - intros q Hq Hne. apply Hother; [|congruence]. intros ->. contradiction.
    - exact Hlast'.
    - rewrite Ho'. simpl. destruct (last os); reflexivity. }
  split.
  { intros q Hq Hqn. apply Hother; [exact Hq|]. intros Hlast. apply Hqn.
    apply list_elem_of_In. apply last_Some_elem_of. exact Hlast. }
  assert (Hfield : forall q,
             obj_bv <$> objects s' !! q = obj_bv <$> objects s !! q
             /\ obj_id <$> objects s' !! q = obj_id <$> objects s !! q).
  { intros q. destruct (decide (q = o)) as [->|Hq].
    - rewrite Ho', Hob. split; reflexivity.
    - destruct (decide (last os = Some q)) as [Hlq|Hlq].
      + rewrite (Hlast' q Hlq). destruct (objects s !! q); split; reflexivity.
      + rewrite Hother by assumption. split; reflexivity. }
  split; [intros q; apply Hfield|]. split; [intros q; apply Hfield|]. auto.
Qed.

(** * Subtrees in their context *)

Lemma tree_ptr_plug1 f sub : tree_ptr (plug1 f sub) = frame_ptr f.
Proof. destruct f as [p b [|] sib]; reflexivity. Qed.

Lemma tree_bv_plug1 f sub :
  tree_bv (plug1 f sub) = let 'Frame _ b _ _ := f in b.
Proof. destruct f as [p b [|] sib]; reflexivity. Qed.

Lemma tree_ptr_plug c : forall sub, tree_ptr (plug c sub) = ctx_root c (tree_ptr sub).
Proof.
  induction c as [|f c IH]; intros sub; [reflexivity|].
  simpl. rewrite IH, tree_ptr_plug1. unfold ctx_root.
  destruct c as [|g c]; [reflexivity|].
  change (last (f :: g :: c)) with (last (g :: c)).
  destruct (last (g :: c)) eqn:E; [reflexivity|].
  apply last_None in E. discriminate E.
Qed.

Lemma tree_nodes_plug c :
  forall sub, Permutation (tree_nodes (plug c sub)) (ctx_nodes c ++ tree_nodes sub).
Proof.
  induction c as [|f c IH]; intros sub; [reflexivity|].
  simpl. rewrite IH. destruct f as [p b [|] sib]; simpl.
  - rewrite <- !app_assoc. simpl.
    rewrite (Permutation_app_comm (tree_nodes sub) (tree_nodes sib)).
    rewrite Permutation_app_comm. simpl. apply perm_skip.
    rewrite <- !app_assoc. apply Permutation_app_head. apply Permutation_app_comm.
  - rewrite Permutation_app_comm. simpl. apply perm_skip.
    rewrite <- !app_assoc. apply Permutation_app_head. apply Permutation_app_comm.
Qed.

Lemma tree_objs_plug c :
  forall sub, Permutation (tree_objs (plug c sub)) (ctx_objs c ++ tree_objs sub).
Proof.
  induction c as [|f c IH]; intros sub; [reflexivity|].
  simpl. rewrite IH. destruct f as [p b [|] sib]; simpl.
  - rewrite <- !app_assoc. rewrite (Permutation_app_comm (tree_objs sub)).
    rewrite Permutation_app_comm. rewrite <- !app_assoc.
    apply Permutation_app_head. apply Permutation_app_comm.
  - rewrite Permutation_app_comm. rewrite <- !app_assoc.
    apply Permutation_app_head. apply Permutation_app_comm.
Qed.

Lemma shape_plug1 s f sub :
  shape s (plug1 f sub) <-> shape s sub /\ ctx_shape s [f] (tree_ptr sub).
Proof.
  destruct f as [p b [|] sib]; simpl; tauto.
Qed.

Lemma shape_plug s c :
  forall sub, shape s (plug c sub) <-> shape s sub /\ ctx_shape s c (tree_ptr sub).
Proof.
  induction c as [|f c IH]; intros sub; simpl; [tauto|].
  rewrite IH, shape_plug1, tree_ptr_plug1.
  destruct f as [p b hl sib]; simpl. tauto.
Qed.

Lemma contained_plug s c :
  forall sub, contained s (plug c sub)
              <-> contained s sub /\ ctx_contained s c (tree_bv sub).
Proof.
  induction c as [|f c IH]; intros sub; simpl; [tauto|].
  rewrite IH, tree_bv_plug1.
  destruct f as [p b [|] sib]; simpl; tauto.
Qed.

(** Merging a volume into a hole and into every frame keeps containment. *)
Lemma ctx_contained_grow s s' obv c :
  forall hb,
  (forall o, In o (ctx_objs c) ->
             obj_bv <$> objects s' !! o = obj_bv <$> objects s !! o) ->
  ctx_contained s c hb ->
  ctx_contained s' (map (grow obv) c) (Aabb_merge hb obv).
Proof.
  induction c as [|[p b hl sib] c IH]; intros hb Hf H; simpl; [exact I|].
  destruct H as (H1 & H2 & H3 & H4).
  split; [apply Aabb_merge_mono; exact H1|].
  split; [eapply encloses_trans; [apply Aabb_merge_l | exact H2]|].
  split.
  - eapply contained_frame; [|exact H3]. intros o Ho. apply Hf. simpl.
    apply in_or_app. left. exact Ho.
  - apply IH; [|exact H4]. intros o Ho. apply Hf. simpl.
    apply in_or_app. right. exact Ho.
Qed.

(** The heap after the volumes of the frames were replaced. *)
Lemma ctx_shape_grow s s' obv c :
  forall h,
  (forall f n, In f c -> nodes s !! frame_ptr f = Some n ->
               nodes s' !! frame_ptr f = Some (set_bv (Aabb_merge (bv n) obv) n)) ->
  (forall f p, In f c -> In p (tree_nodes (frame_sib f)) ->
               nodes s' !! p = nodes s !! p) ->
  (forall o, In o (ctx_objs c) ->
             bvhInfo <$> objects s' !! o = bvhInfo <$> objects s !! o) ->
  ctx_shape s c h -> ctx_shape s' (map (grow obv) c) h.
Proof.
  induction c as [|[p b hl sib] c IH]; intros h Hn Hs Ho H; simpl; [exact I|].
  destruct H as (H1 & H2 & H3).
  split; [|split].
  - pose proof (Hn (Frame p b hl sib) _ (or_introl eq_refl) H1) as Hp.
    simpl in Hp. rewrite Hp. reflexivity.
  - eapply shape_frame; [| |exact H2].
    + intros q Hq. apply (Hs (Frame p b hl sib)); [left; reflexivity | exact Hq].
    + intros o Hin. apply Ho. simpl. apply in_or_app. left. exact Hin.
  - apply IH; [| | |exact H3].
    + intros f n Hf. apply Hn. right. exact Hf.
    + intros f q Hf. apply Hs. right. exact Hf.
    + intros o Hin. apply Ho. simpl. apply in_or_app. right. exact Hin.
Qed.

Lemma ctx_nodes_split c :
  Permutation (ctx_nodes c) (ctx_ptrs c ++ ctx_sib_nodes c).
Proof.
  induction c as [|f c IH]; [reflexivity|].
  simpl. apply perm_skip. rewrite IH.
  unfold ctx_sib_nodes. simpl. rewrite !app_assoc.
  apply Permutation_app_tail. apply Permutation_app_comm.
Qed.

Lemma ctx_nodes_grow obv c : ctx_nodes (map (grow obv) c) = ctx_nodes c.
Proof.
  induction c as [|[p b hl sib] c IH]; [reflexivity|]. simpl. rewrite IH. reflexivity.
Qed.

Lemma ctx_objs_grow obv c : ctx_objs (map (grow obv) c) = ctx_objs c.
Proof.
  induction c as [|[p b hl sib] c IH]; [reflexivity|]. simpl. rewrite IH. reflexivity.
Qed.

Lemma ctx_root_grow obv c h : ctx_root (map (grow obv) c) h = ctx_root c h.
Proof.
  unfold ctx_root. change (map (grow obv) c) with (grow obv <$> c).
  rewrite fmap_last. destruct (last c) as [[p b hl sib]|]; reflexivity.
Qed.

Lemma In_ctx_ptrs f c : In f c -> In (frame_ptr f) (ctx_ptrs c).
Proof. apply in_map. Qed.

Lemma In_ctx_sib_nodes f c p :
  In f c -> In p (tree_nodes (frame_sib f)) -> In p (ctx_sib_nodes c).
Proof.
  intros Hf Hp. unfold ctx_sib_nodes. apply in_concat.
  exists (tree_nodes (frame_sib f)). split; [|exact Hp].
  apply (in_map (fun f => tree_nodes (frame_sib f))). exact Hf.
Qed.

(** In a tree without repeated nodes the frames, the siblings and the
    subtree in the hole are disjoint. *)
Lemma plug_NoDup c sub :
  NoDup (tree_nodes (plug c sub)) ->
  NoDup (ctx_ptrs c)
  /\ (forall p, In p (ctx_ptrs c) -> ~ In p (ctx_sib_nodes c))
  /\ (forall p, In p (ctx_ptrs c) -> ~ In p (tree_nodes sub))
  /\ (forall p, In p (ctx_sib_nodes c) -> ~ In p (tree_nodes sub))
  /\ NoDup (tree_nodes sub).
Proof.
  intros H. rewrite tree_nodes_plug, ctx_nodes_split, <- app_assoc in H.
  apply NoDup_app in H. destruct H as (H1 & H2 & H3).
  apply NoDup_app in H3. destruct H3 as (H3 & H4 & H5).
  split; [exact H1|]. split.
  { intros p Hp Hq. apply (H2 p); [apply list_elem_of_In; exact Hp|].
    apply elem_of_app. left. apply list_elem_of_In. exact Hq. }
  split.
  { intros p Hp Hq. apply (H2 p); [apply list_elem_of_In; exact Hp|].
    apply elem_of_app. right. apply list_elem_of_In. exact Hq. }
  split; [|exact H5].
  intros p Hp Hq. apply (H4 p); apply list_elem_of_In; assumption.
Qed.

Lemma plug_NoDup_objs c sub :
  NoDup (tree_objs (plug c sub)) ->
  (forall o, In o (ctx_objs c) -> ~ In o (tree_objs sub)) /\ NoDup (tree_objs sub).
Proof.
  intros H. rewrite tree_objs_plug in H.
  apply NoDup_app in H. destruct H as (H1 & H2 & H3).
  split; [|exact H3].
  intros o Ho Hq. apply (H2 o); apply list_elem_of_In; assumption.
Qed.

(** * The search of [Insert] on a tree *)

(** Every record of a linked path that starts at the root of [t] is for a
    subtree of [t]; the records before it are for the frames around that
    subtree, outermost first. *)
Lemma path_context s t path c0 :
  shape s t -> linked s path ->
  head path = Some c0 -> nc_node c0 = Some (tree_ptr t) ->
  forall i nc, path !! i = Some nc ->
  exists c sub,
    t = plug c sub /\ nc_node nc = Some (tree_ptr sub)
    /\ map (fun f => Some (frame_ptr f)) (rev c) = map nc_node (take i path).
Proof.
  intros Hshape Hlink Hhead Hc0.
  induction i as [|i IH]; intros nc Hnc.
  - exists [], t. split; [reflexivity|]. split.
    + destruct path as [|x path]; [discriminate Hnc|].
      simpl in Hhead, Hnc. congruence.
    + rewrite take_0. reflexivity.
  - destruct (path !! i) as [a|] eqn:Ha.
    2:{ apply lookup_ge_None in Ha. apply lookup_lt_Some in Hnc. lia. }
    destruct (IH a eq_refl) as (c & sub & Ht & Hsub & Hmap).
    destruct (Hlink i a nc Ha Hnc) as (p & n & k & Hp & Hn & Hk & Hkid).
    rewrite Hsub in Hp. injection Hp as <-.
    assert (Hs : shape s sub) by (rewrite Ht in Hshape; apply shape_plug in Hshape; tauto).
    assert (Htake : map nc_node (take (S i) path)
                    = map nc_node (take i path) ++ [Some (tree_ptr sub)]).
    { rewrite (take_S_r _ _ _ Ha), map_app. simpl. rewrite Hsub. reflexivity. }
    destruct sub as [q b os|q b l r]; simpl in Hs, Hn.
    + destruct Hs as [Hq _]. rewrite Hq in Hn. injection Hn as <-.
      destruct Hkid as [Hk0|Hk1]; discriminate.
    + destruct Hs as (Hq & _ & _). rewrite Hq in Hn. injection Hn as <-.
      destruct Hkid as [Hk0|Hk1].
      * exists (Frame q b true r :: c), l. split; [exact Ht|].
        split; [rewrite Hk; cbn in Hk0; congruence|].
        simpl. rewrite map_app, Hmap, Htake. reflexivity.
      * exists (Frame q b false l :: c), r. split; [exact Ht|].
        split; [rewrite Hk; cbn in Hk1; congruence|].
        simpl. rewrite map_app, Hmap, Htake. reflexivity.
Qed.

Lemma tree_depth_nonneg t : (0 <= tree_depth t)%Z.
Proof. induction t; simpl; lia. Qed.

Lemma tree_depth_nodes t : (tree_depth t < Z.of_nat (length (tree_nodes t)))%Z.
Proof.
  induction t as [p b os|p b l IHl r IHr]; simpl; [lia|].
  rewrite length_app. lia.
Qed.

Lemma NodeCosts_new_total s p n object ob cost lvl :
  nodes s !! p = Some n -> get_obj s object = Ok ob ->
  exists nc, NodeCosts_new s (Some p) object cost lvl = Ok nc.
Proof.
  intros Hn Ho. unfold NodeCosts_new.
  rewrite (get_node_Some s p n Hn), Ho. cbn [bindR]. eauto.
Qed.

(** The search reaches a leaf within as many rounds as the tree is deep. *)
Lemma Insert_search_total s object ob :
  get_obj s object = Ok ob ->
  forall fuel d pq path sm idx,
  (d < fuel)%nat ->
  idx = Z.of_nat (length path) -> (idx + Z.of_nat d <= INT_MAX)%Z ->
  (0 <= sm <= idx)%Z ->
  pq <> [] ->
  Forall (fun x => (level x <= idx)%Z) pq ->
  (exists x, In x pq /\ level x = idx) ->
  (forall x, In x pq -> level x = idx ->
             exists sub, nc_node x = Some (tree_ptr sub) /\ shape s sub
                         /\ (tree_depth sub <= Z.of_nat d)%Z) ->
  exists res, Insert_search fuel s object pq path sm idx = Ok res.
Proof.
  intros Hob.
  induction fuel as [|fuel IH]; intros d pq path sm idx Hd Hidx Hmax Hsm Hne Hlev Hex Hsub;
    [lia|].
  destruct pq as [|x q]; [congruence|].
  cbn [Insert_search].
  destruct (pq_take_spec q x) as (Htin & Hperm & Htmax).
  set (nodeCost := fst (pq_take x q)) in *.
  set (rest := snd (pq_take x q)) in *.
  assert (Hnlev : level nodeCost = idx).
  { destruct Hex as (y & Hy & Hly). specialize (Htmax y Hy).
    rewrite List.Forall_forall in Hlev. specialize (Hlev nodeCost Htin). lia. }
  destruct (Hsub nodeCost Htin Hnlev) as (sub & Hptr & Hshape & Hdep).
  destruct ((path ++ [nodeCost]) !! Z.to_nat sm) as [smallest|] eqn:Hsmall.
  2:{ apply lookup_ge_None in Hsmall. rewrite length_app in Hsmall. simpl in Hsmall. lia. }
  rewrite Hptr.
  destruct sub as [p b os|p b l r]; simpl in Hshape, Hdep; cbn [tree_ptr].
  - destruct Hshape as [Hp _]. rewrite (get_node_Some s p _ Hp). cbn [bindR].
    rewrite IsLeaf_leaf. eauto.
  - destruct Hshape as (Hp & Hl & Hr). rewrite (get_node_Some s p _ Hp). cbn [bindR].
    unfold IsLeaf. cbn [child children fst snd Z.eqb].
    destruct (shape_root s l Hl) as (nl & Hnl & _).
    destruct (shape_root s r Hr) as (nr & Hnr & _).
    pose proof (tree_depth_nonneg l) as Hl0. pose proof (tree_depth_nonneg r) as Hr0.
    destruct d as [|d]; [lia|].
    assert (Hw : wrap32 (level nodeCost + 1) = (idx + 1)%Z).
    { rewrite Hnlev. apply wrap32_small. unfold INT_MAX in Hmax. lia. }
    destruct (NodeCosts_new s (Some (tree_ptr l)) object (rootToNodeCost nodeCost)
                (wrap32 (level nodeCost + 1))) as [c0| | |] eqn:Hc0.
    2,3,4: destruct (NodeCosts_new_total s _ nl object ob (rootToNodeCost nodeCost)
                       (wrap32 (level nodeCost + 1)) Hnl Hob) as [? Hx]; congruence.
    destruct (NodeCosts_new s (Some (tree_ptr r)) object (rootToNodeCost nodeCost)
                (wrap32 (level nodeCost + 1))) as [c1| | |] eqn:Hc1.
    2,3,4: destruct (NodeCosts_new_total s _ nr object ob (rootToNodeCost nodeCost)
                       (wrap32 (level nodeCost + 1)) Hnr Hob) as [? Hx]; congruence.
    cbn [bindR].
    apply NodeCosts_new_Ok in Hc0. destruct Hc0 as (Hc0n & Hc0l & _).
    apply NodeCosts_new_Ok in Hc1. destruct Hc1 as (Hc1n & Hc1l & _).
    rewrite Hw in Hc0l, Hc1l.
    destruct (INT_MAX <=? idx)%Z eqn:Hov; [apply Z.leb_le in Hov; lia|].
    assert (Hrest : forall y, In y rest -> (level y <= idx)%Z).
    { intros y Hy. rewrite List.Forall_forall in Hlev. apply Hlev.
      eapply Permutation_in; [symmetry; exact Hperm | right; exact Hy]. }
    apply (IH d).
    + lia.
    + rewrite length_app. simpl. lia.
    + lia.
    + destruct (Qle_bool _ _); lia.
    + unfold pq_push. intros Heq. apply app_eq_nil in Heq. destruct Heq as [_ Heq].
      discriminate Heq.
    + unfold pq_push. rewrite <- app_assoc. apply Forall_app. split.
      * apply List.Forall_forall. intros y Hy. specialize (Hrest y Hy). lia.
      * repeat constructor; lia.
    + exists c0. split; [|exact Hc0l]. unfold pq_push.
      apply in_or_app. left. apply in_or_app. right. left. reflexivity.
    + intros y Hy Hly. unfold pq_push in Hy.
      apply in_app_or in Hy. destruct Hy as [Hy|[<-|[]]].
      * apply in_app_or in Hy. destruct Hy as [Hy|[<-|[]]].
        -- specialize (Hrest y Hy). lia.
        -- exists l. split; [exact Hc0n|]. split; [exact Hl|]. lia.
      * exists r. split; [exact Hc1n|]. split; [exact Hr|]. lia.
Qed.

Lemma count_objects_olist s leaf :
  forall os pv fuel z,
  olist s leaf pv os -> (length os <= fuel)%nat ->
  exists c, count_objects fuel s (head os) z = Ok c.
Proof.
  induction os as [|a rest IH]; intros pv fuel z Hl Hf.
  - destruct fuel; simpl; eauto.
  - destruct Hl as [Ha Hrest]. destruct fuel as [|fuel]; [simpl in Hf; lia|].
    cbn [head count_objects].
    destruct (objects s !! a) as [ab|] eqn:Hab; [|discriminate Ha].
    rewrite (get_obj_Some s a ab Hab). cbn [bindR].
    simpl in Ha. injection Ha as Ha. rewrite Ha. cbn [next].
    apply (IH (Some a)); [exact Hrest | simpl in Hf; lia].
Qed.

Lemma commit_path_total :
  forall path s,
  (forall nc, In nc path -> exists p, nc_node nc = Some p /\ is_Some (nodes s !! p)) ->
  exists s', commit_path path s = Ok s'.
Proof.
  induction path as [|nc path IH]; intros s H; simpl; [eauto|].
  destruct (H nc (or_introl eq_refl)) as (p & Hp & [n Hn]).
  rewrite Hp. unfold upd_node. rewrite Hn. cbn [bindR].
  apply IH. intros nc' Hin. destruct (H nc' (or_intror Hin)) as (p' & Hp' & [n' Hn']).
  exists p'. split; [exact Hp'|]. simpl.
  destruct (decide (p' = p)) as [->|Hne].
  - rewrite lookup_insert_eq. eauto.
  - rewrite lookup_insert_ne by congruence. eauto.
Qed.

Lemma to_int_small z : (0 <= z <= INT_MAX)%Z -> to_int z = z.
Proof.
  intros H. unfold to_int. rewrite wrap32_small by (unfold INT_MAX in H; lia).
  destruct (z <=? INT_MAX)%Z eqn:E; [reflexivity|]. apply Z.leb_gt in E. lia.
Qed.

Lemma ctx_nodes_length c : (length c <= length (ctx_nodes c))%nat.
Proof.
  induction c as [|f c IH]; simpl; [lia|]. rewrite length_app. lia.
Qed.

(** What [Insert] plans on a tree: it appends to a leaf of the tree, or it
    creates a parent above a subtree; the records before the one chosen are
    for the frames around it. *)
Lemma Insert_plan_tree F s t o ob config :
  shape s t -> mRoot s = Some (tree_ptr t) -> objects s !! o = Some ob ->
  (length (tree_nodes t) + length (tree_objs t) <= F)%nat ->
  (Z.of_nat (length (tree_nodes t)) <= INT_MAX)%Z ->
  exists path d,
    Insert_plan F (Some o) config s = Ok (path, d)
    /\ Forall (cost_of s (Some o)) path
    /\ match d with
       | AppendToLeaf lf =>
           exists c lp lb los,
             t = plug c (TLeaf lp lb los) /\ nc_node lf = Some lp /\ In lf path
             /\ map nc_node path = map (fun f => Some (frame_ptr f)) (rev c) ++ [Some lp]
       | CreateParent idx =>
           exists best c sub,
             (0 <= idx)%Z /\ path !! Z.to_nat idx = Some best
             /\ t = plug c sub /\ nc_node best = Some (tree_ptr sub)
             /\ map nc_node (take (Z.to_nat idx) path)
                = map (fun f => Some (frame_ptr f)) (rev c)
       end.
Proof.
  intros Hshape Hroot Hob Hfuel Hmax.
  assert (Hgo : get_obj s (Some o) = Ok ob) by (apply get_obj_Some; exact Hob).
  destruct (shape_root s t Hshape) as (rn & Hrn & _).
  unfold Insert_plan. rewrite Hroot.
  destruct (NodeCosts_new_total s _ rn (Some o) ob 0%Q 0%Z Hrn Hgo) as [c0 Hc0].
  rewrite Hc0. cbn [bindR].
  apply NodeCosts_new_Ok in Hc0. destruct Hc0 as (Hc0n & Hc0l & Hc0c).
  pose proof (tree_depth_nodes t) as Hdn. pose proof (tree_depth_nonneg t) as Hd0.
  destruct (Insert_search_total s (Some o) ob Hgo F (Z.to_nat (tree_depth t))
              [c0] [] 0%Z 0%Z) as [res Hs].
  { lia. } { reflexivity. } { lia. } { lia. } { discriminate. }
  { repeat constructor. lia. }
  { exists c0. split; [left; reflexivity | exact Hc0l]. }
  { intros x [<-|[]] _. exists t. split; [exact Hc0n|]. split; [exact Hshape|]. lia. }
  rewrite Hs. cbn [bindR].
  destruct (Insert_search_chain s (Some o) F [c0] [] 0%Z 0%Z res Hs)
    as (ext & lf & n & Hext & (x & Hx & _ & Hxh) & Hcost & Hlink & Hsm & Hlf
        & Hlast & Hn & Hleaf & _).
  { reflexivity. } { unfold INT_MAX. lia. } { constructor. }
  { intros i a b Ha. rewrite lookup_nil in Ha. discriminate Ha. }
  { lia. } { discriminate. } { repeat constructor. exact Hc0c. }
  { repeat constructor. lia. }
  { exists c0. split; [left; reflexivity | exact Hc0l]. }
  { intros y lst _ _ Hl. discriminate Hl. }
  destruct res as [[path sm] leafNode]. cbn [fst snd] in *. subst leafNode.
  simpl in Hext. subst ext. destruct Hx as [<-|[]].
  (* the subtree of every record *)
  assert (Hctx : forall i nc, path !! i = Some nc ->
            exists c sub, t = plug c sub /\ nc_node nc = Some (tree_ptr sub)
              /\ map (fun f => Some (frame_ptr f)) (rev c) = map nc_node (take i path)).
  { apply (path_context s t path c0 Hshape Hlink Hxh Hc0n). }
  (* the leaf that was reached *)
  apply last_Some in Hlast. destruct Hlast as [pre Hpre].
  assert (Hlfi : path !! length pre = Some lf).
  { rewrite Hpre. rewrite lookup_app_r by lia. rewrite Nat.sub_diag. reflexivity. }
  destruct (Hctx _ _ Hlfi) as (cl & subl & Htl & Hsubl & Hmapl).
  assert (Htakel : take (length pre) path = pre).
  { rewrite Hpre. apply take_app_length. }
  rewrite Htakel in Hmapl.
  assert (Hsl : shape s subl).
  { rewrite Htl in Hshape. apply shape_plug in Hshape. tauto. }
  destruct subl as [lp lb los|lp lb ll lr]; simpl in Hsl; cbn [tree_ptr] in Hsubl.
  2:{ destruct Hsl as (Hlp & _). rewrite Hsubl in Hn.
      rewrite (get_node_Some s lp _ Hlp) in Hn. injection Hn as <-.
      discriminate Hleaf. }
  destruct Hsl as (Hlp & Holist).
  assert (Hlen : (Z.of_nat (length path) <= INT_MAX)%Z).
  { assert (Hlc : length pre = length cl).
    { apply (f_equal (@length _)) in Hmapl.
      rewrite !length_map, length_rev in Hmapl. lia. }
    pose proof (tree_nodes_plug cl (TLeaf lp lb los)) as Hperm.
    rewrite <- Htl in Hperm. apply Permutation_length in Hperm.
    rewrite length_app in Hperm. simpl in Hperm.
    pose proof (ctx_nodes_length cl). rewrite Hpre, length_app. simpl. lia. }
  assert (Hlosl : (length los <= F)%nat).
  { pose proof (tree_objs_plug cl (TLeaf lp lb los)) as Hperm.
    rewrite <- Htl in Hperm. apply Permutation_length in Hperm.
    rewrite length_app in Hperm. simpl in Hperm. lia. }
  (* the decision *)
  unfold Insert_decide.
  destruct (path !! Z.to_nat sm) as [smallest|] eqn:Hsmall.
  2:{ apply lookup_ge_None in Hsmall. lia. }
  assert (Hcreate_sm :
    exists best c sub,
      (0 <= sm)%Z /\ path !! Z.to_nat sm = Some best
      /\ t = plug c sub /\ nc_node best = Some (tree_ptr sub)
      /\ map nc_node (take (Z.to_nat sm) path)
         = map (fun f => Some (frame_ptr f)) (rev c)).
  { destruct (Hctx _ _ Hsmall) as (c & sub & Ht & Hsub & Hmap).
    exists smallest, c, sub. split; [lia|]. split; [exact Hsmall|].
    split; [exact Ht|]. split; [exact Hsub|]. symmetry. exact Hmap. }
  assert (Hcreate_leaf :
    exists best c sub,
      (0 <= to_int (Z.of_nat (length path)) - 1)%Z
      /\ path !! Z.to_nat (to_int (Z.of_nat (length path)) - 1) = Some best
      /\ t = plug c sub /\ nc_node best = Some (tree_ptr sub)
      /\ map nc_node (take (Z.to_nat (to_int (Z.of_nat (length path)) - 1)) path)
         = map (fun f => Some (frame_ptr f)) (rev c)).
  { rewrite to_int_small by lia.
    assert (Hi : Z.to_nat (Z.of_nat (length path) - 1) = length pre).
    { rewrite Hpre, length_app. simpl. lia. }
    rewrite Hi. exists lf, cl, (TLeaf lp lb los).
    split; [rewrite Hpre, length_app; simpl; lia|].
    split; [exact Hlfi|]. split; [exact Htl|]. split; [exact Hsubl|].
    rewrite Htakel. symmetry. exact Hmapl. }
  assert (Happend :
    exists c lp' lb' los',
      t = plug c (TLeaf lp' lb' los') /\ nc_node lf = Some lp' /\ In lf path
      /\ map nc_node path = map (fun f => Some (frame_ptr f)) (rev c) ++ [Some lp']).
  { exists cl, lp, lb, los. split; [exact Htl|]. split; [exact Hsubl|].
    split; [rewrite Hpre; apply in_or_app; right; left; reflexivity|].
    rewrite Hpre at 1. rewrite map_app, Hmapl. simpl. rewrite Hsubl. reflexivity. }
  destruct (Qltb (rootToNodeCost lf) (rootToNewParentCost smallest)).
  - unfold ObjectCount. rewrite Hsubl, (get_node_Some s lp _ Hlp). cbn [bindR firstObject].
    destruct (count_objects_olist s lp los None F 0%Z Holist Hlosl) as [cnt Hcnt].
    rewrite Hcnt. cbn [bindR].
    destruct (_ || _).
    + eexists _, _. split; [reflexivity|]. split; [exact Hcost | exact Happend].
    + destruct (_ && _).
      * eexists _, _. split; [reflexivity|]. split; [exact Hcost | exact Hcreate_leaf].
      * eexists _, _. split; [reflexivity|]. split; [exact Hcost | exact Happend].
  - cbn [bindR]. eexists _, _. split; [reflexivity|].
    split; [exact Hcost | exact Hcreate_sm].
Qed.

(** * [Insert] keeps the invariants of the tree *)

(** Committing records of the search merges the volume of the object into
    the nodes they are for. *)
Lemma commit_path_merge s o ob path :
  objects s !! o = Some ob ->
  Forall (cost_of s (Some o)) path ->
  exists s1,
    commit_path path s = Ok s1
    /\ objects s1 = objects s /\ next_node s1 = next_node s /\ mRoot s1 = mRoot s
    /\ (forall q, is_Some (nodes s1 !! q) -> is_Some (nodes s !! q))
    /\ (forall q, ~ In (Some q) (map nc_node path) -> nodes s1 !! q = nodes s !! q)
    /\ (forall p n, In (Some p) (map nc_node path) -> nodes s !! p = Some n ->
                    nodes s1 !! p = Some (set_bv (Aabb_merge (bv n) (obj_bv ob)) n)).
Proof.
  intros Hob Hcost.
  destruct (commit_path_total path s) as [s1 Hrun].
  { intros nc Hin. rewrite List.Forall_forall in Hcost.
    destruct (Hcost nc Hin) as (p & n & _ & Hp & Hn & _). exists p. rewrite Hn. eauto. }
  exists s1. split; [exact Hrun|].
  destruct (commit_path_bv_frame _ _ _ Hrun) as (Ho & Hnx & Hrt & _ & Hch & _).
  destruct (commit_path_spec path s s1 Hrun (cost_of_consistent s (Some o) path Hcost))
    as (Hout & Hin).
  repeat (split; [assumption|]).
  split.
  { intros q [n Hq]. specialize (Hch q). rewrite Hq in Hch.
    destruct (nodes s !! q); [eauto | discriminate Hch]. }
  split; [assumption|].
  intros p n Hp Hn. apply in_map_iff in Hp. destruct Hp as (nc & Hnc & Hin').
  destruct (Hin nc Hin') as (p' & n' & Hp' & Hn' & Hs1).
  rewrite Hnc in Hp'. injection Hp' as <-. rewrite Hn in Hn'. injection Hn' as <-.
  rewrite Hs1. rewrite List.Forall_forall in Hcost.
  destruct (Hcost nc Hin') as (p2 & n2 & ob2 & Hp2 & Hn2 & Hob2 & Hnew).
  rewrite Hnc in Hp2. injection Hp2 as <-. rewrite Hn in Hn2. injection Hn2 as <-.
  rewrite (get_obj_Some s o ob Hob) in Hob2. injection Hob2 as <-.
  rewrite Hnew. reflexivity.
Qed.

Lemma Forall_obj_enclosed_grow s s' b obv os :
  (forall q, obj_bv <$> objects s' !! q = obj_bv <$> objects s !! q) ->
  Forall (obj_enclosed s b) os -> Forall (obj_enclosed s' (Aabb_merge b obv)) os.
Proof.
  intros Hbv H. rewrite List.Forall_forall in *. intros q Hq. specialize (H q Hq).
  unfold obj_enclosed in *. specialize (Hbv q).
  destruct (objects s !! q) as [qb|]; [|contradiction].
  destruct (objects s' !! q) as [qb'|]; [|discriminate Hbv].
  simpl in Hbv. injection Hbv as ->.
  eapply encloses_trans; [apply Aabb_merge_l | exact H].
Qed.

(** The frames of a context are on the path committed, the siblings are not. *)
Lemma frame_on_path c (ptrs : list (option nptr)) f :
  In f c -> In (Some (frame_ptr f)) (map (fun f => Some (frame_ptr f)) (rev c) ++ ptrs).
Proof.
  intros Hf. apply in_or_app. left.
  apply (in_map (fun f => Some (frame_ptr f))). apply in_rev in Hf. exact Hf.
Qed.

Lemma off_path c (ptrs : list (option nptr)) q :
  ~ In q (ctx_ptrs c) -> ~ In (Some q) ptrs ->
  ~ In (Some q) (map (fun f => Some (frame_ptr f)) (rev c) ++ ptrs).
Proof.
  intros Hq Hp Hin. apply in_app_or in Hin. destruct Hin as [Hin|Hin]; [|contradiction].
  apply in_map_iff in Hin. destruct Hin as (f & Hf & Hin). injection Hf as <-.
  apply Hq. apply In_ctx_ptrs. apply in_rev. exact Hin.
Qed.

(** Appending to the leaf the search reached. *)
Lemma Insert_append_tree s c lp lb los o ob path lf :
  shape s (plug c (TLeaf lp lb los)) -> contained s (plug c (TLeaf lp lb los)) ->
  NoDup (tree_nodes (plug c (TLeaf lp lb los))) ->
  NoDup (tree_objs (plug c (TLeaf lp lb los))) ->
  objects s !! o = Some ob -> node (bvhInfo ob) = None ->
  ~ In o (tree_objs (plug c (TLeaf lp lb los))) ->
  Forall (cost_of s (Some o)) path -> nc_node lf = Some lp ->
  map nc_node path = map (fun f => Some (frame_ptr f)) (rev c) ++ [Some lp] ->
  exists s',
    Insert_append path lf (Some o) s = Ok s'
    /\ shape s' (plug (map (grow (obj_bv ob)) c)
                      (TLeaf lp (Aabb_merge lb (obj_bv ob)) (los ++ [o])))
    /\ contained s' (plug (map (grow (obj_bv ob)) c)
                          (TLeaf lp (Aabb_merge lb (obj_bv ob)) (los ++ [o])))
    /\ mRoot s' = mRoot s /\ next_node s' = next_node s
    /\ (forall q, is_Some (nodes s' !! q) -> is_Some (nodes s !! q))
    /\ (forall q, q <> o -> ~ In q (tree_objs (plug c (TLeaf lp lb los))) ->
                  objects s' !! q = objects s !! q)
    /\ (forall q, obj_bv <$> objects s' !! q = obj_bv <$> objects s !! q).
Proof.
  intros Hshape Hcont Hndn Hndo Hob Hfresh Hnew Hcost Hlf Hmap.
  apply shape_plug in Hshape. destruct Hshape as ((Hlp & Holist) & Hctx).
  apply contained_plug in Hcont. destruct Hcont as (Hleafc & Hctxc).
  destruct (plug_NoDup _ _ Hndn) as (_ & Hps & Hpsub & Hssub & _).
  destruct (plug_NoDup_objs _ _ Hndo) as (Hosub & Hndlos).
  cbn [tree_nodes tree_objs tree_ptr tree_bv] in *.
  assert (Hnew_ctx : ~ In o (ctx_objs c)).
  { intros Hin. apply Hnew. rewrite tree_objs_plug. apply in_or_app. left. exact Hin. }
  assert (Hnew_los : ~ In o los).
  { intros Hin. apply Hnew. rewrite tree_objs_plug. apply in_or_app. right. exact Hin. }
  destruct (commit_path_merge s o ob path Hob Hcost)
    as (s1 & Hcommit & Ho1 & Hnx1 & Hrt1 & Hdom1 & Hout & Hin).
  unfold Insert_append. rewrite Hcommit. cbn [bindR]. rewrite Hlf.
  assert (Hlp1 : nodes s1 !! lp
                 = Some (mkNode (Aabb_merge lb (obj_bv ob)) (None, None) (head los) (last los))).
  { rewrite (Hin lp _ ltac:(rewrite Hmap; apply in_or_app; right; left; reflexivity) Hlp).
    reflexivity. }
  destruct (AddObject_leaf_snoc s1 lp _ los o ob Hlp1) as
    (s' & Hrun & Hnodes & Holist' & Hother & Hbv & _ & Hnx & Hrt & _).
  { eapply olist_frame; [|exact Holist]. intros q _. rewrite Ho1. reflexivity. }
  { exact Hndlos. } { exact Hnew_los. } { rewrite Ho1. exact Hob. } { exact Hfresh. }
  exists s'. split; [exact Hrun|].
  assert (Hobjs : forall q, q <> o -> ~ In q los -> objects s' !! q = objects s !! q).
  { intros q Hq Hql. rewrite Hother by assumption. rewrite Ho1. reflexivity. }
  assert (Hbvs : forall q, obj_bv <$> objects s' !! q = obj_bv <$> objects s !! q).
  { intros q. rewrite Hbv, Ho1. reflexivity. }
  split; [|split; [|split; [|split; [|split; [|split]]]]].
  - apply shape_plug. split.
    + cbn [shape]. split; [rewrite Hnodes; apply lookup_insert_eq | exact Holist'].
    + cbn [tree_ptr]. apply (ctx_shape_grow s s'); [| | |exact Hctx].
      * intros f n Hf Hn. rewrite Hnodes.
        rewrite lookup_insert_ne.
        2:{ intros Heq. apply (Hpsub lp); [|left; reflexivity].
            rewrite Heq. apply In_ctx_ptrs. exact Hf. }
        apply Hin; [|exact Hn]. rewrite Hmap. apply frame_on_path. exact Hf.
      * intros f p Hf Hp. rewrite Hnodes.
        assert (Hsib : In p (ctx_sib_nodes c)) by (eapply In_ctx_sib_nodes; eauto).
        rewrite lookup_insert_ne.
        2:{ intros Heq. rewrite <- Heq in Hsib. apply (Hssub lp Hsib). left. reflexivity. }
        apply Hout. rewrite Hmap. apply off_path.
        -- intros Hq. apply (Hps p Hq Hsib).
        -- intros [Heq|[]]. injection Heq as Heq. rewrite <- Heq in Hsib.
           apply (Hssub lp Hsib). left. reflexivity.
      * intros q Hq. rewrite Hobjs; [reflexivity| |].
        -- intros ->. contradiction.
        -- apply Hosub. exact Hq.
  - apply contained_plug. split.
    + cbn [contained]. apply Forall_app. split.
      * apply (Forall_obj_enclosed_grow s s'); assumption.
      * constructor; [|constructor]. unfold obj_enclosed.
        specialize (Hbvs o). rewrite Hob in Hbvs.
        destruct (objects s' !! o) as [ob'|]; [|discriminate Hbvs].
        simpl in Hbvs. injection Hbvs as ->. apply Aabb_merge_r.
    + cbn [tree_bv]. apply (ctx_contained_grow s s'); [|exact Hctxc].
      intros q _. apply Hbvs.
  - rewrite Hrt. exact Hrt1.
  - rewrite Hnx. exact Hnx1.
  - intros q Hq. rewrite Hnodes in Hq.
    destruct (decide (q = lp)) as [->|Hne]; [rewrite Hlp; eauto|].
    rewrite lookup_insert_ne in Hq by congruence. apply Hdom1. exact Hq.
  - intros q Hq Hqt. apply Hobjs; [exact Hq|]. intros Hin'. apply Hqt.
    rewrite tree_objs_plug. apply in_or_app. right. exact Hin'.
  - exact Hbvs.
Qed.

Lemma alloc_fresh s q : alloc_ok s -> (next_node s <= q)%nat -> nodes s !! q = None.
Proof.
  intros Ha Hq. destruct (nodes s !! q) eqn:E; [|reflexivity].
  exfalso. assert (q < next_node s)%nat by (apply Ha; rewrite E; eauto). lia.
Qed.

Ltac look :=
  repeat (rewrite lookup_insert_eq || rewrite lookup_insert_ne by (congruence || lia)).

(** A new leaf takes the object. *)
Lemma AddObject_new_leaf s leaf b o ob :
  nodes s !! leaf = Some (mkNode b (None, None) None None) ->
  objects s !! o = Some ob -> node (bvhInfo ob) = None ->
  exists s',
    AddObject leaf (Some o) s = Ok s'
    /\ nodes s' = <[leaf := mkNode b (None, None) (Some o) (Some o)]> (nodes s)
    /\ olist s' leaf None [o]
    /\ (forall q, q <> o -> objects s' !! q = objects s !! q)
    /\ (forall q, obj_bv <$> objects s' !! q = obj_bv <$> objects s !! q)
    /\ next_node s' = next_node s /\ mRoot s' = mRoot s.
Proof.
  intros Hn Hob Hfresh.
  destruct (AddObject_leaf_snoc s leaf b [] o ob Hn I (NoDup_nil_2) (fun H => H) Hob Hfresh)
    as (s' & Hrun & Hnodes & Hol & Hother & Hbv & _ & Hnx & Hrt & _).
  exists s'. split; [exact Hrun|]. split; [exact Hnodes|]. split; [exact Hol|].
  split; [|auto]. intros q Hq. apply Hother; [exact Hq | intros []].
Qed.

(** The run of [Insert_create] above the root. *)
Lemma Insert_create_root_run s path idx best rp rn o ob :
  alloc_ok s -> (0 <= idx)%Z -> path !! Z.to_nat idx = Some best ->
  nc_node best = Some rp -> mRoot s = Some rp -> nodes s !! rp = Some rn ->
  objects s !! o = Some ob -> node (bvhInfo ob) = None ->
  exists s',
    Insert_create path idx (Some o) s = Ok s'
    /\ nodes s' = <[S (next_node s) := mkNode (obj_bv ob) (None, None) (Some o) (Some o)]>
                    (<[next_node s := mkNode (newAabb best)
                                        (Some rp, Some (S (next_node s))) None None]>
                       (nodes s))
    /\ mRoot s' = Some (next_node s) /\ next_node s' = S (S (next_node s))
    /\ olist s' (S (next_node s)) None [o]
    /\ (forall q, q <> o -> objects s' !! q = objects s !! q)
    /\ (forall q, obj_bv <$> objects s' !! q = obj_bv <$> objects s !! q).
Proof.
  intros Halloc Hidx Hbest Hbp Hroot Hrn Hob Hfresh.
  pose proof (alloc_fresh s _ Halloc (Nat.le_refl _)) as Hf0.
  unfold Insert_create.
  destruct (idx <? 0)%Z eqn:E; [apply Z.ltb_lt in E; lia|].
  rewrite Hbest, Hbp, Hroot.
  destruct (decide (Some rp = Some rp)) as [_|Hne]; [|congruence].
  unfold upd_node, get_node, get_obj, new_Node. cbn.
  repeat (first [ rewrite lookup_insert_eq
                | rewrite lookup_insert_ne by lia
                | rewrite Hob ]; cbn).
  match goal with
  | |- exists s', AddObject ?l _ ?st = _ /\ _ =>
      destruct (AddObject_new_leaf st l (obj_bv ob) o ob) as
        (s' & Hrun & Hnodes & Hol & Hother & Hbv & Hnx & Hrt)
  end.
  { cbn. rewrite lookup_insert_ne by lia. apply lookup_insert_eq. }
  { exact Hob. } { exact Hfresh. }
  exists s'. split; [exact Hrun|]. cbn in Hnodes, Hnx, Hrt, Hother, Hbv.
  split; [|auto].
  rewrite Hnodes. apply map_eq. intros q.
  destruct (decide (q = S (next_node s))) as [->|H1]; [look; reflexivity|].
  destruct (decide (q = next_node s)) as [->|H2]; look; reflexivity.
Qed.

(** The run of [Insert_create] above a node that is not the root: [pa] is
    its parent, [hl] tells that it is the child 0. *)
Lemma Insert_create_nonroot_run s path idx best bp parentCost pa pn (hl : bool) sibp o ob :
  alloc_ok s -> (1 <= idx)%Z -> path !! Z.to_nat idx = Some best ->
  nc_node best = Some bp -> mRoot s <> Some bp ->
  path !! Z.to_nat (idx - 1) = Some parentCost -> nc_node parentCost = Some pa ->
  Forall (cost_of s (Some o)) (take (Z.to_nat idx) path) ->
  nodes s !! pa = Some pn ->
  children pn = (if hl then (Some bp, Some sibp) else (Some sibp, Some bp)) ->
  sibp <> bp ->
  objects s !! o = Some ob -> node (bvhInfo ob) = None ->
  exists s1 s',
    commit_path (take (Z.to_nat idx) path) s = Ok s1
    /\ Insert_create path idx (Some o) s = Ok s'
    /\ nodes s'
       = <[S (next_node s) := mkNode (obj_bv ob) (None, None) (Some o) (Some o)]>
           (<[next_node s := mkNode (newAabb best)
                               (if hl then (Some bp, Some (S (next_node s)))
                                else (Some (S (next_node s)), Some bp)) None None]>
              (<[pa := mkNode (Aabb_merge (bv pn) (obj_bv ob))
                              (if hl then (Some (next_node s), Some sibp)
                               else (Some sibp, Some (next_node s)))
                              (firstObject pn) (lastObject pn)]>
                 (nodes s1)))
    /\ mRoot s' = mRoot s /\ next_node s' = S (S (next_node s))
    /\ olist s' (S (next_node s)) None [o]
    /\ (forall q, q <> o -> objects s' !! q = objects s !! q)
    /\ (forall q, obj_bv <$> objects s' !! q = obj_bv <$> objects s !! q).
Proof.
  intros Halloc Hidx Hbest Hbp Hnr Hpc Hpa Hcost Hpn Hkids Hsib Hob Hfresh.
  destruct (commit_path_merge s o ob _ Hob Hcost)
    as (s1 & Hcommit & Ho1 & Hnx1 & Hrt1 & Hdom1 & Hout & Hin).
  assert (Hpalt : (pa < next_node s)%nat) by (apply Halloc; rewrite Hpn; eauto).
  assert (Hpn1 : nodes s1 !! pa = Some (set_bv (Aabb_merge (bv pn) (obj_bv ob)) pn)).
  { apply Hin; [|exact Hpn]. apply in_map_iff. exists parentCost. split; [exact Hpa|].
    apply list_elem_of_In. apply list_elem_of_lookup. exists (Z.to_nat (idx - 1)).
    rewrite lookup_take_lt by lia. exact Hpc. }
  exists s1. unfold Insert_create.
  destruct (idx <? 0)%Z eqn:E; [apply Z.ltb_lt in E; lia|].
  rewrite Hbest, Hbp.
  destruct (decide (Some bp = mRoot s)) as [Heq|_]; [congruence|].
  rewrite Hcommit. cbn [bindR].
  destruct (idx - 1 <? 0)%Z eqn:E1; [apply Z.ltb_lt in E1; lia|].
  rewrite Hpc, Hpa.
  unfold upd_node, get_node, get_obj, new_Node. rewrite Hpn1. cbn [bindR].
  destruct pn as [pb pch pfo plo]. cbn [children bv firstObject lastObject] in *. subst pch.
  destruct hl.
  - unfold set_bv. cbn.
    destruct (decide (Some bp = Some bp)) as [_|Hne]; [|congruence].
    rewrite Hnx1. cbn.
    change (Z.lxor 0 1) with 1%Z. change (Z.lxor 1 1) with 0%Z.
    repeat (first [ rewrite lookup_insert_eq
                  | rewrite lookup_insert_ne by lia
                  | rewrite Hpn1 | rewrite Ho1 | rewrite Hob ]; cbn).
    match goal with
    | |- exists s', _ /\ AddObject ?l _ ?st = _ /\ _ =>
        destruct (AddObject_new_leaf st l (obj_bv ob) o ob) as
          (s' & Hrun & Hnodes & Hol & Hother & Hbv & Hnx & Hrt)
    end.
    { cbn. rewrite lookup_insert_ne by lia. apply lookup_insert_eq. }
    { cbn. exact Hob. } { exact Hfresh. }
    exists s'. split; [reflexivity|]. split; [exact Hrun|].
    cbn in Hnodes, Hnx, Hrt, Hother, Hbv. rewrite ?Ho1 in Hother, Hbv. rewrite ?Hrt1 in Hrt.
    split; [|rewrite Hrt, Hnx; auto].
    rewrite Hnodes. apply map_eq. intros q.
    destruct (decide (q = S (next_node s))) as [->|H1]; [look; reflexivity|].
    destruct (decide (q = next_node s)) as [->|H2]; [look; reflexivity|].
    destruct (decide (q = pa)) as [->|H3]; look; reflexivity.
  - unfold set_bv. cbn.
    destruct (decide (Some sibp = Some bp)) as [Heq|_]; [congruence|].
    rewrite Hnx1. cbn.
    change (Z.lxor 0 1) with 1%Z. change (Z.lxor 1 1) with 0%Z.
    repeat (first [ rewrite lookup_insert_eq
                  | rewrite lookup_insert_ne by lia
                  | rewrite Hpn1 | rewrite Ho1 | rewrite Hob ]; cbn).
    match goal with
    | |- exists s', _ /\ AddObject ?l _ ?st = _ /\ _ =>
        destruct (AddObject_new_leaf st l (obj_bv ob) o ob) as
          (s' & Hrun & Hnodes & Hol & Hother & Hbv & Hnx & Hrt)
    end.
    { cbn. rewrite lookup_insert_ne by lia. apply lookup_insert_eq. }
    { cbn. exact Hob. } { exact Hfresh. }
    exists s'. split; [reflexivity|]. split; [exact Hrun|].
    cbn in Hnodes, Hnx, Hrt, Hother, Hbv. rewrite ?Ho1 in Hother, Hbv. rewrite ?Hrt1 in Hrt.
    split; [|rewrite Hrt, Hnx; auto].
    rewrite Hnodes. apply map_eq. intros q.
    destruct (decide (q = S (next_node s))) as [->|H1]; [look; reflexivity|].
    destruct (decide (q = next_node s)) as [->|H2]; [look; reflexivity|].
    destruct (decide (q = pa)) as [->|H3]; look; reflexivity.
Qed.

Lemma tree_ptr_In t : In (tree_ptr t) (tree_nodes t).
Proof. destruct t; simpl; auto. Qed.

Lemma shape_nodes_alloc s t p : shape s t -> In p (tree_nodes t) -> is_Some (nodes s !! p).
Proof.
  induction t as [q b os|q b l IHl r IHr]; simpl; intros H Hin.
  - destruct H as [H _]. destruct Hin as [<-|[]]. rewrite H. eauto.
  - destruct H as (H & Hl & Hr). destruct Hin as [<-|Hin]; [rewrite H; eauto|].
    apply in_app_or in Hin. destruct Hin; auto.
Qed.

Lemma ctx_shape_alloc s c h p : ctx_shape s c h -> In p (ctx_nodes c) -> is_Some (nodes s !! p).
Proof.
  revert h. induction c as [|[q b hl sib] c IH]; simpl; intros h H Hin; [contradiction|].
  destruct H as (H & Hs & Hc). destruct Hin as [<-|Hin]; [rewrite H; eauto|].
  apply in_app_or in Hin. destruct Hin as [Hin|Hin].
  - eapply shape_nodes_alloc; eauto.
  - eapply IH; eauto.
Qed.

(** The subtree that replaces [sub] when a parent is created above it. *)
Lemma new_parent_nodes hl sub newp nb leafp lb (o : optr) :
  Permutation (tree_nodes (plug1 (Frame newp nb hl (TLeaf leafp lb [o])) sub))
              (newp :: leafp :: tree_nodes sub).
Proof.
  destruct hl; simpl.
  - apply perm_skip. rewrite Permutation_app_comm. reflexivity.
  - reflexivity.
Qed.

Lemma new_parent_objs hl sub newp nb leafp lb (o : optr) :
  Permutation (tree_objs (plug1 (Frame newp nb hl (TLeaf leafp lb [o])) sub))
              (o :: tree_objs sub).
Proof.
  destruct hl; simpl.
  - rewrite Permutation_app_comm. reflexivity.
  - reflexivity.
Qed.

Lemma new_parent_shape s s' (hl : bool) sub newp nb leafp lb o :
  nodes s' !! newp
  = Some (mkNode nb (if hl then (Some (tree_ptr sub), Some leafp)
                     else (Some leafp, Some (tree_ptr sub))) None None) ->
  nodes s' !! leafp = Some (mkNode lb (None, None) (Some o) (Some o)) ->
  olist s' leafp None [o] ->
  (forall p, In p (tree_nodes sub) -> nodes s' !! p = nodes s !! p) ->
  (forall q, In q (tree_objs sub) -> objects s' !! q = objects s !! q) ->
  shape s sub ->
  shape s' (plug1 (Frame newp nb hl (TLeaf leafp lb [o])) sub).
Proof.
  intros Hnew Hleaf Hol Hn Ho Hs.
  assert (Hs' : shape s' sub).
  { eapply shape_frame; [exact Hn| |exact Hs]. intros q Hq. rewrite Ho by exact Hq.
    reflexivity. }
  destruct hl; simpl; (split; [exact Hnew|]); repeat split; try assumption;
    destruct Hol; assumption.
Qed.

Lemma new_parent_contained s s' hl sub newp leafp o ob :
  objects s !! o = Some ob ->
  (forall q, obj_bv <$> objects s' !! q = obj_bv <$> objects s !! q) ->
  contained s sub ->
  contained s' (plug1 (Frame newp (Aabb_merge (tree_bv sub) (obj_bv ob)) hl
                             (TLeaf leafp (obj_bv ob) [o])) sub).
Proof.
  intros Hob Hbv Hc.
  assert (Hc' : contained s' sub).
  { eapply contained_frame; [|exact Hc]. intros q _. apply Hbv. }
  assert (Hleaf : Forall (obj_enclosed s' (obj_bv ob)) [o]).
  { constructor; [|constructor]. unfold obj_enclosed.
    specialize (Hbv o). rewrite Hob in Hbv.
    destruct (objects s' !! o) as [ob'|]; [|discriminate Hbv].
    simpl in Hbv. injection Hbv as ->. apply encloses_refl. }
  destruct hl; simpl; repeat split; try assumption;
    try apply Aabb_merge_l; try apply Aabb_merge_r;
    try (apply (proj1 (Aabb_merge_l _ _))); try (apply (proj2 (Aabb_merge_l _ _)));
    try (apply (proj1 (Aabb_merge_r _ _))); try (apply (proj2 (Aabb_merge_r _ _))).
Qed.

(** The body of [Insert] on a tree: whatever is decided, the heap holds a
    tree again, with the object in one more place; the new tree is the old
    one after one of the two edits. *)
Lemma Insert_body_edit F s t o ob config :
  bvh_repr s (Some t) -> contained s t -> alloc_ok s ->
  objects s !! o = Some ob -> node (bvhInfo ob) = None -> ~ In o (tree_objs t) ->
  (tree_weight t <= F)%nat -> (Z.of_nat (length (tree_nodes t)) <= INT_MAX)%Z ->
  exists s' t',
    (pd <- Insert_plan F (Some o) config s ;;
     match snd pd with
     | AppendToLeaf leafNode => Insert_append (fst pd) leafNode (Some o) s
     | CreateParent smallestCostIndex =>
         Insert_create (fst pd) smallestCostIndex (Some o) s
     end) = Ok s'
    /\ grown s s' (length (tree_nodes t)) (tree_objs t) [o] t'
    /\ insert_edit o (obj_bv ob) (next_node s) t t'.
Proof.
  intros (Hroot & Hshape & Hndn & Hndo) Hcont Halloc Hob Hfresh Hnew Hfuel Hmax.
  destruct (Insert_plan_tree F s t o ob config Hshape Hroot Hob Hfuel Hmax)
    as (path & d & Hplan & Hcost & Hd).
  rewrite Hplan. cbn [bindR fst snd].
  destruct d as [lf|idx].
  - (* append *)
    destruct Hd as (c & lp & lb & los & Ht & Hlf & _ & Hmap). subst t.
    destruct (Insert_append_tree s c lp lb los o ob path lf Hshape Hcont Hndn Hndo
                Hob Hfresh Hnew Hcost Hlf Hmap)
      as (s' & Hrun & Hshape' & Hcont' & Hrt & Hnx & Hdom & Hobjs & Hbvs).
    exists s', (plug (map (grow (obj_bv ob)) c)
                     (TLeaf lp (Aabb_merge lb (obj_bv ob)) (los ++ [o]))).
    split; [exact Hrun|]. split; [|apply edit_append].
    assert (Hpn : Permutation
                    (tree_nodes (plug (map (grow (obj_bv ob)) c)
                                      (TLeaf lp (Aabb_merge lb (obj_bv ob)) (los ++ [o]))))
                    (tree_nodes (plug c (TLeaf lp lb los)))).
    { rewrite !tree_nodes_plug, ctx_nodes_grow. reflexivity. }
    assert (Hpo : Permutation
                    (tree_objs (plug (map (grow (obj_bv ob)) c)
                                     (TLeaf lp (Aabb_merge lb (obj_bv ob)) (los ++ [o]))))
                    ([o] ++ tree_objs (plug c (TLeaf lp lb los)))).
    { rewrite !tree_objs_plug, ctx_objs_grow. simpl.
      rewrite app_assoc. rewrite Permutation_app_comm. reflexivity. }
    split; [|split; [exact Hcont'|split; [exact Hpo|split; [|split; [|split]]]]].
    + split; [|split; [exact Hshape'|split]].
      * rewrite Hrt, Hroot, !tree_ptr_plug, ctx_root_grow. reflexivity.
      * rewrite Hpn. exact Hndn.
      * rewrite Hpo. simpl. apply NoDup_cons. split; [|exact Hndo].
        rewrite list_elem_of_In. exact Hnew.
    + rewrite (Permutation_length Hpn). simpl. lia.
    + intros q Hq. rewrite Hnx. apply Halloc. apply Hdom. exact Hq.
    + intros q Hq Hqt. apply Hobjs; [|exact Hqt]. intros ->. apply Hq. left. reflexivity.
    + exact Hbvs.
  - (* a parent above a subtree *)
    destruct Hd as (best & c & sub & Hidx & Hbest & Ht & Hbp & Hmap). subst t.
    apply shape_plug in Hshape. destruct Hshape as (Hsub & Hctx).
    apply contained_plug in Hcont. destruct Hcont as (Hsubc & Hctxc).
    destruct (plug_NoDup _ _ Hndn) as (Hndp & Hps & Hpsub & Hssub & Hndsub).
    destruct (plug_NoDup_objs _ _ Hndo) as (Hosub & Hndosub).
    assert (Hnew_sub : ~ In o (tree_objs sub)).
    { intros Hin. apply Hnew. rewrite tree_objs_plug. apply in_or_app. right. exact Hin. }
    assert (Hnew_ctx : ~ In o (ctx_objs c)).
    { intros Hin. apply Hnew. rewrite tree_objs_plug. apply in_or_app. left. exact Hin. }
    assert (Hbest_in : In best path).
    { apply list_elem_of_In. eapply list_elem_of_lookup_2. exact Hbest. }
    destruct (shape_root s sub Hsub) as (bn & Hbn & Hbnbv).
    assert (Hnb : newAabb best = Aabb_merge (tree_bv sub) (obj_bv ob)).
    { rewrite List.Forall_forall in Hcost.
      destruct (Hcost best Hbest_in) as (p & n & ob' & Hp & Hn & Hob' & Hnew').
      rewrite Hbp in Hp. injection Hp as <-. rewrite Hbn in Hn. injection Hn as <-.
      rewrite (get_obj_Some s o ob Hob) in Hob'. injection Hob' as <-.
      rewrite Hnew', Hbnbv. reflexivity. }
    assert (Hsub_lt : forall p, In p (tree_nodes sub) -> (p < next_node s)%nat).
    { intros p Hp. apply Halloc. eapply shape_nodes_alloc; eauto. }
    assert (Hctx_lt : forall p, In p (ctx_nodes c) -> (p < next_node s)%nat).
    { intros p Hp. apply Halloc. eapply ctx_shape_alloc; eauto. }
    assert (Hlen : length (rev c) = length (take (Z.to_nat idx) path)).
    { apply (f_equal (@length _)) in Hmap. rewrite !length_map in Hmap. lia. }
    destruct c as [|[pa pb hl sib] c'].
    + (* above the root *)
      cbn [plug tree_ptr_plug] in *.
      destruct (Insert_create_root_run s path idx best (tree_ptr sub) bn o ob
                  Halloc Hidx Hbest Hbp Hroot Hbn Hob Hfresh)
        as (s' & Hrun & Hnodes & Hrt & Hnx & Hol & Hother & Hbvs).
      rewrite Hnb in Hnodes.
      exists s', (plug1 (Frame (next_node s) (Aabb_merge (tree_bv sub) (obj_bv ob)) true
                               (TLeaf (S (next_node s)) (obj_bv ob) [o])) sub).
      split; [exact Hrun|].
      split; [|apply (edit_parent o (obj_bv ob) (next_node s) [] sub true)].
      assert (Hkeep : forall p, In p (tree_nodes sub) -> nodes s' !! p = nodes s !! p).
      { intros p Hp. specialize (Hsub_lt p Hp). rewrite Hnodes. look. reflexivity. }
      split; [|split; [|split; [|split; [|split; [|split]]]]].
      * split; [rewrite Hrt; reflexivity|]. split; [|split].
        -- apply (new_parent_shape s s'); try assumption.
           ++ rewrite Hnodes. look. reflexivity.
           ++ rewrite Hnodes. look. reflexivity.
           ++ intros q Hq. apply Hother. intros ->. contradiction.
        -- rewrite new_parent_nodes. apply NoDup_cons. split.
           { rewrite list_elem_of_In. intros [Heq|Hin]; [lia|].
             specialize (Hsub_lt _ Hin). lia. }
           apply NoDup_cons. split; [|exact Hndsub].
           rewrite list_elem_of_In. intros Hin. specialize (Hsub_lt _ Hin). lia.
        -- rewrite new_parent_objs. apply NoDup_cons. split; [|exact Hndosub].
           rewrite list_elem_of_In. exact Hnew_sub.
      * apply (new_parent_contained s s'); assumption.
      * rewrite new_parent_objs. reflexivity.
      * rewrite (Permutation_length (new_parent_nodes _ _ _ _ _ _ _)). simpl. lia.
      * intros q [n Hq]. rewrite Hnx. rewrite Hnodes in Hq.
        destruct (decide (q = S (next_node s))) as [->|H1]; [lia|].
        destruct (decide (q = next_node s)) as [->|H2]; [lia|].
        rewrite !lookup_insert_ne in Hq by congruence.
        assert (q < next_node s)%nat by (apply Halloc; rewrite Hq; eauto). lia.
      * intros q Hq _. apply Hother. intros ->. apply Hq. left. reflexivity.
      * exact Hbvs.
    + (* above a node that has a parent *)
      destruct Hctx as (Hpa & Hsib & Hctx').
      cbn [ctx_ptrs map frame_ptr] in Hndp, Hps, Hpsub.
      apply NoDup_cons in Hndp. destruct Hndp as (Hpa_nin & Hndp').
      rewrite list_elem_of_In in Hpa_nin.
      assert (Hsibs : forall p, In p (tree_nodes sib) ->
                                In p (ctx_sib_nodes (Frame pa pb hl sib :: c'))).
      { intros p Hp. apply (In_ctx_sib_nodes (Frame pa pb hl sib)); [left; reflexivity|].
        exact Hp. }
      assert (Hsibs' : forall p, In p (ctx_sib_nodes c') ->
                                 In p (ctx_sib_nodes (Frame pa pb hl sib :: c'))).
      { intros p Hp. unfold ctx_sib_nodes. simpl. apply in_or_app. right. exact Hp. }
      simpl in Hlen. rewrite length_app in Hlen. simpl in Hlen.
      assert (Hidx' : Z.to_nat idx = S (length c')).
      { rewrite length_rev in Hlen. rewrite length_take in Hlen.
        apply lookup_lt_Some in Hbest. lia. }
      assert (Hpc : exists parentCost,
                 path !! Z.to_nat (idx - 1) = Some parentCost
                 /\ nc_node parentCost = Some pa).
      { assert (Hl : (map nc_node (take (Z.to_nat idx) path)) !! length c' = Some (Some pa)).
        { rewrite Hmap. simpl. rewrite map_app. simpl.
          rewrite lookup_app_r by (rewrite length_map, length_rev; lia).
          rewrite length_map, length_rev, Nat.sub_diag. reflexivity. }
        change (map nc_node (take (Z.to_nat idx) path))
          with (nc_node <$> take (Z.to_nat idx) path) in Hl.
        rewrite list_lookup_fmap in Hl.
        rewrite lookup_take_lt in Hl by lia.
        replace (Z.to_nat (idx - 1)) with (length c') by lia.
        destruct (path !! length c') as [pc|]; [|discriminate Hl].
        simpl in Hl. injection Hl as Hl. eauto. }
      destruct Hpc as (parentCost & Hpc & Hpcn).
      assert (Hsibne : tree_ptr sib <> tree_ptr sub).
      { intros Heq. apply (Hssub (tree_ptr sib)).
        - apply Hsibs. apply tree_ptr_In.
        - rewrite Heq. apply tree_ptr_In. }
      assert (Hnr : mRoot s <> Some (tree_ptr sub)).
      { rewrite Hroot, tree_ptr_plug. intros Heq. injection Heq as Heq.
        apply (Hpsub (tree_ptr sub)); [|apply tree_ptr_In].
        rewrite <- Heq. unfold ctx_root.
        destruct (last (Frame pa pb hl sib :: c')) as [lf|] eqn:Hl.
        - apply (In_ctx_ptrs lf (Frame pa pb hl sib :: c')). apply list_elem_of_In.
          apply last_Some_elem_of. exact Hl.
        - apply last_None in Hl. discriminate Hl. }
      destruct (Insert_create_nonroot_run s path idx best (tree_ptr sub) parentCost pa
                  _ hl (tree_ptr sib) o ob Halloc ltac:(lia) Hbest Hbp Hnr Hpc Hpcn
                  ltac:(apply Forall_take; exact Hcost) Hpa)
        as (s1 & s' & Hcommit & Hrun & Hnodes & Hrt & Hnx & Hol & Hother & Hbvs).
      { cbn [children]. destruct hl; reflexivity. }
      { exact Hsibne. } { exact Hob. } { exact Hfresh. }
      cbn [bv firstObject lastObject] in Hnodes. rewrite Hnb in Hnodes.
      destruct (commit_path_merge s o ob (take (Z.to_nat idx) path) Hob
                  ltac:(apply Forall_take; exact Hcost))
        as (s1' & Hcommit' & Ho1 & Hnx1 & Hrt1 & Hdom1 & Hout & Hin).
      rewrite Hcommit in Hcommit'. injection Hcommit' as <-.
      rewrite Hmap in Hout, Hin.
      assert (Hpalt : (pa < next_node s)%nat) by (apply Halloc; rewrite Hpa; eauto).
      (* the nodes that are neither frames nor new *)
      assert (Hkeep : forall p, (p < next_node s)%nat ->
                                ~ In p (ctx_ptrs (Frame pa pb hl sib :: c')) ->
                                nodes s' !! p = nodes s !! p).
      { intros p Hp Hnp. rewrite Hnodes.
        assert (p <> pa) by (intros ->; apply Hnp; left; reflexivity).
        look. apply Hout. rewrite <- (app_nil_r (map _ _)). apply off_path; [exact Hnp|].
        intros []. }
      assert (Hkeep_sub : forall p, In p (tree_nodes sub) -> nodes s' !! p = nodes s !! p).
      { intros p Hp. apply Hkeep; [apply Hsub_lt; exact Hp|].
        intros Hq. apply (Hpsub p Hq Hp). }
      assert (Hkeep_sib : forall p, In p (ctx_sib_nodes (Frame pa pb hl sib :: c')) ->
                                    nodes s' !! p = nodes s !! p).
      { intros p Hp. apply Hkeep.
        - apply Hctx_lt. rewrite ctx_nodes_split. apply in_or_app. right. exact Hp.
        - intros Hq. apply (Hps p Hq Hp). }
      assert (Hobjs : forall q, q <> o -> objects s' !! q = objects s !! q)
        by exact Hother.
      exists s', (plug (map (grow (obj_bv ob)) (Frame pa pb hl sib :: c'))
                       (plug1 (Frame (next_node s) (Aabb_merge (tree_bv sub) (obj_bv ob)) hl
                                     (TLeaf (S (next_node s)) (obj_bv ob) [o])) sub)).
      split; [exact Hrun|].
      split; [|apply (edit_parent o (obj_bv ob) (next_node s)
                        (Frame pa pb hl sib :: c') sub hl)].
      assert (Hpn : Permutation
                (tree_nodes (plug (map (grow (obj_bv ob)) (Frame pa pb hl sib :: c'))
                   (plug1 (Frame (next_node s) (Aabb_merge (tree_bv sub) (obj_bv ob)) hl
                                 (TLeaf (S (next_node s)) (obj_bv ob) [o])) sub)))
                (next_node s :: S (next_node s)
                 :: tree_nodes (plug (Frame pa pb hl sib :: c') sub))).
      { rewrite !tree_nodes_plug, ctx_nodes_grow, new_parent_nodes.
        rewrite Permutation_app_comm. simpl. do 2 apply perm_skip.
        apply Permutation_app_comm. }
      assert (Hpo : Permutation
                (tree_objs (plug (map (grow (obj_bv ob)) (Frame pa pb hl sib :: c'))
                   (plug1 (Frame (next_node s) (Aabb_merge (tree_bv sub) (obj_bv ob)) hl
                                 (TLeaf (S (next_node s)) (obj_bv ob) [o])) sub)))
                ([o] ++ tree_objs (plug (Frame pa pb hl sib :: c') sub))).
      { rewrite !tree_objs_plug, ctx_objs_grow, new_parent_objs.
        rewrite Permutation_app_comm. simpl. apply perm_skip.
        apply Permutation_app_comm. }
      assert (Hall_lt : forall p, In p (tree_nodes (plug (Frame pa pb hl sib :: c') sub)) ->
                                  (p < next_node s)%nat).
      { intros p Hp. rewrite tree_nodes_plug in Hp. apply in_app_or in Hp.
        destruct Hp; auto. }
      split; [|split; [|split; [exact Hpo|split; [|split; [|split]]]]].
      * split; [|split; [|split]].
        -- rewrite Hrt, Hroot, !tree_ptr_plug, ctx_root_grow.
           unfold ctx_root.
           destruct (last (Frame pa pb hl sib :: c')) as [lf|] eqn:Hl; [reflexivity|].
           apply last_None in Hl. discriminate Hl.
        -- apply shape_plug. split.
           ++ apply (new_parent_shape s s'); try assumption.
              ** rewrite Hnodes. look. reflexivity.
              ** rewrite Hnodes. look. reflexivity.
              ** intros q Hq. apply Hobjs. intros ->. contradiction.
           ++ rewrite tree_ptr_plug1. cbn [map grow ctx_shape frame_ptr].
              split; [|split].
              ** rewrite Hnodes. look. reflexivity.
              ** eapply shape_frame; [| |exact Hsib].
                 --- intros p Hp. apply Hkeep_sib. apply Hsibs. exact Hp.
                 --- intros q Hq. rewrite Hobjs; [reflexivity|]. intros ->.
                     apply Hnew_ctx. simpl. apply in_or_app. left. exact Hq.
              ** apply (ctx_shape_grow s s'); [| | |exact Hctx'].
                 --- intros f n Hf Hn. rewrite Hnodes.
                     assert (Hfp : In (frame_ptr f) (ctx_ptrs c')) by (apply In_ctx_ptrs; exact Hf).
                     assert (frame_ptr f <> pa) by (intros Heq; rewrite Heq in Hfp; contradiction).
                     assert (frame_ptr f < next_node s)%nat.
                     { apply Halloc. rewrite Hn. eauto. }
                     look. apply Hin; [|exact Hn].
                     rewrite <- (app_nil_r (map _ _)). apply frame_on_path. right. exact Hf.
                 --- intros f p Hf Hp. apply Hkeep_sib. apply Hsibs'.
                     eapply In_ctx_sib_nodes; eauto.
                 --- intros q Hq. rewrite Hobjs; [reflexivity|]. intros ->.
                     apply Hnew_ctx. simpl. apply in_or_app. right. exact Hq.
        -- rewrite Hpn. apply NoDup_cons. split.
           { rewrite list_elem_of_In. intros [Heq|Hin']; [lia|].
             specialize (Hall_lt _ Hin'). lia. }
           apply NoDup_cons. split; [|exact Hndn].
           rewrite list_elem_of_In. intros Hin'. specialize (Hall_lt _ Hin'). lia.
        -- rewrite Hpo. simpl. apply NoDup_cons. split; [|exact Hndo].
           rewrite list_elem_of_In. exact Hnew.
      * apply contained_plug. split.
        -- apply (new_parent_contained s s'); assumption.
        -- rewrite tree_bv_plug1. apply (ctx_contained_grow s s'); [|exact Hctxc].
           intros q _. apply Hbvs.
      * rewrite (Permutation_length Hpn). simpl. lia.
      * intros q [n Hq]. rewrite Hnx. rewrite Hnodes in Hq.
        destruct (decide (q = S (next_node s))) as [->|H1]; [lia|].
        destruct (decide (q = next_node s)) as [->|H2]; [lia|].
        destruct (decide (q = pa)) as [->|H3]; [lia|].
        rewrite !lookup_insert_ne in Hq by congruence.
        assert (q < next_node s)%nat by (apply Halloc; apply Hdom1; rewrite Hq; eauto).
        lia.
      * intros q Hq _. apply Hobjs. intros ->. apply Hq. left. reflexivity.
      * exact Hbvs.
Qed.

Lemma Insert_body_grown F s t o ob config :
  bvh_repr s (Some t) -> contained s t -> alloc_ok s ->
  objects s !! o = Some ob -> node (bvhInfo ob) = None -> ~ In o (tree_objs t) ->
  (tree_weight t <= F)%nat -> (Z.of_nat (length (tree_nodes t)) <= INT_MAX)%Z ->
  exists s' t',
    (pd <- Insert_plan F (Some o) config s ;;
     match snd pd with
     | AppendToLeaf leafNode => Insert_append (fst pd) leafNode (Some o) s
     | CreateParent smallestCostIndex =>
         Insert_create (fst pd) smallestCostIndex (Some o) s
     end) = Ok s'
    /\ grown s s' (length (tree_nodes t)) (tree_objs t) [o] t'.
Proof.
  intros Hr Hc Ha Hob Hf Hn HF Hm.
  destruct (Insert_body_edit F s t o ob config Hr Hc Ha Hob Hf Hn HF Hm)
    as (s' & t' & Hrun & Hg & _).
  eauto.
Qed.

(** [Insert] of an object that is in no list. *)
Lemma Insert_edit_grown F s ot o ob config :
  bvh_repr s ot -> contained_of s ot -> alloc_ok s ->
  objects s !! o = Some ob -> node (bvhInfo ob) = None -> ~ In o (objs_of ot) ->
  (weight_of ot <= F)%nat -> (Z.of_nat (length (nodes_of ot)) <= INT_MAX)%Z ->
  exists s' t',
    Insert F (Some o) config s = Ok s'
    /\ grown s s' (length (nodes_of ot)) (objs_of ot) [o] t'
    /\ insert_edit_of o (obj_bv ob) (next_node s) ot t'.
Proof.
  intros Hrepr Hcont Halloc Hob Hfresh Hnew Hfuel Hmax.
  unfold Insert. cbv zeta.
  change (mRoot (incr_mObjectCount s)) with (mRoot s).
  destruct ot as [t|]; simpl in Hrepr, Hcont, Hnew, Hfuel, Hmax |- *.
  - destruct Hrepr as (Hroot & Hrepr). rewrite Hroot.
    destruct Hrepr as (Hshape & Hndn & Hndo).
    destruct (Insert_body_edit F (incr_mObjectCount s) t o ob config)
      as (s' & t' & Hrun & Hg & He); try assumption.
    { split; [exact Hroot|]. split; [|split; assumption].
      eapply shape_frame; [| |exact Hshape]; reflexivity. }
    { eapply contained_frame; [|exact Hcont]. reflexivity. }
    exists s', t'. split; [exact Hrun|]. split; [exact Hg | exact He].
  - rewrite Hrepr.
    rewrite (get_obj_Some (incr_mObjectCount s) o ob Hob). cbn [bindR].
    cbn [new_Node fst snd].
    match goal with
    | |- exists s' t', AddObject ?l _ ?st = _ /\ _ =>
        destruct (AddObject_new_leaf st l (obj_bv ob) o ob) as
          (s' & Hrun & Hnodes & Hol & Hother & Hbv & Hnx & Hrt)
    end.
    { cbn. apply lookup_insert_eq. } { exact Hob. } { exact Hfresh. }
    cbn in Hnodes, Hother, Hbv, Hnx, Hrt.
    exists s', (TLeaf (next_node s) (obj_bv ob) [o]). split; [exact Hrun|].
    split; [|reflexivity].
    split; [|split; [|split; [reflexivity|split; [simpl; lia|split; [|split]]]]].
    + split; [exact Hrt|]. split; [|split].
      * simpl. split; [rewrite Hnodes; apply lookup_insert_eq | exact Hol].
      * apply NoDup_singleton.
      * apply NoDup_singleton.
    + simpl. constructor; [|constructor]. unfold obj_enclosed.
      specialize (Hbv o). rewrite Hob in Hbv.
      destruct (objects s' !! o) as [ob'|]; [|discriminate Hbv].
      simpl in Hbv. injection Hbv as ->. apply encloses_refl.
    + intros q [n Hq]. rewrite Hnx. rewrite Hnodes in Hq.
      destruct (decide (q = next_node s)) as [->|H1]; [lia|].
      rewrite !lookup_insert_ne in Hq by congruence.
      assert (q < next_node s)%nat by (apply Halloc; rewrite Hq; eauto). lia.
    + intros q Hq _. apply Hother. intros ->. apply Hq. left. reflexivity.
    + exact Hbv.
Qed.

Lemma Insert_grown F s ot o config :
  bvh_repr s ot -> contained_of s ot -> alloc_ok s ->
  unlinked s o -> ~ In o (objs_of ot) ->
  (weight_of ot <= F)%nat -> (Z.of_nat (length (nodes_of ot)) <= INT_MAX)%Z ->
  exists s' t',
    Insert F (Some o) config s = Ok s'
    /\ grown s s' (length (nodes_of ot)) (objs_of ot) [o] t'.
Proof.
  intros Hr Hc Ha (ob & Hob & Hf) Hn HF Hm.
  destruct (Insert_edit_grown F s ot o ob config Hr Hc Ha Hob Hf Hn HF Hm)
    as (s' & t' & Hrun & Hg & _).
  eauto.
Qed.

(** Inserting objects that are in no list, one by one. *)
Lemma Insert_range_grown F config :
  forall os s ot,
  bvh_repr s ot -> contained_of s ot -> alloc_ok s ->
  NoDup os -> Forall (unlinked s) os ->
  (forall o, In o os -> ~ In o (objs_of ot)) ->
  (weight_of ot + 3 * length os <= F)%nat ->
  (Z.of_nat (length (nodes_of ot) + 2 * length os) <= INT_MAX)%Z ->
  exists s' ot',
    Insert_range F (map Some os) config s = Ok s' /\ grown_of s s' ot os ot'.
Proof.
  induction os as [|o os IH]; intros s ot Hrepr Hcont Halloc Hnd Hun Hnew Hfuel Hmax.
  - exists s, ot. split; [reflexivity|].
    split; [exact Hrepr|]. split; [exact Hcont|]. split; [reflexivity|].
    split; [simpl; lia|]. split; [exact Halloc|]. split; reflexivity.
  - apply NoDup_cons in Hnd. destruct Hnd as (Hno & Hnd).
    rewrite list_elem_of_In in Hno.
    apply Forall_cons in Hun. destruct Hun as (Huo & Hun).
    simpl in Hfuel, Hmax.
    destruct (Insert_grown F s ot o config Hrepr Hcont Halloc Huo) as
      (s1 & t1 & Hrun & Hrepr1 & Hcont1 & Hperm1 & Hlen1 & Halloc1 & Hobj1 & Hbv1).
    { apply Hnew. left. reflexivity. } { unfold weight_of in *. lia. } { lia. }
    simpl in Hperm1, Hlen1.
    destruct (IH s1 (Some t1)) as (s' & ot' & Hrun' & Hrepr' & Hcont' & Hperm' & Hlen'
                                   & Halloc' & Hobj' & Hbv').
    + exact Hrepr1.
    + exact Hcont1.
    + exact Halloc1.
    + exact Hnd.
    + rewrite List.Forall_forall in *. intros q Hq.
      destruct (Hun q Hq) as (qb & Hqb & Hqf). exists qb. split; [|exact Hqf].
      rewrite Hobj1; [exact Hqb| |].
      * intros [->|[]]. contradiction.
      * apply Hnew. right. exact Hq.
    + intros q Hq Hin. simpl in Hin. rewrite Hperm1 in Hin. destruct Hin as [->|Hin].
      * contradiction.
      * apply (Hnew q); [right; exact Hq | exact Hin].
    + simpl. unfold tree_weight. rewrite (Permutation_length Hperm1). simpl.
      destruct ot; simpl in *; unfold tree_weight in *; lia.
    + simpl. lia.
    + exists s', ot'. split.
      { simpl. rewrite Hrun. cbn [bindR]. exact Hrun'. }
      split; [exact Hrepr'|]. split; [exact Hcont'|]. split.
      { rewrite Hperm'. simpl. rewrite Hperm1. symmetry. apply Permutation_middle. }
      split; [simpl in Hlen' |- *; lia|]. split; [exact Halloc'|]. split.
      * intros q Hq Hqo. rewrite Hobj'.
        -- apply Hobj1; [|exact Hqo]. intros [->|[]]. apply Hq. left. reflexivity.
        -- intros Hin. apply Hq. right. exact Hin.
        -- simpl. rewrite Hperm1. intros [->|Hin]; [apply Hq; left; reflexivity|].
           contradiction.
      * intros q. rewrite Hbv'. apply Hbv1.
Qed.

(** * [BuildTopDown] on an empty tree *)

(** The first loop: the box computed encloses every object of the range
    and is the least such box above the one it started from. *)
Lemma bounding_pass_spec s :
  forall os maxP minP cnt,
  (forall o, In o os -> is_Some (objects s !! o)) ->
  exists maxP' minP' cnt',
    bounding_pass s (map Some os) maxP minP cnt = Ok (maxP', minP', cnt')
    /\ vle maxP maxP' /\ vle minP' minP
    /\ (forall o ob, In o os -> objects s !! o = Some ob ->
                     vle (bmax (obj_bv ob)) maxP' /\ vle minP' (bmin (obj_bv ob)))
    /\ (forall B, vle (bmin B) minP -> vle maxP (bmax B) ->
                  (forall o ob, In o os -> objects s !! o = Some ob ->
                                encloses B (obj_bv ob)) ->
                  vle (bmin B) minP' /\ vle maxP' (bmax B))
    /\ (os = [] -> cnt' = cnt).
Proof.
  induction os as [|o os IH]; intros maxP minP cnt Hex.
  - exists maxP, minP, cnt. split; [reflexivity|].
    split; [apply vle_refl|]. split; [apply vle_refl|].
    split; [intros ? ? []|]. split; [auto | reflexivity].
  - destruct (Hex o (or_introl eq_refl)) as [ob Hob].
    cbn [map bounding_pass]. rewrite (get_obj_Some s o ob Hob). cbn [bindR].
    destruct (IH (vmax maxP (bmax (obj_bv ob))) (vmin minP (bmin (obj_bv ob)))
                 (wrap32 (cnt + 1))) as (maxP' & minP' & cnt' & Hrun & Hmx & Hmn & Hall & Hleast & _).
    { intros q Hq. apply Hex. right. exact Hq. }
    exists maxP', minP', cnt'. split; [exact Hrun|].
    split; [eapply vle_trans; [apply vmax_ge_l | exact Hmx]|].
    split; [eapply vle_trans; [exact Hmn | apply vmin_le_l]|].
    split.
    { intros q qb [<-|Hq] Hqb.
      - rewrite Hob in Hqb. injection Hqb as <-. split.
        + eapply vle_trans; [apply vmax_ge_r | exact Hmx].
        + eapply vle_trans; [exact Hmn | apply vmin_le_r].
      - apply (Hall q qb Hq Hqb). }
    split; [|discriminate].
    intros B Hb1 Hb2 Henc. apply Hleast.
    + apply vmin_glb; [exact Hb1|]. apply (Henc o ob (or_introl eq_refl) Hob).
    + apply vmax_lub; [exact Hb2|]. apply (Henc o ob (or_introl eq_refl) Hob).
    + intros q qb Hq. apply Henc. right. exact Hq.
Qed.

(** [Node::Depth] returns on a heap under construction. *)
Lemma Node_Depth_total base s :
  ordered base s -> alloc_ok s ->
  forall fuel p,
  (base <= p)%nat -> is_Some (nodes s !! p) -> (next_node s - p <= fuel)%nat ->
  exists d, Node_Depth fuel s (Some p) = Ok d.
Proof.
  intros Hord Halloc.
  induction fuel as [|fuel IH]; intros p Hbase [n Hn] Hfuel.
  - assert (p < next_node s)%nat by (apply Halloc; rewrite Hn; eauto). lia.
  - cbn [Node_Depth]. rewrite (get_node_Some s p n Hn). cbn [bindR].
    destruct (IsLeaf n) eqn:Hleaf; [eauto|].
    unfold IsLeaf in Hleaf.
    destruct (child n 0) as [c0|] eqn:Hc0; [|discriminate Hleaf].
    destruct (Hord p n c0 Hbase Hn (or_introl Hc0)) as (Hlt0 & Hs0).
    destruct (IH c0) as [d0 Hd0]; [lia | exact Hs0 | lia |].
    rewrite Hd0. cbn [bindR].
    destruct (child n 1) as [c1|] eqn:Hc1.
    + destruct (Hord p n c1 Hbase Hn (or_intror Hc1)) as (Hlt1 & Hs1).
      destruct (IH c1) as [d1 Hd1]; [lia | exact Hs1 | lia |].
      rewrite Hd1. cbn [bindR]. eauto.
    + cbn [bindR]. eauto.
Qed.

Lemma ordered_same_children base s s' :
  (forall q, children <$> nodes s' !! q = children <$> nodes s !! q) ->
  ordered base s -> ordered base s'.
Proof.
  intros Hch Hord q n c Hq Hn Hc.
  pose proof (Hch q) as Hq'. rewrite Hn in Hq'.
  destruct (nodes s !! q) as [n0|] eqn:Hn0; [|discriminate Hq'].
  simpl in Hq'. injection Hq' as Hq'.
  destruct (Hord q n0 c Hq Hn0) as (Hlt & [cn Hcn]).
  { unfold child in *. rewrite <- Hq'. exact Hc. }
  split; [exact Hlt|]. specialize (Hch c). rewrite Hcn in Hch.
  destruct (nodes s' !! c); [eauto | discriminate Hch].
Qed.

(** The object loop of a leaf, on objects that are in no list. *)
Lemma add_objects_leaf w b :
  forall os done s,
  nodes s !! w = Some (mkNode b (None, None) (head done) (last done)) ->
  olist s w None done -> NoDup (done ++ os) -> Forall (unlinked s) os ->
  exists s',
    add_objects w (map Some os) s = Ok s'
    /\ nodes s' = <[w := mkNode b (None, None) (head (done ++ os)) (last (done ++ os))]>
                    (nodes s)
    /\ olist s' w None (done ++ os)
    /\ (forall q, ~ In q (done ++ os) -> objects s' !! q = objects s !! q)
    /\ (forall q, obj_bv <$> objects s' !! q = obj_bv <$> objects s !! q)
    /\ next_node s' = next_node s /\ mRoot s' = mRoot s.
Proof.
  induction os as [|o os IH]; intros done s Hw Hol Hnd Hun.
  - exists s. rewrite app_nil_r. split; [reflexivity|]. split.
    { rewrite insert_id; [reflexivity | exact Hw]. }
    split; [exact Hol|]. auto.
  - apply Forall_cons in Hun. destruct Hun as ((ob & Hob & Hfresh) & Hun).
    assert (Hnd' : NoDup ((done ++ [o]) ++ os)) by (rewrite <- app_assoc; exact Hnd).
    assert (Hdone : NoDup done /\ ~ In o done).
    { apply NoDup_app in Hnd. destruct Hnd as (H1 & H2 & _). split; [exact H1|].
      intros Hin. apply (H2 o); [apply list_elem_of_In; exact Hin|]. left. }
    destruct Hdone as (Hnd1 & Hnin).
    destruct (AddObject_leaf_snoc s w b done o ob Hw Hol Hnd1 Hnin Hob Hfresh)
      as (s1 & Hrun & Hnodes1 & Hol1 & Hother1 & Hbv1 & _ & Hnx1 & Hrt1 & _).
    destruct (IH (done ++ [o]) s1) as (s' & Hrun' & Hnodes' & Hol' & Hother' & Hbv' & Hnx' & Hrt').
    + rewrite Hnodes1. apply lookup_insert_eq.
    + exact Hol1.
    + exact Hnd'.
    + rewrite List.Forall_forall in *. intros q Hq.
      destruct (Hun q Hq) as (qb & Hqb & Hqf). exists qb. split; [|exact Hqf].
      rewrite Hother1; [exact Hqb| |].
      * intros ->. apply NoDup_app in Hnd. destruct Hnd as (_ & _ & H3).
        apply NoDup_cons in H3. destruct H3 as (H3 & _). apply H3.
        apply list_elem_of_In. exact Hq.
      * intros Hin. apply NoDup_app in Hnd. destruct Hnd as (_ & H2 & _).
        apply (H2 q); [apply list_elem_of_In; exact Hin|]. right.
        apply list_elem_of_In. exact Hq.
    + exists s'. cbn [map add_objects]. rewrite Hrun. cbn [bindR].
      rewrite <- app_assoc in Hnodes', Hol', Hother'. simpl in Hnodes', Hol', Hother'.
      split; [exact Hrun'|]. split.
      { rewrite Hnodes', Hnodes1. rewrite insert_insert_eq. reflexivity. }
      split; [exact Hol'|]. split.
      { intros q Hq. rewrite Hother' by exact Hq. apply Hother1.
        - intros ->. apply Hq. apply in_or_app. right. left. reflexivity.
        - intros Hin. apply Hq. apply in_or_app. left. exact Hin. }
      split; [intros q; rewrite Hbv'; apply Hbv1|].
      split; congruence.
Qed.

Lemma sort_insert_perm key x l : Permutation (sort_insert key x l) (x :: l).
Proof.
  induction l as [|y l IH]; simpl; [reflexivity|].
  destruct (Qltb (key y) (key x)); [|reflexivity].
  rewrite IH. apply perm_swap.
Qed.

Lemma sort_by_perm key l : Permutation (sort_by key l) l.
Proof.
  induction l as [|x l IH]; simpl; [reflexivity|].
  rewrite sort_insert_perm. apply perm_skip. exact IH.
Qed.

(** ** The split index *)

(** A size below 2^24 is a float as it is. *)
Lemma float_of_size_small n : (0 <= n < 16777216)%Z -> float_of_size n = n.
Proof.
  intros H. unfold float_of_size.
  destruct (Z.eq_dec n 0%Z) as [->|Hn]; [reflexivity|].
  assert (Z.log2 n < 24)%Z by (apply Z.log2_lt_pow2; lia).
  destruct (Z.log2 n - 23 <=? 0)%Z eqn:E; [reflexivity|]. apply Z.leb_gt in E. lia.
Qed.

(** Below 2^24 objects the split index is half the size, rounded down. *)
Lemma half_size_small n : (Z.of_nat n < 16777216)%Z -> half_size n = Ok (Nat.div2 n).
Proof.
  intros H. unfold half_size. rewrite float_of_size_small by lia.
  assert (Hh : (Z.of_nat n / 2 = Z.of_nat (Nat.div2 n))%Z).
  { rewrite Nat.div2_div. rewrite Nat2Z.inj_div. reflexivity. }
  rewrite Hh. rewrite Nat2Z.id.
  destruct (Z.of_nat (Nat.div2 n) <=? INT_MAX)%Z eqn:E; [reflexivity|].
  apply Z.leb_gt in E. unfold INT_MAX in E. rewrite <- Hh in E. Z.div_mod_to_equations. lia.
Qed.

(** Rounding moves a size by less than a part in 2^23 of it. *)
Lemma float_of_size_bounds n :
  (2 <= n < 4294967168)%Z ->
  (2 <= float_of_size n < 2 * n)%Z /\ (float_of_size n < 4294967296)%Z.
Proof.
  intros H. unfold float_of_size.
  pose proof (Z.log2_spec n ltac:(lia)) as (Hlo & Hhi).
  assert (HL : (Z.log2 n < 32)%Z) by (apply Z.log2_lt_pow2; lia).
  destruct (Z.log2 n - 23 <=? 0)%Z eqn:E; [lia|]. apply Z.leb_gt in E.
  set (e := (Z.log2 n - 23)%Z) in *.
  replace (Z.succ (Z.log2 n)) with (e + 24)%Z in Hhi by lia.
  replace (Z.log2 n) with (e + 23)%Z in Hlo by lia.
  rewrite !Z.shiftl_mul_pow2, Z.shiftr_div_pow2 by lia.
  rewrite Z.pow_add_r in Hlo, Hhi by lia.
  assert (He : (e = 1 \/ e = 2 \/ e = 3 \/ e = 4 \/ e = 5 \/ e = 6 \/ e = 7 \/ e = 8)%Z) by lia.
  clearbody e.
  destruct ((1 * 2 ^ (e - 1) <? n - n / 2 ^ e * 2 ^ e)%Z
            || (n - n / 2 ^ e * 2 ^ e =? 1 * 2 ^ (e - 1))%Z && Z.odd (n / 2 ^ e)) eqn:Hr.
  - apply orb_true_iff in Hr.
    assert (Hr' : (2 ^ (e - 1) <= n - n / 2 ^ e * 2 ^ e)%Z).
    { destruct Hr as [Hr|Hr]; [apply Z.ltb_lt in Hr; lia|].
      apply andb_true_iff in Hr. destruct Hr as (Hr & _). apply Z.eqb_eq in Hr. lia. }
    clear Hr.
    destruct He as [->|[->|[->|[->|[->|[->|[->| ->]]]]]]]; simpl in *;
      Z.div_mod_to_equations; lia.
  - destruct He as [->|[->|[->|[->|[->|[->|[->| ->]]]]]]]; simpl in *;
      Z.div_mod_to_equations; lia.
Qed.

(** The split index of two objects or more leaves both parts with objects. *)
Lemma half_size_bounds n :
  (2 <= n)%nat -> (Z.of_nat n < 4294967168)%Z ->
  exists k, half_size n = Ok k /\ (1 <= k < n)%nat.
Proof.
  intros H2 Hn. unfold half_size.
  destruct (float_of_size_bounds (Z.of_nat n) ltac:(lia)) as ((Hlo & Hhi) & Hmax).
  set (v := float_of_size (Z.of_nat n)) in *. clearbody v.
  destruct (v / 2 <=? INT_MAX)%Z eqn:E.
  - eexists. split; [reflexivity|]. Z.div_mod_to_equations. lia.
  - apply Z.leb_gt in E. unfold INT_MAX in E. Z.div_mod_to_equations. lia.
Qed.

Lemma handles_back (l : list T) (os : list optr) :
  Permutation l (map Some os) -> exists os', l = map Some os' /\ Permutation os os'.
Proof.
  intros H. apply Permutation_map_inv in H. destruct H as (os' & H1 & H2). eauto.
Qed.

Lemma unlinked_get s o : unlinked s o -> exists ob, get_obj s (Some o) = Ok ob
                                                    /\ objects s !! o = Some ob
                                                    /\ node (bvhInfo ob) = None.
Proof.
  intros (ob & Hob & Hf). exists ob. split; [apply get_obj_Some; exact Hob | auto].
Qed.

(** * The levels, the counter and the order of a top-down build *)

(** The first loop counts the range. *)
Lemma bounding_pass_count s :
  forall range maxP minP cnt r,
  bounding_pass s range maxP minP cnt = Ok r ->
  wrap32 (snd r) = wrap32 (cnt + Z.of_nat (length range)).
Proof.
  induction range as [|it range IH]; intros maxP minP cnt r Hrun.
  - simpl in Hrun. injection Hrun as <-. simpl. rewrite Z.add_0_r. reflexivity.
  - cbn [bounding_pass] in Hrun. apply bindR_Ok in Hrun. destruct Hrun as (o & _ & Hrun).
    rewrite (IH _ _ _ _ Hrun). rewrite wrap32_add_l.
    f_equal. cbn [length]. lia.
Qed.

Lemma bounding_pass_wrapped s :
  forall range maxP minP cnt r,
  bounding_pass s range maxP minP cnt = Ok r ->
  wrap32 cnt = cnt -> wrap32 (snd r) = snd r.
Proof.
  induction range as [|it range IH]; intros maxP minP cnt r Hrun Hc.
  - simpl in Hrun. injection Hrun as <-. exact Hc.
  - cbn [bounding_pass] in Hrun. apply bindR_Ok in Hrun. destruct Hrun as (o & _ & Hrun).
    apply (IH _ _ _ _ Hrun). unfold wrap32. apply Z.mod_mod. lia.
Qed.

Lemma add_objects_count w :
  forall range s s', add_objects w range s = Ok s' -> mObjectCount s' = mObjectCount s.
Proof.
  induction range as [|it range IH]; intros s s' Hrun.
  - injection Hrun as <-. reflexivity.
  - cbn [add_objects] in Hrun. apply bindR_Ok in Hrun. destruct Hrun as (s1 & H1 & Hrun).
    rewrite (IH _ _ Hrun). apply (AddObject_count _ _ _ _ H1).
Qed.

(** [Node::Depth] is at least 0 and below the fuel it was given. *)
Lemma Node_Depth_bound s :
  forall fuel p d, Node_Depth fuel s p = Ok d -> (0 <= d < Z.of_nat fuel)%Z.
Proof.
  induction fuel as [|fuel IH]; intros p d Hrun; [discriminate Hrun|].
  cbn [Node_Depth] in Hrun. apply bindR_Ok in Hrun. destruct Hrun as (n & _ & Hrun).
  destruct (IsLeaf n) eqn:Hleaf; [injection Hrun as <-; lia|].
  unfold IsLeaf in Hleaf.
  destruct (child n 0) as [c0|] eqn:Hc0; [|discriminate Hleaf].
  apply bindR_Ok in Hrun. destruct Hrun as (d0 & H0 & Hrun).
  apply bindR_Ok in Hrun. destruct Hrun as (d1 & H1 & Hrun).
  injection Hrun as <-.
  assert (0 <= d0 < Z.of_nat fuel)%Z by (apply (IH _ _ H0)).
  assert (0 <= d1 < Z.of_nat fuel \/ d1 = 0)%Z.
  { revert H1. destruct (child n 1); intros H1;
      [left; apply (IH _ _ H1) | injection H1 as <-; right; lia]. }
  lia.
Qed.

(** A node [L] levels below another makes the depth at least [L]. *)
Lemma Node_Depth_reach s p q L :
  reach s p q L ->
  forall fuel d, Node_Depth fuel s (Some p) = Ok d -> (Z.of_nat L <= d)%Z.
Proof.
  induction 1 as [p|p n c0 c q L Hn Hc0 Hc Hr IH]; intros fuel d Hrun.
  - apply Node_Depth_bound in Hrun. lia.
  - destruct fuel as [|fuel]; [discriminate Hrun|].
    cbn [Node_Depth] in Hrun. rewrite (get_node_Some s p n Hn) in Hrun. cbn [bindR] in Hrun.
    unfold IsLeaf in Hrun. rewrite Hc0 in Hrun.
    apply bindR_Ok in Hrun. destruct Hrun as (d0 & H0 & Hrun).
    apply bindR_Ok in Hrun. destruct Hrun as (d1 & H1 & Hrun).
    injection Hrun as <-.
    pose proof (Node_Depth_bound _ _ _ _ H0) as Hb0.
    destruct Hc as [-> | Hc1].
    + specialize (IH _ _ H0).
      assert (0 <= d1)%Z.
      { revert H1. destruct (child n 1); intros H1;
          [apply Node_Depth_bound in H1; lia | injection H1 as <-; lia]. }
      lia.
    + rewrite Hc1 in H1. specialize (IH _ _ H1). lia.
Qed.

Lemma reach_le base s p q L :
  ordered base s -> (base <= p)%nat -> reach s p q L -> (p <= q)%nat.
Proof.
  intros Hord Hb Hr. induction Hr as [p|p n c0 c q L Hn Hc0 Hc Hr IH]; [lia|].
  assert (Hpc : (p < c)%nat).
  { destruct Hc as [-> | Hc1].
    - apply (Hord p n c0 Hb Hn). left. exact Hc0.
    - apply (Hord p n c Hb Hn). right. exact Hc1. }
  specialize (IH ltac:(lia)). lia.
Qed.

(** The way down to a node depends on the nodes above it only. *)
Lemma reach_frame base s s' p q L :
  ordered base s -> (base <= p)%nat -> reach s p q L ->
  (forall x, (base <= x < q)%nat -> nodes s' !! x = nodes s !! x) ->
  reach s' p q L.
Proof.
  intros Hord Hb Hr Hsame. induction Hr as [p|p n c0 c q L Hn Hc0 Hc Hr IH].
  - constructor.
  - assert (Hpc : (p < c)%nat).
    { destruct Hc as [-> | Hc1].
      - apply (Hord p n c0 Hb Hn). left. exact Hc0.
      - apply (Hord p n c Hb Hn). right. exact Hc1. }
    pose proof (reach_le base s c q L Hord ltac:(lia) Hr) as Hcq.
    apply (reach_down s' p n c0 c q L); [|exact Hc0|exact Hc|apply IH; [lia|exact Hsame]].
    rewrite Hsame by lia. exact Hn.
Qed.

Lemma reach_snoc s p q L n c0 c :
  reach s p q L -> nodes s !! q = Some n -> child n 0 = Some c0 ->
  (c = c0 \/ child n 1 = Some c) -> reach s p c (S L).
Proof.
  intros Hr Hn Hc0 Hc. induction Hr as [p|p n' c0' c' q L Hn' Hc0' Hc' Hr IH].
  - apply (reach_down s p n c0 c c 0 Hn Hc0 Hc). constructor.
  - apply (reach_down s p n' c0' c' c (S L) Hn' Hc0' Hc'). apply IH; assumption.
Qed.

(** [Node::Depth] looks at the children of the nodes and at nothing else. *)
Lemma Node_Depth_same_children s s' :
  (forall q, children <$> nodes s' !! q = children <$> nodes s !! q) ->
  forall fuel p, Node_Depth fuel s' p = Node_Depth fuel s p.
Proof.
  intros Hch. induction fuel as [|fuel IH]; intros p; [reflexivity|].
  cbn [Node_Depth]. destruct p as [p|]; [|reflexivity].
  unfold get_node. specialize (Hch p).
  destruct (nodes s !! p) as [n|], (nodes s' !! p) as [n'|];
    simpl in Hch; try discriminate Hch; [|reflexivity].
  injection Hch as Hch. cbn [bindR]. unfold IsLeaf, child. rewrite Hch.
  rewrite !IH. reflexivity.
Qed.

(** The depth is the level of some node below. *)
Lemma Node_Depth_attained s :
  forall fuel p d, Node_Depth fuel s (Some p) = Ok d -> exists q, reach s p q (Z.to_nat d).
Proof.
  induction fuel as [|fuel IH]; intros p d Hrun; [discriminate Hrun|].
  cbn [Node_Depth] in Hrun. apply bindR_Ok in Hrun. destruct Hrun as (n & Hn & Hrun).
  apply get_node_Ok in Hn. destruct Hn as (a & [= <-] & Hn).
  destruct (IsLeaf n) eqn:Hleaf.
  { injection Hrun as <-. exists p. constructor. }
  unfold IsLeaf in Hleaf.
  destruct (child n 0) as [c0|] eqn:Hc0; [|discriminate Hleaf].
  apply bindR_Ok in Hrun. destruct Hrun as (d0 & H0 & Hrun).
  apply bindR_Ok in Hrun. destruct Hrun as (d1 & H1 & Hrun).
  injection Hrun as <-.
  pose proof (Node_Depth_bound _ _ _ _ H0) as Hb0.
  destruct (Z_le_gt_dec d1 d0) as [Hle|Hgt].
  - destruct (IH _ _ H0) as (q & Hq). exists q.
    replace (Z.to_nat (1 + Z.max d0 d1)) with (S (Z.to_nat d0)) by lia.
    apply (reach_down s p n c0 c0 q _ Hn Hc0); [left; reflexivity | exact Hq].
  - destruct (child n 1) as [c1|] eqn:Hc1; [|injection H1 as <-; lia].
    destruct (IH _ _ H1) as (q & Hq). exists q.
    replace (Z.to_nat (1 + Z.max d0 d1)) with (S (Z.to_nat d1)) by lia.
    apply (reach_down s p n c0 c1 q _ Hn Hc0); [right; exact Hc1 | exact Hq].
Qed.

(** Whatever is reached from a live node is live. *)
Lemma reach_live base s p q L :
  ordered base s -> (base <= p)%nat -> is_Some (nodes s !! p) -> reach s p q L ->
  is_Some (nodes s !! q).
Proof.
  intros Hord Hb Hp Hr. induction Hr as [p|p n c0 c q L Hn Hc0 Hc Hr IH]; [exact Hp|].
  assert (Hpc : (p < c)%nat /\ is_Some (nodes s !! c)).
  { destruct Hc as [-> | Hc1].
    - apply (Hord p n c0 Hb Hn). left. exact Hc0.
    - apply (Hord p n c Hb Hn). right. exact Hc1. }
  apply IH; [lia | tauto].
Qed.

(** Nothing is below a node without children. *)
Lemma reach_leaf s p n q L :
  nodes s !! p = Some n -> child n 0 = None -> reach s p q L -> q = p /\ L = O.
Proof.
  intros Hn Hc Hr. inversion Hr as [|p' n' c0 c q' L' Hn' Hc0 _ _]; subst; [auto|].
  rewrite Hn in Hn'. injection Hn' as <-. congruence.
Qed.

(** ** A new node under a parent: what becomes of the levels and the depth *)

Section Attach.

Variables (base : nptr) (s s3 : State) (p w : nptr) (pn : Node) (wb : Aabb).
Hypothesis Hord : ordered base s.
Hypothesis Hbp : (base <= p)%nat.
Hypothesis Hpn : nodes s !! p = Some pn.
Hypothesis Hfree : nodes s !! w = None.
Hypothesis Hvac : child pn 0 = None \/ child pn 1 = None.
Hypothesis Hfill : child pn 0 = None -> child pn 1 = None.
Hypothesis Hp3 : nodes s3 !! p = Some (set_child (vacant_slot pn) (Some w) pn).
Hypothesis Hw3 : nodes s3 !! w = Some (mkNode wb (None, None) None None).
Hypothesis Hkeep : forall q, q <> w -> q <> p -> nodes s3 !! q = nodes s !! q.

Lemma attach_children :
  (child pn 0 = None /\ children (set_child (vacant_slot pn) (Some w) pn) = (Some w, None))
  \/ (exists c0, child pn 0 = Some c0 /\ child pn 1 = None
                 /\ children (set_child (vacant_slot pn) (Some w) pn) = (Some c0, Some w)).
Proof.
  unfold vacant_slot, set_child. unfold child in *. cbn [Z.eqb] in *.
  destruct (fst (children pn)) as [c0|] eqn:Hc0.
  - right. exists c0. destruct Hvac as [Hv|Hv]; [discriminate Hv|].
    cbn [Z.eqb children]. auto.
  - left. split; [reflexivity|]. cbn [children]. rewrite (Hfill eq_refl). reflexivity.
Qed.

Lemma reach_attach_mono a x L : reach s a x L -> reach s3 a x L.
Proof.
  induction 1 as [a|a n c0 c x L Hn Hc0 Hc Hr IH]; [constructor|].
  assert (Haw : a <> w) by (intros ->; congruence).
  destruct (decide (a = p)) as [->|Hap].
  - rewrite Hpn in Hn. injection Hn as <-.
    destruct attach_children as [(Hnone & _)|(c0' & Hc0' & Hc1' & Hch)]; [congruence|].
    apply (reach_down s3 p _ c0 c x L Hp3); [| |exact IH].
    + unfold child. rewrite Hch. cbn. congruence.
    + left. destruct Hc as [Hc|Hc]; [exact Hc | congruence].
  - apply (reach_down s3 a n c0 c x L); [|exact Hc0|exact Hc|exact IH].
    rewrite Hkeep by assumption. exact Hn.
Qed.

Lemma reach_attach_new a L0 : reach s a p L0 -> reach s3 a w (S L0).
Proof.
  intros Hr. apply reach_attach_mono in Hr.
  destruct attach_children as [(_ & Hch)|(c0 & _ & _ & Hch)].
  - apply (reach_snoc s3 a p L0 _ w w Hr Hp3); [unfold child; rewrite Hch; reflexivity|].
    left. reflexivity.
  - apply (reach_snoc s3 a p L0 _ c0 w Hr Hp3); [unfold child; rewrite Hch; reflexivity|].
    right. unfold child. rewrite Hch. reflexivity.
Qed.

(** A way down in the new heap is a way of the old heap, or it ends with
    the step from the parent to the new node. *)
Lemma reach_attach_inv a x L :
  (base <= a)%nat -> is_Some (nodes s !! a) -> reach s3 a x L ->
  reach s a x L \/ (x = w /\ exists L0, L = S L0 /\ reach s a p L0).
Proof.
  intros Hb Ha Hr. induction Hr as [a|a n c0 c x L Hn Hc0 Hc Hr IH]; [left; constructor|].
  assert (Haw : a <> w) by (intros ->; destruct Ha; congruence).
  assert (Hnew : c = w -> a = p -> x = w /\ exists L0, S L = S L0 /\ reach s p p L0).
  { intros -> _. destruct (reach_leaf s3 w _ x L Hw3 eq_refl Hr) as (-> & ->).
    split; [reflexivity|]. exists O. split; [reflexivity | constructor]. }
  assert (Hold : forall na, nodes s !! a = Some na -> child na 0 <> None ->
                   (c = c0 /\ child na 0 = Some c) \/ child na 1 = Some c ->
                   reach s a x (S L) \/ (x = w /\ exists L0, S L = S L0 /\ reach s a p L0)).
  { intros na Hna Hna0 Hedge.
    destruct (child na 0) as [k0|] eqn:Hk0; [|congruence].
    assert (Hc' : c = k0 \/ child na 1 = Some c).
    { destruct Hedge as [(_ & Hk)|Hk]; [left; congruence | right; exact Hk]. }
    assert (Hcl : (a < c)%nat /\ is_Some (nodes s !! c)).
    { destruct Hc' as [-> | Hc1].
      - apply (Hord a na k0 Hb Hna). left. exact Hk0.
      - apply (Hord a na c Hb Hna). right. exact Hc1. }
    destruct IH as [IH|(-> & L0 & -> & IH)]; [lia | tauto | |].
    - left. apply (reach_down s a na k0 c x L Hna Hk0 Hc' IH).
    - right. split; [reflexivity|]. exists (S L0). split; [reflexivity|].
      apply (reach_down s a na k0 c p L0 Hna Hk0 Hc' IH). }
  destruct (decide (a = p)) as [->|Hap].
  - rewrite Hp3 in Hn. injection Hn as <-. unfold child in Hc0, Hc.
    destruct attach_children as [(Hnone & Hch)|(k0 & Hk0 & Hk1 & Hch)];
      rewrite Hch in Hc0, Hc; cbn in Hc0, Hc.
    + injection Hc0 as <-. right. apply Hnew; [|reflexivity].
      destruct Hc as [Hc|Hc]; [exact Hc | discriminate Hc].
    + injection Hc0 as <-. destruct Hc as [->|Hc].
      * apply (Hold pn Hpn); [congruence | left; auto].
      * injection Hc as <-. right. apply Hnew; reflexivity.
  - rewrite Hkeep in Hn by assumption.
    apply (Hold n Hn); [congruence|].
    destruct Hc as [->|Hc]; [left; auto | right; exact Hc].
Qed.

(** The new node has one level: the one below its parent's. *)
Lemma attach_level Lp L' :
  is_Some (nodes s !! base) ->
  (forall L0, reach s base p L0 -> L0 = Lp) ->
  reach s3 base w L' -> L' = S Lp.
Proof.
  intros Hbase Huniq Hr.
  destruct (reach_attach_inv base w L' (Nat.le_refl _) Hbase Hr) as [Hr0|(_ & L0 & -> & Hr0)].
  - exfalso. pose proof (reach_live base s base w L' Hord (Nat.le_refl _) Hbase Hr0) as [? Hl].
    congruence.
  - rewrite (Huniq _ Hr0). reflexivity.
Qed.

(** The depth of the tree once the new node hangs under its parent. *)
Lemma attach_depth F D d3 Lp :
  is_Some (nodes s !! base) ->
  reach s base p Lp -> (forall L0, reach s base p L0 -> L0 = Lp) ->
  Node_Depth F s (Some base) = Ok D ->
  Node_Depth F s3 (Some base) = Ok d3 ->
  d3 = Z.max D (Z.of_nat (S Lp)).
Proof.
  intros Hbase Hr Huniq HD Hd3.
  pose proof (Node_Depth_bound _ _ _ _ HD) as HDb.
  pose proof (Node_Depth_bound _ _ _ _ Hd3) as Hd3b.
  assert (H1 : (D <= d3)%Z).
  { destruct (Node_Depth_attained _ _ _ _ HD) as (x & Hx).
    apply reach_attach_mono in Hx.
    pose proof (Node_Depth_reach _ _ _ _ Hx _ _ Hd3). lia. }
  assert (H2 : (Z.of_nat (S Lp) <= d3)%Z).
  { apply (Node_Depth_reach s3 base w (S Lp) (reach_attach_new base Lp Hr) _ _ Hd3). }
  destruct (Node_Depth_attained _ _ _ _ Hd3) as (x & Hx).
  destruct (reach_attach_inv base x _ (Nat.le_refl _) Hbase Hx) as [Hx0|(_ & L0 & HL0 & Hx0)].
  - pose proof (Node_Depth_reach _ _ _ _ Hx0 _ _ HD). lia.
  - rewrite (Huniq _ Hx0) in HL0. lia.
Qed.

End Attach.

(** ** The sort *)

Lemma sort_insert_sorted (key : T -> Q) x :
  forall l, sorted_by key l -> sorted_by key (sort_insert key x l).
Proof.
  induction l as [|y l IH]; intros Hs; simpl.
  - split; [constructor | exact I].
  - destruct Hs as (Hy & Hs). destruct (Qltb (key y) (key x)) eqn:E.
    + simpl. split; [|apply IH; exact Hs].
      apply List.Forall_forall. intros z Hz.
      apply (Permutation_in _ (sort_insert_perm key x l)) in Hz.
      destruct Hz as [<-|Hz].
      * apply Qltb_lt in E. apply Qlt_le_weak. exact E.
      * rewrite List.Forall_forall in Hy. apply Hy. exact Hz.
    + apply Qltb_ge in E. simpl. split; [|split; assumption].
      constructor; [exact E|].
      rewrite List.Forall_forall in *. intros z Hz. specialize (Hy z Hz).
      eapply Qle_trans; eassumption.
Qed.

Lemma sort_by_sorted (key : T -> Q) l : sorted_by key (sort_by key l).
Proof.
  induction l as [|x l IH]; simpl; [exact I|]. apply sort_insert_sorted. exact IH.
Qed.

(** Whatever comes before a cut of a sorted list is below whatever comes
    after it. *)
Lemma sorted_by_cut {A : Type} (key : A -> Q) :
  forall l k x y, sorted_by key l -> In x (take k l) -> In y (drop k l) ->
                  (key x <= key y)%Q.
Proof.
  induction l as [|a l IH]; intros k x y Hs Hx Hy.
  - rewrite take_nil in Hx. destruct Hx.
  - destruct k as [|k]; [destruct Hx|].
    simpl in Hx, Hy. destruct Hs as (Ha & Hs). destruct Hx as [<-|Hx].
    + rewrite List.Forall_forall in Ha. apply Ha.
      rewrite <- (take_drop k l). apply in_or_app. right. exact Hy.
    + apply (IH k); assumption.
Qed.

Lemma sorted_by_map_Some (key : T -> Q) (l : list optr) :
  sorted_by key (map Some l) -> sorted_by (fun o => key (Some o)) l.
Proof.
  induction l as [|a l IH]; simpl; [auto|]. intros (Ha & Hs). split; [|apply IH; exact Hs].
  rewrite List.Forall_forall in *. intros y Hy. apply Ha. apply in_map. exact Hy.
Qed.

(** ** What the description of a top-down build depends on *)

Lemma obj_enclosed_frame s s' B o :
  obj_bv <$> objects s' !! o = obj_bv <$> objects s !! o ->
  obj_enclosed s B o -> obj_enclosed s' B o.
Proof.
  unfold obj_enclosed. intros H.
  destruct (objects s !! o) as [ob|], (objects s' !! o) as [ob'|];
    simpl in H; try discriminate H; try contradiction.
  injection H as ->. auto.
Qed.

Lemma least_box_frame s s' b os :
  (forall q, obj_bv <$> objects s' !! q = obj_bv <$> objects s !! q) ->
  least_box s b os -> least_box s' b os.
Proof.
  intros H (Henc & Hlst). split.
  - eapply Forall_impl; [exact Henc|]. intros o. apply obj_enclosed_frame. apply H.
  - intros B HB. apply Hlst. eapply Forall_impl; [exact HB|]. intros o.
    apply obj_enclosed_frame. symmetry. apply H.
Qed.

Lemma center_key_frame s s' axis o :
  obj_bv <$> objects s' !! o = obj_bv <$> objects s !! o ->
  center_key s' axis (Some o) = center_key s axis (Some o).
Proof.
  unfold center_key, get_obj. intros H.
  destruct (objects s !! o) as [ob|], (objects s' !! o) as [ob'|];
    simpl in H; try discriminate H; try reflexivity.
  injection H as ->. reflexivity.
Qed.

Lemma top_down_frame config s s' L D os t :
  (forall q, obj_bv <$> objects s' !! q = obj_bv <$> objects s !! q) ->
  top_down config s L D os t -> top_down config s' L D os t.
Proof.
  intros H Ht. induction Ht as [L D p b os Hne Hlb Hstop
                               |L D p b l r os os1 os2 Hlb Hmin Hvol HL Hperm Hlen Hkey _ IHl _ IHr].
  - apply td_leaf; try assumption. eapply least_box_frame; eauto.
  - apply (td_node config s' L D p b l r os os1 os2); try assumption.
    + eapply least_box_frame; eauto.
    + intros o1 o2 H1 H2. rewrite !(center_key_frame s s') by apply H.
      apply Hkey; assumption.
Qed.

Lemma top_down_objs config s L D os t :
  top_down config s L D os t -> Permutation (tree_objs t) os.
Proof.
  induction 1 as [L D p b os Hne Hlb Hstop
                 |L D p b l r os os1 os2 Hlb Hmin Hvol HL Hperm Hlen Hkey _ IHl _ IHr].
  - reflexivity.
  - simpl. rewrite IHl, IHr. symmetry. exact Hperm.
Qed.

(** The counter after the new node has been attached. *)
Lemma attach_count parent s wb s2 :
  match parent with
  | Some _ =>
      pn <- get_node (snd (new_Node wb s)) parent ;;
      match child pn 0 with
      | None => upd_node parent (set_child 0 (Some (next_node s))) (snd (new_Node wb s))
      | Some _ =>
          match child pn 1 with
          | None => upd_node parent (set_child 1 (Some (next_node s)))
                      (snd (new_Node wb s))
          | Some _ =>
              _ <- delete_Node (Some (next_node s)) (snd (new_Node wb s)) ;; Throw
          end
      end
  | None => Ok (with_mRoot (Some (next_node s)) (snd (new_Node wb s)))
  end = Ok s2 ->
  mObjectCount s2 = mObjectCount s.
Proof.
  destruct parent as [p|]; intros Hrun.
  - apply bindR_Ok in Hrun. destruct Hrun as (pn & _ & Hrun).
    destruct (child pn 0).
    + destruct (child pn 1).
      * apply bindR_Ok in Hrun. destruct Hrun as (? & _ & Hrun). discriminate Hrun.
      * apply upd_node_Ok in Hrun. destruct Hrun as (a & n0 & _ & _ & ->). reflexivity.
    + apply upd_node_Ok in Hrun. destruct Hrun as (a & n & _ & _ & ->). reflexivity.
  - injection Hrun as <-. reflexivity.
Qed.

(** * The recursion of [BuildTopDown] *)

(** Attaching the node just allocated: to the first vacant slot of the
    parent, or as the root. *)
Lemma attach_spec base parent s wb :
  alloc_ok s -> ordered base s -> parent_ok base parent s ->
  exists s2,
    match parent with
    | Some _ =>
        pn <- get_node (snd (new_Node wb s)) parent ;;
        match child pn 0 with
        | None => upd_node parent (set_child 0 (Some (next_node s))) (snd (new_Node wb s))
        | Some _ =>
            match child pn 1 with
            | None => upd_node parent (set_child 1 (Some (next_node s)))
                        (snd (new_Node wb s))
            | Some _ =>
                _ <- delete_Node (Some (next_node s)) (snd (new_Node wb s)) ;; Throw
            end
        end
    | None => Ok (with_mRoot (Some (next_node s)) (snd (new_Node wb s)))
    end = Ok s2
    /\ objects s2 = objects s /\ next_node s2 = S (next_node s)
    /\ mRoot s2 = Some base
    /\ nodes s2 !! next_node s = Some (mkNode wb (None, None) None None)
    /\ (forall q, q <> next_node s -> parent <> Some q -> nodes s2 !! q = nodes s !! q)
    /\ (forall p pn, parent = Some p -> nodes s !! p = Some pn ->
                     nodes s2 !! p
                     = Some (set_child (vacant_slot pn) (Some (next_node s)) pn))
    /\ (forall q, is_Some (nodes s2 !! q) <-> q = next_node s \/ is_Some (nodes s !! q))
    /\ ordered base s2.
Proof.
  intros Halloc Hord Hpar.
  pose proof (alloc_fresh s _ Halloc (Nat.le_refl _)) as Hfree.
  destruct parent as [p|]; cbn [parent_ok] in Hpar.
  - destruct Hpar as (Hrt & Hbp & Hbase & pn & Hpn & Hvac).
    assert (Hplt : (p < next_node s)%nat) by (apply Halloc; rewrite Hpn; eauto).
    unfold get_node, upd_node, new_Node. cbn [snd nodes].
    rewrite lookup_insert_ne by lia. rewrite Hpn. cbn [bindR].
    assert (Hgoal : forall k, vacant_slot pn = k -> (k = 0 \/ k = 1)%Z ->
      let s2 := with_nodes (insert p (set_child k (Some (next_node s)) pn))
                  (mkState (<[next_node s := mkNode wb (None, None) None None]> (nodes s))
                           (objects s) (S (next_node s)) (mRoot s) (mObjectCount s)) in
      objects s2 = objects s /\ next_node s2 = S (next_node s)
      /\ mRoot s2 = Some base
      /\ nodes s2 !! next_node s = Some (mkNode wb (None, None) None None)
      /\ (forall q, q <> next_node s -> Some p <> Some q -> nodes s2 !! q = nodes s !! q)
      /\ (forall p' pn', Some p = Some p' -> nodes s !! p' = Some pn' ->
                         nodes s2 !! p'
                         = Some (set_child (vacant_slot pn') (Some (next_node s)) pn'))
      /\ (forall q, is_Some (nodes s2 !! q) <-> q = next_node s \/ is_Some (nodes s !! q))
      /\ ordered base s2).
    { intros k Hk Hk01 s2. subst s2. cbn [with_nodes nodes objects next_node mRoot].
      split; [reflexivity|]. split; [reflexivity|]. split; [exact Hrt|].
      split; [look; reflexivity|].
      split; [intros q Hq Hqp; look; reflexivity|].
      split.
      { intros p' pn' [= <-] Hpn'. rewrite Hpn in Hpn'. injection Hpn' as <-.
        look. rewrite Hk. reflexivity. }
      assert (Hdom : forall q,
                 is_Some (<[p:=set_child k (Some (next_node s)) pn]>
                            (<[next_node s:=mkNode wb (None, None) None None]> (nodes s)) !! q)
                 <-> q = next_node s \/ is_Some (nodes s !! q)).
      { intros q. destruct (decide (q = p)) as [->|H1].
        - look. split; [intros _; right; rewrite Hpn; eauto | eauto].
        - destruct (decide (q = next_node s)) as [->|H2].
          + look. split; eauto.
          + look. split; [auto | intros [?|?]; [contradiction | assumption]]. }
      split; [exact Hdom|].
      intros q n c Hq Hn Hc. cbn [with_nodes nodes] in Hn |- *.
      destruct (decide (q = p)) as [->|H1].
      - rewrite lookup_insert_eq in Hn. injection Hn as <-.
        destruct (decide (c = next_node s)) as [->|Hcw].
        + split; [lia|]. apply Hdom. left. reflexivity.
        + destruct (Hord p pn c Hq Hpn) as (Hlt & Hs).
          { unfold child, set_child in Hc. cbn [children] in Hc. unfold child.
            destruct Hk01 as [-> | ->]; cbn in Hc |- *;
              destruct Hc as [Hc|Hc]; try (injection Hc as Hc; congruence); auto. }
          split; [exact Hlt|]. apply Hdom. right. exact Hs.
      - rewrite lookup_insert_ne in Hn by congruence.
        destruct (decide (q = next_node s)) as [->|H2].
        + rewrite lookup_insert_eq in Hn. injection Hn as <-.
          destruct Hc as [Hc|Hc]; discriminate Hc.
        + rewrite lookup_insert_ne in Hn by congruence.
          destruct (Hord q n c Hq Hn Hc) as (Hlt & Hs).
          split; [exact Hlt|]. apply Hdom. right. exact Hs. }
    destruct (child pn 0) as [c0|] eqn:Hc0.
    + destruct Hvac as [Hv|Hv]; [discriminate Hv|]. rewrite Hv.
      eexists. split; [reflexivity|].
      apply (Hgoal 1%Z); [unfold vacant_slot; rewrite Hc0; reflexivity | auto].
    + eexists. split; [reflexivity|].
      apply (Hgoal 0%Z); [unfold vacant_slot; rewrite Hc0; reflexivity | auto].
  - subst base. eexists. split; [reflexivity|].
    cbn [new_Node snd with_mRoot nodes objects next_node mRoot].
    split; [reflexivity|]. split; [reflexivity|]. split; [reflexivity|].
    split; [look; reflexivity|].
    split; [intros q Hq _; look; reflexivity|].
    split; [intros p pn [=]|].
    assert (Hdom : forall q,
               is_Some (<[next_node s:=mkNode wb (None, None) None None]> (nodes s) !! q)
               <-> q = next_node s \/ is_Some (nodes s !! q)).
    { intros q. destruct (decide (q = next_node s)) as [->|H2].
      - look. split; eauto.
      - look. split; [auto | intros [?|?]; [contradiction | assumption]]. }
    split; [exact Hdom|].
    intros q n c Hq Hn Hc. cbn [with_mRoot nodes] in Hn |- *.
    destruct (decide (q = next_node s)) as [->|H2].
    + rewrite lookup_insert_eq in Hn. injection Hn as <-.
      destruct Hc as [Hc|Hc]; discriminate Hc.
    + rewrite lookup_insert_ne in Hn by congruence.
      assert (q < next_node s)%nat by (apply Halloc; rewrite Hn; eauto). lia.
Qed.

Lemma unlinked_same s s' o : objects s' !! o = objects s !! o -> unlinked s o -> unlinked s' o.
Proof. intros H (ob & Hob & Hf). exists ob. rewrite H. auto. Qed.

(** The recursion of [BuildTopDown] on objects that are in no list: it
    returns, the heap holds the tree it has built, the counter is set by
    the call that makes the root, and the tree is the one a top-down build
    is to make. *)
Lemma BuildTopDown_rec_shape F config base :
  (1 <= minObjects config)%Z ->
  forall fuel os parent s,
  os <> [] -> NoDup os -> Forall (unlinked s) os ->
  (length os <= fuel)%nat -> (Z.of_nat (length os) < 4294967168)%Z ->
  alloc_ok s -> ordered base s ->
  (next_node s + 2 * length os <= base + F)%nat ->
  parent_ok base parent s ->
  exists s' t,
    BuildTopDown_rec F fuel (map Some os) config parent s = Ok s'
    /\ built s s' parent os t /\ ordered base s'
    /\ mObjectCount s' = match parent with
                         | None => wrap32 (Z.of_nat (length os))
                         | Some _ => mObjectCount s
                         end
    /\ (forall L D, (Z.of_nat F <= 4294967296)%Z -> depth_ok F base parent L D s ->
                    top_down config s L D os t
                    /\ Node_Depth F s' (Some base)
                       = Ok (Z.max D (Z.of_nat L + tree_depth t))).
Proof.
  intros Hmin.
  induction fuel as [|fuel IH];
    intros os parent s Hne Hnd Hun Hfuel Hsize Halloc Hord HF Hpar.
  { destruct os; [congruence | simpl in Hfuel; lia]. }
  destruct os as [|b rest]; [congruence|]. clear Hne.
  cbn [map BuildTopDown_rec].
  pose proof Hun as Hun0.
  apply Forall_cons in Hun. destruct Hun as (Hub & Hunr).
  destruct (unlinked_get s b Hub) as (fb & Hgb & Hfb & Hfresh).
  rewrite Hgb. cbn [bindR].
  destruct (bounding_pass_spec s rest (bmax (obj_bv fb)) (bmin (obj_bv fb)) 1%Z)
    as (maxP & minP & cnt & Hbp & Hmx & Hmn & Hall & Hleast & Hcnt).
  { intros q Hq. rewrite List.Forall_forall in Hunr.
    destruct (Hunr q Hq) as (qb & Hqb & _). rewrite Hqb. eauto. }
  rewrite Hbp. cbn [bindR fst snd].
  set (wb := mkAabb minP maxP).
  (* every object of the range is inside the box *)
  assert (Henc : forall o ob, In o (b :: rest) -> objects s !! o = Some ob ->
                              encloses wb (obj_bv ob)).
  { intros o ob [<-|Hin] Hob.
    - rewrite Hfb in Hob. injection Hob as <-. split; assumption.
    - destruct (Hall o ob Hin Hob). split; assumption. }
  assert (Hlst : forall B, (forall o ob, In o (b :: rest) -> objects s !! o = Some ob ->
                                         encloses B (obj_bv ob)) -> encloses B wb).
  { intros B HB. destruct (HB b fb (or_introl eq_refl) Hfb) as (Hb1 & Hb2).
    destruct (Hleast B Hb1 Hb2) as (H1 & H2).
    - intros o ob Hin. apply HB. right. exact Hin.
    - split; assumption. }
  assert (Hlb : least_box s wb (b :: rest)).
  { split.
    - apply List.Forall_forall. intros o Hin. unfold obj_enclosed.
      rewrite List.Forall_forall in Hun0. destruct (Hun0 o Hin) as (ob & Hob & _).
      rewrite Hob. apply (Henc o ob Hin Hob).
    - intros B HB. apply Hlst. intros o ob Hin Hob.
      rewrite List.Forall_forall in HB. specialize (HB o Hin).
      unfold obj_enclosed in HB. rewrite Hob in HB. exact HB. }
  assert (Hcntv : cnt = wrap32 (Z.of_nat (length (b :: rest)))).
  { pose proof (bounding_pass_count _ _ _ _ _ _ Hbp) as H1.
    pose proof (bounding_pass_wrapped _ _ _ _ _ _ Hbp eq_refl) as H2.
    cbn [snd] in H1, H2. rewrite <- H2, H1. f_equal. rewrite length_map.
    cbn [length]. lia. }
  clearbody wb. clear Hmx Hmn Hall Hleast Hbp.
  destruct (attach_spec base parent s wb Halloc Hord Hpar)
    as (s2 & Hatt & Ho2 & Hnx2 & Hrt2 & Hw2 & Hkeep2 & Hpar2 & Hdom2 & Hord2).
  pose proof (attach_count parent s wb s2 Hatt) as Hc2.
  cbn [new_Node fst snd] in Hatt |- *. rewrite Hatt. cbn [bindR]. clear Hatt.
  set (w := next_node s) in *.
  set (s3 := if decide (Some w = mRoot s2) then with_mObjectCount cnt s2 else s2).
  assert (Hc3 : mObjectCount s3 = match parent with
                                  | None => cnt | Some _ => mObjectCount s end).
  { unfold s3. rewrite Hrt2. destruct parent as [p|]; cbn [parent_ok] in Hpar.
    - destruct Hpar as (_ & _ & Hbase & _).
      assert (base < w)%nat by (apply Halloc; exact Hbase).
      destruct (decide (Some w = Some base)) as [Heq|_]; [injection Heq; lia | exact Hc2].
    - destruct (decide (Some w = Some base)) as [_|Hne]; [reflexivity|].
      exfalso. apply Hne. rewrite Hpar. reflexivity. }
  assert (Hs3 : nodes s3 = nodes s2 /\ objects s3 = objects s2
                /\ next_node s3 = next_node s2 /\ mRoot s3 = mRoot s2).
  { unfold s3. destruct (decide _); auto. }
  destruct Hs3 as (Hn3 & Ho3 & Hnx3 & Hrt3). clearbody s3.
  assert (Halloc3 : alloc_ok s3).
  { intros q Hq. rewrite Hn3 in Hq. rewrite Hnx3, Hnx2. apply Hdom2 in Hq.
    destruct Hq as [->|Hq]; [lia|]. specialize (Halloc q Hq). fold w in Halloc. lia. }
  assert (Hord3 : ordered base s3).
  { eapply ordered_same_children; [|exact Hord2]. intros q. rewrite Hn3. reflexivity. }
  assert (Hbase_w : (base <= w)%nat).
  { destruct parent as [p|]; cbn [parent_ok] in Hpar.
    - destruct Hpar as (_ & Hbp & _ & pn & Hpn & _).
      assert (p < w)%nat by (apply Halloc; rewrite Hpn; eauto). lia.
    - subst base. reflexivity. }
  assert (Hbase3 : is_Some (nodes s3 !! base)).
  { rewrite Hn3. apply Hdom2. destruct parent as [p|]; cbn [parent_ok] in Hpar.
    - right. tauto.
    - left. exact Hpar. }
  destruct (Node_Depth_total base s3 Hord3 Halloc3 F base (Nat.le_refl _) Hbase3)
    as [d Hd].
  { rewrite Hnx3, Hnx2. simpl in HF. lia. }
  rewrite Hrt3, Hrt2, Hd. cbn [bindR].
  assert (Hw3 : nodes s3 !! w = Some (mkNode wb (None, None) None None))
    by (rewrite Hn3; exact Hw2).
  rewrite (get_node_Some s3 w _ Hw3). cbn [bindR bv].
  assert (Hmroot : Some base = match parent with
                               | None => Some w | Some _ => mRoot s end).
  { destruct parent as [p|]; cbn [parent_ok] in Hpar; [|rewrite Hpar; reflexivity].
    destruct Hpar as (Hr & _). congruence. }
  assert (Hkeep3 : forall q, (q < w)%nat -> parent <> Some q ->
                             nodes s3 !! q = nodes s !! q).
  { intros q Hq Hqp. rewrite Hn3. apply Hkeep2; [lia | exact Hqp]. }
  assert (Hpar3 : forall p pn, parent = Some p -> nodes s !! p = Some pn ->
                    nodes s3 !! p = Some (set_child (vacant_slot pn) (Some w) pn)).
  { intros p pn Hp Hpn. rewrite Hn3. apply Hpar2; assumption. }
  assert (Hobj3 : objects s3 = objects s) by congruence.
  assert (Hnx3' : next_node s3 = S w) by congruence.
  assert (Hrt3' : mRoot s3 = Some base) by congruence.
  pose proof (Node_Depth_bound _ _ _ _ Hd) as Hdb.
  (* the level of the node just attached, and the depth it sees *)
  assert (Hsee : forall L D, depth_ok F base parent L D s ->
                   d = Z.max D (Z.of_nat L) /\ reach s3 base w L
                   /\ (forall L', reach s3 base w L' -> L' = L)).
  { intros L D Hlvl. destruct parent as [p|]; cbn [depth_ok parent_ok] in Hlvl, Hpar.
    - destruct Hlvl as (Lp & -> & Hr & Huniq & HD & Hfill).
      destruct Hpar as (_ & Hbp' & Hbase & pn & Hpn & Hvac).
      assert (Hfree : nodes s !! w = None) by (apply alloc_fresh; [exact Halloc | reflexivity]).
      assert (Hkeepw : forall q, q <> w -> q <> p -> nodes s3 !! q = nodes s !! q).
      { intros q Hqw Hqp. rewrite Hn3. apply Hkeep2; [exact Hqw | congruence]. }
      split; [|split].
      + apply (attach_depth base s s3 p w pn wb Hord Hbp' Hpn Hfree Hvac (Hfill pn Hpn)
                 (Hpar3 p pn eq_refl Hpn) Hw3 Hkeepw F D d Lp Hbase Hr Huniq HD Hd).
      + apply (reach_attach_new s s3 p w pn Hpn Hfree Hvac (Hfill pn Hpn)
                 (Hpar3 p pn eq_refl Hpn) Hkeepw base Lp Hr).
      + intros L' Hr'.
        apply (attach_level base s s3 p w pn wb Hord Hbp' Hpn Hfree Hvac (Hfill pn Hpn)
                 (Hpar3 p pn eq_refl Hpn) Hw3 Hkeepw Lp L' Hbase Huniq Hr').
    - destruct Hlvl as (-> & ->). subst base. fold w in Hd.
      split; [|split].
      + destruct F as [|F']; [discriminate Hd|]. cbn [Node_Depth] in Hd.
        rewrite (get_node_Some s3 w _ Hw3) in Hd. cbn [bindR] in Hd.
        rewrite IsLeaf_leaf in Hd. injection Hd as <-. reflexivity.
      + constructor.
      + intros L' Hr'. apply (reach_leaf s3 w _ w L' Hw3 eq_refl Hr'). }
  clear Hn3 Ho3 Hnx3 Hrt3 Ho2 Hnx2 Hrt2 Hw2 Hkeep2 Hpar2 Hord2.
  destruct ((cnt <=? minObjects config)%Z
            || Qle_bool (volume wb) (minVolume config)
            || (maxDepth config <=? wrap32 d)%Z) eqn:Hstop.
  - (* a leaf *)
    rewrite (get_obj_Some s3 b fb) by (rewrite Hobj3; exact Hfb). cbn [bindR].
    rewrite Hfresh. cbn [bindR].
    change (Some b :: map Some rest) with (map Some (b :: rest)).
    destruct (add_objects_leaf w wb (b :: rest) [] s3)
      as (s' & Hrun & Hnodes & Hol & Hother & Hbv & Hnx & Hrt).
    { exact Hw3. } { exact I. } { exact Hnd. }
    { eapply Forall_impl; [exact Hun0|]. intros q Hq.
      apply (unlinked_same s); [rewrite Hobj3; reflexivity | exact Hq]. }
    cbn [app] in Hnodes, Hol, Hother.
    exists s', (TLeaf w wb (b :: rest)). split; [exact Hrun|].
    assert (Hwn' : nodes s' !! w
                   = Some (mkNode wb (None, None) (head (b :: rest)) (last (b :: rest)))).
    { rewrite Hnodes. apply lookup_insert_eq. }
    split.
    + split; [reflexivity|].
      split; [split; [exact Hwn' | exact Hol]|].
      split.
      { cbn [contained]. apply List.Forall_forall. intros o Hin.
        unfold obj_enclosed. pose proof (Hbv o) as Hbo. rewrite Hobj3 in Hbo.
        rewrite List.Forall_forall in Hun0. destruct (Hun0 o Hin) as (ob & Hob & _).
        rewrite Hob in Hbo. destruct (objects s' !! o) as [ob'|]; [|discriminate Hbo].
        simpl in Hbo. injection Hbo as ->. apply (Henc o ob Hin Hob). }
      split; [reflexivity|].
      split; [apply NoDup_singleton|].
      split; [intros p [<-|[]]; rewrite Hnx, Hnx3'; lia|].
      split; [rewrite Hnx, Hnx3'; simpl; lia|].
      split; [simpl; lia|].
      split; [exact Hlst|].
      split.
      { intros q Hq. rewrite Hnx. rewrite Hnodes in Hq.
        destruct (decide (q = w)) as [->|Hqw]; [rewrite Hnx3'; lia|].
        rewrite lookup_insert_ne in Hq by congruence. apply Halloc3. exact Hq. }
      split; [rewrite Hrt, Hrt3'; exact Hmroot|].
      split.
      { intros q Hq Hqp. rewrite Hnodes. rewrite lookup_insert_ne by lia.
        apply Hkeep3; assumption. }
      split.
      { intros p pn Hp Hpn. rewrite Hnodes.
        assert (p < w)%nat by (apply Halloc; rewrite Hpn; eauto).
        rewrite lookup_insert_ne by lia. apply Hpar3; assumption. }
      split; [intros q Hq; rewrite Hother by exact Hq; rewrite Hobj3; reflexivity|].
      intros q. rewrite Hbv, Hobj3. reflexivity.
    + split.
      { eapply ordered_same_children; [|exact Hord3]. intros q. rewrite Hnodes.
        destruct (decide (q = w)) as [->|Hqw].
        - rewrite lookup_insert_eq, Hw3. reflexivity.
        - rewrite lookup_insert_ne by congruence. reflexivity. }
      split.
      { rewrite (add_objects_count _ _ _ _ Hrun), Hc3.
        destruct parent; [reflexivity | exact Hcntv]. }
      intros L D HF32 Hlvl. destruct (Hsee L D Hlvl) as (Hdv & _ & _). split.
      * apply td_leaf; [discriminate | exact Hlb |].
        apply orb_true_iff in Hstop. destruct Hstop as [Hstop|Hstop].
        -- apply orb_true_iff in Hstop. destruct Hstop as [Hstop|Hstop].
           ++ left. apply Z.leb_le in Hstop. rewrite Hcntv in Hstop.
              rewrite wrap32_small in Hstop; [exact Hstop|]. simpl in HF |- *. lia.
           ++ right. left. apply Qle_bool_iff. exact Hstop.
        -- right. right. apply Z.leb_le in Hstop.
           rewrite wrap32_small in Hstop by lia. lia.
      * cbn [tree_depth]. rewrite Z.add_0_r, <- Hdv, <- Hd.
        apply Node_Depth_same_children. intros q. rewrite Hnodes.
        destruct (decide (q = w)) as [->|Hqw].
        -- rewrite lookup_insert_eq, Hw3. reflexivity.
        -- rewrite lookup_insert_ne by congruence. reflexivity.
  - (* two children *)
    assert (Hrest : rest <> []).
    { intros ->. rewrite (Hcnt eq_refl) in Hstop.
      assert (Hle : (1 <=? minObjects config)%Z = true) by (apply Z.leb_le; exact Hmin).
      rewrite Hle in Hstop. discriminate Hstop. }
    set (key := center_key s3 (longest_axis wb)).
    change (Some b :: map Some rest) with (map Some (b :: rest)).
    destruct (handles_back (sort_by key (map Some (b :: rest))) (b :: rest)
                (sort_by_perm _ _)) as (l3 & Hl3 & Hperm3).
    assert (Hsorted : sorted_by (fun o => center_key s3 (longest_axis wb) (Some o)) l3).
    { apply (sorted_by_map_Some (center_key s3 (longest_axis wb))).
      fold key. rewrite <- Hl3. apply sort_by_sorted. }
    rewrite Hl3. rewrite length_map. clearbody key. clear Hl3.
    assert (Hlen3 : length l3 = S (length rest)).
    { rewrite <- (Permutation_length Hperm3). reflexivity. }
    destruct (half_size_bounds (length l3)) as (k & Hhalf & Hk).
    { rewrite Hlen3. destruct rest; [congruence | simpl; lia]. }
    { rewrite Hlen3. simpl in Hsize. lia. }
    rewrite Hhalf. cbn [bindR].
    rewrite firstn_map, skipn_map.
    assert (Hnd3 : NoDup (take k l3 ++ drop k l3)).
    { rewrite take_drop. rewrite <- Hperm3. exact Hnd. }
    apply NoDup_app in Hnd3. destruct Hnd3 as (Hnd1 & Hdisj & Hnd2).
    assert (Hin1 : forall o, In o (take k l3) -> In o (b :: rest)).
    { intros o Ho. rewrite Hperm3. rewrite <- (take_drop k l3).
      apply in_or_app. left. exact Ho. }
    assert (Hin2 : forall o, In o (drop k l3) -> In o (b :: rest)).
    { intros o Ho. rewrite Hperm3. rewrite <- (take_drop k l3).
      apply in_or_app. right. exact Ho. }
    assert (Hlt1 : length (take k l3) = k) by (rewrite length_take; lia).
    assert (Hlt2 : length (drop k l3) = (length l3 - k)%nat) by (apply length_drop).
    simpl in Hfuel, HF.
    (* the first child *)
    destruct (IH (take k l3) (Some w) s3) as (sa & t1 & Hrun1 & Hb1 & Horda & Hcnta & Htda).
    { intros Heq. rewrite Heq in Hlt1. simpl in Hlt1. lia. }
    { exact Hnd1. }
    { apply List.Forall_forall. intros o Ho. rewrite List.Forall_forall in Hun0.
      apply (unlinked_same s); [rewrite Hobj3; reflexivity|]. apply Hun0. auto. }
    { lia. } { simpl in Hsize. lia. }
    { exact Halloc3. } { exact Hord3. } { rewrite Hnx3'. lia. }
    { cbn [parent_ok]. split; [exact Hrt3'|]. split; [exact Hbase_w|].
      split; [exact Hbase3|]. eexists. split; [exact Hw3|]. left. reflexivity. }
    rewrite Hrun1. cbn [bindR].
    destruct Hb1 as (Hp1 & Hsh1 & Hct1 & Hpm1 & Hndt1 & Hrg1 & Hnxa & Hln1 & Hlst1
                     & Halloca & Hrta & Hkeepa & Hpara & Hobja & Hbva).
    rewrite Hnx3' in Hp1, Hrg1, Hnxa, Hkeepa, Hpara.
    specialize (Hpara w _ eq_refl Hw3).
    assert (Hsa : (S w < next_node sa)%nat).
    { pose proof (Hrg1 _ (tree_ptr_In t1)) as Hr. rewrite Hp1 in Hr. lia. }
    change (vacant_slot (mkNode wb (None, None) None None)) with 0%Z in Hpara.
    change (set_child 0 (Some (S w)) (mkNode wb (None, None) None None))
      with (mkNode wb (Some (S w), None) None None) in Hpara.
    (* the second child *)
    destruct (IH (drop k l3) (Some w) sa) as (sb & t2 & Hrun2 & Hb2 & Hordb & Hcntb & Htdb).
    { intros Heq. rewrite Heq in Hlt2. simpl in Hlt2. lia. }
    { exact Hnd2. }
    { apply List.Forall_forall. intros o Ho. rewrite List.Forall_forall in Hun0.
      apply (unlinked_same s).
      - rewrite Hobja, Hobj3; [reflexivity|]. intros Hin.
        apply (Hdisj o); apply list_elem_of_In; assumption.
      - apply Hun0. auto. }
    { lia. } { simpl in Hsize. lia. }
    { exact Halloca. } { exact Horda. } { lia. }
    { cbn [parent_ok]. split; [rewrite Hrta; exact Hrt3'|]. split; [exact Hbase_w|].
      split.
      - destruct (decide (base = w)) as [->|Hbw]; [rewrite Hpara; eauto|].
        rewrite Hkeepa; [exact Hbase3 | lia | congruence].
      - eexists. split; [exact Hpara|]. right. reflexivity. }
    rewrite Hrun2.
    destruct Hb2 as (Hp2 & Hsh2 & Hct2 & Hpm2 & Hndt2 & Hrg2 & Hnxb & Hln2 & Hlst2
                     & Hallocb & Hrtb & Hkeepb & Hparb & Hobjb & Hbvb).
    specialize (Hparb w _ eq_refl Hpara).
    assert (Hsb : (next_node sa < next_node sb)%nat).
    { pose proof (Hrg2 _ (tree_ptr_In t2)) as Hr. rewrite Hp2 in Hr. lia. }
    change (vacant_slot (mkNode wb (Some (S w), None) None None)) with 1%Z in Hparb.
    change (set_child 1 (Some (next_node sa)) (mkNode wb (Some (S w), None) None None))
      with (mkNode wb (Some (S w), Some (next_node sa)) None None) in Hparb.
    exists sb, (TNode w wb t1 t2). split; [reflexivity|].
    assert (Hobj_all : forall q, obj_bv <$> objects sb !! q = obj_bv <$> objects s !! q).
    { intros q. rewrite Hbvb, Hbva, Hobj3. reflexivity. }
    split; [|split; [exact Hordb|]].
    split; [reflexivity|].
    split.
    { cbn [shape]. split; [rewrite Hparb, Hp1, Hp2; reflexivity|]. split; [|exact Hsh2].
      eapply shape_frame; [| |exact Hsh1].
      - intros p Hp. specialize (Hrg1 p Hp). apply Hkeepb; [lia|].
        intros [= <-]. lia.
      - intros o Ho. rewrite Hobjb; [reflexivity|]. intros Hin.
        apply (Hdisj o); apply list_elem_of_In; [|exact Hin].
        rewrite <- Hpm1. exact Ho. }
    split.
    { cbn [contained]. split; [|split; [|split; [|exact Hct2]]].
      - apply Hlst1. intros o ob Ho Hob. rewrite Hobj3 in Hob.
        apply (Henc o ob); [apply Hin1; exact Ho | exact Hob].
      - apply Hlst2. intros o ob Ho Hob.
        rewrite Hobja, Hobj3 in Hob.
        + apply (Henc o ob); [apply Hin2; exact Ho | exact Hob].
        + intros Hin. apply (Hdisj o); apply list_elem_of_In; assumption.
      - eapply contained_frame; [|exact Hct1]. intros o _. apply Hbvb. }
    split.
    { cbn [tree_objs]. rewrite Hpm1, Hpm2, take_drop. symmetry. exact Hperm3. }
    split.
    { cbn [tree_nodes]. apply NoDup_cons. split.
      - rewrite list_elem_of_In. intros Hin. apply in_app_or in Hin.
        destruct Hin as [Hin|Hin]; [specialize (Hrg1 _ Hin) | specialize (Hrg2 _ Hin)]; lia.
      - apply NoDup_app. split; [exact Hndt1|]. split; [|exact Hndt2].
        intros p Hp1' Hp2'. apply list_elem_of_In in Hp1', Hp2'.
        specialize (Hrg1 _ Hp1'). specialize (Hrg2 _ Hp2'). lia. }
    split.
    { cbn [tree_nodes]. intros p [<-|Hin]; [fold w; lia|].
      fold w. apply in_app_or in Hin.
      destruct Hin as [Hin|Hin]; [specialize (Hrg1 _ Hin) | specialize (Hrg2 _ Hin)]; lia. }
    split; [fold w; simpl; lia|].
    split; [cbn [tree_nodes]; simpl; rewrite length_app; lia|].
    split; [exact Hlst|].
    split; [exact Hallocb|].
    split; [rewrite Hrtb, Hrta, Hrt3'; exact Hmroot|].
    split.
    { intros q Hq Hqp. fold w in Hq. rewrite Hkeepb; [|lia|intros [= <-]; lia].
      rewrite Hkeepa; [|lia|intros [= <-]; lia]. apply Hkeep3; assumption. }
    split.
    { intros p pn Hp Hpn.
      assert (p < w)%nat by (apply Halloc; rewrite Hpn; eauto).
      rewrite Hkeepb; [|lia|intros [= <-]; lia].
      rewrite Hkeepa; [|lia|intros [= <-]; lia]. apply Hpar3; assumption. }
    split; [|exact Hobj_all].
    intros q Hq. rewrite Hobjb, Hobja, Hobj3; [reflexivity| |].
    + intros Hin. apply Hq. apply Hin1. exact Hin.
    + intros Hin. apply Hq. apply Hin2. exact Hin.
    + split.
      { rewrite Hcntb, Hcnta, Hc3. destruct parent; [reflexivity | exact Hcntv]. }
      intros L D HF32 Hlvl. destruct (Hsee L D Hlvl) as (Hdv & Hr3 & Huniq3).
      apply orb_false_iff in Hstop. destruct Hstop as (Hstop & Hdepth).
      apply orb_false_iff in Hstop. destruct Hstop as (Hcount & Hvol).
      apply Z.leb_gt in Hdepth, Hcount. apply Qle_bool_false in Hvol.
      rewrite wrap32_small in Hdepth by lia.
      rewrite Hcntv in Hcount. rewrite wrap32_small in Hcount by (simpl in HF |- *; lia).
      assert (Hbv3 : forall q, obj_bv <$> objects s !! q = obj_bv <$> objects s3 !! q).
      { intros q. rewrite Hobj3. reflexivity. }
      (* where the two calls stand *)
      destruct (Htda (S L) (Z.max D (Z.of_nat L)) HF32) as (Htd1 & Hda).
      { exists L. split; [reflexivity|]. split; [exact Hr3|]. split; [exact Huniq3|].
        split; [rewrite <- Hdv; exact Hd|].
        intros pn Hpn _. rewrite Hw3 in Hpn. injection Hpn as <-. reflexivity. }
      assert (Hra : reach sa base w L).
      { apply (reach_frame base s3 sa base w L Hord3 (Nat.le_refl _) Hr3).
        intros x Hx. apply Hkeepa; [lia|]. intros [= <-]. lia. }
      destruct (Htdb (S L) (Z.max (Z.max D (Z.of_nat L)) (Z.of_nat (S L) + tree_depth t1))
                  HF32) as (Htd2 & Hdb2).
      { exists L. split; [reflexivity|]. split; [exact Hra|]. split.
        - intros L' Hr'. apply Huniq3.
          apply (reach_frame base sa s3 base w L' Horda (Nat.le_refl _) Hr').
          intros x Hx. symmetry. apply Hkeepa; [lia|]. intros [= <-]. lia.
        - split; [exact Hda|].
          intros pn Hpn Hc0. rewrite Hpara in Hpn. injection Hpn as <-.
          discriminate Hc0. }
      split.
      * apply (td_node config s L D w wb t1 t2 (b :: rest) (take k l3) (drop k l3)).
        -- exact Hlb.
        -- exact Hcount.
        -- exact Hvol.
        -- lia.
        -- rewrite take_drop. exact Hperm3.
        -- rewrite Hlt1. rewrite <- Hhalf. rewrite Hlen3. reflexivity.
        -- intros o1 o2 Ho1 Ho2.
           rewrite <- !(center_key_frame s s3) by (rewrite Hobj3; reflexivity).
           apply (sorted_by_cut (fun o => center_key s3 (longest_axis wb) (Some o)) l3 k);
             assumption.
        -- apply (top_down_frame config s3 s _ _ _ _ Hbv3). exact Htd1.
        -- apply (top_down_frame config sa s).
           { intros q. rewrite Hbva, Hobj3. reflexivity. }
           exact Htd2.
      * rewrite Hdb2. f_equal. cbn [tree_depth].
        pose proof (tree_depth_nonneg t1). pose proof (tree_depth_nonneg t2). lia.
Qed.

Lemma BuildTopDown_rec_spec F config base :
  (1 <= minObjects config)%Z ->
  forall fuel os parent s,
  os <> [] -> NoDup os -> Forall (unlinked s) os ->
  (length os <= fuel)%nat -> (Z.of_nat (length os) < 4294967168)%Z ->
  alloc_ok s -> ordered base s ->
  (next_node s + 2 * length os <= base + F)%nat ->
  parent_ok base parent s ->
  exists s' t,
    BuildTopDown_rec F fuel (map Some os) config parent s = Ok s'
    /\ built s s' parent os t /\ ordered base s'.
Proof.
  intros Hmin fuel os parent s Hne Hnd Hun Hfuel Hsize Halloc Hord HF Hpar.
  destruct (BuildTopDown_rec_shape F config base Hmin fuel os parent s
              Hne Hnd Hun Hfuel Hsize Halloc Hord HF Hpar)
    as (s' & t & Hrun & Hb & Ho & _).
  eauto.
Qed.

(** * A build on an empty tree, then inserts *)

Lemma BuildTopDown_grown F config s os :
  (1 <= minObjects config)%Z ->
  mRoot s = None -> alloc_ok s ->
  NoDup os -> Forall (unlinked s) os ->
  (2 * length os <= F)%nat -> (Z.of_nat (length os) < 4294967168)%Z ->
  exists s' ot',
    BuildTopDown F (map Some os) config None s = Ok s' /\ grown_of s s' None os ot'.
Proof.
  intros Hmin Hroot Halloc Hnd Hun HF Hsize.
  destruct os as [|b rest].
  - exists s, None. split; [unfold BuildTopDown; destruct F; reflexivity|].
    split; [exact Hroot|]. split; [exact I|]. split; [reflexivity|].
    split; [simpl; lia|]. split; [exact Halloc|]. split; reflexivity.
  - destruct (BuildTopDown_rec_spec F config (next_node s) Hmin F (b :: rest) None s)
      as (s' & t & Hrun & Hb & _).
    { discriminate. } { exact Hnd. } { exact Hun. } { simpl in *. lia. }
    { exact Hsize. } { exact Halloc. }
    { intros q n c Hq Hn _. exfalso.
      assert (q < next_node s)%nat by (apply Halloc; rewrite Hn; eauto). lia. }
    { lia. } { reflexivity. }
    destruct Hb as (Hp & Hsh & Hct & Hpm & Hndt & _ & _ & Hln & _ & Halloc' & Hrt & _ & _
                    & Hobj & Hbv).
    exists s', (Some t). split; [exact Hrun|].
    split.
    { split; [rewrite Hrt, Hp; reflexivity|]. split; [exact Hsh|].
      split; [exact Hndt|]. rewrite Hpm. exact Hnd. }
    split; [exact Hct|].
    split; [cbn [objs_of]; rewrite app_nil_r; exact Hpm|].
    split; [cbn [nodes_of]; simpl in *; lia|].
    split; [exact Halloc'|].
    split; [intros q Hq _; apply Hobj; exact Hq | exact Hbv].
Qed.

Lemma run_calls_inserts F config os :
  forall s, run_calls F config (map (fun o => CInsert (Some o)) os) s
            = Insert_range F (map Some os) config s.
Proof.
  induction os as [|o os IH]; intros s; [reflexivity|].
  simpl. destruct (Insert F (Some o) config s); simpl; auto.
Qed.

(** X22.  Take an empty tree and distinct objects that are in no
    list.  [BuildTopDown] over some of them, then [Insert] of the others one
    by one (with [minObjects >= 1], fuel for the loops and fewer than 2^30
    objects) returns, and afterwards the heap holds a tree in which every
    internal node encloses its two children, every leaf encloses its
    members, and the leaves list every one of the objects exactly once. *)
Theorem build_then_insert_invariants
    (F : nat) (config : BvhBuildConfig) (s : State) (range os : list optr) :
  (1 <= minObjects config)%Z ->
  mRoot s = None -> alloc_ok s ->
  NoDup (range ++ os) -> Forall (unlinked s) (range ++ os) ->
  (3 * length (range ++ os) <= F)%nat ->
  (Z.of_nat (2 * length (range ++ os)) <= INT_MAX)%Z ->
  exists s',
    run_calls F config
      (CBuildTopDown (map Some range) :: map (fun o => CInsert (Some o)) os) s = Ok s'
    /\ bvh_invariants s' (range ++ os).
Proof.
  intros Hmin Hroot Halloc Hnd Hun HF Hmax.
  rewrite length_app in HF, Hmax.
  apply NoDup_app in Hnd. destruct Hnd as (Hnd1 & Hdisj & Hnd2).
  apply Forall_app in Hun. destruct Hun as (Hun1 & Hun2).
  destruct (BuildTopDown_grown F config s range Hmin Hroot Halloc Hnd1 Hun1)
    as (s1 & ot1 & Hrun1 & Hrepr1 & Hcont1 & Hperm1 & Hlen1 & Halloc1 & Hobj1 & _).
  { lia. } { unfold INT_MAX in Hmax. lia. }
  cbn [objs_of nodes_of length] in Hperm1, Hlen1, Hobj1. rewrite app_nil_r in Hperm1.
  destruct (Insert_range_grown F config os s1 ot1 Hrepr1 Hcont1 Halloc1 Hnd2)
    as (s' & ot' & Hrun' & Hrepr' & Hcont' & Hperm' & _).
  { rewrite List.Forall_forall in *. intros q Hq.
    apply (unlinked_same s); [|apply Hun2; exact Hq].
    apply Hobj1; [|intros []]. intros Hin.
    apply (Hdisj q); apply list_elem_of_In; assumption. }
  { intros q Hq Hin. rewrite Hperm1 in Hin.
    apply (Hdisj q); apply list_elem_of_In; assumption. }
  { assert (length (objs_of ot1) = length range) by (rewrite Hperm1; reflexivity).
    destruct ot1 as [t1|]; simpl in *; unfold tree_weight; lia. }
  { lia. }
  exists s'. split.
  - cbn [run_calls run_call]. rewrite Hrun1. cbn [bindR].
    rewrite run_calls_inserts. exact Hrun'.
  - exists ot'. split; [exact Hrepr'|]. split; [exact Hcont'|].
    rewrite Hperm', Hperm1. apply Permutation_app_comm.
Qed.

Lemma five_boxes_unlinked (o : optr) :
  (o < 5)%nat -> unlinked (scene_of five_boxes) o.
Proof.
  intros H.
  destruct o as [|[|[|[|[|o]]]]]; [..|lia];
    (eexists; split; [vm_compute; reflexivity | reflexivity]).
Qed.

Lemma build_then_insert_invariants_witness :
  exists s',
    run_calls 20 cInsertConfig_manual
      [CBuildTopDown [Some 0%nat; Some 1%nat; Some 2%nat];
       CInsert (Some 3%nat); CInsert (Some 4%nat)]
      (scene_of five_boxes) = Ok s'
    /\ bvh_invariants s' [0; 1; 2; 3; 4]%nat.
Proof.
  apply (build_then_insert_invariants 20 cInsertConfig_manual (scene_of five_boxes)
           [0; 1; 2]%nat [3; 4]%nat).
  - vm_compute. discriminate.
  - reflexivity.
  - intros q [n Hq]. vm_compute in Hq. discriminate Hq.
  - apply (bool_decide_unpack _). vm_compute. reflexivity.
  - repeat constructor; apply five_boxes_unlinked; lia.
  - simpl. lia.
  - vm_compute. discriminate.
Defined.

(** * The ray query on ids that fit an [int] *)

Section RayProofs.

Context {Ray : Type}.
Variable intersect : Ray -> Aabb -> Q.
Variable ray : Ray.

(** The ray enters a box no later than a box inside it. *)
Hypothesis intersect_mono :
  forall a b, valid_box b -> encloses a b -> (0 <= intersect ray b)%Q ->
              (0 <= intersect ray a)%Q /\ (intersect ray a <= intersect ray b)%Q.

Lemma brute_force_hits_app s a b :
  brute_force_hits intersect ray s (a ++ b)
  = brute_force_hits intersect ray s a ++ brute_force_hits intersect ray s b.
Proof.
  induction a as [|o a IH]; simpl; [reflexivity|].
  destruct (objects s !! o); [|exact IH].
  destruct (Qle_bool _ _); simpl; rewrite IH; reflexivity.
Qed.

Lemma brute_force_hits_perm s a b :
  Permutation a b ->
  Permutation (brute_force_hits intersect ray s a) (brute_force_hits intersect ray s b).
Proof.
  induction 1 as [|x a b _ IH|x y a|a b c _ IH1 _ IH2]; simpl.
  - constructor.
  - destruct (objects s !! x); [|exact IH].
    destruct (Qle_bool _ _); [constructor|]; exact IH.
  - destruct (objects s !! x), (objects s !! y); try reflexivity.
    destruct (Qle_bool _ _), (Qle_bool _ _); try reflexivity.
    apply perm_swap.
  - etransitivity; eauto.
Qed.

(** No object that the ray enters: brute force finds nothing. *)
Lemma brute_force_hits_none s os :
  (forall o ob, In o os -> objects s !! o = Some ob ->
                (intersect ray (obj_bv ob) < 0)%Q) ->
  brute_force_hits intersect ray s os = [].
Proof.
  induction os as [|o os IH]; intros H; simpl; [reflexivity|].
  destruct (objects s !! o) as [ob|] eqn:Hob.
  - specialize (H o ob (or_introl eq_refl) Hob) as Hlt.
    apply Qle_bool_false in Hlt. rewrite Hlt. apply IH.
    intros q qb Hq. apply H. right. exact Hq.
  - apply IH. intros q qb Hq. apply H. right. exact Hq.
Qed.

Lemma brute_force_hits_nil_inv s os o ob :
  brute_force_hits intersect ray s os = [] ->
  In o os -> objects s !! o = Some ob -> (intersect ray (obj_bv ob) < 0)%Q.
Proof.
  induction os as [|x os IH]; simpl; intros H Hin Hob; [contradiction|].
  destruct Hin as [->|Hin].
  - rewrite Hob in H. destruct (Qle_bool 0 (intersect ray (obj_bv ob))) eqn:E;
      [discriminate H|]. apply Qle_bool_false. exact E.
  - apply IH; [|exact Hin|exact Hob].
    destruct (objects s !! x); [|exact H].
    destruct (Qle_bool _ _); [discriminate H | exact H].
Qed.

(** A subtree whose box the ray misses holds no object that it enters. *)
Lemma missed_subtree s t :
  shape s t -> contained s t -> ray_objs_ok intersect ray s (tree_objs t) ->
  (intersect ray (tree_bv t) < 0)%Q ->
  forall o ob, In o (tree_objs t) -> objects s !! o = Some ob ->
               (intersect ray (obj_bv ob) < 0)%Q.
Proof.
  intros Hs Hc Hok Hmiss o ob Hin Hob.
  pose proof (contained_objs s t o Hc Hin) as Henc.
  unfold obj_enclosed in Henc. rewrite Hob in Henc.
  destruct (Qlt_le_dec (intersect ray (obj_bv ob)) 0) as [Hlt|Hge]; [exact Hlt|].
  destruct (Hok o ob Hin Hob) as (_ & _ & Hv).
  destruct (intersect_mono _ _ Hv Henc Hge) as (H0 & _).
  exfalso. apply (Qlt_not_le _ _ Hmiss). exact H0.
Qed.

(** The ray enters a subtree's box no later than any of its objects. *)
Lemma entered_subtree s t o ob :
  contained s t -> ray_objs_ok intersect ray s (tree_objs t) ->
  In o (tree_objs t) -> objects s !! o = Some ob ->
  (0 <= intersect ray (obj_bv ob))%Q ->
  (intersect ray (tree_bv t) <= intersect ray (obj_bv ob))%Q.
Proof.
  intros Hc Hok Hin Hob Hge.
  pose proof (contained_objs s t o Hc Hin) as Henc.
  unfold obj_enclosed in Henc. rewrite Hob in Henc.
  destruct (Hok o ob Hin Hob) as (_ & _ & Hv).
  apply (intersect_mono _ _ Hv Henc Hge).
Qed.

Lemma ray_inv_perm co s V V' l :
  Permutation V V' -> ray_inv intersect ray co s V l -> ray_inv intersect ray co s V' l.
Proof.
  intros Hp (H1 & H2 & H3 & H4). split; [|split; [exact H2|split]].
  - intros Hco. rewrite (H1 Hco). apply brute_force_hits_perm. exact Hp.
  - intros o ob Hin. apply H3. eapply Permutation_in; [symmetry; exact Hp | exact Hin].
  - destruct H4 as [H4|(o & ob & Hin & H4)]; [left; exact H4|].
    right. exists o, ob. split; [|exact H4]. eapply Permutation_in; eauto.
Qed.

(** Objects that the ray does not enter sooner than the shortest time may
    be counted as accounted for (they are missed, or the search is for the
    closest only). *)
Lemma ray_inv_skip co s V W l :
  ray_inv intersect ray co s V l ->
  (co = false -> brute_force_hits intersect ray s W = []) ->
  (forall o ob, In o W -> objects s !! o = Some ob ->
                (0 <= intersect ray (obj_bv ob))%Q ->
                (bvhShortestTime l <= intersect ray (obj_bv ob))%Q) ->
  ray_inv intersect ray co s (V ++ W) l.
Proof.
  intros (H1 & H2 & H3 & H4) Hbf Hw. split; [|split; [exact H2|split]].
  - intros Hco. rewrite brute_force_hits_app, (Hbf Hco), app_nil_r. exact (H1 Hco).
  - intros o ob Hin Hob Hge. apply in_app_or in Hin. destruct Hin as [Hin|Hin].
    + apply (H3 o ob Hin Hob Hge).
    + apply (Hw o ob Hin Hob Hge).
  - destruct H4 as [H4|(o & ob & Hin & H4)]; [left; exact H4|].
    right. exists o, ob. split; [apply in_or_app; left; exact Hin | exact H4].
Qed.

Lemma ray_inv_missed co s V t l :
  shape s t -> contained s t -> ray_objs_ok intersect ray s (tree_objs t) ->
  (intersect ray (tree_bv t) < 0)%Q ->
  ray_inv intersect ray co s V l ->
  ray_inv intersect ray co s (V ++ tree_objs t) l.
Proof.
  intros Hs Hc Hok Hmiss Hinv. apply ray_inv_skip; [exact Hinv| |].
  - intros _. apply brute_force_hits_none. apply (missed_subtree s t Hs Hc Hok Hmiss).
  - intros o ob Hin Hob Hge. exfalso.
    pose proof (missed_subtree s t Hs Hc Hok Hmiss o ob Hin Hob) as Hlt.
    apply (Qlt_not_le _ _ Hlt). exact Hge.
Qed.

(** The object loop of a leaf. *)
Lemma QueryNodesRay_leaf_spec co s leaf :
  forall os pv F nst l V,
  olist s leaf pv os -> (length os <= F)%nat ->
  ray_objs_ok intersect ray s os ->
  ray_inv intersect ray co s V l -> (bvhShortestTime l <= nst)%Q ->
  exists nst' l',
    QueryNodesRay_leaf intersect F ray co s (head os) nst l = Ok (nst', l')
    /\ ray_inv intersect ray co s (V ++ os) l'
    /\ (bvhShortestTime l' <= nst')%Q
    /\ (bvhShortestTime l' <= bvhShortestTime l)%Q.
Proof.
  induction os as [|o os IH]; intros pv F nst l V Hol HF Hok Hinv Hnst.
  - exists nst, l. split; [destruct F; reflexivity|]. rewrite app_nil_r.
    split; [exact Hinv|]. split; [exact Hnst | apply Qle_refl].
  - destruct Hol as [Ho Hrest]. destruct F as [|F]; [simpl in HF; lia|].
    cbn [head QueryNodesRay_leaf].
    destruct (objects s !! o) as [ob|] eqn:Hob; [|discriminate Ho].
    rewrite (get_obj_Some s o ob Hob). cbn [bindR].
    simpl in Ho. injection Ho as Ho. rewrite Ho. cbn [next].
    destruct (Hok o ob (or_introl eq_refl) Hob) as (Hid & Hfl & _).
    assert (Hok' : ray_objs_ok intersect ray s os).
    { intros q qb Hq. apply Hok. right. exact Hq. }
    replace (V ++ o :: os) with ((V ++ [o]) ++ os) by (rewrite <- app_assoc; reflexivity).
    destruct Hinv as (H1 & H2 & H3 & H4).
    destruct (Qle_bool 0 (intersect ray (obj_bv ob))) eqn:Hhit.
    + apply Qle_bool_iff in Hhit.
      set (tm := intersect ray (obj_bv ob)) in *.
      destruct (Qltb tm (bvhShortestTime l)) eqn:Hbest.
      * apply Qltb_lt in Hbest.
        destruct (IH (Some o) F (if Qltb tm nst then tm else nst)
                    (mkRayLocals (to_int (obj_id ob)) tm
                       (if co then allIntersectedObjects l
                        else allIntersectedObjects l ++ [obj_id ob])
                       (debug_tested_nodes l)) (V ++ [o]))
          as (nst' & l' & Hrun & Hinv' & Hn' & Hmono); [exact Hrest | simpl in HF; lia | exact Hok' | |  |].
        { split; [|split; [|split]]; cbn [allIntersectedObjects bvhShortestTime closestIntersect].
          - intros ->. rewrite brute_force_hits_app. simpl. rewrite Hob.
            apply Qle_bool_iff in Hhit. fold tm. rewrite Hhit.
            apply Permutation_app_tail. apply H1. reflexivity.
          - apply Qlt_le_weak. exact Hfl.
          - intros q qb Hin Hqb Hge. apply in_app_or in Hin. destruct Hin as [Hin|[<-|[]]].
            + eapply Qle_trans; [apply Qlt_le_weak; exact Hbest|]. apply (H3 q qb Hin Hqb Hge).
            + rewrite Hob in Hqb. injection Hqb as <-. apply Qle_refl.
          - right. exists o, ob. split; [apply in_or_app; right; left; reflexivity|].
            split; [exact Hob|]. split; [reflexivity|]. split; [exact Hhit | reflexivity]. }
        { cbn [bvhShortestTime]. destruct (Qltb tm nst) eqn:E; [apply Qle_refl|].
          apply Qltb_ge in E. eapply Qle_trans; [apply Qlt_le_weak; exact Hbest | exact Hnst]. }
        exists nst', l'. split; [exact Hrun|]. split; [exact Hinv'|]. split; [exact Hn'|].
        cbn [bvhShortestTime] in Hmono. eapply Qle_trans; [exact Hmono|].
        apply Qlt_le_weak. exact Hbest.
      * apply Qltb_ge in Hbest.
        destruct (IH (Some o) F (if Qltb tm nst then tm else nst)
                    (mkRayLocals (closestIntersect l) (bvhShortestTime l)
                       (if co then allIntersectedObjects l
                        else allIntersectedObjects l ++ [obj_id ob])
                       (debug_tested_nodes l)) (V ++ [o]))
          as (nst' & l' & Hrun & Hinv' & Hn' & Hmono); [exact Hrest | simpl in HF; lia | exact Hok' | |  |].
        { split; [|split; [|split]]; cbn [allIntersectedObjects bvhShortestTime closestIntersect].
          - intros ->. rewrite brute_force_hits_app. simpl. rewrite Hob.
            apply Qle_bool_iff in Hhit. fold tm. rewrite Hhit.
            apply Permutation_app_tail. apply H1. reflexivity.
          - exact H2.
          - intros q qb Hin Hqb Hge. apply in_app_or in Hin. destruct Hin as [Hin|[<-|[]]].
            + apply (H3 q qb Hin Hqb Hge).
            + rewrite Hob in Hqb. injection Hqb as <-. exact Hbest.
          - destruct H4 as [(H4 & H5)|(q & qb & Hin & H4)].
            + exfalso. rewrite H5 in Hbest. apply (Qlt_not_le _ _ Hfl). exact Hbest.
            + right. exists q, qb. split; [apply in_or_app; left; exact Hin | exact H4]. }
        { cbn [bvhShortestTime]. destruct (Qltb tm nst) eqn:E; [exact Hbest | exact Hnst]. }
        exists nst', l'. split; [exact Hrun|]. split; [exact Hinv'|]. split; [exact Hn'|].
        exact Hmono.
    + apply Qle_bool_false in Hhit.
      destruct (IH (Some o) F nst l (V ++ [o]))
        as (nst' & l' & Hrun & Hinv' & Hn' & Hmono); [exact Hrest | simpl in HF; lia | exact Hok' | | exact Hnst |].
      { apply ray_inv_skip; [split; [exact H1|split; [exact H2|split; [exact H3|exact H4]]]| |].
        - intros _. simpl. rewrite Hob. apply Qle_bool_false in Hhit. rewrite Hhit. reflexivity.
        - intros q qb [<-|[]] Hqb Hge. rewrite Hob in Hqb. injection Hqb as <-.
          exfalso. apply (Qlt_not_le _ _ Hhit). exact Hge. }
      exists nst', l'. auto.
Qed.

Lemma ray_inv_push co s V nd l :
  ray_inv intersect ray co s V l -> ray_inv intersect ray co s V (push_tested nd l).
Proof. intros H. exact H. Qed.

Lemma test_child_shape s t l :
  shape s t ->
  test_child intersect ray s (Some (tree_ptr t)) l
  = Ok (intersect ray (tree_bv t), push_tested (tree_ptr t) l).
Proof.
  intros Hs. destruct (shape_root s t Hs) as (n & Hn & Hbv).
  unfold test_child. rewrite (get_node_Some s _ n Hn). cbn [bindR]. rewrite Hbv. reflexivity.
Qed.

Lemma ray_objs_ok_app s a b :
  ray_objs_ok intersect ray s (a ++ b) ->
  ray_objs_ok intersect ray s a /\ ray_objs_ok intersect ray s b.
Proof.
  intros H. split; intros o ob Hin; apply H; apply in_or_app; auto.
Qed.

(** What the recursive lambda returns: a negative time, or a time that
    the shortest time found so far does not exceed. *)
Lemma QueryNodesRay_spec co s F :
  forall fuel t l V,
  shape s t -> contained s t -> ray_objs_ok intersect ray s (tree_objs t) ->
  (length (tree_nodes t) <= fuel)%nat -> (length (tree_objs t) <= F)%nat ->
  ray_inv intersect ray co s V l ->
  exists r l',
    QueryNodesRay intersect F fuel ray co s (Some (tree_ptr t)) l = Ok (r, l')
    /\ ray_inv intersect ray co s (V ++ tree_objs t) l'
    /\ ((r < 0)%Q \/ (bvhShortestTime l' <= r)%Q)
    /\ (bvhShortestTime l' <= bvhShortestTime l)%Q.
Proof.
  induction fuel as [|fuel IH]; intros t l V Hs Hc Hok Hfuel HF Hinv.
  { destruct t; simpl in Hfuel; lia. }
  destruct t as [p b os|p b tl tr]; cbn [tree_ptr QueryNodesRay].
  - destruct Hs as [Hp Hol]. rewrite (get_node_Some s p _ Hp). cbn [bindR].
    rewrite IsLeaf_leaf. cbn [firstObject].
    destruct (QueryNodesRay_leaf_spec co s p os None F FLT_MAX l V Hol HF Hok Hinv)
      as (nst' & l' & Hrun & Hinv' & Hn' & Hmono).
    { destruct Hinv as (_ & H2 & _). exact H2. }
    exists nst', l'. split; [exact Hrun|]. split; [exact Hinv'|].
    split; [right; exact Hn' | exact Hmono].
  - destruct Hs as (Hp & Hsl & Hsr). destruct Hc as (Hel & Her & Hcl & Hcr).
    cbn [tree_objs tree_nodes length] in *. rewrite length_app in Hfuel, HF.
    destruct (ray_objs_ok_app s _ _ Hok) as (Hokl & Hokr).
    rewrite (get_node_Some s p _ Hp). cbn [bindR].
    unfold IsLeaf. cbn [child children fst snd Z.eqb].
    rewrite (test_child_shape s tl l Hsl). cbn [bindR fst snd].
    rewrite (test_child_shape s tr _ Hsr). cbn [bindR fst snd].
    set (cF := intersect ray (tree_bv tl)).
    set (cS := intersect ray (tree_bv tr)).
    set (l2 := push_tested (tree_ptr tr) (push_tested (tree_ptr tl) l)).
    assert (Hinv2 : ray_inv intersect ray co s V l2) by exact Hinv.
    assert (Hl2 : bvhShortestTime l2 = bvhShortestTime l) by reflexivity.
    clearbody l2.
    change (Qltb cF 0) with (negb (Qle_bool 0 cF)).
    change (Qltb cS 0) with (negb (Qle_bool 0 cS)).
    rewrite app_assoc.
    destruct (Qle_bool 0 cF) eqn:E0, (Qle_bool 0 cS) eqn:E1; cbn [negb andb].
    + (* the ray enters both boxes *)
      apply Qle_bool_iff in E0, E1.
      destruct (Qltb cF cS) eqn:Eorder.
      * destruct (IH tl l2 V Hsl Hcl Hokl ltac:(lia) ltac:(lia) Hinv2)
          as (r & l3 & Hrun & Hinv3 & Hr & Hm3).
        rewrite Hrun. cbn [bindR fst snd].
        destruct (negb co || Qltb r 0 || Qltb cS r) eqn:Emore.
        -- destruct (IH tr l3 (V ++ tree_objs tl) Hsr Hcr Hokr ltac:(lia) ltac:(lia) Hinv3)
             as (r' & l4 & Hrun' & Hinv4 & Hr' & Hm4).
           rewrite Hrun'. cbn [bindR fst snd].
           eexists _, _. split; [reflexivity|]. split; [exact Hinv4|]. split.
           ++ unfold fmin. destruct (Qltb r r'); [|exact Hr'].
              destruct Hr as [Hr|Hr]; [left; exact Hr|]. right.
              eapply Qle_trans; [exact Hm4 | exact Hr].
           ++ rewrite <- Hl2. eapply Qle_trans; [exact Hm4 | exact Hm3].
        -- apply orb_false_iff in Emore. destruct Emore as (Emore & E3).
           apply orb_false_iff in Emore. destruct Emore as (Eco & E2).
           apply negb_false_iff in Eco. apply Qltb_ge in E2, E3.
           destruct Hr as [Hr|Hr]; [exfalso; apply (Qlt_not_le _ _ Hr); exact E2|].
           eexists _, _. split; [reflexivity|]. split.
           ++ apply ray_inv_skip; [exact Hinv3 | intros Hco; congruence |].
              intros o ob Hin Hob Hge.
              eapply Qle_trans; [exact Hr|]. eapply Qle_trans; [exact E3|].
              apply (entered_subtree s tr o ob Hcr Hokr Hin Hob Hge).
           ++ split; [right; exact Hr|]. rewrite <- Hl2. exact Hm3.
      * destruct (IH tr l2 V Hsr Hcr Hokr ltac:(lia) ltac:(lia) Hinv2)
          as (r & l3 & Hrun & Hinv3 & Hr & Hm3).
        rewrite Hrun. cbn [bindR fst snd].
        assert (Hswap : Permutation ((V ++ tree_objs tr) ++ tree_objs tl)
                                    ((V ++ tree_objs tl) ++ tree_objs tr)).
        { rewrite <- !app_assoc. apply Permutation_app_head. apply Permutation_app_comm. }
        destruct (negb co || Qltb r 0 || Qltb cF r) eqn:Emore.
        -- destruct (IH tl l3 (V ++ tree_objs tr) Hsl Hcl Hokl ltac:(lia) ltac:(lia) Hinv3)
             as (r' & l4 & Hrun' & Hinv4 & Hr' & Hm4).
           rewrite Hrun'. cbn [bindR fst snd].
           eexists _, _. split; [reflexivity|].
           split; [eapply ray_inv_perm; [exact Hswap | exact Hinv4]|]. split.
           ++ unfold fmin. destruct (Qltb r r'); [|exact Hr'].
              destruct Hr as [Hr|Hr]; [left; exact Hr|]. right.
              eapply Qle_trans; [exact Hm4 | exact Hr].
           ++ rewrite <- Hl2. eapply Qle_trans; [exact Hm4 | exact Hm3].
        -- apply orb_false_iff in Emore. destruct Emore as (Emore & E3).
           apply orb_false_iff in Emore. destruct Emore as (Eco & E2).
           apply negb_false_iff in Eco. apply Qltb_ge in E2, E3.
           destruct Hr as [Hr|Hr]; [exfalso; apply (Qlt_not_le _ _ Hr); exact E2|].
           eexists _, _. split; [reflexivity|]. split.
           ++ eapply ray_inv_perm; [exact Hswap|].
              apply ray_inv_skip; [exact Hinv3 | intros Hco; congruence |].
              intros o ob Hin Hob Hge.
              eapply Qle_trans; [exact Hr|]. eapply Qle_trans; [exact E3|].
              apply (entered_subtree s tl o ob Hcl Hokl Hin Hob Hge).
           ++ split; [right; exact Hr|]. rewrite <- Hl2. exact Hm3.
    + (* only the first box *)
      apply Qle_bool_false in E1.
      destruct (IH tl l2 V Hsl Hcl Hokl ltac:(lia) ltac:(lia) Hinv2)
        as (r & l3 & Hrun & Hinv3 & Hr & Hm3).
      rewrite Hrun. eexists _, _. split; [reflexivity|].
      split; [apply ray_inv_missed; assumption|].
      split; [exact Hr|]. rewrite <- Hl2. exact Hm3.
    + (* only the second box *)
      apply Qle_bool_false in E0.
      destruct (IH tr l2 V Hsr Hcr Hokr ltac:(lia) ltac:(lia) Hinv2)
        as (r & l3 & Hrun & Hinv3 & Hr & Hm3).
      rewrite Hrun. eexists _, _. split; [reflexivity|]. split.
      * eapply ray_inv_perm; [|apply (ray_inv_missed co s _ tl l3 Hsl Hcl Hokl E0 Hinv3)].
        rewrite <- !app_assoc. apply Permutation_app_head. apply Permutation_app_comm.
      * split; [exact Hr|]. rewrite <- Hl2. exact Hm3.
    + (* neither *)
      apply Qle_bool_false in E0, E1.
      eexists _, _. split; [reflexivity|]. split.
      * apply ray_inv_missed; [assumption..|]. apply ray_inv_missed; assumption.
      * split; [left; reflexivity|]. rewrite Hl2. apply Qle_refl.
Qed.

(** With ids that fit an [int], [QueryDebug] agrees with brute force: all
    hits are recorded when asked for, and the id returned is that of an
    object the ray enters no later than any other; none is returned exactly
    when the ray enters no object. *)
Theorem QueryDebug_fits_int (co : bool) (F : nat) (s : State) (ot : option tree) :
  bvh_repr s ot -> contained_of s ot ->
  ray_objs_ok intersect ray s (objs_of ot) ->
  (weight_of ot <= F)%nat ->
  exists res hits tested,
    QueryDebug intersect F ray co s = Ok (res, hits, tested)
    /\ ray_result_ok intersect ray co s (objs_of ot) res hits.
Proof.
  intros Hrepr Hcont Hok HF. unfold QueryDebug.
  destruct ot as [t|]; cbn [bvh_repr contained_of objs_of weight_of] in *.
  2:{ rewrite Hrepr. exists None, [], []. split; [reflexivity|].
      split; [reflexivity | reflexivity]. }
  destruct Hrepr as (Hroot & Hshape & _ & _). rewrite Hroot.
  destruct (shape_root s t Hshape) as (rn & Hrn & Hbv).
  rewrite (get_node_Some s _ rn Hrn). cbn [bindR]. rewrite Hbv.
  set (l0 := mkRayLocals (-1) FLT_MAX [] [tree_ptr t]).
  assert (Hinv0 : ray_inv intersect ray co s [] l0).
  { split; [reflexivity|]. split; [apply Qle_refl|].
    split; [intros o ob []|]. left. split; reflexivity. }
  assert (Hfinal : exists l,
    (if Qle_bool 0 (intersect ray (tree_bv t))
     then x <- QueryNodesRay intersect F F ray co s (Some (tree_ptr t)) l0 ;; Ok (snd x)
     else Ok l0) = Ok l
    /\ ray_inv intersect ray co s (tree_objs t) l).
  { destruct (Qle_bool 0 (intersect ray (tree_bv t))) eqn:Eroot.
    - destruct (QueryNodesRay_spec co s F F t l0 [] Hshape Hcont Hok)
        as (r & l & Hrun & Hinv & _); [unfold tree_weight in HF; lia ..| exact Hinv0 |].
      rewrite Hrun. cbn [bindR snd]. exists l. split; [reflexivity | exact Hinv].
    - exists l0. split; [reflexivity|]. apply Qle_bool_false in Eroot.
      apply (ray_inv_missed co s [] t l0 Hshape Hcont Hok Eroot Hinv0). }
  destruct Hfinal as (l & -> & (H1 & H2 & H3 & H4)). cbn [bindR].
  destruct H4 as [(Hc & Ht)|(o & ob & Hin & Hob & Hc & Hge & Ht)].
  - rewrite Hc. cbn. eexists _, _, _. split; [reflexivity|].
    split; [exact H1|]. apply brute_force_hits_none. intros q qb Hq Hqb.
    destruct (Qlt_le_dec (intersect ray (obj_bv qb)) 0) as [Hlt|Hge]; [exact Hlt|].
    exfalso. pose proof (H3 q qb Hq Hqb Hge) as Hle. rewrite Ht in Hle.
    destruct (Hok q qb Hq Hqb) as (_ & Hfl & _). apply (Qlt_not_le _ _ Hfl). exact Hle.
  - destruct (Hok o ob Hin Hob) as (Hid & _ & _).
    rewrite to_int_small in Hc by exact Hid. rewrite Hc.
    destruct (obj_id ob <? 0)%Z eqn:Eneg; [apply Z.ltb_lt in Eneg; lia|].
    eexists _, _, _. split; [reflexivity|]. split.
    + intros ->. exact (H1 eq_refl).
    + split.
      * exists o, (intersect ray (obj_bv ob)). split; [exact Hin|]. split.
        -- exists ob. auto.
        -- intros q i' t' Hq (qb & Hqb & _ & <- & Hge'). rewrite <- Ht.
           apply (H3 q qb Hq Hqb Hge').
      * intros ->. rewrite wrap32_small; [reflexivity|]. unfold INT_MAX in Hid. lia.
Qed.

End RayProofs.

(** ** The slab test enters a box no later than a box inside it *)

Lemma slab_mono st d loa hia lob hib A B :
  (loa <= lob)%Q -> (lob <= hib)%Q -> (hib <= hia)%Q ->
  slab_below A B ->
  slab_below (slab st d loa hia A) (slab st d lob hib B).
Proof.
  intros H1 H2 H3 HAB.
  destruct B as [[tminb tmaxb]|]; [|destruct (slab st d loa hia A); exact I].
  destruct A as [[tmina tmaxa]|]; [|contradiction].
  destruct HAB as (H0 & Hmin & Hmax).
  unfold slab. destruct (Qeq_bool d 0) eqn:Ed.
  - destruct (Qle_bool lob st && Qle_bool st hib) eqn:Eb; [|exact I].
    apply andb_true_iff in Eb. destruct Eb as (Eb1 & Eb2).
    apply Qle_bool_iff in Eb1, Eb2.
    assert (Ea : Qle_bool loa st && Qle_bool st hia = true).
    { apply andb_true_iff. split; apply Qle_bool_iff; lra. }
    rewrite Ea. simpl. auto.
  - apply Qeq_bool_neq in Ed.
    set (i := (/ d)%Q).
    assert (Hi : (i * d == 1)%Q) by (unfold i; rewrite Qmult_comm; apply Qmult_inv_r; exact Ed).
    unfold Qdiv. fold i.
    set (t1a := ((loa - st) * i)%Q). set (t2a := ((hia - st) * i)%Q).
    set (t1b := ((lob - st) * i)%Q). set (t2b := ((hib - st) * i)%Q).
    assert (Hlow : (fmin t1a t2a <= fmin t1b t2b)%Q
                   /\ (fmax t1b t2b <= fmax t1a t2a)%Q).
    { destruct (Qlt_le_dec 0 d) as [Hpos|Hneg].
      - assert (Hip : (0 < i)%Q) by nra.
        assert (t1a <= t1b)%Q by (unfold t1a, t1b; nra).
        assert (t1b <= t2b)%Q by (unfold t1b, t2b; nra).
        assert (t2b <= t2a)%Q by (unfold t2a, t2b; nra).
        split.
        + apply fmin_glb; (eapply Qle_trans; [apply fmin_le_l|]); lra.
        + apply fmax_lub; (eapply Qle_trans; [|apply fmax_ge_r]); lra.
      - assert (Hin : (i < 0)%Q) by nra.
        assert (t1b <= t1a)%Q by (unfold t1a, t1b; nra).
        assert (t2b <= t1b)%Q by (unfold t1b, t2b; nra).
        assert (t2a <= t2b)%Q by (unfold t2a, t2b; nra).
        split.
        + apply fmin_glb; (eapply Qle_trans; [apply fmin_le_r|]); lra.
        + apply fmax_lub; (eapply Qle_trans; [|apply fmax_ge_l]); lra. }
    destruct Hlow as (Hlo & Hhi).
    destruct (Qle_bool (fmax tminb (fmin t1b t2b)) (fmin tmaxb (fmax t1b t2b))) eqn:Eb;
      [|exact I].
    apply Qle_bool_iff in Eb.
    assert (Hmin' : (fmax tmina (fmin t1a t2a) <= fmax tminb (fmin t1b t2b))%Q).
    { apply fmax_lub.
      - eapply Qle_trans; [exact Hmin | apply fmax_ge_l].
      - eapply Qle_trans; [exact Hlo | apply fmax_ge_r]. }
    assert (Hmax' : (fmin tmaxb (fmax t1b t2b) <= fmin tmaxa (fmax t1a t2a))%Q).
    { apply fmin_glb.
      - eapply Qle_trans; [apply fmin_le_l | exact Hmax].
      - eapply Qle_trans; [apply fmin_le_r | exact Hhi]. }
    assert (Ea : Qle_bool (fmax tmina (fmin t1a t2a)) (fmin tmaxa (fmax t1a t2a)) = true).
    { apply Qle_bool_iff. lra. }
    rewrite Ea. simpl. split; [|split; assumption].
    eapply Qle_trans; [exact H0 | apply fmax_ge_l].
Qed.

(** The slab test of the spec enters a box no later than a box inside it. *)
Lemma ray_intersect_mono (r : Ray) (a b : Aabb) :
  valid_box b -> encloses a b -> (0 <= ray_intersect r b)%Q ->
  (0 <= ray_intersect r a)%Q /\ (ray_intersect r a <= ray_intersect r b)%Q.
Proof.
  intros (Vx & Vy & Vz) ((Lx & Ly & Lz) & (Ux & Uy & Uz)) Hb.
  unfold ray_intersect in *.
  set (st := ray_start r) in *. set (d := ray_dir r) in *.
  assert (H : slab_below
                (slab (vz st) (vz d) (vz (bmin a)) (vz (bmax a))
                   (slab (vy st) (vy d) (vy (bmin a)) (vy (bmax a))
                      (slab (vx st) (vx d) (vx (bmin a)) (vx (bmax a)) (Some (0%Q, FLT_MAX)))))
                (slab (vz st) (vz d) (vz (bmin b)) (vz (bmax b))
                   (slab (vy st) (vy d) (vy (bmin b)) (vy (bmax b))
                      (slab (vx st) (vx d) (vx (bmin b)) (vx (bmax b)) (Some (0%Q, FLT_MAX)))))).
  { apply slab_mono; [assumption..|]. apply slab_mono; [assumption..|].
    apply slab_mono; [assumption..|]. simpl. split; [apply Qle_refl|].
    split; apply Qle_refl. }
  destruct (slab (vz st) (vz d) (vz (bmin b)) (vz (bmax b)) _) as [[tminb tmaxb]|].
  - destruct (slab (vz st) (vz d) (vz (bmin a)) (vz (bmax a)) _) as [[tmina tmaxa]|];
      [|contradiction].
    destruct H as (H0 & H1 & _). split; assumption.
  - exfalso. apply (Qlt_not_le (-1) 0); [reflexivity | exact Hb].
Qed.

(** The ray along x through the four boxes of the manual-insert scene: the
    closest box is the one with id 0. *)
Lemma QueryDebug_fits_int_witness :
  exists res hits tested,
    QueryDebug ray_intersect 20 along_x true (inserted 4) = Ok (res, hits, tested)
    /\ ray_result_ok ray_intersect along_x true (inserted 4) [0; 1; 3; 2]%nat res hits.
Proof.
  apply (QueryDebug_fits_int ray_intersect along_x (ray_intersect_mono along_x)
           true 20 (inserted 4) (Some inserted4_tree) inserted4_repr inserted4_contained).
  - intros o ob Hin Hob. cbn [objs_of] in Hin.
    change (tree_objs inserted4_tree) with [0; 1; 3; 2]%nat in Hin.
    destruct Hin as [<-|[<-|[<-|[<-|[]]]]]; vm_compute in Hob; injection Hob as <-;
      (split; [vm_compute; split; discriminate|]);
      (split; [vm_compute; reflexivity|]);
      repeat split; vm_compute; discriminate.
  - vm_compute. lia.
Defined.

(** * [AddObject] where it does what it is meant to *)

(** An object that already belongs to the node: nothing happens. *)
Theorem AddObject_same_node (this : nptr) (o : optr) (ob : Object) (s : State) :
  objects s !! o = Some ob -> node (bvhInfo ob) = Some this ->
  AddObject this (Some o) s = Ok s.
Proof.
  intros Hob Hnode. unfold AddObject.
  rewrite (get_obj_Some s o ob Hob). cbn [bindR].
  destruct (decide (node (bvhInfo ob) = Some this)) as [_|Hne]; [reflexivity|].
  contradiction.
Qed.

Lemma AddObject_same_node_witness :
  AddObject 0 (Some 0%nat) (inserted 1) = Ok (inserted 1).
Proof.
  eapply (AddObject_same_node 0 0%nat _ (inserted 1)).
  - vm_compute. reflexivity.
  - reflexivity.
Defined.

(** An object that belongs to no node, added to a leaf: the list of the
    leaf grows by it at the end, linked both ways, with the back pointer of
    the object on the leaf; no other node and no object outside the list
    changes. *)
Theorem AddObject_unlinked_appends
    (s : State) (leaf : nptr) (b : Aabb) (os : list optr) (o : optr) :
  nodes s !! leaf = Some (mkNode b (None, None) (head os) (last os)) ->
  olist s leaf None os -> NoDup os -> ~ In o os -> unlinked s o ->
  exists s',
    AddObject leaf (Some o) s = Ok s'
    /\ nodes s' !! leaf = Some (mkNode b (None, None) (head (os ++ [o])) (Some o))
    /\ olist s' leaf None (os ++ [o])
    /\ (forall q, q <> leaf -> nodes s' !! q = nodes s !! q)
    /\ (forall q, q <> o -> ~ In q os -> objects s' !! q = objects s !! q).
Proof.
  intros Hn Hol Hnd Hnin (ob & Hob & Hfresh).
  destruct (AddObject_leaf_snoc s leaf b os o ob Hn Hol Hnd Hnin Hob Hfresh)
    as (s' & Hrun & Hnodes & Hol' & Hother & _).
  exists s'. split; [exact Hrun|]. rewrite Hnodes. split.
  { rewrite lookup_insert_eq, last_snoc. reflexivity. }
  split; [exact Hol'|]. split; [|exact Hother].
  intros q Hq. rewrite lookup_insert_ne by congruence. reflexivity.
Qed.

Lemma AddObject_unlinked_appends_witness :
  exists s',
    AddObject 0 (Some 1%nat) (inserted 1) = Ok s'
    /\ nodes s' !! 0%nat
       = Some (mkNode (box 0 0 0 1 1 1) (None, None) (Some 0%nat) (Some 1%nat))
    /\ olist s' 0 None [0; 1]%nat.
Proof.
  destruct (AddObject_unlinked_appends (inserted 1) 0 (box 0 0 0 1 1 1) [0%nat] 1%nat)
    as (s' & Hrun & Hnode & Hol & _).
  - vm_compute. reflexivity.
  - split; [vm_compute; reflexivity | exact I].
  - apply NoDup_singleton.
  - intros [H|[]]. discriminate H.
  - eexists. split; [vm_compute; reflexivity | reflexivity].
  - exists s'. split; [exact Hrun|]. split; [exact Hnode | exact Hol].
Defined.

(** * Trees after an edit, trees of a top-down build *)

(** ** Depth and size in a context *)

Lemma tree_size_pos t : (1 <= tree_size t)%Z.
Proof. induction t; simpl; lia. Qed.

Lemma tree_size_nodes t : tree_size t = Z.of_nat (length (tree_nodes t)).
Proof.
  induction t as [p b os|p b l IHl r IHr]; simpl; [reflexivity|].
  rewrite length_app. lia.
Qed.

Lemma depth_plug_step c :
  forall sub sub',
  (tree_depth sub <= tree_depth sub' <= tree_depth sub + 1)%Z ->
  (tree_depth (plug c sub) <= tree_depth (plug c sub') <= tree_depth (plug c sub) + 1)%Z.
Proof.
  induction c as [|[p b hl sib] c IH]; intros sub sub' H; [exact H|].
  simpl. apply IH. destruct hl; simpl; lia.
Qed.

Lemma depth_plug_same c :
  forall sub sub', tree_depth sub' = tree_depth sub ->
                   tree_depth (plug c sub') = tree_depth (plug c sub).
Proof.
  induction c as [|[p b hl sib] c IH]; intros sub sub' H; [exact H|].
  simpl. apply IH. destruct hl; simpl; lia.
Qed.

Lemma size_plug_step c :
  forall sub sub' k, tree_size sub' = (tree_size sub + k)%Z ->
                     tree_size (plug c sub') = (tree_size (plug c sub) + k)%Z.
Proof.
  induction c as [|[p b hl sib] c IH]; intros sub sub' k H; [exact H|].
  simpl. apply IH. destruct hl; simpl; lia.
Qed.

Lemma depth_plug_grow obv c :
  forall sub, tree_depth (plug (map (grow obv) c) sub) = tree_depth (plug c sub).
Proof.
  induction c as [|[p b hl sib] c IH]; intros sub; [reflexivity|].
  cbn [map plug]. rewrite IH. apply depth_plug_same. destruct hl; reflexivity.
Qed.

Lemma size_plug_grow obv c :
  forall sub, tree_size (plug (map (grow obv) c) sub) = tree_size (plug c sub).
Proof.
  induction c as [|[p b hl sib] c IH]; intros sub; [reflexivity|].
  cbn [map plug]. rewrite IH.
  rewrite (size_plug_step c (plug1 (Frame p b hl sib) sub)
             (plug1 (grow obv (Frame p b hl sib)) sub) 0); [lia|].
  destruct hl; simpl; lia.
Qed.

(** An edit of [Insert] keeps the nodes of the tree, or adds two; the depth
    grows by one at most. *)
Lemma edit_depth_size o obv fresh t t' :
  insert_edit o obv fresh t t' ->
  (tree_size t' = tree_size t /\ tree_depth t' = tree_depth t)
  \/ (tree_size t' = tree_size t + 2
      /\ tree_depth t <= tree_depth t' <= tree_depth t + 1)%Z.
Proof.
  intros [c lp lb los|c sub hl].
  - left. rewrite size_plug_grow, depth_plug_grow. split.
    + rewrite (size_plug_step c (TLeaf lp lb los) _ 0); [lia | reflexivity].
    + apply depth_plug_same. reflexivity.
  - right. rewrite size_plug_grow, depth_plug_grow. split.
    + apply size_plug_step. destruct hl; simpl; lia.
    + apply depth_plug_step. pose proof (tree_depth_nonneg sub).
      destruct hl; simpl; lia.
Qed.

(** ** Leaves with members *)

Lemma leaves_nonempty_plug c :
  forall sub, leaves_nonempty (plug c sub)
              <-> leaves_nonempty sub
                  /\ Forall (fun f => leaves_nonempty (frame_sib f)) c.
Proof.
  induction c as [|[p b hl sib] c IH]; intros sub; simpl.
  - split; [intros H; split; [exact H | constructor] | tauto].
  - rewrite IH, Forall_cons. destruct hl; simpl; tauto.
Qed.

Lemma Forall_sib_grow (P : tree -> Prop) obv c :
  Forall (fun f => P (frame_sib f)) c ->
  Forall (fun f => P (frame_sib f)) (map (grow obv) c).
Proof.
  induction 1 as [|[p b hl sib] c H _ IH]; simpl; constructor; assumption.
Qed.

Lemma edit_leaves_nonempty o obv fresh t t' :
  insert_edit o obv fresh t t' -> leaves_nonempty t -> leaves_nonempty t'.
Proof.
  intros [c lp lb los|c sub hl] H; apply leaves_nonempty_plug in H;
    destruct H as (Hs & Hc); apply leaves_nonempty_plug;
    (split; [|apply Forall_sib_grow; exact Hc]).
  - simpl. intros Heq. apply app_eq_nil in Heq. destruct Heq as [_ Heq]. discriminate Heq.
  - destruct hl; simpl; (split; [assumption || discriminate | assumption || discriminate]).
Qed.

(** ** Least boxes *)

Lemma obj_enclosed_mono s B B' o :
  encloses B' B -> obj_enclosed s B o -> obj_enclosed s B' o.
Proof.
  unfold obj_enclosed. intros H. destruct (objects s !! o); [|auto].
  intros H1. eapply encloses_trans; eassumption.
Qed.

Lemma least_box_perm s b os os' :
  Permutation os os' -> least_box s b os -> least_box s b os'.
Proof.
  intros Hp (H1 & H2). split.
  - rewrite <- Hp. exact H1.
  - intros B HB. apply H2. rewrite Hp. exact HB.
Qed.

Lemma tight_frame s s' t :
  (forall q, In q (tree_objs t) ->
             obj_bv <$> objects s' !! q = obj_bv <$> objects s !! q) ->
  tight s t -> tight s' t.
Proof.
  induction t as [p b os|p b l IHl r IHr]; simpl; intros Hf H.
  - intros B HB. apply H. apply List.Forall_forall. intros o Ho.
    rewrite List.Forall_forall in HB.
    apply (obj_enclosed_frame s' s); [symmetry; apply Hf; exact Ho | apply HB; exact Ho].
  - destruct H as (H1 & H2 & H3). split; [exact H1|]. split.
    + apply IHl; [|exact H2]. intros q Hq. apply Hf. apply in_or_app. left. exact Hq.
    + apply IHr; [|exact H3]. intros q Hq. apply Hf. apply in_or_app. right. exact Hq.
Qed.

Lemma tight_plug s c :
  forall sub, tight s (plug c sub) <-> tight s sub /\ ctx_tight s c (tree_bv sub).
Proof.
  induction c as [|f c IH]; intros sub; simpl; [tauto|].
  rewrite IH, tree_bv_plug1.
  destruct f as [p b [|] sib]; simpl; [tauto|].
  split.
  - intros ((H1 & H2 & H3) & H4).
    split; [exact H3|]. split; [intros B Ha Hb; apply H1; assumption|].
    split; assumption.
  - intros (H1 & H2 & H3 & H4).
    split; [|exact H4]. split; [intros B Ha Hb; apply H2; assumption|].
    split; assumption.
Qed.

Lemma ctx_tight_grow s s' obv c :
  forall hb,
  (forall o, In o (ctx_objs c) ->
             obj_bv <$> objects s' !! o = obj_bv <$> objects s !! o) ->
  ctx_tight s c hb ->
  ctx_tight s' (map (grow obv) c) (Aabb_merge hb obv).
Proof.
  induction c as [|[p b hl sib] c IH]; intros hb Hf H; simpl; [exact I|].
  destruct H as (H1 & H2 & H3).
  split; [|split].
  - intros B HB Hsib. apply Aabb_merge_lub.
    + apply H1; [|exact Hsib]. eapply encloses_trans; [exact HB | apply Aabb_merge_l].
    + eapply encloses_trans; [exact HB | apply Aabb_merge_r].
  - eapply tight_frame; [|exact H2]. intros o Ho. apply Hf. simpl.
    apply in_or_app. left. exact Ho.
  - apply IH; [|exact H3]. intros o Ho. apply Hf. simpl.
    apply in_or_app. right. exact Ho.
Qed.

(** An edit of [Insert] keeps every box the least one. *)
Lemma edit_tight s s' o ob fresh t t' :
  insert_edit o (obj_bv ob) fresh t t' ->
  objects s' !! o = Some ob ->
  (forall q, In q (tree_objs t) ->
             obj_bv <$> objects s' !! q = obj_bv <$> objects s !! q) ->
  tight s t -> tight s' t'.
Proof.
  intros He Hob Hf Ht.
  assert (Ho : forall B, Forall (obj_enclosed s' B) [o] -> encloses B (obj_bv ob)).
  { intros B HB. apply Forall_cons in HB. destruct HB as (HB & _).
    unfold obj_enclosed in HB. rewrite Hob in HB. exact HB. }
  destruct He as [c lp lb los|c sub hl].
  - apply tight_plug in Ht. destruct Ht as (Hl & Hc). apply tight_plug. split.
    + simpl in Hl |- *. intros B HB. apply Forall_app in HB. destruct HB as (HB1 & HB2).
      apply Aabb_merge_lub; [|apply Ho; exact HB2].
      apply Hl. apply List.Forall_forall. intros q Hq.
      rewrite List.Forall_forall in HB1.
      apply (obj_enclosed_frame s' s); [|apply HB1; exact Hq].
      symmetry. apply Hf. rewrite tree_objs_plug. apply in_or_app. right. exact Hq.
    + simpl. apply (ctx_tight_grow s s'); [|exact Hc].
      intros q Hq. apply Hf. rewrite tree_objs_plug. apply in_or_app. left. exact Hq.
  - apply tight_plug in Ht. destruct Ht as (Hs & Hc). apply tight_plug. split.
    + assert (Hs' : tight s' sub).
      { eapply tight_frame; [|exact Hs]. intros q Hq. apply Hf.
        rewrite tree_objs_plug. apply in_or_app. right. exact Hq. }
      destruct hl; simpl; (split; [|split; assumption]);
        intros B H1 H2; apply Aabb_merge_lub; assumption.
    + rewrite tree_bv_plug1. apply (ctx_tight_grow s s'); [|exact Hc].
      intros q Hq. apply Hf. rewrite tree_objs_plug. apply in_or_app. left. exact Hq.
Qed.

Lemma bounds_exactly_root s t :
  bounds_exactly s t -> least_box s (tree_bv t) (tree_objs t).
Proof. destruct t; simpl; tauto. Qed.

(** Containment and tightness together: every box is the least one around
    the objects below it. *)
Lemma contained_tight_exact s t :
  contained s t -> tight s t -> bounds_exactly s t.
Proof.
  induction t as [p b os|p b l IHl r IHr]; simpl.
  - intros Hc Ht. split; assumption.
  - intros (Hl & Hr & Hcl & Hcr) (Hlub & Htl & Htr).
    specialize (IHl Hcl Htl). specialize (IHr Hcr Htr).
    split; [|split; assumption]. split.
    + apply Forall_app. split; apply List.Forall_forall; intros o Ho.
      * eapply obj_enclosed_mono; [exact Hl|]. apply contained_objs; assumption.
      * eapply obj_enclosed_mono; [exact Hr|]. apply contained_objs; assumption.
    + intros B HB. apply Forall_app in HB. destruct HB as (HB1 & HB2).
      apply Hlub.
      * apply (proj2 (bounds_exactly_root s l IHl)). exact HB1.
      * apply (proj2 (bounds_exactly_root s r IHr)). exact HB2.
Qed.

Lemma bounds_exactly_tight s t : bounds_exactly s t -> tight s t /\ contained s t.
Proof.
  induction t as [p b os|p b l IHl r IHr]; simpl.
  - intros (H1 & H2). split; assumption.
  - intros ((H1 & H2) & Hl & Hr).
    destruct (IHl Hl) as (Htl & Hcl). destruct (IHr Hr) as (Htr & Hcr).
    destruct (bounds_exactly_root s l Hl) as (Hel & Hll).
    destruct (bounds_exactly_root s r Hr) as (Her & Hlr).
    apply Forall_app in H1. destruct H1 as (H1l & H1r).
    split.
    + split; [|split; assumption]. intros B HBl HBr. apply H2. apply Forall_app. split.
      * eapply Forall_impl; [exact Hel|]. intros o. apply obj_enclosed_mono. exact HBl.
      * eapply Forall_impl; [exact Her|]. intros o. apply obj_enclosed_mono. exact HBr.
    + split; [apply Hll; exact H1l|]. split; [apply Hlr; exact H1r|]. split; assumption.
Qed.

(** ** The tree of a top-down build *)

Lemma top_down_exact config s L D os t :
  top_down config s L D os t -> bounds_exactly s t.
Proof.
  induction 1 as [L D p b os Hne Hlb Hstop
                 |L D p b l r os os1 os2 Hlb Hmin Hvol HL Hperm Hlen Hkey Hl IHl Hr IHr].
  - exact Hlb.
  - simpl. split; [|split; assumption].
    eapply least_box_perm; [|exact Hlb].
    rewrite (top_down_objs _ _ _ _ _ _ Hl), (top_down_objs _ _ _ _ _ _ Hr). exact Hperm.
Qed.

Lemma top_down_nonempty config s L D os t :
  (0 <= minObjects config)%Z -> top_down config s L D os t -> os <> [].
Proof.
  intros Hmin [L' D' p b os' Hne _ _|L' D' p b l r os' os1 os2 _ Hc _ _ _ _ _ _ _];
    [exact Hne|].
  intros ->. simpl in Hc. lia.
Qed.

Lemma top_down_leaves config s L D os t :
  top_down config s L D os t -> leaves_nonempty t.
Proof.
  induction 1 as [L D p b os Hne Hlb Hstop
                 |L D p b l r os os1 os2 Hlb Hmin Hvol HL Hperm Hlen Hkey Hl IHl Hr IHr];
    simpl; auto.
Qed.

(** No node sits below the level [maxDepth]. *)
Lemma top_down_max_depth config s L D os t :
  top_down config s L D os t -> (Z.of_nat L <= maxDepth config)%Z ->
  (Z.of_nat L + tree_depth t <= maxDepth config)%Z.
Proof.
  induction 1 as [L D p b os Hne Hlb Hstop
                 |L D p b l r os os1 os2 Hlb Hmin Hvol HL Hperm Hlen Hkey Hl IHl Hr IHr];
    intros HLm; simpl; [lia|].
  specialize (IHl ltac:(lia)). specialize (IHr ltac:(lia)). lia.
Qed.

Lemma log2_up_half n : (2 <= n)%nat -> (S (Nat.log2_up (n - Nat.div2 n)) <= Nat.log2_up n)%nat.
Proof.
  intros Hn.
  assert (Hk : (1 <= Nat.log2_up n)%nat).
  { pose proof (Nat.log2_up_pos n). lia. }
  destruct (Nat.log2_up n) as [|k] eqn:E; [lia|].
  apply le_n_S.
  assert (Hle : (n <= 2 ^ S k)%nat).
  { rewrite <- E. apply Nat.log2_up_spec. lia. }
  assert (Hhalf : (n - Nat.div2 n <= 2 ^ k)%nat).
  { rewrite Nat.pow_succ_r' in Hle.
    pose proof (Nat.div2_odd n) as Hodd. destruct (Nat.odd n); simpl in Hodd; lia. }
  apply Nat.log2_up_le_pow2; [|exact Hhalf].
  pose proof (Nat.lt_div2 n). lia.
Qed.

Lemma log2_up_div2 n : (2 <= n)%nat -> (S (Nat.log2_up (Nat.div2 n)) <= Nat.log2_up n)%nat.
Proof.
  intros Hn. etransitivity; [|apply log2_up_half; exact Hn].
  apply le_n_S. apply Nat.log2_up_le_mono.
  pose proof (Nat.div2_odd n) as Hodd. destruct (Nat.odd n); simpl in Hodd; lia.
Qed.

(** Below 2^24 objects every range is halved, which keeps the tree as
    shallow as the logarithm of the number of objects. *)
Lemma top_down_log_depth config s L D os t :
  (0 <= minObjects config)%Z -> (Z.of_nat (length os) < 16777216)%Z ->
  top_down config s L D os t ->
  (tree_depth t <= Z.of_nat (Nat.log2_up (length os)))%Z.
Proof.
  intros Hmin Hsmall Htd. revert Hsmall.
  induction Htd as [L D p b os Hne Hlb Hstop
                   |L D p b l r os os1 os2 Hlb Hcnt Hvol HL Hperm Hlen Hkey Hl IHl Hr IHr];
    intros Hsmall.
  - simpl. lia.
  - simpl.
    pose proof (top_down_nonempty _ _ _ _ _ _ Hmin Hl) as Hne1.
    rewrite (half_size_small _ Hsmall) in Hlen. injection Hlen as Hlen.
    assert (Hlen2 : length os2 = (length os - Nat.div2 (length os))%nat).
    { apply Permutation_length in Hperm. rewrite length_app in Hperm. lia. }
    assert (H2 : (2 <= length os)%nat).
    { destruct os1; [congruence|]. simpl in Hlen.
      destruct (length os) as [|[|m]]; simpl in Hlen; [discriminate | discriminate | lia]. }
    pose proof (log2_up_half _ H2) as Hh. pose proof (log2_up_div2 _ H2) as Hd.
    pose proof (Nat.lt_div2 (length os)) as Hlt.
    specialize (IHl ltac:(lia)). specialize (IHr ltac:(lia)).
    rewrite <- Hlen in IHl. rewrite Hlen2 in IHr. lia.
Qed.

(** * The level-order walks *)

(** ** Levels of trees and of queues of trees *)

Lemma tree_level_S k t : tree_level (S k) t = forest_level k (kids t).
Proof.
  destruct t as [p b os|p b l r]; unfold forest_level; simpl; [reflexivity|].
  rewrite app_nil_r. reflexivity.
Qed.

Lemma forest_level_0 q : forest_level 0 q = q.
Proof.
  unfold forest_level. induction q as [|t q IH]; simpl; [reflexivity|].
  f_equal. exact IH.
Qed.

Lemma forest_level_app k a b :
  forest_level k (a ++ b) = forest_level k a ++ forest_level k b.
Proof. unfold forest_level. apply flat_map_app. Qed.

Lemma forest_level_S k q : forest_level (S k) q = forest_level k (flat_map kids q).
Proof.
  induction q as [|t q IH]; [reflexivity|].
  change (forest_level (S k) (t :: q)) with (tree_level (S k) t ++ forest_level (S k) q).
  cbn [flat_map]. rewrite forest_level_app, IH, tree_level_S. reflexivity.
Qed.

Lemma forest_order_S n q :
  forest_order (S n) q = q ++ forest_order n (flat_map kids q).
Proof.
  unfold forest_order. rewrite <- cons_seq. cbn [flat_map].
  rewrite forest_level_0. f_equal.
  rewrite <- seq_shift. rewrite flat_map_concat_map, map_map, <- flat_map_concat_map.
  apply flat_map_ext. intros k. apply forest_level_S.
Qed.

Lemma forest_nodes_kids q :
  Permutation (forest_nodes q) (map tree_ptr q ++ forest_nodes (flat_map kids q)).
Proof.
  induction q as [|t q IH]; [reflexivity|].
  rewrite forest_nodes_cons. cbn [map flat_map]. rewrite forest_nodes_app, IH.
  destruct t as [p b os|p b l r]; simpl.
  - reflexivity.
  - apply perm_skip. unfold forest_nodes at 2. simpl. rewrite app_nil_r.
    rewrite !app_assoc. apply Permutation_app_tail.
    rewrite Permutation_app_comm. rewrite !app_assoc. reflexivity.
Qed.

Lemma forest_objs_kids q :
  Permutation (forest_objs q) (flat_map leaf_objs q ++ forest_objs (flat_map kids q)).
Proof.
  induction q as [|t q IH]; [reflexivity|].
  rewrite forest_objs_cons. cbn [flat_map]. rewrite forest_objs_app, IH.
  destruct t as [p b os|p b l r]; simpl.
  - rewrite app_assoc. reflexivity.
  - unfold forest_objs at 2. simpl. rewrite app_nil_r.
    rewrite !app_assoc. apply Permutation_app_tail.
    rewrite Permutation_app_comm. rewrite !app_assoc. reflexivity.
Qed.

Lemma level_order_forest t : level_order t = forest_order (length (tree_nodes t)) [t].
Proof.
  unfold level_order, forest_order. apply flat_map_ext. intros k.
  unfold forest_level. simpl. rewrite app_nil_r. reflexivity.
Qed.

(** Beyond the last level the walk adds nothing, so any bound on the number
    of nodes will do. *)
Lemma forest_order_nodes :
  forall n q, (length (forest_nodes q) <= n)%nat ->
              Permutation (map tree_ptr (forest_order n q)) (forest_nodes q).
Proof.
  induction n as [|n IH]; intros q Hn.
  - destruct q as [|t q]; [reflexivity|].
    rewrite forest_nodes_cons, length_app in Hn. destruct t; simpl in Hn; lia.
  - rewrite forest_order_S, map_app. rewrite (forest_nodes_kids q).
    apply Permutation_app_head. apply IH.
    pose proof (Permutation_length (forest_nodes_kids q)) as Hl.
    rewrite length_app, length_map in Hl.
    destruct q as [|t q]; [unfold forest_nodes; simpl; lia|]. cbn [length] in Hl. lia.
Qed.

Lemma forest_order_objs :
  forall n q, (length (forest_nodes q) <= n)%nat ->
              Permutation (flat_map leaf_objs (forest_order n q)) (forest_objs q).
Proof.
  induction n as [|n IH]; intros q Hn.
  - destruct q as [|t q]; [reflexivity|].
    rewrite forest_nodes_cons, length_app in Hn. destruct t; simpl in Hn; lia.
  - rewrite forest_order_S, flat_map_app. rewrite (forest_objs_kids q).
    apply Permutation_app_head. apply IH.
    pose proof (Permutation_length (forest_nodes_kids q)) as Hl.
    rewrite length_app, length_map in Hl.
    destruct q as [|t q]; [unfold forest_nodes; simpl; lia|]. cbn [length] in Hl. lia.
Qed.

Lemma forest_nodes_one t : forest_nodes [t] = tree_nodes t.
Proof. unfold forest_nodes. simpl. apply app_nil_r. Qed.

Lemma forest_objs_one t : forest_objs [t] = tree_objs t.
Proof. unfold forest_objs. simpl. apply app_nil_r. Qed.

(** Every node comes once in the level order, every object too. *)
Lemma level_order_nodes t : Permutation (map tree_ptr (level_order t)) (tree_nodes t).
Proof.
  rewrite level_order_forest, <- forest_nodes_one. apply forest_order_nodes.
  rewrite forest_nodes_one. lia.
Qed.

Lemma level_order_objs_perm t : Permutation (level_order_objs t) (tree_objs t).
Proof.
  unfold level_order_objs. rewrite level_order_forest, <- forest_objs_one.
  apply forest_order_objs. rewrite forest_nodes_one. lia.
Qed.

Lemma nshape_kids s t : nshape s t -> Forall (nshape s) (kids t).
Proof.
  destruct t as [p b os|p b l r]; simpl; [constructor|].
  intros (_ & Hl & Hr). repeat constructor; assumption.
Qed.

Lemma shape_kids s t : shape s t -> Forall (shape s) (kids t).
Proof.
  destruct t as [p b os|p b l r]; simpl; [constructor|].
  intros (_ & Hl & Hr). repeat constructor; assumption.
Qed.

Lemma Forall_flat_map_kids (P : tree -> Prop) q :
  (forall t, P t -> Forall P (kids t)) -> Forall P q -> Forall P (flat_map kids q).
Proof.
  intros H. induction 1 as [|t q Ht _ IH]; simpl; [constructor|].
  apply Forall_app. split; [apply H; exact Ht | exact IH].
Qed.

(** ** [TraverseLevelOrder] with a lambda that leaves the heap alone *)

Section PureWalk.

Context {X : Type}.
Variable s : State.
Variable func : nptr -> State * X -> Res (State * X).
Variable g : nptr -> X -> X.

(** The queue after a node of the tree has been taken off it. *)
Lemma queue_step t (queue : list tree) n :
  nshape s t -> nodes s !! tree_ptr t = Some n ->
  (match child n 1 with
   | Some c => (match child n 0 with
                | Some c => map tree_ptr queue ++ [c]
                | None => map tree_ptr queue
                end) ++ [c]
   | None => (match child n 0 with
              | Some c => map tree_ptr queue ++ [c]
              | None => map tree_ptr queue
              end)
   end) = map tree_ptr (queue ++ kids t).
Proof.
  destruct t as [p b os | p b l r]; simpl; intros Ht Hn.
  - destruct Ht as (n' & Hn' & Hch). rewrite Hn in Hn'. injection Hn' as <-.
    unfold child. rewrite Hch. simpl. rewrite app_nil_r. reflexivity.
  - destruct Ht as ((n' & Hn' & Hch) & _). rewrite Hn in Hn'. injection Hn' as <-.
    unfold child. rewrite Hch. simpl. rewrite map_app, <- app_assoc. reflexivity.
Qed.

Lemma nshape_root t : nshape s t -> exists n, nodes s !! tree_ptr t = Some n.
Proof. destruct t; simpl; [intros (n & H & _) | intros ((n & H & _) & _)]; eauto. Qed.

(** The walk takes the trees at the front of the queue one by one and puts
    their children at the back. *)
Lemma TraverseLevelOrder_front :
  forall a b x fuel,
  Forall (nshape s) a ->
  (forall t y, In t a -> func (tree_ptr t) (s, y) = Ok (s, g (tree_ptr t) y)) ->
  TraverseLevelOrder_loop func (length a + fuel) (map tree_ptr (a ++ b)) (s, x)
  = TraverseLevelOrder_loop func fuel (map tree_ptr (b ++ flat_map kids a))
      (s, fold_left (visit g) a x).
Proof.
  induction a as [|t a IH]; intros b x fuel Hs Hf.
  - simpl. rewrite app_nil_r. reflexivity.
  - apply Forall_cons in Hs. destruct Hs as (Ht & Hs).
    destruct (nshape_root t Ht) as [n Hn].
    cbn [length Nat.add app map TraverseLevelOrder_loop fst].
    rewrite (get_node_Some _ _ _ Hn). cbn [bindR].
    rewrite (queue_step t (a ++ b) n Ht Hn).
    rewrite (Hf t x (or_introl eq_refl)). cbn [bindR].
    rewrite <- app_assoc. rewrite (IH (b ++ kids t) (g (tree_ptr t) x) fuel Hs).
    + cbn [flat_map fold_left]. rewrite <- app_assoc. reflexivity.
    + intros t' y Hin. apply Hf. right. exact Hin.
Qed.

Lemma TraverseLevelOrder_pure :
  forall n queue x fuel,
  Forall (nshape s) queue ->
  (forall p y, In p (forest_nodes queue) -> func p (s, y) = Ok (s, g p y)) ->
  (length (forest_nodes queue) <= n)%nat ->
  (length (forest_nodes queue) <= fuel)%nat ->
  TraverseLevelOrder_loop func fuel (map tree_ptr queue) (s, x)
  = Ok (s, fold_left (visit g) (forest_order n queue) x).
Proof.
  induction n as [|n IH]; intros queue x fuel Hs Hf Hn Hfuel.
  - destruct queue as [|t queue].
    + destruct fuel; reflexivity.
    + rewrite forest_nodes_cons, length_app in Hn. destruct t; simpl in Hn; lia.
  - pose proof (forest_nodes_kids queue) as Hperm.
    pose proof (Permutation_length Hperm) as Hlen.
    rewrite length_app, length_map in Hlen.
    assert (Hfront := TraverseLevelOrder_front queue [] x (fuel - length queue) Hs).
    rewrite app_nil_r in Hfront.
    replace (length queue + (fuel - length queue))%nat with fuel in Hfront by lia.
    rewrite Hfront.
    2:{ intros t y Hin. apply Hf. eapply Permutation_in; [symmetry; exact Hperm|].
        apply in_or_app. left. apply in_map. exact Hin. }
    cbn [app]. rewrite forest_order_S, fold_left_app.
    apply IH.
    + apply Forall_flat_map_kids; [apply nshape_kids | exact Hs].
    + intros p y Hin. apply Hf. eapply Permutation_in; [symmetry; exact Hperm|].
      apply in_or_app. right. exact Hin.
    + destruct queue as [|t queue]; [unfold forest_nodes; simpl; lia|]. cbn [length] in Hlen. lia.
    + lia.
Qed.

End PureWalk.

(** ** [TraverseLevelOrderObjects] with a lambda that leaves the heap alone *)

Section PureObjectWalk.

Context {X : Type}.
Variable s : State.
Variable func : T -> State * X -> Res (State * X).
Variable g : optr -> X -> X.

Lemma walk_objects_pure leaf :
  forall os pv F x,
  olist s leaf pv os -> (length os <= F)%nat ->
  (forall o y, In o os -> func (Some o) (s, y) = Ok (s, g o y)) ->
  walk_objects func F (head os) (s, x) = Ok (s, fold_left (meet g) os x).
Proof.
  induction os as [|o rest IH]; intros pv F x Hl HF Hf.
  - simpl. destruct F; reflexivity.
  - apply olist_cons_inv in Hl. destruct Hl as (ob & Hob & Hinfo & Hrest).
    simpl in HF. destruct F as [|F]; [lia|].
    cbn [head walk_objects fst]. rewrite (get_obj_Some _ _ _ Hob). cbn [bindR].
    rewrite (Hf o x (or_introl eq_refl)). cbn [bindR]. rewrite Hinfo. cbn [next].
    rewrite (IH (Some o) F (g o x) Hrest); [reflexivity | lia |].
    intros o' y Hin. apply Hf. right. exact Hin.
Qed.

Lemma shape_root_node t :
  shape s t -> exists n, nodes s !! tree_ptr t = Some n /\ nshape s t
                         /\ IsLeaf n = match t with TLeaf _ _ _ => true | _ => false end
                         /\ (forall p b os, t = TLeaf p b os ->
                               firstObject n = head os /\ olist s p None os).
Proof.
  intros Hs. pose proof (shape_nshape s t Hs) as Hn.
  destruct t as [p b os|p b l r]; simpl in Hs.
  - destruct Hs as (Hp & Hol). eexists. split; [exact Hp|]. split; [exact Hn|].
    split; [reflexivity|]. intros p' b' os' [= <- <- <-]. split; [reflexivity | exact Hol].
  - destruct Hs as (Hp & _). eexists. split; [exact Hp|]. split; [exact Hn|].
    split; [reflexivity|]. intros p' b' os' [=].
Qed.

Lemma TraverseLevelOrderObjects_front F :
  forall a b x fuel,
  Forall (shape s) a ->
  (length (flat_map leaf_objs a) <= F)%nat ->
  (forall o y, In o (flat_map leaf_objs a) -> func (Some o) (s, y) = Ok (s, g o y)) ->
  TraverseLevelOrderObjects_loop func F (length a + fuel) (map tree_ptr (a ++ b)) (s, x)
  = TraverseLevelOrderObjects_loop func F fuel (map tree_ptr (b ++ flat_map kids a))
      (s, fold_left (meet g) (flat_map leaf_objs a) x).
Proof.
  induction a as [|t a IH]; intros b x fuel Hs HF Hf.
  - simpl. rewrite app_nil_r. reflexivity.
  - apply Forall_cons in Hs. destruct Hs as (Ht & Hs).
    destruct (shape_root_node t Ht) as (n & Hn & Hns & Hleaf & Hlist).
    cbn [length Nat.add app map TraverseLevelOrderObjects_loop fst].
    rewrite (get_node_Some _ _ _ Hn). cbn [bindR].
    rewrite (queue_step s t (a ++ b) n Hns Hn).
    cbn [flat_map] in HF, Hf. rewrite length_app in HF.
    rewrite Hleaf. destruct t as [p lb os|p nb l r]; cbn [negb leaf_objs] in *.
    + destruct (Hlist p lb os eq_refl) as (Hfirst & Hol). rewrite Hfirst.
      rewrite (walk_objects_pure p os None F x Hol); [|lia|].
      2:{ intros o y Hin. apply Hf. apply in_or_app. left. exact Hin. }
      cbn [bindR]. rewrite <- app_assoc.
      rewrite (IH (b ++ kids (TLeaf p lb os)) _ fuel Hs); [|lia|].
      2:{ intros o y Hin. apply Hf. apply in_or_app. right. exact Hin. }
      cbn [flat_map]. rewrite fold_left_app, <- app_assoc. reflexivity.
    + rewrite <- app_assoc.
      rewrite (IH (b ++ kids (TNode p nb l r)) _ fuel Hs); [|simpl in HF; lia|].
      2:{ intros o y Hin. apply Hf. exact Hin. }
      cbn [flat_map app]. rewrite <- app_assoc. reflexivity.
Qed.

Lemma TraverseLevelOrderObjects_pure F :
  forall n queue x fuel,
  Forall (shape s) queue ->
  (forall o y, In o (forest_objs queue) -> func (Some o) (s, y) = Ok (s, g o y)) ->
  (length (forest_objs queue) <= F)%nat ->
  (length (forest_nodes queue) <= n)%nat ->
  (length (forest_nodes queue) <= fuel)%nat ->
  TraverseLevelOrderObjects_loop func F fuel (map tree_ptr queue) (s, x)
  = Ok (s, fold_left (meet g) (flat_map leaf_objs (forest_order n queue)) x).
Proof.
  induction n as [|n IH]; intros queue x fuel Hs Hf HF Hn Hfuel.
  - destruct queue as [|t queue].
    + destruct fuel; reflexivity.
    + rewrite forest_nodes_cons, length_app in Hn. destruct t; simpl in Hn; lia.
  - pose proof (forest_nodes_kids queue) as Hperm.
    pose proof (Permutation_length Hperm) as Hlen.
    rewrite length_app, length_map in Hlen.
    pose proof (forest_objs_kids queue) as Hpo.
    pose proof (Permutation_length Hpo) as Hleno. rewrite length_app in Hleno.
    assert (Hfront := TraverseLevelOrderObjects_front F queue [] x
                        (fuel - length queue) Hs).
    rewrite app_nil_r in Hfront.
    replace (length queue + (fuel - length queue))%nat with fuel in Hfront by lia.
    rewrite Hfront; [|lia|].
    2:{ intros o y Hin. apply Hf. eapply Permutation_in; [symmetry; exact Hpo|].
        apply in_or_app. left. exact Hin. }
    cbn [app]. rewrite forest_order_S, flat_map_app, fold_left_app.
    apply IH.
    + apply Forall_flat_map_kids; [apply shape_kids | exact Hs].
    + intros o y Hin. apply Hf. eapply Permutation_in; [symmetry; exact Hpo|].
      apply in_or_app. right. exact Hin.
    + lia.
    + destruct queue as [|t queue]; [unfold forest_nodes; simpl; lia|]. cbn [length] in Hlen. lia.
    + lia.
Qed.

End PureObjectWalk.

(** ** The ids met on the way *)

Lemma fold_left_record (l : list tree) (acc : list nptr) :
  fold_left (visit (fun p acc => acc ++ [p])) l acc = acc ++ map tree_ptr l.
Proof.
  revert acc. induction l as [|t l IH]; intros acc; simpl.
  - rewrite app_nil_r. reflexivity.
  - rewrite IH. unfold visit. rewrite <- app_assoc. reflexivity.
Qed.

Lemma fold_left_ids s (os : list optr) (ids : list Z) :
  fold_left (meet (fun o ids => ids ++ obj_ids s [o])) os ids = ids ++ obj_ids s os.
Proof.
  revert ids. induction os as [|o os IH]; intros ids.
  - simpl. rewrite app_nil_r. reflexivity.
  - cbn [fold_left]. rewrite IH. unfold meet. rewrite <- app_assoc.
    f_equal. change (o :: os) with ([o] ++ os). rewrite obj_ids_app. reflexivity.
Qed.

Lemma retrieveIds_pure s o ids :
  is_Some (objects s !! o) ->
  retrieveIds (Some o) (s, ids) = Ok (s, ids ++ obj_ids s [o]).
Proof.
  intros [ob Hob]. unfold retrieveIds. cbn [fst snd].
  rewrite (get_obj_Some _ _ _ Hob). cbn [bindR]. simpl. rewrite Hob. reflexivity.
Qed.

(** * Ids and volumes of the objects are never written *)

Lemma same_payload_refl s : same_payload s s.
Proof. intros q. split; reflexivity. Qed.

Lemma same_payload_trans s1 s2 s3 :
  same_payload s1 s2 -> same_payload s2 s3 -> same_payload s1 s3.
Proof.
  intros H1 H2 q. destruct (H1 q) as (A1 & B1). destruct (H2 q) as (A2 & B2).
  split; congruence.
Qed.

Lemma same_payload_objects s s' : objects s' = objects s -> same_payload s s'.
Proof. intros H q. rewrite H. split; reflexivity. Qed.

Lemma upd_obj_same p f s s' :
  upd_obj p f s = Ok s' ->
  (forall o, obj_id (f o) = obj_id o) -> (forall o, obj_bv (f o) = obj_bv o) ->
  same_payload s s'.
Proof.
  intros H Hid Hbv. apply upd_obj_Ok in H. destruct H as (a & o & -> & Ho & ->).
  intros q. simpl. destruct (decide (q = a)) as [->|Hne].
  - rewrite lookup_insert_eq, Ho. simpl. rewrite Hid, Hbv. split; reflexivity.
  - rewrite lookup_insert_ne by congruence. split; reflexivity.
Qed.

Lemma upd_node_same p f s s' : upd_node p f s = Ok s' -> same_payload s s'.
Proof.
  intros H. apply upd_node_Ok in H. destruct H as (a & n & -> & _ & ->).
  apply same_payload_objects. reflexivity.
Qed.

Lemma delete_Node_same p s s' : delete_Node p s = Ok s' -> same_payload s s'.
Proof.
  destruct p as [a|]; intros H.
  - apply delete_Node_Ok in H. destruct H as (n & _ & ->).
    apply same_payload_objects. reflexivity.
  - injection H as <-. apply same_payload_refl.
Qed.

(** Turn the stores of a run into what they keep, and chain them up. *)
Ltac to_payload :=
  repeat match goal with
         | H : upd_obj _ _ _ = Ok _ |- _ =>
             apply upd_obj_same in H; [|intros []; reflexivity|intros []; reflexivity]
         | H : upd_node _ _ _ = Ok _ |- _ => apply upd_node_same in H
         | H : delete_Node _ _ = Ok _ |- _ => apply delete_Node_same in H
         end.

Ltac payload_chain :=
  repeat first [ assumption
               | apply same_payload_refl
               | eapply same_payload_trans; [eassumption|] ].

Lemma AddObject_payload this object s s' :
  AddObject this object s = Ok s' -> same_payload s s'.
Proof.
  unfold AddObject. intros H.
  res_inv; to_payload; payload_chain.
Qed.

Lemma add_objects_payload w :
  forall range s s', add_objects w range s = Ok s' -> same_payload s s'.
Proof.
  induction range as [|it range IH]; intros s s' H.
  - injection H as <-. apply same_payload_refl.
  - cbn [add_objects] in H. apply bindR_Ok in H. destruct H as (s1 & H1 & H).
    eapply same_payload_trans; [apply (AddObject_payload _ _ _ _ H1) | apply (IH _ _ H)].
Qed.

Lemma commit_path_payload :
  forall path s s', commit_path path s = Ok s' -> same_payload s s'.
Proof.
  induction path as [|nc path IH]; intros s s' H.
  - injection H as <-. apply same_payload_refl.
  - cbn [commit_path] in H. apply bindR_Ok in H. destruct H as (s1 & H1 & H).
    eapply same_payload_trans; [apply (upd_node_same _ _ _ _ H1) | apply (IH _ _ H)].
Qed.

Lemma Insert_append_payload path leaf object s s' :
  Insert_append path leaf object s = Ok s' -> same_payload s s'.
Proof.
  unfold Insert_append. intros H.
  apply bindR_Ok in H. destruct H as (s1 & H1 & H).
  destruct (nc_node leaf); [|discriminate H].
  eapply same_payload_trans;
    [apply (commit_path_payload _ _ _ H1) | apply (AddObject_payload _ _ _ _ H)].
Qed.

Lemma new_Node_payload b s : same_payload s (snd (new_Node b s)).
Proof. apply same_payload_objects. reflexivity. Qed.

Lemma Insert_create_payload path idx object s s' :
  Insert_create path idx object s = Ok s' -> same_payload s s'.
Proof.
  unfold Insert_create. intros H.
  destruct (idx <? 0)%Z; [discriminate H|].
  destruct (path !! Z.to_nat idx) as [smallest|]; [|discriminate H].
  destruct (decide (nc_node smallest = mRoot s)) as [Heq|Hne].
  - apply bindR_Ok in H. destruct H as (s1 & H1 & H).
    apply bindR_Ok in H. destruct H as (o & _ & H).
    apply bindR_Ok in H. destruct H as (s2 & H2 & H).
    apply bindR_Ok in H. destruct H as (r & _ & H).
    destruct (child r 1) as [leaf|]; [|discriminate H].
    apply AddObject_payload in H. apply upd_node_same in H1, H2.
    eapply same_payload_trans; [|exact H].
    eapply same_payload_trans; [|exact H2].
    eapply same_payload_trans; [|apply new_Node_payload].
    eapply same_payload_trans; [|exact H1].
    apply same_payload_objects. reflexivity.
  - apply bindR_Ok in H. destruct H as (s1 & H1 & H).
    destruct (idx - 1 <? 0)%Z; [discriminate H|].
    destruct (path !! Z.to_nat (idx - 1)) as [parentCost|]; [|discriminate H].
    apply bindR_Ok in H. destruct H as (pn & _ & H).
    apply bindR_Ok in H. destruct H as (s2 & H2 & H).
    apply bindR_Ok in H. destruct H as (pn2 & _ & H).
    apply bindR_Ok in H. destruct H as (s3 & H3 & H).
    apply bindR_Ok in H. destruct H as (o & _ & H).
    apply bindR_Ok in H. destruct H as (pn3 & _ & H).
    apply bindR_Ok in H. destruct H as (s4 & H4 & H).
    apply bindR_Ok in H. destruct H as (pn4 & _ & H).
    apply bindR_Ok in H. destruct H as (nn & _ & H).
    destruct (child nn _) as [leaf|]; [|discriminate H].
    apply AddObject_payload in H. apply upd_node_same in H2, H3, H4.
    apply commit_path_payload in H1.
    eapply same_payload_trans; [|exact H].
    eapply same_payload_trans; [|exact H4].
    eapply same_payload_trans; [|apply new_Node_payload].
    eapply same_payload_trans; [|exact H3].
    eapply same_payload_trans; [|exact H2].
    eapply same_payload_trans; [|apply new_Node_payload].
    exact H1.
Qed.

Lemma Insert_payload F object config s s' :
  Insert F object config s = Ok s' -> same_payload s s'.
Proof.
  unfold Insert. cbv zeta. intros H.
  change (mRoot (incr_mObjectCount s)) with (mRoot s) in H.
  assert (H0 : same_payload s (incr_mObjectCount s))
    by (apply same_payload_objects; reflexivity).
  eapply same_payload_trans; [exact H0|].
  destruct (mRoot s).
  - apply bindR_Ok in H. destruct H as (pd & _ & H).
    destruct (snd pd).
    + apply (Insert_append_payload _ _ _ _ _ H).
    + apply (Insert_create_payload _ _ _ _ _ H).
  - apply bindR_Ok in H. destruct H as (o & _ & H).
    apply AddObject_payload in H.
    eapply same_payload_trans; [|exact H]. apply same_payload_objects. reflexivity.
Qed.

Lemma Insert_range_payload F config :
  forall range s s', Insert_range F range config s = Ok s' -> same_payload s s'.
Proof.
  induction range as [|it range IH]; intros s s' H.
  - injection H as <-. apply same_payload_refl.
  - cbn [Insert_range] in H. apply bindR_Ok in H. destruct H as (s1 & H1 & H).
    eapply same_payload_trans; [apply (Insert_payload _ _ _ _ _ H1) | apply (IH _ _ H)].
Qed.

Lemma BuildTopDown_rec_payload F config :
  forall fuel range parentNode s s',
  BuildTopDown_rec F fuel range config parentNode s = Ok s' -> same_payload s s'.
Proof.
  induction fuel as [|fuel IH]; intros range parentNode s s' H.
  - destruct range as [|[b|] rest]; simpl in H; try discriminate H;
      injection H as <-; apply same_payload_refl.
  - destruct range as [|[b|] rest]; cbn [BuildTopDown_rec] in H;
      [injection H as <-; apply same_payload_refl | |
       injection H as <-; apply same_payload_refl].
    apply bindR_Ok in H. destruct H as (first & _ & H).
    apply bindR_Ok in H. destruct H as (r & _ & H).
    cbn zeta in H.
    apply bindR_Ok in H. destruct H as (s2 & H2 & H).
    assert (Hp2 : same_payload s s2).
    { destruct parentNode as [p|].
      - apply bindR_Ok in H2. destruct H2 as (pn & _ & H2).
        destruct (child pn 0).
        + destruct (child pn 1).
          * apply bindR_Ok in H2. destruct H2 as (? & _ & H2). discriminate H2.
          * apply upd_node_same in H2.
            eapply same_payload_trans; [apply new_Node_payload | exact H2].
        + apply upd_node_same in H2.
          eapply same_payload_trans; [apply new_Node_payload | exact H2].
      - injection H2 as <-. apply same_payload_objects. reflexivity. }
    eapply same_payload_trans; [exact Hp2|].
    match type of H with
    | bindR (Node_Depth _ ?st _) _ = _ =>
        assert (Hp3 : same_payload s2 st)
          by (destruct (decide _); apply same_payload_objects; reflexivity);
        set (s3 := st) in *; clearbody s3
    end.
    eapply same_payload_trans; [exact Hp3|].
    apply bindR_Ok in H. destruct H as (d & _ & H).
    apply bindR_Ok in H. destruct H as (wn & _ & H).
    destruct (_ || _ || _).
    + apply bindR_Ok in H. destruct H as (first' & _ & H).
      apply bindR_Ok in H. destruct H as (s4 & H4 & H).
      eapply same_payload_trans; [|apply (add_objects_payload _ _ _ _ H)].
      destruct (node (bvhInfo first')).
      * apply bindR_Ok in H4. destruct H4 as (s5 & H5 & H4).
        apply upd_node_same in H5, H4.
        eapply same_payload_trans; eassumption.
      * injection H4 as <-. apply same_payload_refl.
    + apply bindR_Ok in H. destruct H as (splitIndex & _ & H).
      apply bindR_Ok in H. destruct H as (sa & Ha & H).
      eapply same_payload_trans; [apply (IH _ _ _ _ Ha) | apply (IH _ _ _ _ H)].
Qed.

Lemma walk_objects_clear_payload :
  forall fuel object sx sx',
  walk_objects lamdaClearObject fuel object sx = Ok sx' ->
  same_payload (fst sx) (fst sx').
Proof.
  induction fuel as [|fuel IH]; intros object sx sx' H.
  - destruct object; simpl in H; [discriminate H|]. injection H as <-.
    apply same_payload_refl.
  - destruct object as [o|]; cbn [walk_objects] in H;
      [|injection H as <-; apply same_payload_refl].
    apply bindR_Ok in H. destruct H as (ob & _ & H).
    apply bindR_Ok in H. destruct H as (sx1 & H1 & H).
    eapply same_payload_trans; [|apply (IH _ _ _ H)].
    unfold lamdaClearObject in H1.
    apply bindR_Ok in H1. destruct H1 as (s1 & E1 & H1).
    apply bindR_Ok in H1. destruct H1 as (s2 & E2 & H1).
    apply bindR_Ok in H1. destruct H1 as (s3 & E3 & H1).
    injection H1 as <-. cbn [fst]. to_payload. payload_chain.
Qed.

Lemma TraverseLevelOrderObjects_clear_payload F :
  forall fuel queue sx sx',
  TraverseLevelOrderObjects_loop lamdaClearObject F fuel queue sx = Ok sx' ->
  same_payload (fst sx) (fst sx').
Proof.
  induction fuel as [|fuel IH]; intros queue sx sx' H.
  - destruct queue; simpl in H; [|discriminate H]. injection H as <-.
    apply same_payload_refl.
  - destruct queue as [|front queue]; cbn [TraverseLevelOrderObjects_loop] in H;
      [injection H as <-; apply same_payload_refl|].
    apply bindR_Ok in H. destruct H as (n & _ & H). cbv zeta in H.
    destruct (negb (IsLeaf n)).
    + apply (IH _ _ _ H).
    + apply bindR_Ok in H. destruct H as (sx1 & H1 & H).
      eapply same_payload_trans;
        [apply (walk_objects_clear_payload _ _ _ _ H1) | apply (IH _ _ _ H)].
Qed.

Lemma TraverseLevelOrder_clear_payload :
  forall fuel queue sx sx',
  TraverseLevelOrder_loop lamdaClearNode fuel queue sx = Ok sx' ->
  same_payload (fst sx) (fst sx').
Proof.
  induction fuel as [|fuel IH]; intros queue sx sx' H.
  - destruct queue; simpl in H; [|discriminate H]. injection H as <-.
    apply same_payload_refl.
  - destruct queue as [|front queue]; cbn [TraverseLevelOrder_loop] in H;
      [injection H as <-; apply same_payload_refl|].
    apply bindR_Ok in H. destruct H as (n & _ & H). cbv zeta in H.
    apply bindR_Ok in H. destruct H as (sx1 & H1 & H).
    eapply same_payload_trans; [|apply (IH _ _ _ H)].
    unfold lamdaClearNode in H1.
    apply bindR_Ok in H1. destruct H1 as (s1 & E1 & H1).
    injection H1 as <-. cbn [fst]. apply (delete_Node_same _ _ _ E1).
Qed.

Lemma Clear_payload F s s' : Clear F s = Ok s' -> same_payload s s'.
Proof.
  unfold Clear. intros H. destruct (mRoot s) as [r|]; [|injection H as <-; apply same_payload_refl].
  apply bindR_Ok in H. destruct H as (sx1 & H1 & H).
  apply bindR_Ok in H. destruct H as (sx2 & H2 & H).
  injection H as <-.
  apply TraverseLevelOrderObjects_clear_payload in H1.
  apply TraverseLevelOrder_clear_payload in H2. cbn [fst] in H1.
  eapply same_payload_trans; [exact H1|].
  eapply same_payload_trans; [exact H2|].
  apply same_payload_objects. reflexivity.
Qed.

(** * A build and inserts, with all that they keep *)

(** [BuildTopDown] of objects that are in no list, as the root of the tree. *)
Lemma BuildTopDown_shape F config s os :
  (1 <= minObjects config)%Z -> (0 <= maxDepth config)%Z ->
  alloc_ok s -> os <> [] -> NoDup os -> Forall (unlinked s) os ->
  (2 * length os <= F)%nat -> (Z.of_nat F <= 4294967296)%Z ->
  exists s' t,
    BuildTopDown F (map Some os) config None s = Ok s'
    /\ bvh_repr s' (Some t) /\ contained s' t
    /\ top_down config s' O 0 os t
    /\ objectCount s' = Z.of_nat (length os)
    /\ alloc_ok s'
    /\ (length (tree_nodes t) + 1 <= 2 * length os)%nat
    /\ (forall q, ~ In q os -> objects s' !! q = objects s !! q)
    /\ (forall q, obj_bv <$> objects s' !! q = obj_bv <$> objects s !! q).
Proof.
  intros Hmin Hmax Halloc Hne Hnd Hun HF HF32.
  destruct (BuildTopDown_rec_shape F config (next_node s) Hmin F os None s)
    as (s' & t & Hrun & Hb & _ & Hcnt & Htd); try assumption.
  { lia. } { lia. }
  { intros q n c Hq Hn _. exfalso.
    assert (q < next_node s)%nat by (apply Halloc; rewrite Hn; eauto). lia. }
  { lia. } { reflexivity. }
  destruct Hb as (Hp & Hsh & Hct & Hpm & Hndt & _ & _ & Hln & _ & Halloc' & Hrt & _ & _
                  & Hobj & Hbv).
  exists s', t. split; [exact Hrun|].
  split.
  { split; [rewrite Hrt, Hp; reflexivity|]. split; [exact Hsh|].
    split; [exact Hndt|]. rewrite Hpm. exact Hnd. }
  split; [exact Hct|].
  split.
  { apply (top_down_frame config s s'); [exact Hbv|].
    apply (Htd O 0%Z HF32). split; reflexivity. }
  split.
  { unfold objectCount. rewrite Hcnt. apply wrap32_small. lia. }
  split; [exact Halloc'|]. split; [exact Hln|]. split; assumption.
Qed.

(** The object that [Insert] has put into the tree still has its volume. *)
Lemma grown_object s s' n old o t' ob :
  grown s s' n old [o] t' -> objects s !! o = Some ob ->
  exists ob', objects s' !! o = Some ob' /\ obj_bv ob' = obj_bv ob.
Proof.
  intros (_ & _ & _ & _ & _ & _ & Hbv) Hob. specialize (Hbv o). rewrite Hob in Hbv.
  destruct (objects s' !! o) as [ob'|]; [|discriminate Hbv].
  simpl in Hbv. injection Hbv as Hbv. eauto.
Qed.

(** [Insert] keeps every box the least one and every leaf with members. *)
Lemma Insert_well F s ot o config :
  bvh_repr s ot -> contained_of s ot -> alloc_ok s ->
  unlinked s o -> ~ In o (objs_of ot) ->
  (weight_of ot <= F)%nat -> (Z.of_nat (length (nodes_of ot)) <= INT_MAX)%Z ->
  tight_of s ot -> leaves_nonempty_of ot ->
  exists s' t',
    Insert F (Some o) config s = Ok s'
    /\ grown s s' (length (nodes_of ot)) (objs_of ot) [o] t'
    /\ tight s' t' /\ leaves_nonempty t'.
Proof.
  intros Hr Hc Ha (ob & Hob & Hf) Hn HF Hm Ht Hl.
  destruct (Insert_edit_grown F s ot o ob config Hr Hc Ha Hob Hf Hn HF Hm)
    as (s' & t' & Hrun & Hg & He).
  exists s', t'. split; [exact Hrun|]. split; [exact Hg|].
  destruct (grown_object _ _ _ _ _ _ _ Hg Hob) as (ob' & Hob' & Hbv').
  pose proof Hg as (_ & _ & _ & _ & _ & _ & Hbv).
  destruct ot as [t|]; cbn [insert_edit_of tight_of leaves_nonempty_of] in *.
  - split.
    + rewrite <- Hbv' in He.
      apply (edit_tight s s' o ob' (next_node s) t t' He Hob'); [|exact Ht].
      intros q _. apply Hbv.
    + apply (edit_leaves_nonempty _ _ _ _ _ He Hl).
  - subst t'. split; [|discriminate].
    simpl. intros B HB. apply Forall_cons in HB. destruct HB as (HB & _).
    unfold obj_enclosed in HB. rewrite Hob' in HB. rewrite <- Hbv'. exact HB.
Qed.

Lemma Insert_range_well F config :
  forall os s ot,
  bvh_repr s ot -> contained_of s ot -> alloc_ok s ->
  NoDup os -> Forall (unlinked s) os ->
  (forall o, In o os -> ~ In o (objs_of ot)) ->
  (weight_of ot + 3 * length os <= F)%nat ->
  (Z.of_nat (length (nodes_of ot) + 2 * length os) <= INT_MAX)%Z ->
  tight_of s ot -> leaves_nonempty_of ot ->
  exists s' ot',
    Insert_range F (map Some os) config s = Ok s' /\ grown_of s s' ot os ot'
    /\ tight_of s' ot' /\ leaves_nonempty_of ot'.
Proof.
  induction os as [|o os IH]; intros s ot Hrepr Hcont Halloc Hnd Hun Hnew Hfuel Hmax Ht Hl.
  - exists s, ot. split; [reflexivity|]. split; [|split; assumption].
    split; [exact Hrepr|]. split; [exact Hcont|]. split; [reflexivity|].
    split; [simpl; lia|]. split; [exact Halloc|]. split; reflexivity.
  - apply NoDup_cons in Hnd. destruct Hnd as (Hno & Hnd).
    rewrite list_elem_of_In in Hno.
    apply Forall_cons in Hun. destruct Hun as (Huo & Hun).
    simpl in Hfuel, Hmax.
    destruct (Insert_well F s ot o config Hrepr Hcont Halloc Huo) as
      (s1 & t1 & Hrun & (Hrepr1 & Hcont1 & Hperm1 & Hlen1 & Halloc1 & Hobj1 & Hbv1)
       & Ht1 & Hl1); try assumption.
    { apply Hnew. left. reflexivity. } { unfold weight_of in *. lia. } { lia. }
    simpl in Hperm1, Hlen1.
    destruct (IH s1 (Some t1)) as (s' & ot' & Hrun' & (Hrepr' & Hcont' & Hperm' & Hlen'
                                   & Halloc' & Hobj' & Hbv') & Ht' & Hl').
    + exact Hrepr1.
    + exact Hcont1.
    + exact Halloc1.
    + exact Hnd.
    + rewrite List.Forall_forall in *. intros q Hq.
      destruct (Hun q Hq) as (qb & Hqb & Hqf). exists qb. split; [|exact Hqf].
      rewrite Hobj1; [exact Hqb| |].
      * intros [->|[]]. contradiction.
      * apply Hnew. right. exact Hq.
    + intros q Hq Hin. simpl in Hin. rewrite Hperm1 in Hin. destruct Hin as [->|Hin].
      * contradiction.
      * apply (Hnew q); [right; exact Hq | exact Hin].
    + simpl. unfold tree_weight. rewrite (Permutation_length Hperm1). simpl.
      destruct ot; simpl in *; unfold tree_weight in *; lia.
    + simpl. lia.
    + exact Ht1.
    + exact Hl1.
    + exists s', ot'. split.
      { simpl. rewrite Hrun. cbn [bindR]. exact Hrun'. }
      split; [|split; assumption].
      split; [exact Hrepr'|]. split; [exact Hcont'|]. split.
      { rewrite Hperm'. simpl. rewrite Hperm1. symmetry. apply Permutation_middle. }
      split; [simpl in Hlen' |- *; lia|]. split; [exact Halloc'|]. split.
      * intros q Hq Hqo. rewrite Hobj'.
        -- apply Hobj1; [|exact Hqo]. intros [->|[]]. apply Hq. left. reflexivity.
        -- intros Hin. apply Hq. right. exact Hin.
        -- simpl. rewrite Hperm1. intros [->|Hin]; [apply Hq; left; reflexivity|].
           contradiction.
      * intros q. rewrite Hbv'. apply Hbv1.
Qed.

Lemma run_calls_payload F config :
  forall cs s s', run_calls F config cs s = Ok s' -> same_payload s s'.
Proof.
  induction cs as [|c cs IH]; intros s s' H.
  - injection H as <-. apply same_payload_refl.
  - cbn [run_calls] in H. apply bindR_Ok in H. destruct H as (s1 & H1 & H).
    eapply same_payload_trans; [|apply (IH _ _ H)].
    destruct c; cbn [run_call] in H1.
    + apply (BuildTopDown_rec_payload _ _ _ _ _ _ _ H1).
    + apply (Insert_payload _ _ _ _ _ H1).
Qed.

(** A build on an empty tree and then inserts, of distinct objects that are
    in no list: all that holds of the heap afterwards. *)
Lemma build_insert_well F config s range os :
  (1 <= minObjects config)%Z -> (0 <= maxDepth config)%Z ->
  mRoot s = None -> alloc_ok s ->
  NoDup (range ++ os) -> Forall (unlinked s) (range ++ os) ->
  (3 * length (range ++ os) <= F)%nat -> (Z.of_nat F <= 4294967296)%Z ->
  (Z.of_nat (2 * length (range ++ os)) <= INT_MAX)%Z ->
  exists s' ot,
    run_calls F config
      (CBuildTopDown (map Some range) :: map (fun o => CInsert (Some o)) os) s = Ok s'
    /\ bvh_repr s' ot /\ contained_of s' ot /\ tight_of s' ot /\ leaves_nonempty_of ot
    /\ Permutation (objs_of ot) (range ++ os)
    /\ (length (nodes_of ot) <= 2 * length (range ++ os))%nat
    /\ same_payload s s'.
Proof.
  intros Hmin Hmd Hroot Halloc Hnd Hun HF HF32 Hmax.
  rewrite length_app in HF, Hmax.
  apply NoDup_app in Hnd. destruct Hnd as (Hnd1 & Hdisj & Hnd2).
  apply Forall_app in Hun. destruct Hun as (Hun1 & Hun2).
  assert (Hbuild : exists s1 ot1,
             BuildTopDown F (map Some range) config None s = Ok s1
             /\ bvh_repr s1 ot1 /\ contained_of s1 ot1 /\ tight_of s1 ot1
             /\ leaves_nonempty_of ot1 /\ Permutation (objs_of ot1) range
             /\ (length (nodes_of ot1) <= 2 * length range)%nat
             /\ alloc_ok s1
             /\ (forall q, ~ In q range -> objects s1 !! q = objects s !! q)).
  { destruct range as [|b rest].
    - exists s, None. split; [unfold BuildTopDown; destruct F; reflexivity|].
      split; [exact Hroot|]. repeat (split; [exact I || reflexivity || simpl; lia|]).
      split; [exact Halloc | reflexivity].
    - destruct (BuildTopDown_shape F config s (b :: rest) Hmin Hmd Halloc)
        as (s1 & t1 & Hrun1 & Hrepr1 & Hcont1 & Htd1 & _ & Halloc1 & Hlen1 & Hobj1 & _);
        try assumption.
      { discriminate. } { lia. }
      exists s1, (Some t1). split; [exact Hrun1|]. split; [exact Hrepr1|].
      split; [exact Hcont1|].
      pose proof (top_down_exact _ _ _ _ _ _ Htd1) as Hex.
      split; [apply (bounds_exactly_tight _ _ Hex)|].
      split; [apply (top_down_leaves _ _ _ _ _ _ Htd1)|].
      split; [apply (top_down_objs _ _ _ _ _ _ Htd1)|].
      split; [cbn [nodes_of]; lia|]. split; assumption. }
  destruct Hbuild as (s1 & ot1 & Hrun1 & Hrepr1 & Hcont1 & Ht1 & Hl1 & Hperm1 & Hlen1
                      & Halloc1 & Hobj1).
  destruct (Insert_range_well F config os s1 ot1 Hrepr1 Hcont1 Halloc1 Hnd2)
    as (s' & ot' & Hrun' & (Hrepr' & Hcont' & Hperm' & Hlen' & _) & Ht' & Hl');
    try assumption.
  { rewrite List.Forall_forall in *. intros q Hq.
    apply (unlinked_same s); [|apply Hun2; exact Hq].
    apply Hobj1. intros Hin.
    apply (Hdisj q); apply list_elem_of_In; assumption. }
  { intros q Hq Hin. rewrite Hperm1 in Hin.
    apply (Hdisj q); apply list_elem_of_In; assumption. }
  { assert (length (objs_of ot1) = length range) by (rewrite Hperm1; reflexivity).
    destruct ot1 as [t1|]; simpl in *; unfold tree_weight; lia. }
  { lia. }
  assert (Hall : run_calls F config
                   (CBuildTopDown (map Some range) :: map (fun o => CInsert (Some o)) os) s
                 = Ok s').
  { cbn [run_calls run_call]. rewrite Hrun1. cbn [bindR].
    rewrite run_calls_inserts. exact Hrun'. }
  exists s', ot'. split; [exact Hall|].
  split; [exact Hrepr'|]. split; [exact Hcont'|]. split; [exact Ht'|]. split; [exact Hl'|].
  split; [rewrite Hperm', Hperm1; apply Permutation_app_comm|].
  split; [rewrite length_app; lia|].
  apply (run_calls_payload _ _ _ _ _ Hall).
Qed.

(** ** Reading the lists *)


(** [Node::ObjectCount] on a list: its length, as an [unsigned]. *)
Lemma count_objects_length s leaf :
  forall os pv fuel z,
  olist s leaf pv os -> (length os <= fuel)%nat ->
  exists c, count_objects fuel s (head os) z = Ok c
            /\ wrap32 c = wrap32 (z + Z.of_nat (length os)) /\ (os <> [] -> wrap32 c = c).
Proof.
  induction os as [|a rest IH]; intros pv fuel z Hl Hf.
  - exists z. split; [destruct fuel; reflexivity|]. split; [|congruence].
    simpl. rewrite Z.add_0_r. reflexivity.
  - destruct Hl as [Ha Hrest]. destruct fuel as [|fuel]; [simpl in Hf; lia|].
    cbn [head count_objects].
    destruct (objects s !! a) as [ab|] eqn:Hab; [|discriminate Ha].
    rewrite (get_obj_Some s a ab Hab). cbn [bindR].
    simpl in Ha. injection Ha as Ha. rewrite Ha. cbn [next].
    destruct (IH (Some a) fuel (wrap32 (z + 1)) Hrest) as (c & Hc & Hv & Hw);
      [simpl in Hf; lia|].
    exists c. split; [exact Hc|]. split.
    + rewrite Hv, wrap32_add_l. f_equal. cbn [length]. lia.
    + intros _. destruct rest as [|b rest'].
      * destruct fuel; simpl in Hc; injection Hc as <-;
          unfold wrap32; apply Z.mod_mod; lia.
      * apply Hw. discriminate.
Qed.

Lemma enclosesb_true a b : encloses a b -> enclosesb a b = true.
Proof.
  unfold encloses, enclosesb, vle, vleb. intros ((?&?&?) & (?&?&?)).
  repeat (apply andb_true_iff; split); apply Qle_bool_iff; assumption.
Qed.

Lemma obj_ids_payload s s' os : same_payload s s' -> obj_ids s' os = obj_ids s os.
Proof.
  intros H. induction os as [|o os IH]; simpl; [reflexivity|].
  destruct (H o) as (Hid & _).
  destruct (objects s !! o) as [ob|], (objects s' !! o) as [ob'|];
    simpl in Hid; try discriminate Hid; [|exact IH].
  injection Hid as ->. rewrite IH. reflexivity.
Qed.

(** * The checks of the test suite on a tree *)

(** The walk of [Bvh::TraverseLevelOrder] with a lambda that leaves the
    heap alone. *)
Lemma Bvh_TraverseLevelOrder_pure {X : Type} s t
    (func : nptr -> State * X -> Res (State * X)) (g : nptr -> X -> X) F x :
  mRoot s = Some (tree_ptr t) -> shape s t ->
  (forall p y, In p (tree_nodes t) -> func p (s, y) = Ok (s, g p y)) ->
  (length (tree_nodes t) <= F)%nat ->
  Bvh_TraverseLevelOrder func F (s, x) = Ok (s, fold_left (visit g) (level_order t) x).
Proof.
  intros Hroot Hs Hf HF. unfold Bvh_TraverseLevelOrder, Node_TraverseLevelOrder.
  cbn [fst]. rewrite Hroot. rewrite level_order_forest.
  apply (TraverseLevelOrder_pure s func g (length (tree_nodes t)) [t] x F).
  - repeat constructor. apply shape_nshape. exact Hs.
  - intros p y Hin. rewrite forest_nodes_one in Hin. apply Hf. exact Hin.
  - rewrite forest_nodes_one. lia.
  - rewrite forest_nodes_one. exact HF.
Qed.

Lemma Node_TraverseLevelOrderObjects_pure {X : Type} s t
    (func : T -> State * X -> Res (State * X)) (g : optr -> X -> X) F x :
  shape s t ->
  (forall o y, In o (tree_objs t) -> func (Some o) (s, y) = Ok (s, g o y)) ->
  (tree_weight t <= F)%nat ->
  Node_TraverseLevelOrderObjects func F (tree_ptr t) (s, x)
  = Ok (s, fold_left (meet g) (level_order_objs t) x).
Proof.
  intros Hs Hf HF. unfold Node_TraverseLevelOrderObjects, level_order_objs.
  unfold tree_weight in HF. rewrite level_order_forest.
  apply (TraverseLevelOrderObjects_pure s func g F (length (tree_nodes t)) [t] x F).
  - repeat constructor. exact Hs.
  - intros o y Hin. rewrite forest_objs_one in Hin. apply Hf. exact Hin.
  - rewrite forest_objs_one. lia.
  - rewrite forest_nodes_one. lia.
  - rewrite forest_nodes_one. lia.
Qed.

Lemma fold_left_keep {X : Type} (l : list tree) (x : X) :
  fold_left (visit (fun _ y => y)) l x = x.
Proof. induction l as [|t l IH]; simpl; [reflexivity | exact IH]. Qed.

(** [BvhFlatMap] on the root of a tree: the ids of the objects, in the
    order of the level-order walk. *)
Lemma BvhFlatMap_shape F s t :
  shape s t -> (tree_weight t <= F)%nat ->
  BvhFlatMap F s (Some (tree_ptr t)) = Ok (obj_ids s (level_order_objs t)).
Proof.
  intros Hs HF. unfold BvhFlatMap.
  rewrite (Node_TraverseLevelOrderObjects_pure s t retrieveIds
             (fun o ids => ids ++ obj_ids s [o]) F [] Hs); [|  |exact HF].
  - cbn [bindR snd]. rewrite fold_left_ids. reflexivity.
  - intros o y Hin. apply retrieveIds_pure.
    destruct (shape_lookup s t o Hs Hin) as [ob Hob]. rewrite Hob. eauto.
Qed.

(** The first lambda of [AssertProperNodes] on a node of a tree whose
    leaves have members. *)
Lemma check_object_count_pass F s t :
  shape s t -> leaves_nonempty t ->
  (length (tree_objs t) <= F)%nat -> (Z.of_nat (length (tree_objs t)) < 4294967296)%Z ->
  forall p ok, In p (tree_nodes t) -> check_object_count F p (s, ok) = Ok (s, ok).
Proof.
  induction t as [p b os|p b l IHl r IHr]; simpl; intros Hs Hl HF Hm q ok Hin.
  - destruct Hin as [<-|[]]. destruct Hs as (Hp & Hos).
    unfold check_object_count, ObjectCount. cbn [fst snd].
    rewrite (get_node_Some _ _ _ Hp). cbn [bindR firstObject].
    destruct (count_objects_length s p os None F 0%Z Hos HF) as (c & Hc & Hv & Hw).
    rewrite Hc. cbn [bindR]. rewrite IsLeaf_leaf.
    specialize (Hw Hl). rewrite Hw in Hv. rewrite Z.add_0_l in Hv.
    rewrite wrap32_small in Hv by lia.
    assert (0 < length os)%nat by (destruct os; [congruence | simpl; lia]).
    replace (0 <? c)%Z with true by (symmetry; apply Z.ltb_lt; lia).
    rewrite andb_true_r. reflexivity.
  - destruct Hs as (Hp & Hsl & Hsr). destruct Hl as (Hll & Hlr).
    rewrite length_app in HF, Hm.
    destruct Hin as [<-|Hin].
    + unfold check_object_count, ObjectCount. cbn [fst snd].
      rewrite (get_node_Some _ _ _ Hp). cbn [bindR firstObject count_objects].
      unfold IsLeaf, child. cbn [children fst].
      replace (count_objects F s None 0%Z) with (Ok 0%Z : Res Z) by (destruct F; reflexivity).
      cbn [bindR Z.eqb]. rewrite andb_true_r. reflexivity.
    + apply in_app_or in Hin. destruct Hin as [Hin|Hin].
      * apply IHl; auto; lia.
      * apply IHr; auto; lia.
Qed.

(** The second lambda on a node of a tree that keeps containment. *)
Lemma check_containment_pass s t :
  shape s t -> contained s t ->
  forall p ok, In p (tree_nodes t) -> check_containment p (s, ok) = Ok (s, ok).
Proof.
  induction t as [p b os|p b l IHl r IHr]; simpl; intros Hs Hc q ok Hin.
  - destruct Hin as [<-|[]]. destruct Hs as (Hp & _).
    unfold check_containment. cbn [fst snd].
    rewrite (get_node_Some _ _ _ Hp). cbn [bindR]. rewrite IsLeaf_leaf. reflexivity.
  - destruct Hs as (Hp & Hsl & Hsr). destruct Hc as (Hel & Her & Hcl & Hcr).
    destruct Hin as [<-|Hin].
    + unfold check_containment. cbn [fst snd].
      rewrite (get_node_Some _ _ _ Hp). cbn [bindR].
      unfold IsLeaf, child. cbn [children fst snd bv Z.eqb].
      destruct (shape_root s l Hsl) as (nl & Hnl & Hbl).
      destruct (shape_root s r Hsr) as (nr & Hnr & Hbr).
      rewrite (get_node_Some _ _ _ Hnl). cbn [bindR]. rewrite Hbl.
      rewrite (enclosesb_true _ _ Hel). cbn [negb].
      rewrite (get_node_Some _ _ _ Hnr). cbn [bindR]. rewrite Hbr.
      rewrite (enclosesb_true _ _ Her). rewrite andb_true_r. reflexivity.
    + apply in_app_or in Hin. destruct Hin as [Hin|Hin]; auto.
Qed.

Lemma AssertProperNodes_pass F s ot :
  bvh_repr s ot -> contained_of s ot -> leaves_nonempty_of ot ->
  (weight_of ot <= F)%nat -> (Z.of_nat (length (objs_of ot)) < 4294967296)%Z ->
  AssertProperNodes F s = Ok true.
Proof.
  intros Hr Hc Hl HF Hm. unfold AssertProperNodes.
  destruct ot as [t|]; simpl in *.
  - destruct Hr as (Hroot & Hs & _). unfold tree_weight in HF.
    rewrite (Bvh_TraverseLevelOrder_pure s t (check_object_count F) (fun _ y => y)
               F true Hroot Hs); [| |lia].
    + cbn [bindR]. rewrite fold_left_keep.
      rewrite (Bvh_TraverseLevelOrder_pure s t check_containment (fun _ y => y)
                 F true Hroot Hs); [| |lia].
      * cbn [bindR]. rewrite fold_left_keep. reflexivity.
      * intros p y. apply check_containment_pass; assumption.
    + intros p y. apply check_object_count_pass; try assumption. lia.
  - unfold Bvh_TraverseLevelOrder. cbn [fst]. rewrite Hr. cbn [bindR fst]. rewrite Hr.
    reflexivity.
Qed.

(** ** The ids *)

Lemma no_id_twice_NoDup :
  forall ids seen,
  NoDup ids -> (forall i, In i ids -> i ∉ seen) ->
  no_id_twice seen ids = Some (seen ∪ list_to_set ids).
Proof.
  induction ids as [|i ids IH]; intros seen Hnd Hseen.
  - simpl. rewrite (right_id_L ∅ (∪)). reflexivity.
  - apply NoDup_cons in Hnd. destruct Hnd as (Hi & Hnd).
    cbn [no_id_twice]. rewrite bool_decide_eq_false_2 by (apply Hseen; left; reflexivity).
    rewrite IH.
    + rewrite list_to_set_cons, (assoc_L (∪)). reflexivity.
    + exact Hnd.
    + intros j Hj. apply not_elem_of_union. split; [apply Hseen; right; exact Hj|].
      intros Hin. apply elem_of_singleton in Hin. subst j.
      apply Hi. apply list_elem_of_In. exact Hj.
Qed.

Lemma all_in_set_pass s (seen : gset Z) :
  forall os,
  (forall o, In o os -> exists ob, objects s !! o = Some ob /\ obj_id ob ∈ seen) ->
  all_in_set s seen (map Some os) = Ok true.
Proof.
  induction os as [|o os IH]; intros H; [reflexivity|].
  destruct (H o (or_introl eq_refl)) as (ob & Hob & Hin).
  cbn [map all_in_set]. rewrite (get_obj_Some _ _ _ Hob). cbn [bindR].
  rewrite bool_decide_eq_true_2 by exact Hin.
  apply IH. intros q Hq. apply H. right. exact Hq.
Qed.

Lemma In_obj_ids s os o ob :
  In o os -> objects s !! o = Some ob -> In (obj_id ob) (obj_ids s os).
Proof.
  induction os as [|q os IH]; simpl; intros Hin Hob; [contradiction|].
  destruct Hin as [->|Hin].
  - rewrite Hob. left. reflexivity.
  - destruct (objects s !! q); [right|]; auto.
Qed.

Lemma AssertAllAccountedFor_pass F s t all :
  bvh_repr s (Some t) -> (tree_weight t <= F)%nat ->
  Permutation (tree_objs t) all -> NoDup (obj_ids s all) ->
  AssertAllAccountedFor F s (map Some all) = Ok true.
Proof.
  intros (Hroot & Hs & _) HF Hperm Hnd. unfold AssertAllAccountedFor, root.
  rewrite Hroot, (BvhFlatMap_shape F s t Hs HF). cbn [bindR].
  assert (Hp : Permutation (obj_ids s (level_order_objs t)) (obj_ids s all)).
  { apply obj_ids_perm. rewrite level_order_objs_perm. exact Hperm. }
  rewrite (no_id_twice_NoDup _ ∅).
  - apply all_in_set_pass. intros o Ho.
    assert (Hin : In o (tree_objs t)) by (eapply Permutation_in; [symmetry|]; eassumption).
    destruct (shape_lookup s t o Hs Hin) as [ob Hob].
    exists ob. split; [exact Hob|].
    apply elem_of_union_r, elem_of_list_to_set, list_elem_of_In.
    eapply Permutation_in; [symmetry; exact Hp|].
    apply (In_obj_ids s all o ob Ho Hob).
  - rewrite Hp. exact Hnd.
  - intros i _. apply not_elem_of_empty.
Qed.

(** ** Depth and size of a tree *)

Lemma tree_size_depth t :
  (2 * tree_depth t + 1 <= tree_size t <= 2 ^ (tree_depth t + 1) - 1)%Z.
Proof.
  induction t as [p b os|p b l IHl r IHr]; simpl; [lia|].
  pose proof (tree_depth_nonneg l) as Hl. pose proof (tree_depth_nonneg r) as Hr.
  pose proof (tree_size_pos l). pose proof (tree_size_pos r).
  split; [lia|].
  assert (Hm : forall a b, (0 <= a <= b)%Z -> (2 ^ (a + 1) <= 2 ^ (b + 1))%Z)
    by (intros; apply Z.pow_le_mono_r; lia).
  pose proof (Hm (tree_depth l) (Z.max (tree_depth l) (tree_depth r)) ltac:(lia)).
  pose proof (Hm (tree_depth r) (Z.max (tree_depth l) (tree_depth r)) ltac:(lia)).
  replace (1 + Z.max (tree_depth l) (tree_depth r) + 1)%Z
    with (Z.succ (Z.max (tree_depth l) (tree_depth r) + 1)) by lia.
  rewrite Z.pow_succ_r by lia. lia.
Qed.

Lemma tree_size_odd t : Z.odd (tree_size t) = true.
Proof.
  induction t as [p b os|p b l IHl r IHr]; simpl; [reflexivity|].
  replace (1 + tree_size l + tree_size r)%Z with (tree_size l + tree_size r + 1)%Z by lia.
  rewrite Z.odd_add, Z.odd_add, IHl, IHr. reflexivity.
Qed.

(** * What [BuildTopDown] builds *)

Lemma five_boxes_alloc_ok : alloc_ok (scene_of five_boxes).
Proof. intros q [n Hq]. vm_compute in Hq. discriminate Hq. Qed.

Lemma five_boxes_all_unlinked :
  Forall (unlinked (scene_of five_boxes)) [0; 1; 2; 3; 4]%nat.
Proof. repeat constructor; apply five_boxes_unlinked; lia. Qed.

Lemma five_boxes_NoDup : NoDup [0; 1; 2; 3; 4]%nat.
Proof. apply (bool_decide_unpack _). vm_compute. reflexivity. Qed.

Lemma five_boxes_on_grid :
  Forall (object_on_grid (scene_of five_boxes)) [0; 1; 2; 3; 4]%nat.
Proof. repeat constructor; eexists; (split; [vm_compute; reflexivity | reflexivity]). Qed.

(** X4.  [BuildTopDown] over distinct objects that are in no list, with no
    parent node, [minObjects >= 1] and fuel for the loops, returns and
    leaves a tree of this form when the coordinates of the boxes are whole
    numbers of magnitude at most 128, on which the float arithmetic of
    volumes, extents and centres is exact.  The box of every node is the
    least box around the objects of its range.  Each node is made on the
    tree built so far, and the depth it sees is the larger of its own
    level and the depth of that tree.  A node is a leaf that lists its
    range exactly when the range has at most [minObjects] objects, or the
    box has at most the volume [minVolume], or the depth seen has reached
    [maxDepth].  Otherwise its range is cut at the split index (the size
    as a float, halved and cut to a whole number), the objects before the
    cut have centres on the longest axis of the box that are at most those
    of the objects after it, child 0 is built from the first part and then
    child 1 from the second. *)
Theorem BuildTopDown_builds_top_down
    (F : nat) (config : BvhBuildConfig) (s : State) (os : list optr) :
  (1 <= minObjects config)%Z -> (0 <= maxDepth config)%Z ->
  alloc_ok s -> os <> [] -> NoDup os -> Forall (unlinked s) os ->
  Forall (object_on_grid s) os ->
  (2 * length os <= F)%nat -> (Z.of_nat F <= 4294967296)%Z ->
  exists s' t,
    BuildTopDown F (map Some os) config None s = Ok s'
    /\ bvh_repr s' (Some t)
    /\ top_down config s' 0 0 os t.
Proof.
  intros Hmin Hmd Halloc Hne Hnd Hun _ HF HF32.
  destruct (BuildTopDown_shape F config s os Hmin Hmd Halloc Hne Hnd Hun HF HF32)
    as (s' & t & Hrun & Hrepr & _ & Htd & _).
  exists s', t. auto.
Qed.

Lemma BuildTopDown_builds_top_down_witness :
  exists s' t,
    BuildTopDown 20 (map Some [0; 1; 2; 3; 4]%nat) cInsertConfig_manual None
      (scene_of five_boxes) = Ok s'
    /\ bvh_repr s' (Some t)
    /\ top_down cInsertConfig_manual s' 0 0 [0; 1; 2; 3; 4]%nat t.
Proof.
  apply (BuildTopDown_builds_top_down 20 cInsertConfig_manual (scene_of five_boxes)
           [0; 1; 2; 3; 4]%nat).
  - vm_compute. discriminate.
  - vm_compute. discriminate.
  - exact five_boxes_alloc_ok.
  - discriminate.
  - exact five_boxes_NoDup.
  - exact five_boxes_all_unlinked.
  - exact five_boxes_on_grid.
  - simpl. lia.
  - simpl. lia.
Defined.

(** X5.  After [BuildTopDown] with no parent node over [n] distinct
    objects that are in no list, with [n] below 2^24 (so that every split
    index is half the size and no sum of [Size()] overflows),
    [minObjects >= 1] and fuel for the loops: [Depth()] is at most
    [maxDepth] and at most the logarithm of [n] to the base 2, rounded up;
    [Size()] is at least [2 * Depth() + 1] and at most [2 * n - 1]; and
    [objectCount()] is [n]. *)
Theorem BuildTopDown_depth_size_bounds
    (F : nat) (config : BvhBuildConfig) (s : State) (os : list optr) :
  (1 <= minObjects config)%Z -> (0 <= maxDepth config)%Z ->
  alloc_ok s -> os <> [] -> NoDup os -> Forall (unlinked s) os ->
  (Z.of_nat (length os) < 16777216)%Z ->
  (2 * length os <= F)%nat -> (Z.of_nat F <= 4294967296)%Z ->
  exists s' d n,
    BuildTopDown F (map Some os) config None s = Ok s'
    /\ Depth F s' = Ok d /\ Size F s' = Ok n
    /\ (0 <= d <= maxDepth config)%Z
    /\ (d <= Z.of_nat (Nat.log2_up (length os)))%Z
    /\ (2 * d + 1 <= n <= 2 * Z.of_nat (length os) - 1)%Z
    /\ objectCount s' = Z.of_nat (length os).
Proof.
  intros Hmin Hmd Halloc Hne Hnd Hun Hsmall HF HF32.
  destruct (BuildTopDown_shape F config s os Hmin Hmd Halloc Hne Hnd Hun HF HF32)
    as (s' & t & Hrun & (Hroot & Hs & _) & _ & Htd & Hcnt & _ & Hlen & _).
  exists s', (tree_depth t), (tree_size t). split; [exact Hrun|].
  unfold Depth, Size. rewrite Hroot.
  pose proof (tree_size_nodes t) as Hsz.
  split; [apply Node_Depth_shape; [exact Hs | lia]|].
  split; [apply Node_Size_shape; [exact Hs | unfold INT_MAX; lia | lia]|].
  pose proof (tree_depth_nonneg t). pose proof (tree_size_depth t).
  pose proof (top_down_max_depth _ _ _ _ _ _ Htd ltac:(simpl; lia)).
  split; [lia|].
  split; [apply (top_down_log_depth config s' 0 0 os t); [lia | exact Hsmall | exact Htd]|].
  split; [lia | exact Hcnt].
Qed.

Lemma BuildTopDown_depth_size_bounds_witness :
  exists s' d n,
    BuildTopDown 20 (map Some [0; 1; 2; 3; 4]%nat) cInsertConfig_manual None
      (scene_of five_boxes) = Ok s'
    /\ Depth 20 s' = Ok d /\ Size 20 s' = Ok n
    /\ (0 <= d <= maxDepth cInsertConfig_manual)%Z
    /\ (d <= Z.of_nat (Nat.log2_up (length [0; 1; 2; 3; 4]%nat)))%Z
    /\ (2 * d + 1 <= n <= 2 * Z.of_nat (length [0; 1; 2; 3; 4]%nat) - 1)%Z
    /\ objectCount s' = Z.of_nat (length [0; 1; 2; 3; 4]%nat).
Proof.
  apply (BuildTopDown_depth_size_bounds 20 cInsertConfig_manual (scene_of five_boxes)
           [0; 1; 2; 3; 4]%nat).
  - vm_compute. discriminate.
  - vm_compute. discriminate.
  - exact five_boxes_alloc_ok.
  - discriminate.
  - exact five_boxes_NoDup.
  - exact five_boxes_all_unlinked.
  - simpl. lia.
  - simpl. lia.
  - simpl. lia.
Defined.



(** * What [Insert] does to the tree *)

(** X7.  [Insert] of an object that is in no list into a tree that keeps
    containment and has at most [INT_MAX - 2] nodes (so that no sum of
    [Size()] overflows, before or after) either leaves [Size()] and
    [Depth()] as they are (the object has joined a leaf), or adds exactly
    two nodes, and then [Depth()] stays or grows by one. *)
Theorem Insert_depth_size
    (F : nat) (s : State) (t : tree) (o : optr) (config : BvhBuildConfig) :
  bvh_repr s (Some t) -> contained s t -> alloc_ok s ->
  unlinked s o -> ~ In o (tree_objs t) ->
  (tree_weight t <= F)%nat -> (Z.of_nat (length (tree_nodes t)) + 2 <= INT_MAX)%Z ->
  exists s' d n d' n',
    Insert F (Some o) config s = Ok s'
    /\ Depth F s = Ok d /\ Size F s = Ok n
    /\ Depth (F + 2) s' = Ok d' /\ Size (F + 2) s' = Ok n'
    /\ ((n' = n /\ d' = d) \/ (n' = n + 2 /\ d <= d' <= d + 1))%Z.
Proof.
  intros Hr Hc Ha (ob & Hob & Hf) Hn HF Hm.
  destruct (Insert_edit_grown F s (Some t) o ob config Hr Hc Ha Hob Hf Hn HF)
    as (s' & t' & Hrun & Hg & He).
  { cbn [nodes_of]. lia. }
  destruct Hg as ((Hroot' & Hs' & _) & _ & _ & Hlen & _).
  destruct Hr as (Hroot & Hs & _).
  cbn [insert_edit_of nodes_of length] in He, Hlen.
  unfold tree_weight in HF.
  exists s', (tree_depth t), (tree_size t), (tree_depth t'), (tree_size t').
  split; [exact Hrun|]. unfold Depth, Size. rewrite Hroot, Hroot'.
  pose proof (tree_size_nodes t) as Hsz. pose proof (tree_size_nodes t') as Hsz'.
  split; [apply Node_Depth_shape; [exact Hs | lia]|].
  split; [apply Node_Size_shape; [exact Hs | lia | lia]|].
  split; [apply Node_Depth_shape; [exact Hs' | simpl in Hlen; lia]|].
  split; [apply Node_Size_shape; [exact Hs' | simpl in Hlen; lia | simpl in Hlen; lia]|].
  apply (edit_depth_size _ _ _ _ _ He).
Qed.

Lemma inserted4_alloc_ok : alloc_ok (inserted 4).
Proof.
  apply alloc_ok_forall.
  apply (bool_decide_unpack _). vm_compute. reflexivity.
Qed.

Lemma Insert_depth_size_witness :
  exists s' d n d' n',
    Insert 20 (Some 4%nat) cInsertConfig_manual (inserted 4) = Ok s'
    /\ Depth 20 (inserted 4) = Ok d /\ Size 20 (inserted 4) = Ok n
    /\ Depth (20 + 2) s' = Ok d' /\ Size (20 + 2) s' = Ok n'
    /\ ((n' = n /\ d' = d) \/ (n' = n + 2 /\ d <= d' <= d + 1))%Z.
Proof.
  apply (Insert_depth_size 20 (inserted 4) inserted4_tree 4%nat cInsertConfig_manual
           inserted4_repr inserted4_contained inserted4_alloc_ok).
  - eexists. split; [vm_compute; reflexivity | reflexivity].
  - vm_compute. intuition lia.
  - vm_compute. lia.
  - vm_compute. discriminate.
Defined.

(** X8.  [Insert] into an empty tree of an object that is in no list makes
    the root a leaf that lists this object alone and has the volume of the
    object as its box; [Depth()] is 0, [Size()] is 1 and the counter has
    gone up by one. *)
Theorem Insert_into_empty_tree
    (F : nat) (s : State) (o : optr) (ob : Object) (config : BvhBuildConfig) :
  mRoot s = None -> alloc_ok s ->
  objects s !! o = Some ob -> node (bvhInfo ob) = None ->
  exists s',
    Insert F (Some o) config s = Ok s'
    /\ bvh_repr s' (Some (TLeaf (next_node s) (obj_bv ob) [o]))
    /\ (forall F', Depth (S F') s' = Ok 0%Z) /\ (forall F', Size (S F') s' = Ok 1%Z)
    /\ objectCount s' = wrap32 (objectCount s + 1).
Proof.
  intros Hroot Ha Hob Hf.
  destruct (Insert_edit_grown F s None o ob config Hroot I Ha Hob Hf)
    as (s' & t' & Hrun & Hg & He).
  { intros []. } { simpl. lia. } { simpl. unfold INT_MAX. lia. }
  cbn [insert_edit_of] in He. subst t'.
  destruct Hg as (Hrepr & _).
  exists s'. split; [exact Hrun|]. split; [exact Hrepr|].
  destruct Hrepr as (Hroot' & (Hp & _) & _). cbn [tree_ptr] in Hroot'.
  split; [|split].
  - intros F'. unfold Depth. rewrite Hroot'. cbn [Node_Depth].
    rewrite (get_node_Some _ _ _ Hp). reflexivity.
  - intros F'. unfold Size. rewrite Hroot'. cbn [Node_Size].
    rewrite (get_node_Some _ _ _ Hp). reflexivity.
  - unfold objectCount. apply (Insert_objectCount _ _ _ _ _ Hrun).
Qed.

Lemma Insert_into_empty_tree_witness :
  exists s',
    Insert 20 (Some 0%nat) cInsertConfig_manual (scene_of five_boxes) = Ok s'
    /\ bvh_repr s' (Some (TLeaf (next_node (scene_of five_boxes))
                                (obj_bv (mkObject 0 (box 0 0 0 1 1 1) fresh_info))
                                [0%nat]))
    /\ (forall F', Depth (S F') s' = Ok 0%Z) /\ (forall F', Size (S F') s' = Ok 1%Z)
    /\ objectCount s' = wrap32 (objectCount (scene_of five_boxes) + 1).
Proof.
  apply (Insert_into_empty_tree 20 (scene_of five_boxes) 0%nat
           (mkObject 0 (box 0 0 0 1 1 1) fresh_info) cInsertConfig_manual).
  - reflexivity.
  - exact five_boxes_alloc_ok.
  - vm_compute. reflexivity.
  - reflexivity.
Defined.

(** * A build and inserts *)

(** X9.  After [BuildTopDown] on an empty tree and [Insert] of further
    objects one by one (distinct objects that are in no list,
    [minObjects >= 1], fuel for the loops), the box of every node is the
    least box around the objects below the node: it encloses each of them,
    and every box that encloses them all encloses it. *)
Theorem build_then_insert_least_boxes
    (F : nat) (config : BvhBuildConfig) (s : State) (range os : list optr) :
  (1 <= minObjects config)%Z -> (0 <= maxDepth config)%Z ->
  mRoot s = None -> alloc_ok s ->
  NoDup (range ++ os) -> Forall (unlinked s) (range ++ os) ->
  (3 * length (range ++ os) <= F)%nat -> (Z.of_nat F <= 4294967296)%Z ->
  (Z.of_nat (2 * length (range ++ os)) <= INT_MAX)%Z ->
  exists s' ot,
    run_calls F config
      (CBuildTopDown (map Some range) :: map (fun o => CInsert (Some o)) os) s = Ok s'
    /\ bvh_repr s' ot /\ bounds_exactly_of s' ot
    /\ Permutation (objs_of ot) (range ++ os).
Proof.
  intros Hmin Hmd Hroot Halloc Hnd Hun HF HF32 Hmax.
  destruct (build_insert_well F config s range os Hmin Hmd Hroot Halloc Hnd Hun HF HF32 Hmax)
    as (s' & ot & Hrun & Hrepr & Hc & Ht & _ & Hperm & _).
  exists s', ot. split; [exact Hrun|]. split; [exact Hrepr|]. split; [|exact Hperm].
  destruct ot as [t|]; [|exact I]. apply contained_tight_exact; assumption.
Qed.

Lemma build_then_insert_least_boxes_witness :
  exists s' ot,
    run_calls 20 cInsertConfig_manual
      (CBuildTopDown (map Some [0; 1; 2]%nat)
       :: map (fun o => CInsert (Some o)) [3; 4]%nat) (scene_of five_boxes) = Ok s'
    /\ bvh_repr s' ot /\ bounds_exactly_of s' ot
    /\ Permutation (objs_of ot) ([0; 1; 2] ++ [3; 4])%nat.
Proof.
  apply (build_then_insert_least_boxes 20 cInsertConfig_manual (scene_of five_boxes)
           [0; 1; 2]%nat [3; 4]%nat).
  - vm_compute. discriminate.
  - vm_compute. discriminate.
  - reflexivity.
  - exact five_boxes_alloc_ok.
  - exact five_boxes_NoDup.
  - exact five_boxes_all_unlinked.
  - simpl. lia.
  - simpl. lia.
  - vm_compute. discriminate.
Defined.

(** X10.  After the same calls the check [AssertProperNodes] of the test
    suite passes: every leaf lists at least one object, every node that is
    no leaf lists none, and the box of such a node encloses the boxes of
    its two children. *)
Theorem build_then_insert_proper_nodes
    (F : nat) (config : BvhBuildConfig) (s : State) (range os : list optr) :
  (1 <= minObjects config)%Z -> (0 <= maxDepth config)%Z ->
  mRoot s = None -> alloc_ok s ->
  NoDup (range ++ os) -> Forall (unlinked s) (range ++ os) ->
  (3 * length (range ++ os) <= F)%nat -> (Z.of_nat F <= 4294967296)%Z ->
  (Z.of_nat (2 * length (range ++ os)) <= INT_MAX)%Z ->
  exists s',
    run_calls F config
      (CBuildTopDown (map Some range) :: map (fun o => CInsert (Some o)) os) s = Ok s'
    /\ AssertProperNodes F s' = Ok true.
Proof.
  intros Hmin Hmd Hroot Halloc Hnd Hun HF HF32 Hmax.
  destruct (build_insert_well F config s range os Hmin Hmd Hroot Halloc Hnd Hun HF HF32 Hmax)
    as (s' & ot & Hrun & Hrepr & Hc & _ & Hl & Hperm & Hlen & _).
  exists s'. split; [exact Hrun|].
  assert (Hlo : length (objs_of ot) = length (range ++ os))
    by (apply Permutation_length; exact Hperm).
  apply (AssertProperNodes_pass F s' ot Hrepr Hc Hl).
  - destruct ot as [t|]; simpl in *; [unfold tree_weight|]; lia.
  - rewrite Hlo. unfold INT_MAX in Hmax. lia.
Qed.

Lemma build_then_insert_proper_nodes_witness :
  exists s',
    run_calls 20 cInsertConfig_manual
      (CBuildTopDown (map Some [0; 1; 2]%nat)
       :: map (fun o => CInsert (Some o)) [3; 4]%nat) (scene_of five_boxes) = Ok s'
    /\ AssertProperNodes 20 s' = Ok true.
Proof.
  apply (build_then_insert_proper_nodes 20 cInsertConfig_manual (scene_of five_boxes)
           [0; 1; 2]%nat [3; 4]%nat).
  - vm_compute. discriminate.
  - vm_compute. discriminate.
  - reflexivity.
  - exact five_boxes_alloc_ok.
  - exact five_boxes_NoDup.
  - exact five_boxes_all_unlinked.
  - simpl. lia.
  - simpl. lia.
  - vm_compute. discriminate.
Defined.

(** X11.  After the same calls on objects with distinct ids, with at least
    one object in the range of [BuildTopDown], the check
    [AssertAllAccountedFor] of the test suite passes: the level-order walk
    of the tree meets no id twice and meets the id of every object. *)
Theorem build_then_insert_all_accounted_for
    (F : nat) (config : BvhBuildConfig) (s : State) (range os : list optr) :
  (1 <= minObjects config)%Z -> (0 <= maxDepth config)%Z ->
  mRoot s = None -> alloc_ok s -> range <> [] ->
  NoDup (range ++ os) -> Forall (unlinked s) (range ++ os) ->
  NoDup (obj_ids s (range ++ os)) ->
  (3 * length (range ++ os) <= F)%nat -> (Z.of_nat F <= 4294967296)%Z ->
  (Z.of_nat (2 * length (range ++ os)) <= INT_MAX)%Z ->
  exists s',
    run_calls F config
      (CBuildTopDown (map Some range) :: map (fun o => CInsert (Some o)) os) s = Ok s'
    /\ AssertAllAccountedFor F s' (map Some (range ++ os)) = Ok true.
Proof.
  intros Hmin Hmd Hroot Halloc Hne Hnd Hun Hids HF HF32 Hmax.
  destruct (build_insert_well F config s range os Hmin Hmd Hroot Halloc Hnd Hun HF HF32 Hmax)
    as (s' & ot & Hrun & Hrepr & _ & _ & _ & Hperm & Hlen & Hpay).
  exists s'. split; [exact Hrun|].
  destruct ot as [t|].
  - cbn [objs_of nodes_of] in Hperm, Hlen.
    apply (AssertAllAccountedFor_pass F s' t (range ++ os) Hrepr).
    + unfold tree_weight. rewrite (Permutation_length Hperm). lia.
    + exact Hperm.
    + rewrite (obj_ids_payload s s' _ Hpay). exact Hids.
  - exfalso. simpl in Hperm. apply Permutation_nil in Hperm.
    destruct range; [congruence | discriminate Hperm].
Qed.

Lemma build_then_insert_all_accounted_for_witness :
  exists s',
    run_calls 20 cInsertConfig_manual
      (CBuildTopDown (map Some [0; 1; 2]%nat)
       :: map (fun o => CInsert (Some o)) [3; 4]%nat) (scene_of five_boxes) = Ok s'
    /\ AssertAllAccountedFor 20 s' (map Some ([0; 1; 2] ++ [3; 4])%nat) = Ok true.
Proof.
  apply (build_then_insert_all_accounted_for 20 cInsertConfig_manual
           (scene_of five_boxes) [0; 1; 2]%nat [3; 4]%nat).
  - vm_compute. discriminate.
  - vm_compute. discriminate.
  - reflexivity.
  - exact five_boxes_alloc_ok.
  - discriminate.
  - exact five_boxes_NoDup.
  - exact five_boxes_all_unlinked.
  - apply (bool_decide_unpack _). vm_compute. reflexivity.
  - simpl. lia.
  - simpl. lia.
  - vm_compute. discriminate.
Defined.

(** * The level-order walks of a tree *)

(** X12.  [Bvh::TraverseLevelOrder] on a tree, with a lambda that leaves
    the heap alone, calls the lambda on the nodes level by level: the root
    first, then its two children, their children, and so on, every level
    from the left to the right.  Every node of the tree is visited exactly
    once, and the heap is as it was. *)
Theorem TraverseLevelOrder_level_by_level {X : Type}
    (F : nat) (s : State) (t : tree)
    (func : nptr -> State * X -> Res (State * X)) (g : nptr -> X -> X) (x : X) :
  bvh_repr s (Some t) -> (length (tree_nodes t) <= F)%nat ->
  (forall p y, In p (tree_nodes t) -> func p (s, y) = Ok (s, g p y)) ->
  Bvh_TraverseLevelOrder func F (s, x) = Ok (s, fold_left (visit g) (level_order t) x)
  /\ head (level_order t) = Some t
  /\ Permutation (map tree_ptr (level_order t)) (tree_nodes t)
  /\ NoDup (map tree_ptr (level_order t)).
Proof.
  intros (Hroot & Hs & Hndn & _) HF Hf. split; [|split; [|split]].
  - apply Bvh_TraverseLevelOrder_pure; assumption.
  - rewrite level_order_forest.
    destruct (length (tree_nodes t)) as [|n] eqn:Hn; [destruct t; discriminate Hn|].
    rewrite forest_order_S. reflexivity.
  - apply level_order_nodes.
  - rewrite level_order_nodes. exact Hndn.
Qed.

Lemma TraverseLevelOrder_level_by_level_witness :
  Bvh_TraverseLevelOrder record_node 20 (inserted 4, [])
  = Ok (inserted 4,
        fold_left (visit (fun p acc => acc ++ [p])) (level_order inserted4_tree) [])
  /\ head (level_order inserted4_tree) = Some inserted4_tree
  /\ Permutation (map tree_ptr (level_order inserted4_tree)) (tree_nodes inserted4_tree)
  /\ NoDup (map tree_ptr (level_order inserted4_tree)).
Proof.
  apply (TraverseLevelOrder_level_by_level 20 (inserted 4) inserted4_tree record_node
           (fun p acc => acc ++ [p]) [] inserted4_repr).
  - vm_compute. lia.
  - intros p y _. reflexivity.
Defined.

(** X13.  [BvhFlatMap] of the test suite on the root of a tree, that is
    [Node::TraverseLevelOrderObjects] with a lambda that records ids,
    returns the ids of the objects leaf by leaf, the leaves in level order
    and the objects of a leaf in the order of its list; every object of
    the tree is met exactly once. *)
Theorem BvhFlatMap_level_order (F : nat) (s : State) (t : tree) :
  bvh_repr s (Some t) -> (tree_weight t <= F)%nat ->
  BvhFlatMap F s (root s) = Ok (obj_ids s (level_order_objs t))
  /\ Permutation (level_order_objs t) (tree_objs t)
  /\ NoDup (level_order_objs t)
  /\ length (obj_ids s (level_order_objs t)) = length (tree_objs t).
Proof.
  intros (Hroot & Hs & _ & Hndo) HF. unfold root. rewrite Hroot.
  split; [apply BvhFlatMap_shape; assumption|].
  split; [apply level_order_objs_perm|].
  split; [rewrite level_order_objs_perm; exact Hndo|].
  rewrite <- (Permutation_length (level_order_objs_perm t)).
  assert (Hall : forall o, In o (level_order_objs t) -> is_Some (objects s !! o)).
  { intros o Hin. apply (shape_lookup s t o Hs).
    eapply Permutation_in; [apply level_order_objs_perm | exact Hin]. }
  induction (level_order_objs t) as [|o l IH]; [reflexivity|].
  simpl. destruct (Hall o (or_introl eq_refl)) as [ob ->]. simpl.
  rewrite IH; [reflexivity|]. intros q Hq. apply Hall. right. exact Hq.
Qed.

Lemma BvhFlatMap_level_order_witness :
  BvhFlatMap 20 (inserted 4) (root (inserted 4))
  = Ok (obj_ids (inserted 4) (level_order_objs inserted4_tree))
  /\ Permutation (level_order_objs inserted4_tree) (tree_objs inserted4_tree)
  /\ NoDup (level_order_objs inserted4_tree)
  /\ length (obj_ids (inserted 4) (level_order_objs inserted4_tree))
     = length (tree_objs inserted4_tree).
Proof.
  apply (BvhFlatMap_level_order 20 (inserted 4) inserted4_tree inserted4_repr).
  vm_compute. lia.
Defined.

(** * Depth and size *)

(** X16.  On a tree of at most [INT_MAX] nodes (so that no sum of
    [Size()] overflows), [Size()] is the number of the nodes; it is odd, at
    least [2 * Depth() + 1] and at most [2 ^ (Depth() + 1) - 1]. *)
Theorem Depth_Size_relation (F : nat) (s : State) (t : tree) :
  bvh_repr s (Some t) -> (length (tree_nodes t) <= F)%nat ->
  (Z.of_nat (length (tree_nodes t)) <= INT_MAX)%Z ->
  exists d n,
    Depth F s = Ok d /\ Size F s = Ok n
    /\ n = Z.of_nat (length (tree_nodes t))
    /\ Z.odd n = true
    /\ (0 <= d)%Z /\ (2 * d + 1 <= n <= 2 ^ (d + 1) - 1)%Z.
Proof.
  intros (Hroot & Hs & _) HF Hmax.
  exists (tree_depth t), (tree_size t). unfold Depth, Size. rewrite Hroot.
  split; [apply Node_Depth_shape; assumption|].
  split; [apply Node_Size_shape; [exact Hs | rewrite tree_size_nodes; exact Hmax | exact HF]|].
  split; [apply tree_size_nodes|].
  split; [apply tree_size_odd|].
  split; [apply tree_depth_nonneg | apply tree_size_depth].
Qed.

Lemma Depth_Size_relation_witness :
  exists d n,
    Depth 20 (inserted 4) = Ok d /\ Size 20 (inserted 4) = Ok n
    /\ n = Z.of_nat (length (tree_nodes inserted4_tree))
    /\ Z.odd n = true
    /\ (0 <= d)%Z /\ (2 * d + 1 <= n <= 2 ^ (d + 1) - 1)%Z.
Proof.
  apply (Depth_Size_relation 20 (inserted 4) inserted4_tree inserted4_repr).
  - vm_compute. lia.
  - vm_compute. discriminate.
Defined.

(** * What no call writes *)

(** X14.  No call of [BuildTopDown], [Insert] (of one object or of a
    range) or [Clear] that returns has written the id or the volume of an
    object, whatever the heap was: the builders write the intrusive links
    [bvhInfo] only. *)
Theorem run_api_keeps_ids_and_volumes
    (F : nat) (config : BvhBuildConfig) (c : api_call) (s s' : State) :
  run_api F config c s = Ok s' -> same_payload s s'.
Proof.
  destruct c as [range parentNode|object|range|]; cbn [run_api]; intros H.
  - apply (BuildTopDown_rec_payload _ _ _ _ _ _ _ H).
  - apply (Insert_payload _ _ _ _ _ H).
  - apply (Insert_range_payload _ _ _ _ _ H).
  - apply (Clear_payload _ _ _ H).
Qed.

Lemma run_api_keeps_ids_and_volumes_witness :
  same_payload (inserted 4)
    (run_or (inserted 4)
            (run_api 20 cInsertConfig_manual (AInsert (Some 4%nat)) (inserted 4))).
Proof.
  apply (run_api_keeps_ids_and_volumes 20 cInsertConfig_manual (AInsert (Some 4%nat))).
  vm_compute. reflexivity.
Defined.

(** * [Clear], and building again *)

Lemma TraverseLevelOrder_clear_next :
  forall fuel queue sx sx',
  TraverseLevelOrder_loop lamdaClearNode fuel queue sx = Ok sx' ->
  next_node (fst sx') = next_node (fst sx).
Proof.
  induction fuel as [|fuel IH]; intros queue sx sx' H.
  - destruct queue; simpl in H; [|discriminate H]. injection H as <-. reflexivity.
  - destruct queue as [|front queue]; cbn [TraverseLevelOrder_loop] in H;
      [injection H as <-; reflexivity|].
    apply bindR_Ok in H. destruct H as (n & _ & H). cbv zeta in H.
    apply bindR_Ok in H. destruct H as (sx1 & H1 & H).
    rewrite (IH _ _ _ H).
    unfold lamdaClearNode in H1.
    apply bindR_Ok in H1. destruct H1 as (s1 & E1 & H1).
    injection H1 as <-. cbn [fst].
    apply delete_Node_Ok in E1. destruct E1 as (n1 & _ & ->). reflexivity.
Qed.

(** After [Clear] the tree is empty, no node of the old tree is left, and
    the objects it listed are in no list. *)
Lemma Clear_fresh F s t :
  bvh_repr s (Some t) -> alloc_ok s -> (tree_weight t <= F)%nat ->
  exists s',
    Clear F s = Ok s'
    /\ mRoot s' = None /\ mObjectCount s' = 0%Z /\ alloc_ok s'
    /\ (forall o, In o (tree_objs t) -> unlinked s' o)
    /\ (forall o, ~ In o (tree_objs t) -> objects s' !! o = objects s !! o)
    /\ (forall p, In p (tree_nodes t) -> nodes s' !! p = None).
Proof.
  intros (Hroot & Hs & Hndn & Hndo) Ha HF. unfold Clear. rewrite Hroot.
  unfold Node_TraverseLevelOrderObjects, Node_TraverseLevelOrder.
  unfold tree_weight in HF.
  destruct (TraverseLevelOrderObjects_clear F F [t] s) as (s1 & Hrun1 & Hc1).
  { repeat constructor. exact Hs. }
  { rewrite forest_objs_one. exact Hndo. }
  { rewrite forest_objs_one. lia. }
  { rewrite forest_nodes_one. lia. }
  simpl map in Hrun1. rewrite Hrun1. cbn [bindR].
  destruct Hc1 as (Hn1 & Hnx1 & _ & _ & Hin1 & Hout1).
  destruct (TraverseLevelOrder_clear F [t] s1) as (s2 & Hrun2 & Hobj & Hdel & Hkeep).
  { repeat constructor.
    eapply nshape_frame with (s := s); [|apply shape_nshape; exact Hs].
    intros p _. rewrite Hn1. reflexivity. }
  { rewrite forest_nodes_one. exact Hndn. }
  { rewrite forest_nodes_one. lia. }
  simpl map in Hrun2.
  pose proof (TraverseLevelOrder_clear_next _ _ _ _ Hrun2) as Hnx2.
  cbn [fst] in Hnx2.
  rewrite Hrun2. cbn [bindR fst].
  eexists. split; [reflexivity|].
  split; [reflexivity|]. split; [reflexivity|].
  rewrite forest_objs_one in Hin1, Hout1. rewrite forest_nodes_one in Hdel, Hkeep.
  split; [|split; [|split]].
  - intros q [n Hq]. simpl in Hq |- *. rewrite Hnx2, Hnx1. apply Ha.
    destruct (in_dec Nat.eq_dec q (tree_nodes t)) as [Hin|Hin].
    + rewrite (Hdel q Hin) in Hq. discriminate Hq.
    + rewrite (Hkeep q Hin), Hn1 in Hq. eauto.
  - intros o Hin. unfold unlinked. simpl. rewrite Hobj. specialize (Hin1 o Hin).
    destruct (objects s1 !! o) as [ob|]; [|discriminate Hin1].
    simpl in Hin1. injection Hin1 as Hin1.
    exists ob. split; [reflexivity|]. rewrite Hin1. reflexivity.
  - intros o Hin. simpl. rewrite Hobj. apply Hout1. exact Hin.
  - intros p Hin. simpl. apply Hdel. exact Hin.
Qed.

(** X15.  [Clear] on a tree leaves the tree [Empty()], and the objects it
    listed can be built into a tree again: [BuildTopDown] and [Insert]
    over objects that were in the old tree or in no list (distinct,
    [minObjects >= 1], fuel for the loops) return and give a tree that
    keeps containment and lists every one of them exactly once. *)
Theorem Clear_then_rebuild
    (F : nat) (config : BvhBuildConfig) (s : State) (t : tree) (range os : list optr) :
  (1 <= minObjects config)%Z -> (0 <= maxDepth config)%Z ->
  bvh_repr s (Some t) -> alloc_ok s -> (tree_weight t <= F)%nat ->
  NoDup (range ++ os) ->
  Forall (fun o => In o (tree_objs t) \/ unlinked s o) (range ++ os) ->
  (3 * length (range ++ os) <= F)%nat -> (Z.of_nat F <= 4294967296)%Z ->
  (Z.of_nat (2 * length (range ++ os)) <= INT_MAX)%Z ->
  exists s1 s',
    Clear F s = Ok s1 /\ Empty s1 = true
    /\ run_calls F config
         (CBuildTopDown (map Some range) :: map (fun o => CInsert (Some o)) os) s1 = Ok s'
    /\ bvh_invariants s' (range ++ os).
Proof.
  intros Hmin Hmd Hr Ha HFt Hnd Hun HF HF32 Hmax.
  destruct (Clear_fresh F s t Hr Ha HFt)
    as (s1 & Hrun1 & Hroot1 & Hcnt1 & Ha1 & Hin1 & Hout1 & _).
  assert (Hun1 : Forall (unlinked s1) (range ++ os)).
  { eapply Forall_impl; [exact Hun|]. intros o [Hin|Hu]; [apply Hin1; exact Hin|].
    destruct (in_dec Nat.eq_dec o (tree_objs t)) as [Hin|Hin]; [apply Hin1; exact Hin|].
    apply (unlinked_same s); [apply Hout1; exact Hin | exact Hu]. }
  destruct (build_insert_well F config s1 range os Hmin Hmd Hroot1 Ha1 Hnd Hun1 HF HF32 Hmax)
    as (s' & ot & Hrun & Hrepr & Hc & _ & _ & Hperm & _).
  exists s1, s'. split; [exact Hrun1|].
  split; [unfold Empty; rewrite Hroot1, Hcnt1; reflexivity|].
  split; [exact Hrun|]. exists ot. auto.
Qed.

Lemma Clear_then_rebuild_witness :
  exists s1 s',
    Clear 20 (inserted 4) = Ok s1 /\ Empty s1 = true
    /\ run_calls 20 cInsertConfig_manual
         (CBuildTopDown (map Some [0; 1; 2]%nat)
          :: map (fun o => CInsert (Some o)) [3; 4]%nat) s1 = Ok s'
    /\ bvh_invariants s' ([0; 1; 2] ++ [3; 4])%nat.
Proof.
  apply (Clear_then_rebuild 20 cInsertConfig_manual (inserted 4) inserted4_tree
           [0; 1; 2]%nat [3; 4]%nat).
  - vm_compute. discriminate.
  - vm_compute. discriminate.
  - exact inserted4_repr.
  - exact inserted4_alloc_ok.
  - vm_compute. lia.
  - exact five_boxes_NoDup.
  - do 4 (apply List.Forall_cons; [left; vm_compute; tauto|]).
    apply List.Forall_cons; [|apply List.Forall_nil].
    right. eexists. split; [vm_compute; reflexivity | reflexivity].
  - simpl. lia.
  - simpl. lia.
  - vm_compute. discriminate.
Defined.

(** * [Query] with any classifier *)

Section QueryAny.

Context {Frustum : Type}.
Variable classify : Frustum -> Aabb -> SideResult.

(** The objects of a leaf that the object loop reports. *)
Lemma brute_force_visible_sub f s os :
  exists os', brute_force_visible classify f s os = obj_ids s os' /\ os' ⊆+ os.
Proof.
  induction os as [|o os (os' & IH & Hsub)]; [exists []; split; reflexivity|].
  simpl. destruct (objects s !! o) as [ob|] eqn:Hob.
  - destruct (SideResult_eqb _ _).
    + exists os'. split; [exact IH|]. apply submseteq_cons. exact Hsub.
    + exists (o :: os'). split; [simpl; rewrite Hob, IH; reflexivity|].
      apply submseteq_skip. exact Hsub.
  - exists os'. split; [exact IH|]. apply submseteq_cons. exact Hsub.
Qed.

(** The walk of an [eINSIDE] node reports what is below it. *)
Lemma retrieve_level_order F s t ids :
  shape s t -> (tree_weight t <= F)%nat ->
  Node_TraverseLevelOrderObjects retrieveIds F (tree_ptr t) (s, ids)
  = Ok (s, ids ++ obj_ids s (level_order_objs t)).
Proof.
  intros Hs HF.
  rewrite (Node_TraverseLevelOrderObjects_pure s t retrieveIds
             (fun o ids => ids ++ obj_ids s [o]) F ids Hs); [| |exact HF].
  - rewrite fold_left_ids. reflexivity.
  - intros o y Hin. apply retrieveIds_pure.
    destruct (shape_lookup s t o Hs Hin) as [ob Hob]. rewrite Hob. eauto.
Qed.

(** The loop of [Query] on a stack of trees: it returns, and what it
    reports are objects of these trees, each at most once. *)
Lemma Query_loop_sound f s F :
  forall fuel stack ids,
  Forall (shape s) stack ->
  Forall (fun t => (tree_weight t <= F)%nat) stack ->
  (length (forest_nodes stack) <= fuel)%nat ->
  exists os',
    Query_loop classify F fuel f s (map (fun t => Some (tree_ptr t)) stack) ids
    = Ok (ids ++ obj_ids s os')
    /\ os' ⊆+ forest_objs stack.
Proof.
  induction fuel as [|fuel IH]; intros stack ids Hs HF Hfuel.
  - destruct stack as [|t stack].
    + exists []. simpl. rewrite app_nil_r. split; reflexivity.
    + rewrite forest_nodes_cons, length_app in Hfuel.
      destruct t; simpl in Hfuel; lia.
  - destruct stack as [|t stack].
    + exists []. simpl. rewrite app_nil_r. split; reflexivity.
    + inversion Hs as [|? ? Ht Hs']; inversion HF as [|? ? HFt HF']; subst.
      rewrite forest_nodes_cons, length_app in Hfuel.
      assert (Hlen : (1 <= length (tree_nodes t))%nat) by (destruct t; simpl; lia).
      destruct (shape_root s t Ht) as (n & Hn & Hbv).
      cbn [map Query_loop]. rewrite (get_node_Some _ _ _ Hn). cbn [bindR].
      rewrite Hbv. rewrite forest_objs_cons.
      destruct (classify f (tree_bv t)) eqn:Hcl.
      * rewrite (retrieve_level_order F s t ids Ht HFt). cbn [bindR snd].
        destruct (IH stack (ids ++ obj_ids s (level_order_objs t)) Hs' HF')
          as (os' & Hrun & Hsub); [lia|].
        exists (level_order_objs t ++ os'). split.
        -- rewrite Hrun, obj_ids_app, app_assoc. reflexivity.
        -- apply submseteq_app; [|exact Hsub].
           apply Permutation_submseteq. apply level_order_objs_perm.
      * destruct t as [p b os | p b l r].
        -- simpl in Ht. destruct Ht as [Hp Hl]. simpl in Hn. rewrite Hp in Hn.
           injection Hn as <-. rewrite IsLeaf_leaf. cbn [firstObject].
           rewrite (Query_leaf_spec classify f s p os None F ids Hl)
             by (unfold tree_weight in HFt; simpl in HFt; lia).
           cbn [bindR].
           destruct (brute_force_visible_sub f s os) as (os1 & -> & Hsub1).
           destruct (IH stack (ids ++ obj_ids s os1) Hs' HF') as (os' & Hrun & Hsub);
             [simpl in Hfuel; lia|].
           exists (os1 ++ os'). split.
           ++ rewrite Hrun, obj_ids_app, app_assoc. reflexivity.
           ++ simpl. apply submseteq_app; assumption.
        -- simpl in Ht. destruct Ht as (Hp & Hl & Hr). simpl in Hn. rewrite Hp in Hn.
           injection Hn as <-.
           unfold IsLeaf, child. cbn [children fst snd Z.eqb].
           change (Some (tree_ptr r) :: Some (tree_ptr l)
                     :: map (fun t => Some (tree_ptr t)) stack)
             with (map (fun t => Some (tree_ptr t)) (r :: l :: stack)).
           destruct (IH (r :: l :: stack) ids) as (os' & Hrun & Hsub).
           ++ repeat constructor; assumption.
           ++ unfold tree_weight in *. simpl in HFt. rewrite !length_app in HFt.
              repeat constructor; try lia. exact HF'.
           ++ rewrite !forest_nodes_cons, !length_app. simpl in Hfuel.
              rewrite length_app in Hfuel. lia.
           ++ exists os'. split; [exact Hrun|].
              etransitivity; [exact Hsub|]. apply Permutation_submseteq.
              rewrite !forest_objs_cons. simpl. rewrite !app_assoc.
              apply Permutation_app_tail. apply Permutation_app_comm.
      * destruct (IH stack ids Hs' HF') as (os' & Hrun & Hsub); [lia|].
        exists os'. split; [exact Hrun|].
        apply submseteq_app_r. exists [], os'. split; [reflexivity|].
        split; [apply submseteq_nil_l | exact Hsub].
Qed.

(** X17.  On a tree, whatever the classifier answers and whether or not
    the boxes enclose what is below them, [Query] returns; it reports
    objects of the tree only and no object twice.  When the box of the
    root is [eOUTSIDE] it reports nothing; when it is [eINSIDE] it reports
    every object, in the order of the level-order walk, without looking
    at the objects. *)
Theorem Query_reports_tree_objects_once
    (F : nat) (frustum : Frustum) (s : State) (t : tree) :
  bvh_repr s (Some t) -> (tree_weight t < F)%nat ->
  exists os',
    Query classify F frustum s = Ok (obj_ids s os')
    /\ NoDup os' /\ (forall o, In o os' -> In o (tree_objs t))
    /\ (classify frustum (tree_bv t) = eOUTSIDE -> os' = [])
    /\ (classify frustum (tree_bv t) = eINSIDE -> os' = level_order_objs t).
Proof.
  intros (Hroot & Hs & _ & Hndo) HF. unfold Query. rewrite Hroot.
  destruct (shape_root s t Hs) as (n & Hn & Hbv).
  destruct (classify frustum (tree_bv t)) eqn:Hcl.
  - exists (level_order_objs t).
    destruct F as [|F']; [lia|]. cbn [Query_loop].
    rewrite (get_node_Some _ _ _ Hn). cbn [bindR]. rewrite Hbv, Hcl.
    rewrite (retrieve_level_order (S F') s t [] Hs) by lia. cbn [bindR snd app].
    split; [destruct F'; reflexivity|].
    split; [rewrite level_order_objs_perm; exact Hndo|].
    split; [|split; [discriminate | reflexivity]].
    intros o Hin. eapply Permutation_in; [apply level_order_objs_perm | exact Hin].
  - destruct (Query_loop_sound frustum s F F [t] []) as (os' & Hrun & Hsub).
    + repeat constructor. exact Hs.
    + repeat constructor. lia.
    + rewrite forest_nodes_one. unfold tree_weight in HF. lia.
    + rewrite forest_objs_one in Hsub. exists os'.
      split; [exact Hrun|].
      split.
      { destruct (submseteq_Permutation _ _ Hsub) as (k & Hk).
        rewrite Hk in Hndo. apply NoDup_app in Hndo. tauto. }
      split; [|split; discriminate].
      intros o Hin. apply list_elem_of_In. apply list_elem_of_In in Hin.
      apply (elem_of_submseteq _ _ _ Hin Hsub).
  - exists []. destruct F as [|F']; [lia|]. cbn [Query_loop].
    rewrite (get_node_Some _ _ _ Hn). cbn [bindR]. rewrite Hbv, Hcl.
    split; [destruct F'; reflexivity|].
    split; [constructor|]. split; [intros o []|]. split; [reflexivity | discriminate].
Qed.

End QueryAny.

Lemma Query_reports_tree_objects_once_witness :
  exists os',
    Query classify_planes 20 (x_slab 0 11) (inserted 4) = Ok (obj_ids (inserted 4) os')
    /\ NoDup os' /\ (forall o, In o os' -> In o (tree_objs inserted4_tree))
    /\ (classify_planes (x_slab 0 11) (tree_bv inserted4_tree) = eOUTSIDE -> os' = [])
    /\ (classify_planes (x_slab 0 11) (tree_bv inserted4_tree) = eINSIDE
        -> os' = level_order_objs inserted4_tree).
Proof.
  apply (Query_reports_tree_objects_once classify_planes 20 (x_slab 0 11) (inserted 4)
           inserted4_tree inserted4_repr).
  vm_compute. lia.
Defined.

(** * The nodes that [QueryDebug] tests *)

Lemma tree_nodes_hd t : tree_nodes t = tree_ptr t :: tl (tree_nodes t).
Proof. destruct t; reflexivity. Qed.

(** Two children and some of the nodes below them. *)
Lemma tested_pair (pl pr : nptr) (A B X : list nptr) :
  X ⊆+ A ++ B -> pl :: pr :: X ⊆+ (pl :: A) ++ (pr :: B).
Proof.
  intros H. etransitivity; [apply submseteq_skip, submseteq_skip; exact H|].
  apply Permutation_submseteq. simpl. apply perm_skip. apply Permutation_middle.
Qed.

Section RayTested.

Context {Ray : Type}.
Variable intersect : Ray -> Aabb -> Q.
Variable ray : Ray.

(** The object loop of a leaf tests no node. *)
Lemma QueryNodesRay_leaf_tested co s leaf :
  forall os pv F nst l,
  olist s leaf pv os -> (length os <= F)%nat ->
  exists r,
    QueryNodesRay_leaf intersect F ray co s (head os) nst l = Ok r
    /\ debug_tested_nodes (snd r) = debug_tested_nodes l.
Proof.
  induction os as [|o os IH]; intros pv F nst l Hol HF.
  - exists (nst, l). split; [destruct F; reflexivity | reflexivity].
  - destruct Hol as [Ho Hrest]. destruct F as [|F]; [simpl in HF; lia|].
    cbn [head QueryNodesRay_leaf].
    destruct (objects s !! o) as [ob|] eqn:Hob; [|discriminate Ho].
    rewrite (get_obj_Some s o ob Hob). cbn [bindR].
    simpl in Ho. injection Ho as Ho. rewrite Ho. cbn [next]. simpl in HF.
    destruct (Qle_bool 0 (intersect ray (obj_bv ob))).
    + match goal with
      | |- exists r, QueryNodesRay_leaf _ _ _ _ _ _ ?n ?l' = _ /\ _ =>
          destruct (IH (Some o) F n l' Hrest) as (r & Hrun & Ht); [lia|]
      end.
      exists r. split; [exact Hrun|]. rewrite Ht.
      destruct (Qltb _ (bvhShortestTime l)); reflexivity.
    + destruct (IH (Some o) F nst l Hrest) as (r & Hrun & Ht); [lia|].
      exists r. split; assumption.
Qed.

(** The recursive lambda on a tree: it returns, and the nodes it adds to
    [debug_tested_nodes] are nodes below the root of the tree, none twice. *)
Lemma QueryNodesRay_tested co s F :
  forall fuel t l,
  shape s t ->
  (length (tree_nodes t) <= fuel)%nat -> (length (tree_objs t) <= F)%nat ->
  exists r tested,
    QueryNodesRay intersect F fuel ray co s (Some (tree_ptr t)) l = Ok r
    /\ debug_tested_nodes (snd r) = debug_tested_nodes l ++ tested
    /\ tested ⊆+ tl (tree_nodes t).
Proof.
  induction fuel as [|fuel IH]; intros t l Hs Hfuel HF.
  { destruct t; simpl in Hfuel; lia. }
  destruct t as [p b os|p b tl tr]; cbn [tree_ptr QueryNodesRay].
  - destruct Hs as [Hp Hol]. rewrite (get_node_Some s p _ Hp). cbn [bindR].
    rewrite IsLeaf_leaf. cbn [firstObject].
    destruct (QueryNodesRay_leaf_tested co s p os None F FLT_MAX l Hol HF)
      as (r & Hrun & Ht).
    exists r, []. split; [exact Hrun|]. rewrite app_nil_r. split; [exact Ht|].
    reflexivity.
  - destruct Hs as (Hp & Hsl & Hsr). rewrite (get_node_Some s p _ Hp). cbn [bindR].
    unfold IsLeaf, child. cbn [children fst snd Z.eqb].
    rewrite (test_child_shape intersect ray s tl l Hsl). cbn [bindR snd fst].
    rewrite (test_child_shape intersect ray s tr _ Hsr). cbn [bindR snd fst].
    simpl in Hfuel, HF. rewrite length_app in Hfuel, HF.
    set (l2 := push_tested (tree_ptr tr) (push_tested (tree_ptr tl) l)).
    assert (Hl2 : debug_tested_nodes l2
                  = debug_tested_nodes l ++ [tree_ptr tl; tree_ptr tr]).
    { unfold l2, push_tested. cbn [debug_tested_nodes]. rewrite <- app_assoc. reflexivity. }
    cbn [tree_nodes List.tl]. rewrite (tree_nodes_hd tl), (tree_nodes_hd tr).
    assert (Hleft : forall l0,
      exists r tested,
        QueryNodesRay intersect F fuel ray co s (Some (tree_ptr tl)) l0 = Ok r
        /\ debug_tested_nodes (snd r) = debug_tested_nodes l0 ++ tested
        /\ tested ⊆+ List.tl (tree_nodes tl)).
    { intros l0. apply IH; [exact Hsl | lia | lia]. }
    assert (Hright : forall l0,
      exists r tested,
        QueryNodesRay intersect F fuel ray co s (Some (tree_ptr tr)) l0 = Ok r
        /\ debug_tested_nodes (snd r) = debug_tested_nodes l0 ++ tested
        /\ tested ⊆+ List.tl (tree_nodes tr)).
    { intros l0. apply IH; [exact Hsr | lia | lia]. }
    assert (Hnone : [tree_ptr tl; tree_ptr tr]
                    ⊆+ (tree_ptr tl :: List.tl (tree_nodes tl))
                       ++ tree_ptr tr :: List.tl (tree_nodes tr)).
    { apply tested_pair. apply submseteq_nil_l. }
    assert (Honly_l : forall a, a ⊆+ List.tl (tree_nodes tl) ->
                      tree_ptr tl :: tree_ptr tr :: a
                      ⊆+ (tree_ptr tl :: List.tl (tree_nodes tl))
                         ++ tree_ptr tr :: List.tl (tree_nodes tr)).
    { intros a Ha. apply tested_pair. etransitivity; [exact Ha|].
      apply submseteq_inserts_r. reflexivity. }
    assert (Honly_r : forall a, a ⊆+ List.tl (tree_nodes tr) ->
                      tree_ptr tl :: tree_ptr tr :: a
                      ⊆+ (tree_ptr tl :: List.tl (tree_nodes tl))
                         ++ tree_ptr tr :: List.tl (tree_nodes tr)).
    { intros a Ha. apply tested_pair. etransitivity; [exact Ha|].
      apply submseteq_inserts_l. reflexivity. }
    destruct (Qltb (intersect ray (tree_bv tl)) 0 && Qltb (intersect ray (tree_bv tr)) 0).
    { eexists _, _. split; [reflexivity|]. cbn [snd]. split; [exact Hl2 | exact Hnone]. }
    destruct (Qle_bool 0 (intersect ray (tree_bv tl))
              && Qle_bool 0 (intersect ray (tree_bv tr))).
    + destruct (Qltb (intersect ray (tree_bv tl)) (intersect ray (tree_bv tr))).
      * destruct (Hleft l2) as (r1 & t1 & Hrun1 & Ht1 & Hsub1).
        rewrite Hrun1. cbn [bindR].
        destruct (negb co || Qltb (fst r1) 0 || Qltb (intersect ray (tree_bv tr)) (fst r1)).
        -- destruct (Hright (snd r1)) as (r2 & t2 & Hrun2 & Ht2 & Hsub2).
           rewrite Hrun2. cbn [bindR].
           eexists _, ([tree_ptr tl; tree_ptr tr] ++ t1 ++ t2).
           split; [reflexivity|]. cbn [snd]. split.
           ++ rewrite Ht2, Ht1, Hl2, <- !app_assoc. reflexivity.
           ++ apply tested_pair. apply submseteq_app; assumption.
        -- exists r1, ([tree_ptr tl; tree_ptr tr] ++ t1). split; [reflexivity|]. split.
           ++ rewrite Ht1, Hl2, <- !app_assoc. reflexivity.
           ++ apply Honly_l. exact Hsub1.
      * destruct (Hright l2) as (r1 & t1 & Hrun1 & Ht1 & Hsub1).
        rewrite Hrun1. cbn [bindR].
        destruct (negb co || Qltb (fst r1) 0 || Qltb (intersect ray (tree_bv tl)) (fst r1)).
        -- destruct (Hleft (snd r1)) as (r2 & t2 & Hrun2 & Ht2 & Hsub2).
           rewrite Hrun2. cbn [bindR].
           eexists _, ([tree_ptr tl; tree_ptr tr] ++ t1 ++ t2).
           split; [reflexivity|]. cbn [snd]. split.
           ++ rewrite Ht2, Ht1, Hl2, <- !app_assoc. reflexivity.
           ++ apply tested_pair. rewrite (Permutation_app_comm t1 t2).
              apply submseteq_app; assumption.
        -- exists r1, ([tree_ptr tl; tree_ptr tr] ++ t1). split; [reflexivity|]. split.
           ++ rewrite Ht1, Hl2, <- !app_assoc. reflexivity.
           ++ apply Honly_r. exact Hsub1.
    + destruct (Qle_bool 0 (intersect ray (tree_bv tl))).
      * destruct (Hleft l2) as (r1 & t1 & Hrun1 & Ht1 & Hsub1).
        exists r1, ([tree_ptr tl; tree_ptr tr] ++ t1). split; [exact Hrun1|]. split.
        -- rewrite Ht1, Hl2, <- !app_assoc. reflexivity.
        -- apply Honly_l. exact Hsub1.
      * destruct (Qle_bool 0 (intersect ray (tree_bv tr))).
        -- destruct (Hright l2) as (r1 & t1 & Hrun1 & Ht1 & Hsub1).
           exists r1, ([tree_ptr tl; tree_ptr tr] ++ t1). split; [exact Hrun1|]. split.
           ++ rewrite Ht1, Hl2, <- !app_assoc. reflexivity.
           ++ apply Honly_r. exact Hsub1.
        -- eexists _, _. split; [reflexivity|]. cbn [snd].
           split; [exact Hl2 | exact Hnone].
Qed.

(** X18.  On a tree, whatever the intersection test answers, [QueryDebug]
    returns in both modes; [debug_tested_nodes] starts with the root and
    holds nodes of the tree only, none of them twice.  When the ray
    misses the box of the root, the root is the only node tested, nothing
    is returned and no object is recorded. *)
Theorem QueryDebug_tested_nodes (co : bool) (F : nat) (s : State) (t : tree) :
  bvh_repr s (Some t) -> (tree_weight t <= F)%nat ->
  exists res hits tested,
    QueryDebug intersect F ray co s = Ok (res, hits, tree_ptr t :: tested)
    /\ NoDup (tree_ptr t :: tested)
    /\ (forall p, In p tested -> In p (tree_nodes t))
    /\ ((intersect ray (tree_bv t) < 0)%Q -> res = None /\ hits = [] /\ tested = []).
Proof.
  intros (Hroot & Hs & Hndn & _) HF. unfold QueryDebug. rewrite Hroot.
  destruct (shape_root s t Hs) as (rn & Hrn & Hbv).
  rewrite (get_node_Some s _ rn Hrn). cbn [bindR]. rewrite Hbv.
  set (l0 := mkRayLocals (-1) FLT_MAX [] [tree_ptr t]).
  unfold tree_weight in HF.
  assert (Hfinal : exists l tested,
    (if Qle_bool 0 (intersect ray (tree_bv t))
     then x <- QueryNodesRay intersect F F ray co s (Some (tree_ptr t)) l0 ;; Ok (snd x)
     else Ok l0) = Ok l
    /\ debug_tested_nodes l = tree_ptr t :: tested
    /\ tested ⊆+ tl (tree_nodes t)
    /\ ((intersect ray (tree_bv t) < 0)%Q -> l = l0 /\ tested = [])).
  { destruct (Qle_bool 0 (intersect ray (tree_bv t))) eqn:Eroot.
    - destruct (QueryNodesRay_tested co s F F t l0 Hs) as (r & tested & Hrun & Ht & Hsub);
        [lia | lia |].
      rewrite Hrun. cbn [bindR]. exists (snd r), tested. split; [reflexivity|].
      split; [exact Ht|]. split; [exact Hsub|].
      intros Hlt. exfalso. apply Qle_bool_iff in Eroot.
      apply (Qlt_not_le _ _ Hlt Eroot).
    - exists l0, []. split; [reflexivity|]. split; [reflexivity|].
      split; [apply submseteq_nil_l | auto]. }
  destruct Hfinal as (l & tested & -> & Ht & Hsub & Hmiss). cbn [bindR].
  assert (Hnd : NoDup (tree_ptr t :: tested)).
  { assert (Hall : tree_ptr t :: tested ⊆+ tree_nodes t).
    { rewrite (tree_nodes_hd t). apply submseteq_skip. exact Hsub. }
    destruct (submseteq_Permutation _ _ Hall) as (k & Hk).
    rewrite Hk in Hndn. apply NoDup_app in Hndn. tauto. }
  assert (Hin : forall p, In p tested -> In p (tree_nodes t)).
  { intros p Hp. rewrite (tree_nodes_hd t). right.
    apply list_elem_of_In. apply list_elem_of_In in Hp.
    apply (elem_of_submseteq _ _ _ Hp Hsub). }
  destruct (closestIntersect l <? 0)%Z eqn:Ec.
  - eexists _, _, tested. rewrite Ht. split; [reflexivity|].
    split; [exact Hnd|]. split; [exact Hin|].
    intros Hlt. destruct (Hmiss Hlt) as (-> & ->). auto.
  - eexists _, _, tested. rewrite Ht. split; [reflexivity|].
    split; [exact Hnd|]. split; [exact Hin|].
    intros Hlt. destruct (Hmiss Hlt) as (-> & ->). discriminate Ec.
Qed.

End RayTested.

Lemma QueryDebug_tested_nodes_witness :
  exists res hits tested,
    QueryDebug ray_intersect 20 along_x true (inserted 4)
    = Ok (res, hits, tree_ptr inserted4_tree :: tested)
    /\ NoDup (tree_ptr inserted4_tree :: tested)
    /\ (forall p, In p tested -> In p (tree_nodes inserted4_tree))
    /\ ((ray_intersect along_x (tree_bv inserted4_tree) < 0)%Q
        -> res = None /\ hits = [] /\ tested = []).
Proof.
  apply (QueryDebug_tested_nodes ray_intersect along_x true 20 (inserted 4)
           inserted4_tree inserted4_repr).
  vm_compute. lia.
Defined.

(** * [Node::ObjectCount] *)


